(** * dav1d: bit reader, block parser and partition walker

    A shallow embedding of [src/getbits.c] and of the block-decision core of
    [src/decode.c], with the properties of the parsing core stated over it.

    Conventions.  C integers are values of [Z]; every place where the C type
    narrows a value (an assignment to a [uint8_t] field, an [int] result of an
    unsigned expression, a 64-bit shift register) carries its wrap-around
    explicitly through [u8], [i8], [u16], [u32], [s32] and [u64].  Arrays are
    lists read and written by index.  Code of the repository that is not part
    of the two files (the range coder, the tables, the reconstruction hooks)
    is taken as a parameter of the section that uses it. *)

From Stdlib Require Import ZArith Lia List Bool String.
From stdpp Require Import base numbers list sorting.
Import ListNotations.

Local Open Scope Z_scope.

(** ** Machine integers *)

Module Int.

Definition u8 (x : Z) : Z := x mod 2 ^ 8.
Definition u16 (x : Z) : Z := x mod 2 ^ 16.
Definition u32 (x : Z) : Z := x mod 2 ^ 32.
Definition u64 (x : Z) : Z := x mod 2 ^ 64.
Definition i8 (x : Z) : Z := (x + 2 ^ 7) mod 2 ^ 8 - 2 ^ 7.
Definition s32 (x : Z) : Z := (x + 2 ^ 31) mod 2 ^ 32 - 2 ^ 31.

(** C truth values. *)
Definition of_bool (b : bool) : Z := if b then 1 else 0.
Definition truthy (x : Z) : bool := negb (x =? 0).
Definition lnot (x : Z) : Z := if x =? 0 then 1 else 0.

(** [common/intops.h]: the helpers used by the two files. *)
Definition imin (a b : Z) : Z := if a <? b then a else b.
Definition imax (a b : Z) : Z := if a >? b then a else b.
Definition iclip (v lo hi : Z) : Z := if v <? lo then lo else if v >? hi then hi else v.
Definition iclip_u8 (v : Z) : Z := iclip v 0 255.
(** Index of the highest set bit ([31 ^ clz(v)]). *)
Definition ulog2 (v : Z) : Z := Z.log2 v.

Lemma u8_range x : 0 <= u8 x < 256.
Proof. unfold u8. apply Z.mod_pos_bound. lia. Qed.

Lemma u8_idem x : u8 (u8 x) = u8 x.
Proof. unfold u8. apply Z.mod_mod. lia. Qed.

Lemma u8_small x : 0 <= x < 256 -> u8 x = x.
Proof. intros H. unfold u8. apply Z.mod_small. lia. Qed.

Lemma i8_range x : -128 <= i8 x < 128.
Proof. unfold i8. pose proof (Z.mod_pos_bound (x + 2 ^ 7) (2 ^ 8)). lia. Qed.

Lemma i8_small x : -128 <= x < 128 -> i8 x = x.
Proof. intros H. unfold i8. rewrite Z.mod_small; lia. Qed.

Lemma i8_idem x : i8 (i8 x) = i8 x.
Proof. apply i8_small, i8_range. Qed.

Lemma u32_range x : 0 <= u32 x < 2 ^ 32.
Proof. unfold u32. apply Z.mod_pos_bound. lia. Qed.

Lemma u32_small x : 0 <= x < 2 ^ 32 -> u32 x = x.
Proof. intros H. unfold u32. apply Z.mod_small. lia. Qed.

Lemma s32_small x : - 2 ^ 31 <= x < 2 ^ 31 -> s32 x = x.
Proof. intros H. unfold s32. rewrite Z.mod_small; lia. Qed.

Lemma u64_range x : 0 <= u64 x < 2 ^ 64.
Proof. unfold u64. apply Z.mod_pos_bound. lia. Qed.

Lemma iclip_range v lo hi : lo <= hi -> lo <= iclip v lo hi <= hi.
Proof.
  intros H. unfold iclip.
  destruct (Z.ltb_spec v lo); [lia|].
  destruct (Z.gtb_spec v hi); lia.
Qed.

End Int.
Import Int.

Arguments u8 : simpl never.
Arguments i8 : simpl never.
Arguments u16 : simpl never.
Arguments u32 : simpl never.
Arguments s32 : simpl never.
Arguments u64 : simpl never.
Arguments iclip : simpl never.
Arguments imin : simpl never.
Arguments imax : simpl never.

(** ** [src/getbits.c]: the bit reader

    [ptr_start .. ptr_end] is the byte list [data]; [ptr] is an index into
    it.  Shifts are computed on unbounded integers and the result is wrapped
    to the C type that receives it: reading zero bits ([state >> 64]) yields
    zero, and [1 << l] in [int] is [s32 (2 ^ l)]. *)

Module GetBits.

Record t : Type := mk {
  error : Z;
  eof : Z;
  state : Z;      (* uint64_t *)
  bits_left : Z;  (* unsigned *)
  ptr : nat;
  data : list Z   (* uint8_t[] *)
}.

Definition init_get_bits (data : list Z) : t :=
  {| error := 0; eof := 0; state := 0; bits_left := 0; ptr := 0%nat; data := data |}.

(** [*c->ptr]: a [uint8_t] load; past the end of the buffer the model reads 0. *)
Definition load (c : t) : Z := u8 (nth (ptr c) (data c) 0).

(** One pass through the body of the [do ... while] of [refill]: returns the
    reader and the local [state]. *)
Definition refill_body (c : t) (st : Z) : t * Z :=
  let st := u64 (Z.shiftl st 8) in
  let c := mk (error c) (eof c) (state c) (u32 (bits_left c + 8)) (ptr c) (data c) in
  let '(c, st) :=
    if eof c =? 0
    then (mk (error c) (eof c) (state c) (bits_left c) (S (ptr c)) (data c),
          Z.lor st (load c))
    else (c, st) in
  let c :=
    if (length (data c) <=? ptr c)%nat
    then mk (eof c) 1 (state c) (bits_left c) (ptr c) (data c)
    else c in
  (c, st).

(** The loop runs while [n > c->bits_left]; [bits_left] grows by 8 on every
    pass, so [fuel] passes are enough as soon as [n <= 8 * fuel]. *)
Fixpoint refill_loop (fuel : nat) (n : Z) (c : t) (st : Z) : t * Z :=
  let '(c, st) := refill_body c st in
  match fuel with
  | O => (c, st)
  | S fuel' => if n >? bits_left c then refill_loop fuel' n c st else (c, st)
  end.

Definition refill (c : t) (n : Z) : t :=
  let '(c, st) := refill_loop (Z.to_nat n) n c 0 in
  mk (error c) (eof c)
     (Z.lor (state c) (u64 (Z.shiftl st (64 - bits_left c))))
     (bits_left c) (ptr c) (data c).

Definition get_bits (c : t) (n : Z) : Z * t :=
  let c := if n >? bits_left c then refill c n else c in
  let st := state c in
  let c := mk (error c) (eof c) (u64 (Z.shiftl st n)) (u32 (bits_left c - n))
              (ptr c) (data c) in
  (u32 (Z.shiftr st (64 - n)), c).

Definition get_uniform (c : t) (n : Z) : Z * t :=
  let l := ulog2 n + 1 in
  let m := s32 (u32 (s32 (Z.shiftl 1 l)) - n) in
  let '(v, c) := get_bits c (l - 1) in
  let v := s32 v in
  if v <? m then (u32 v, c)
  else
    let '(b, c) := get_bits c 1 in
    (u32 (s32 (s32 (Z.shiftl v 1) - m) + b), c).

(** [shift = 31 - n] is computed in [unsigned] and stored in an [int]; the
    left shift is an [unsigned] one whose result is stored in an [int], the
    right shift is the arithmetic shift of that [int]. *)
Definition get_sbits (c : t) (n : Z) : Z * t :=
  let shift := s32 (u32 (31 - n)) in
  let '(v, c) := get_bits c (u32 (n + 1)) in
  let res := s32 (u32 (Z.shiftl v shift)) in
  (Z.shiftr res shift, c).

(** The [while (!get_bits(c, 1)) n_bits++] of [get_vlc]: one pass per unit
    of [fuel]; [None] when the fuel runs out before a set bit is read. *)
Fixpoint get_vlc_zeros (fuel : nat) (c : t) (n_bits : Z) : option (Z * t) :=
  match fuel with
  | O => None
  | S fuel' =>
      let '(b, c) := get_bits c 1 in
      if b =? 0 then get_vlc_zeros fuel' c (s32 (n_bits + 1)) else Some (n_bits, c)
  end.

Definition get_vlc (fuel : nat) (c : t) : option (Z * t) :=
  match get_vlc_zeros fuel c 0 with
  | None => None
  | Some (n_bits, c) =>
      if n_bits >=? 32 then Some (4294967295, c)
      else
        let '(v, c) := get_bits c (u32 n_bits) in
        Some (u32 (s32 (s32 (Z.shiftl 1 n_bits) - 1) + v), c)
  end.

(** Returns [c->ptr], as an index into [data]. *)
Definition flush_get_bits (c : t) : nat * t :=
  (ptr c, mk (error c) (eof c) 0 0 (ptr c) (data c)).

End GetBits.

(** The two-step uniform codebook over [0, N) as the specification words it:
    [l = ceil(log2 N)], a first stage of [l - 1] bits, and a second bit when
    the first stage is not below [(1 << l) - N].  Bits are written most
    significant first through [put_bits]; [flush_put_bits] pads the last byte
    with zero bits. *)
Module PutBits.

Record t : Type := mk { acc : Z; nbits : Z }.

Definition empty : t := mk 0 0.

Definition put_bits (w : t) (n v : Z) : t :=
  if n <=? 0 then w else mk (acc w * 2 ^ n + v mod 2 ^ n) (nbits w + n).

Fixpoint bytes_be (k : nat) (x : Z) : list Z :=
  match k with
  | O => []
  | S k' => (x / 2 ^ (8 * Z.of_nat k')) mod 256 :: bytes_be k' x
  end.

Definition flush_put_bits (w : t) : list Z :=
  let nbytes := (nbits w + 7) / 8 in
  bytes_be (Z.to_nat nbytes) (acc w * 2 ^ (8 * nbytes - nbits w)).

Definition put_uniform (w : t) (n v : Z) : t :=
  let l := Z.log2_up n in
  let m := 2 ^ l - n in
  if v <? m then put_bits w (l - 1) v
  else put_bits (put_bits w (l - 1) (Z.shiftr (v + m) 1)) 1 (Z.land (v + m) 1).

End PutBits.

(** ** [src/decode.c]: [av1_neg_deinterleave] *)

Definition av1_neg_deinterleave (diff ref max : Z) : Z :=
  if ref =? 0 then diff
  else if ref >=? max - 1 then max - diff - 1
  else if 2 * ref <? max then
    if diff <=? 2 * ref then
      if Z.odd diff then ref + Z.shiftr (diff + 1) 1
      else ref - Z.shiftr diff 1
    else diff
  else
    if diff <=? 2 * (max - ref - 1) then
      if Z.odd diff then ref + Z.shiftr (diff + 1) 1
      else ref - Z.shiftr diff 1
    else max - (diff + 1).

(** ** [src/decode.c]: data model

    The structures of the headers that are not among the sources
    ([levels.h], [env.h], [ref_mvs.h], [internal.h]) are reconstructed from
    the way [decode.c] uses them: one field per member the code reads or
    writes, with the C type of the member deciding how a stored value wraps. *)

(** Modelled from the spec: the enumerations of [levels.h], which is not
    among the sources.  Section 4.G lists the ten partition shapes in the
    order of their symbols; block levels run from the 128x128 superblock
    down to 8x8 ([hsz = 16 >> bl] in [decode_sb]); the symbols decoded for
    the prediction modes, motion modes and filters are the enumerators
    themselves, so they are numbered from zero in syntax order. *)
Module Levels.

Definition BL_128X128 : Z := 0.
Definition BL_64X64 : Z := 1.
Definition BL_32X32 : Z := 2.
Definition BL_16X16 : Z := 3.
Definition BL_8X8 : Z := 4.

Definition PARTITION_NONE : Z := 0.
Definition PARTITION_H : Z := 1.
Definition PARTITION_V : Z := 2.
Definition PARTITION_SPLIT : Z := 3.
Definition PARTITION_T_TOP_SPLIT : Z := 4.
Definition PARTITION_T_BOTTOM_SPLIT : Z := 5.
Definition PARTITION_T_LEFT_SPLIT : Z := 6.
Definition PARTITION_T_RIGHT_SPLIT : Z := 7.
Definition PARTITION_H4 : Z := 8.
Definition PARTITION_V4 : Z := 9.
Definition N_PARTITIONS : Z := 10.
Definition N_SUB8X8_PARTITIONS : Z := 4.

Definition DC_PRED : Z := 0.
Definition VERT_PRED : Z := 1.
Definition VERT_LEFT_PRED : Z := 8.
Definition N_INTRA_PRED_MODES : Z := 13.
Definition CFL_PRED : Z := 13.
Definition N_UV_INTRA_PRED_MODES : Z := 14.
Definition FILTER_PRED : Z := 13.
Definition N_INTER_INTRA_PRED_MODES : Z := 4.

Definition NEARESTMV : Z := 0.
Definition NEARMV : Z := 1.
Definition GLOBALMV : Z := 2.
Definition NEWMV : Z := 3.
Definition NEARESTMV_NEARESTMV : Z := 0.
Definition GLOBALMV_GLOBALMV : Z := 6.
Definition NEWMV_NEWMV : Z := 7.
Definition N_COMP_INTER_PRED_MODES : Z := 8.

Definition COMP_INTER_NONE : Z := 0.
Definition COMP_INTER_WEIGHTED_AVG : Z := 1.
Definition COMP_INTER_AVG : Z := 2.
Definition COMP_INTER_SEG : Z := 3.
Definition COMP_INTER_WEDGE : Z := 4.

Definition INTER_INTRA_NONE : Z := 0.
Definition INTER_INTRA_BLEND : Z := 1.
Definition INTER_INTRA_WEDGE : Z := 2.

Definition MM_TRANSLATION : Z := 0.
Definition MM_OBMC : Z := 1.
Definition MM_WARP : Z := 2.

Definition MV_JOINT_ZERO : Z := 0.
Definition MV_JOINT_H : Z := 1.
Definition MV_JOINT_V : Z := 2.
Definition MV_JOINT_HV : Z := 3.
Definition N_MV_JOINTS : Z := 4.

Definition FILTER_8TAP_REGULAR : Z := 0.
Definition N_SWITCHABLE_FILTERS : Z := 3.
Definition FILTER_SWITCHABLE : Z := 4.

Definition TX_4X4 : Z := 0.
Definition TX_8X8 : Z := 1.
Definition TX_64X64 : Z := 4.

Definition TX_LARGEST : Z := 1.
Definition TX_SWITCHABLE : Z := 2.

Definition WM_TYPE_IDENTITY : Z := 0.
Definition WM_TYPE_TRANSLATION : Z := 1.
Definition WM_TYPE_AFFINE : Z := 3.

Definition BS_128x128 : Z := 0.
Definition BS_64x64 : Z := 3.
Definition BS_4x4 : Z := 21.

Definition NUM_SEGMENTS : Z := 8.
Definition EDGE_I444_TOP_HAS_RIGHT : Z := 1.
Definition PRIMARY_REF_NONE : Z := 7.

End Levels.
Import Levels.

(** [include/dav1d/picture.h]: [enum Dav1dPixelLayout]. *)
Definition DAV1D_PIXEL_LAYOUT_I400 : Z := 0.
Definition DAV1D_PIXEL_LAYOUT_I420 : Z := 1.
Definition DAV1D_PIXEL_LAYOUT_I422 : Z := 2.
Definition DAV1D_PIXEL_LAYOUT_I444 : Z := 3.

Definition s16 (x : Z) : Z := (x + 2 ^ 15) mod 2 ^ 16 - 2 ^ 15.

(** [struct mv { int16_t y, x; }]. *)
Record mv : Type := mk_mv { mv_y : Z; mv_x : Z }.

(** [struct refmvs]: one entry of the frame-wide motion-vector plane. *)
Record refmvs : Type := mk_refmvs {
  r_mv0 : mv; r_mv1 : mv;
  r_ref0 : Z; r_ref1 : Z;
  r_mode : Z; r_sb_type : Z
}.

Record candidate_mv : Type := mk_candidate_mv {
  this_mv : mv; comp_mv : mv; weight : Z
}.

Record WarpedMotionParams : Type := mk_wmp {
  wm_type : Z;
  wm_matrix : list Z;
  wm_abcd : list Z   (* alpha, beta, gamma, delta *)
}.

Definition set_wm_type (v : Z) (w : WarpedMotionParams) : WarpedMotionParams :=
  mk_wmp v (wm_matrix w) (wm_abcd w).

(** [TxfmInfo]: an entry of [av1_txfm_dimensions]. *)
Record TxfmInfo : Type := mk_txfm {
  tx_w : Z; tx_h : Z; tx_lw : Z; tx_lh : Z;
  tx_min : Z; tx_max : Z; tx_sub : Z; tx_ctx : Z
}.

#[global] Instance mv_inhabited : Inhabited mv := populate (mk_mv 0 0).
#[global] Instance refmvs_inhabited : Inhabited refmvs :=
  populate (mk_refmvs inhabitant inhabitant 0 0 0 0).
#[global] Instance candidate_mv_inhabited : Inhabited candidate_mv :=
  populate (mk_candidate_mv inhabitant inhabitant 0).

(** [Av1Block]: the per-block record.  The intra and the inter members
    share storage in C; the model keeps them apart, and no path of
    [decode_b] reads a member of the half it did not write. *)
Record Av1Block : Type := mk_block {
  b_bl : Z;  (* uint8_t *)
  b_bs : Z;
  b_bp : Z;
  b_intra : Z;
  b_seg_id : Z;
  b_skip_mode : Z;
  b_skip : Z;
  b_uvtx : Z;
  b_y_mode : Z;  (* intra *)
  b_uv_mode : Z;
  b_tx : Z;
  b_pal_sz0 : Z;  (* pal_sz[0] *)
  b_pal_sz1 : Z;  (* pal_sz[1] *)
  b_y_angle : Z;  (* int8_t *)
  b_uv_angle : Z;
  b_cfl_alpha0 : Z;
  b_cfl_alpha1 : Z;
  b_ref0 : Z;  (* inter; int8_t ref[2] *)
  b_ref1 : Z;
  b_comp_type : Z;
  b_wedge_idx : Z;
  b_mask_sign : Z;
  b_inter_mode : Z;
  b_drl_idx : Z;
  b_interintra_type : Z;
  b_interintra_mode : Z;
  b_motion_mode : Z;
  b_max_ytx : Z;
  b_filter2d : Z;
  b_tx_split0 : Z;  (* uint16_t tx_split[2] *)
  b_tx_split1 : Z;
  b_mv0 : mv;  (* mv[2] *)
  b_mv1 : mv
}.

(** Stores into the members: each narrows the value to the member's type. *)
Definition set_b_bl (v : Z) (r : Av1Block) : Av1Block :=
  mk_block (u8 v) (b_bs r) (b_bp r) (b_intra r) (b_seg_id r) (b_skip_mode r) (b_skip r) (b_uvtx r) (b_y_mode r) (b_uv_mode r) (b_tx r) (b_pal_sz0 r) (b_pal_sz1 r) (b_y_angle r) (b_uv_angle r) (b_cfl_alpha0 r) (b_cfl_alpha1 r) (b_ref0 r) (b_ref1 r) (b_comp_type r) (b_wedge_idx r) (b_mask_sign r) (b_inter_mode r) (b_drl_idx r) (b_interintra_type r) (b_interintra_mode r) (b_motion_mode r) (b_max_ytx r) (b_filter2d r) (b_tx_split0 r) (b_tx_split1 r) (b_mv0 r) (b_mv1 r).
Definition set_b_bs (v : Z) (r : Av1Block) : Av1Block :=
  mk_block (b_bl r) (u8 v) (b_bp r) (b_intra r) (b_seg_id r) (b_skip_mode r) (b_skip r) (b_uvtx r) (b_y_mode r) (b_uv_mode r) (b_tx r) (b_pal_sz0 r) (b_pal_sz1 r) (b_y_angle r) (b_uv_angle r) (b_cfl_alpha0 r) (b_cfl_alpha1 r) (b_ref0 r) (b_ref1 r) (b_comp_type r) (b_wedge_idx r) (b_mask_sign r) (b_inter_mode r) (b_drl_idx r) (b_interintra_type r) (b_interintra_mode r) (b_motion_mode r) (b_max_ytx r) (b_filter2d r) (b_tx_split0 r) (b_tx_split1 r) (b_mv0 r) (b_mv1 r).
Definition set_b_bp (v : Z) (r : Av1Block) : Av1Block :=
  mk_block (b_bl r) (b_bs r) (u8 v) (b_intra r) (b_seg_id r) (b_skip_mode r) (b_skip r) (b_uvtx r) (b_y_mode r) (b_uv_mode r) (b_tx r) (b_pal_sz0 r) (b_pal_sz1 r) (b_y_angle r) (b_uv_angle r) (b_cfl_alpha0 r) (b_cfl_alpha1 r) (b_ref0 r) (b_ref1 r) (b_comp_type r) (b_wedge_idx r) (b_mask_sign r) (b_inter_mode r) (b_drl_idx r) (b_interintra_type r) (b_interintra_mode r) (b_motion_mode r) (b_max_ytx r) (b_filter2d r) (b_tx_split0 r) (b_tx_split1 r) (b_mv0 r) (b_mv1 r).
Definition set_b_intra (v : Z) (r : Av1Block) : Av1Block :=
  mk_block (b_bl r) (b_bs r) (b_bp r) (u8 v) (b_seg_id r) (b_skip_mode r) (b_skip r) (b_uvtx r) (b_y_mode r) (b_uv_mode r) (b_tx r) (b_pal_sz0 r) (b_pal_sz1 r) (b_y_angle r) (b_uv_angle r) (b_cfl_alpha0 r) (b_cfl_alpha1 r) (b_ref0 r) (b_ref1 r) (b_comp_type r) (b_wedge_idx r) (b_mask_sign r) (b_inter_mode r) (b_drl_idx r) (b_interintra_type r) (b_interintra_mode r) (b_motion_mode r) (b_max_ytx r) (b_filter2d r) (b_tx_split0 r) (b_tx_split1 r) (b_mv0 r) (b_mv1 r).
Definition set_b_seg_id (v : Z) (r : Av1Block) : Av1Block :=
  mk_block (b_bl r) (b_bs r) (b_bp r) (b_intra r) (u8 v) (b_skip_mode r) (b_skip r) (b_uvtx r) (b_y_mode r) (b_uv_mode r) (b_tx r) (b_pal_sz0 r) (b_pal_sz1 r) (b_y_angle r) (b_uv_angle r) (b_cfl_alpha0 r) (b_cfl_alpha1 r) (b_ref0 r) (b_ref1 r) (b_comp_type r) (b_wedge_idx r) (b_mask_sign r) (b_inter_mode r) (b_drl_idx r) (b_interintra_type r) (b_interintra_mode r) (b_motion_mode r) (b_max_ytx r) (b_filter2d r) (b_tx_split0 r) (b_tx_split1 r) (b_mv0 r) (b_mv1 r).
Definition set_b_skip_mode (v : Z) (r : Av1Block) : Av1Block :=
  mk_block (b_bl r) (b_bs r) (b_bp r) (b_intra r) (b_seg_id r) (u8 v) (b_skip r) (b_uvtx r) (b_y_mode r) (b_uv_mode r) (b_tx r) (b_pal_sz0 r) (b_pal_sz1 r) (b_y_angle r) (b_uv_angle r) (b_cfl_alpha0 r) (b_cfl_alpha1 r) (b_ref0 r) (b_ref1 r) (b_comp_type r) (b_wedge_idx r) (b_mask_sign r) (b_inter_mode r) (b_drl_idx r) (b_interintra_type r) (b_interintra_mode r) (b_motion_mode r) (b_max_ytx r) (b_filter2d r) (b_tx_split0 r) (b_tx_split1 r) (b_mv0 r) (b_mv1 r).
Definition set_b_skip (v : Z) (r : Av1Block) : Av1Block :=
  mk_block (b_bl r) (b_bs r) (b_bp r) (b_intra r) (b_seg_id r) (b_skip_mode r) (u8 v) (b_uvtx r) (b_y_mode r) (b_uv_mode r) (b_tx r) (b_pal_sz0 r) (b_pal_sz1 r) (b_y_angle r) (b_uv_angle r) (b_cfl_alpha0 r) (b_cfl_alpha1 r) (b_ref0 r) (b_ref1 r) (b_comp_type r) (b_wedge_idx r) (b_mask_sign r) (b_inter_mode r) (b_drl_idx r) (b_interintra_type r) (b_interintra_mode r) (b_motion_mode r) (b_max_ytx r) (b_filter2d r) (b_tx_split0 r) (b_tx_split1 r) (b_mv0 r) (b_mv1 r).
Definition set_b_uvtx (v : Z) (r : Av1Block) : Av1Block :=
  mk_block (b_bl r) (b_bs r) (b_bp r) (b_intra r) (b_seg_id r) (b_skip_mode r) (b_skip r) (u8 v) (b_y_mode r) (b_uv_mode r) (b_tx r) (b_pal_sz0 r) (b_pal_sz1 r) (b_y_angle r) (b_uv_angle r) (b_cfl_alpha0 r) (b_cfl_alpha1 r) (b_ref0 r) (b_ref1 r) (b_comp_type r) (b_wedge_idx r) (b_mask_sign r) (b_inter_mode r) (b_drl_idx r) (b_interintra_type r) (b_interintra_mode r) (b_motion_mode r) (b_max_ytx r) (b_filter2d r) (b_tx_split0 r) (b_tx_split1 r) (b_mv0 r) (b_mv1 r).
Definition set_b_y_mode (v : Z) (r : Av1Block) : Av1Block :=
  mk_block (b_bl r) (b_bs r) (b_bp r) (b_intra r) (b_seg_id r) (b_skip_mode r) (b_skip r) (b_uvtx r) (u8 v) (b_uv_mode r) (b_tx r) (b_pal_sz0 r) (b_pal_sz1 r) (b_y_angle r) (b_uv_angle r) (b_cfl_alpha0 r) (b_cfl_alpha1 r) (b_ref0 r) (b_ref1 r) (b_comp_type r) (b_wedge_idx r) (b_mask_sign r) (b_inter_mode r) (b_drl_idx r) (b_interintra_type r) (b_interintra_mode r) (b_motion_mode r) (b_max_ytx r) (b_filter2d r) (b_tx_split0 r) (b_tx_split1 r) (b_mv0 r) (b_mv1 r).
Definition set_b_uv_mode (v : Z) (r : Av1Block) : Av1Block :=
  mk_block (b_bl r) (b_bs r) (b_bp r) (b_intra r) (b_seg_id r) (b_skip_mode r) (b_skip r) (b_uvtx r) (b_y_mode r) (u8 v) (b_tx r) (b_pal_sz0 r) (b_pal_sz1 r) (b_y_angle r) (b_uv_angle r) (b_cfl_alpha0 r) (b_cfl_alpha1 r) (b_ref0 r) (b_ref1 r) (b_comp_type r) (b_wedge_idx r) (b_mask_sign r) (b_inter_mode r) (b_drl_idx r) (b_interintra_type r) (b_interintra_mode r) (b_motion_mode r) (b_max_ytx r) (b_filter2d r) (b_tx_split0 r) (b_tx_split1 r) (b_mv0 r) (b_mv1 r).
Definition set_b_tx (v : Z) (r : Av1Block) : Av1Block :=
  mk_block (b_bl r) (b_bs r) (b_bp r) (b_intra r) (b_seg_id r) (b_skip_mode r) (b_skip r) (b_uvtx r) (b_y_mode r) (b_uv_mode r) (u8 v) (b_pal_sz0 r) (b_pal_sz1 r) (b_y_angle r) (b_uv_angle r) (b_cfl_alpha0 r) (b_cfl_alpha1 r) (b_ref0 r) (b_ref1 r) (b_comp_type r) (b_wedge_idx r) (b_mask_sign r) (b_inter_mode r) (b_drl_idx r) (b_interintra_type r) (b_interintra_mode r) (b_motion_mode r) (b_max_ytx r) (b_filter2d r) (b_tx_split0 r) (b_tx_split1 r) (b_mv0 r) (b_mv1 r).
Definition set_b_pal_sz0 (v : Z) (r : Av1Block) : Av1Block :=
  mk_block (b_bl r) (b_bs r) (b_bp r) (b_intra r) (b_seg_id r) (b_skip_mode r) (b_skip r) (b_uvtx r) (b_y_mode r) (b_uv_mode r) (b_tx r) (u8 v) (b_pal_sz1 r) (b_y_angle r) (b_uv_angle r) (b_cfl_alpha0 r) (b_cfl_alpha1 r) (b_ref0 r) (b_ref1 r) (b_comp_type r) (b_wedge_idx r) (b_mask_sign r) (b_inter_mode r) (b_drl_idx r) (b_interintra_type r) (b_interintra_mode r) (b_motion_mode r) (b_max_ytx r) (b_filter2d r) (b_tx_split0 r) (b_tx_split1 r) (b_mv0 r) (b_mv1 r).
Definition set_b_pal_sz1 (v : Z) (r : Av1Block) : Av1Block :=
  mk_block (b_bl r) (b_bs r) (b_bp r) (b_intra r) (b_seg_id r) (b_skip_mode r) (b_skip r) (b_uvtx r) (b_y_mode r) (b_uv_mode r) (b_tx r) (b_pal_sz0 r) (u8 v) (b_y_angle r) (b_uv_angle r) (b_cfl_alpha0 r) (b_cfl_alpha1 r) (b_ref0 r) (b_ref1 r) (b_comp_type r) (b_wedge_idx r) (b_mask_sign r) (b_inter_mode r) (b_drl_idx r) (b_interintra_type r) (b_interintra_mode r) (b_motion_mode r) (b_max_ytx r) (b_filter2d r) (b_tx_split0 r) (b_tx_split1 r) (b_mv0 r) (b_mv1 r).
Definition set_b_y_angle (v : Z) (r : Av1Block) : Av1Block :=
  mk_block (b_bl r) (b_bs r) (b_bp r) (b_intra r) (b_seg_id r) (b_skip_mode r) (b_skip r) (b_uvtx r) (b_y_mode r) (b_uv_mode r) (b_tx r) (b_pal_sz0 r) (b_pal_sz1 r) (i8 v) (b_uv_angle r) (b_cfl_alpha0 r) (b_cfl_alpha1 r) (b_ref0 r) (b_ref1 r) (b_comp_type r) (b_wedge_idx r) (b_mask_sign r) (b_inter_mode r) (b_drl_idx r) (b_interintra_type r) (b_interintra_mode r) (b_motion_mode r) (b_max_ytx r) (b_filter2d r) (b_tx_split0 r) (b_tx_split1 r) (b_mv0 r) (b_mv1 r).
Definition set_b_uv_angle (v : Z) (r : Av1Block) : Av1Block :=
  mk_block (b_bl r) (b_bs r) (b_bp r) (b_intra r) (b_seg_id r) (b_skip_mode r) (b_skip r) (b_uvtx r) (b_y_mode r) (b_uv_mode r) (b_tx r) (b_pal_sz0 r) (b_pal_sz1 r) (b_y_angle r) (i8 v) (b_cfl_alpha0 r) (b_cfl_alpha1 r) (b_ref0 r) (b_ref1 r) (b_comp_type r) (b_wedge_idx r) (b_mask_sign r) (b_inter_mode r) (b_drl_idx r) (b_interintra_type r) (b_interintra_mode r) (b_motion_mode r) (b_max_ytx r) (b_filter2d r) (b_tx_split0 r) (b_tx_split1 r) (b_mv0 r) (b_mv1 r).
Definition set_b_cfl_alpha0 (v : Z) (r : Av1Block) : Av1Block :=
  mk_block (b_bl r) (b_bs r) (b_bp r) (b_intra r) (b_seg_id r) (b_skip_mode r) (b_skip r) (b_uvtx r) (b_y_mode r) (b_uv_mode r) (b_tx r) (b_pal_sz0 r) (b_pal_sz1 r) (b_y_angle r) (b_uv_angle r) (i8 v) (b_cfl_alpha1 r) (b_ref0 r) (b_ref1 r) (b_comp_type r) (b_wedge_idx r) (b_mask_sign r) (b_inter_mode r) (b_drl_idx r) (b_interintra_type r) (b_interintra_mode r) (b_motion_mode r) (b_max_ytx r) (b_filter2d r) (b_tx_split0 r) (b_tx_split1 r) (b_mv0 r) (b_mv1 r).
Definition set_b_cfl_alpha1 (v : Z) (r : Av1Block) : Av1Block :=
  mk_block (b_bl r) (b_bs r) (b_bp r) (b_intra r) (b_seg_id r) (b_skip_mode r) (b_skip r) (b_uvtx r) (b_y_mode r) (b_uv_mode r) (b_tx r) (b_pal_sz0 r) (b_pal_sz1 r) (b_y_angle r) (b_uv_angle r) (b_cfl_alpha0 r) (i8 v) (b_ref0 r) (b_ref1 r) (b_comp_type r) (b_wedge_idx r) (b_mask_sign r) (b_inter_mode r) (b_drl_idx r) (b_interintra_type r) (b_interintra_mode r) (b_motion_mode r) (b_max_ytx r) (b_filter2d r) (b_tx_split0 r) (b_tx_split1 r) (b_mv0 r) (b_mv1 r).
Definition set_b_ref0 (v : Z) (r : Av1Block) : Av1Block :=
  mk_block (b_bl r) (b_bs r) (b_bp r) (b_intra r) (b_seg_id r) (b_skip_mode r) (b_skip r) (b_uvtx r) (b_y_mode r) (b_uv_mode r) (b_tx r) (b_pal_sz0 r) (b_pal_sz1 r) (b_y_angle r) (b_uv_angle r) (b_cfl_alpha0 r) (b_cfl_alpha1 r) (i8 v) (b_ref1 r) (b_comp_type r) (b_wedge_idx r) (b_mask_sign r) (b_inter_mode r) (b_drl_idx r) (b_interintra_type r) (b_interintra_mode r) (b_motion_mode r) (b_max_ytx r) (b_filter2d r) (b_tx_split0 r) (b_tx_split1 r) (b_mv0 r) (b_mv1 r).
Definition set_b_ref1 (v : Z) (r : Av1Block) : Av1Block :=
  mk_block (b_bl r) (b_bs r) (b_bp r) (b_intra r) (b_seg_id r) (b_skip_mode r) (b_skip r) (b_uvtx r) (b_y_mode r) (b_uv_mode r) (b_tx r) (b_pal_sz0 r) (b_pal_sz1 r) (b_y_angle r) (b_uv_angle r) (b_cfl_alpha0 r) (b_cfl_alpha1 r) (b_ref0 r) (i8 v) (b_comp_type r) (b_wedge_idx r) (b_mask_sign r) (b_inter_mode r) (b_drl_idx r) (b_interintra_type r) (b_interintra_mode r) (b_motion_mode r) (b_max_ytx r) (b_filter2d r) (b_tx_split0 r) (b_tx_split1 r) (b_mv0 r) (b_mv1 r).
Definition set_b_comp_type (v : Z) (r : Av1Block) : Av1Block :=
  mk_block (b_bl r) (b_bs r) (b_bp r) (b_intra r) (b_seg_id r) (b_skip_mode r) (b_skip r) (b_uvtx r) (b_y_mode r) (b_uv_mode r) (b_tx r) (b_pal_sz0 r) (b_pal_sz1 r) (b_y_angle r) (b_uv_angle r) (b_cfl_alpha0 r) (b_cfl_alpha1 r) (b_ref0 r) (b_ref1 r) (u8 v) (b_wedge_idx r) (b_mask_sign r) (b_inter_mode r) (b_drl_idx r) (b_interintra_type r) (b_interintra_mode r) (b_motion_mode r) (b_max_ytx r) (b_filter2d r) (b_tx_split0 r) (b_tx_split1 r) (b_mv0 r) (b_mv1 r).
Definition set_b_wedge_idx (v : Z) (r : Av1Block) : Av1Block :=
  mk_block (b_bl r) (b_bs r) (b_bp r) (b_intra r) (b_seg_id r) (b_skip_mode r) (b_skip r) (b_uvtx r) (b_y_mode r) (b_uv_mode r) (b_tx r) (b_pal_sz0 r) (b_pal_sz1 r) (b_y_angle r) (b_uv_angle r) (b_cfl_alpha0 r) (b_cfl_alpha1 r) (b_ref0 r) (b_ref1 r) (b_comp_type r) (u8 v) (b_mask_sign r) (b_inter_mode r) (b_drl_idx r) (b_interintra_type r) (b_interintra_mode r) (b_motion_mode r) (b_max_ytx r) (b_filter2d r) (b_tx_split0 r) (b_tx_split1 r) (b_mv0 r) (b_mv1 r).
Definition set_b_mask_sign (v : Z) (r : Av1Block) : Av1Block :=
  mk_block (b_bl r) (b_bs r) (b_bp r) (b_intra r) (b_seg_id r) (b_skip_mode r) (b_skip r) (b_uvtx r) (b_y_mode r) (b_uv_mode r) (b_tx r) (b_pal_sz0 r) (b_pal_sz1 r) (b_y_angle r) (b_uv_angle r) (b_cfl_alpha0 r) (b_cfl_alpha1 r) (b_ref0 r) (b_ref1 r) (b_comp_type r) (b_wedge_idx r) (u8 v) (b_inter_mode r) (b_drl_idx r) (b_interintra_type r) (b_interintra_mode r) (b_motion_mode r) (b_max_ytx r) (b_filter2d r) (b_tx_split0 r) (b_tx_split1 r) (b_mv0 r) (b_mv1 r).
Definition set_b_inter_mode (v : Z) (r : Av1Block) : Av1Block :=
  mk_block (b_bl r) (b_bs r) (b_bp r) (b_intra r) (b_seg_id r) (b_skip_mode r) (b_skip r) (b_uvtx r) (b_y_mode r) (b_uv_mode r) (b_tx r) (b_pal_sz0 r) (b_pal_sz1 r) (b_y_angle r) (b_uv_angle r) (b_cfl_alpha0 r) (b_cfl_alpha1 r) (b_ref0 r) (b_ref1 r) (b_comp_type r) (b_wedge_idx r) (b_mask_sign r) (u8 v) (b_drl_idx r) (b_interintra_type r) (b_interintra_mode r) (b_motion_mode r) (b_max_ytx r) (b_filter2d r) (b_tx_split0 r) (b_tx_split1 r) (b_mv0 r) (b_mv1 r).
Definition set_b_drl_idx (v : Z) (r : Av1Block) : Av1Block :=
  mk_block (b_bl r) (b_bs r) (b_bp r) (b_intra r) (b_seg_id r) (b_skip_mode r) (b_skip r) (b_uvtx r) (b_y_mode r) (b_uv_mode r) (b_tx r) (b_pal_sz0 r) (b_pal_sz1 r) (b_y_angle r) (b_uv_angle r) (b_cfl_alpha0 r) (b_cfl_alpha1 r) (b_ref0 r) (b_ref1 r) (b_comp_type r) (b_wedge_idx r) (b_mask_sign r) (b_inter_mode r) (u8 v) (b_interintra_type r) (b_interintra_mode r) (b_motion_mode r) (b_max_ytx r) (b_filter2d r) (b_tx_split0 r) (b_tx_split1 r) (b_mv0 r) (b_mv1 r).
Definition set_b_interintra_type (v : Z) (r : Av1Block) : Av1Block :=
  mk_block (b_bl r) (b_bs r) (b_bp r) (b_intra r) (b_seg_id r) (b_skip_mode r) (b_skip r) (b_uvtx r) (b_y_mode r) (b_uv_mode r) (b_tx r) (b_pal_sz0 r) (b_pal_sz1 r) (b_y_angle r) (b_uv_angle r) (b_cfl_alpha0 r) (b_cfl_alpha1 r) (b_ref0 r) (b_ref1 r) (b_comp_type r) (b_wedge_idx r) (b_mask_sign r) (b_inter_mode r) (b_drl_idx r) (u8 v) (b_interintra_mode r) (b_motion_mode r) (b_max_ytx r) (b_filter2d r) (b_tx_split0 r) (b_tx_split1 r) (b_mv0 r) (b_mv1 r).
Definition set_b_interintra_mode (v : Z) (r : Av1Block) : Av1Block :=
  mk_block (b_bl r) (b_bs r) (b_bp r) (b_intra r) (b_seg_id r) (b_skip_mode r) (b_skip r) (b_uvtx r) (b_y_mode r) (b_uv_mode r) (b_tx r) (b_pal_sz0 r) (b_pal_sz1 r) (b_y_angle r) (b_uv_angle r) (b_cfl_alpha0 r) (b_cfl_alpha1 r) (b_ref0 r) (b_ref1 r) (b_comp_type r) (b_wedge_idx r) (b_mask_sign r) (b_inter_mode r) (b_drl_idx r) (b_interintra_type r) (u8 v) (b_motion_mode r) (b_max_ytx r) (b_filter2d r) (b_tx_split0 r) (b_tx_split1 r) (b_mv0 r) (b_mv1 r).
Definition set_b_motion_mode (v : Z) (r : Av1Block) : Av1Block :=
  mk_block (b_bl r) (b_bs r) (b_bp r) (b_intra r) (b_seg_id r) (b_skip_mode r) (b_skip r) (b_uvtx r) (b_y_mode r) (b_uv_mode r) (b_tx r) (b_pal_sz0 r) (b_pal_sz1 r) (b_y_angle r) (b_uv_angle r) (b_cfl_alpha0 r) (b_cfl_alpha1 r) (b_ref0 r) (b_ref1 r) (b_comp_type r) (b_wedge_idx r) (b_mask_sign r) (b_inter_mode r) (b_drl_idx r) (b_interintra_type r) (b_interintra_mode r) (u8 v) (b_max_ytx r) (b_filter2d r) (b_tx_split0 r) (b_tx_split1 r) (b_mv0 r) (b_mv1 r).
Definition set_b_max_ytx (v : Z) (r : Av1Block) : Av1Block :=
  mk_block (b_bl r) (b_bs r) (b_bp r) (b_intra r) (b_seg_id r) (b_skip_mode r) (b_skip r) (b_uvtx r) (b_y_mode r) (b_uv_mode r) (b_tx r) (b_pal_sz0 r) (b_pal_sz1 r) (b_y_angle r) (b_uv_angle r) (b_cfl_alpha0 r) (b_cfl_alpha1 r) (b_ref0 r) (b_ref1 r) (b_comp_type r) (b_wedge_idx r) (b_mask_sign r) (b_inter_mode r) (b_drl_idx r) (b_interintra_type r) (b_interintra_mode r) (b_motion_mode r) (u8 v) (b_filter2d r) (b_tx_split0 r) (b_tx_split1 r) (b_mv0 r) (b_mv1 r).
Definition set_b_filter2d (v : Z) (r : Av1Block) : Av1Block :=
  mk_block (b_bl r) (b_bs r) (b_bp r) (b_intra r) (b_seg_id r) (b_skip_mode r) (b_skip r) (b_uvtx r) (b_y_mode r) (b_uv_mode r) (b_tx r) (b_pal_sz0 r) (b_pal_sz1 r) (b_y_angle r) (b_uv_angle r) (b_cfl_alpha0 r) (b_cfl_alpha1 r) (b_ref0 r) (b_ref1 r) (b_comp_type r) (b_wedge_idx r) (b_mask_sign r) (b_inter_mode r) (b_drl_idx r) (b_interintra_type r) (b_interintra_mode r) (b_motion_mode r) (b_max_ytx r) (u8 v) (b_tx_split0 r) (b_tx_split1 r) (b_mv0 r) (b_mv1 r).
Definition set_b_tx_split0 (v : Z) (r : Av1Block) : Av1Block :=
  mk_block (b_bl r) (b_bs r) (b_bp r) (b_intra r) (b_seg_id r) (b_skip_mode r) (b_skip r) (b_uvtx r) (b_y_mode r) (b_uv_mode r) (b_tx r) (b_pal_sz0 r) (b_pal_sz1 r) (b_y_angle r) (b_uv_angle r) (b_cfl_alpha0 r) (b_cfl_alpha1 r) (b_ref0 r) (b_ref1 r) (b_comp_type r) (b_wedge_idx r) (b_mask_sign r) (b_inter_mode r) (b_drl_idx r) (b_interintra_type r) (b_interintra_mode r) (b_motion_mode r) (b_max_ytx r) (b_filter2d r) (u16 v) (b_tx_split1 r) (b_mv0 r) (b_mv1 r).
Definition set_b_tx_split1 (v : Z) (r : Av1Block) : Av1Block :=
  mk_block (b_bl r) (b_bs r) (b_bp r) (b_intra r) (b_seg_id r) (b_skip_mode r) (b_skip r) (b_uvtx r) (b_y_mode r) (b_uv_mode r) (b_tx r) (b_pal_sz0 r) (b_pal_sz1 r) (b_y_angle r) (b_uv_angle r) (b_cfl_alpha0 r) (b_cfl_alpha1 r) (b_ref0 r) (b_ref1 r) (b_comp_type r) (b_wedge_idx r) (b_mask_sign r) (b_inter_mode r) (b_drl_idx r) (b_interintra_type r) (b_interintra_mode r) (b_motion_mode r) (b_max_ytx r) (b_filter2d r) (b_tx_split0 r) (u16 v) (b_mv0 r) (b_mv1 r).
Definition set_b_mv0 (v : mv) (r : Av1Block) : Av1Block :=
  mk_block (b_bl r) (b_bs r) (b_bp r) (b_intra r) (b_seg_id r) (b_skip_mode r) (b_skip r) (b_uvtx r) (b_y_mode r) (b_uv_mode r) (b_tx r) (b_pal_sz0 r) (b_pal_sz1 r) (b_y_angle r) (b_uv_angle r) (b_cfl_alpha0 r) (b_cfl_alpha1 r) (b_ref0 r) (b_ref1 r) (b_comp_type r) (b_wedge_idx r) (b_mask_sign r) (b_inter_mode r) (b_drl_idx r) (b_interintra_type r) (b_interintra_mode r) (b_motion_mode r) (b_max_ytx r) (b_filter2d r) (b_tx_split0 r) (b_tx_split1 r) v (b_mv1 r).
Definition set_b_mv1 (v : mv) (r : Av1Block) : Av1Block :=
  mk_block (b_bl r) (b_bs r) (b_bp r) (b_intra r) (b_seg_id r) (b_skip_mode r) (b_skip r) (b_uvtx r) (b_y_mode r) (b_uv_mode r) (b_tx r) (b_pal_sz0 r) (b_pal_sz1 r) (b_y_angle r) (b_uv_angle r) (b_cfl_alpha0 r) (b_cfl_alpha1 r) (b_ref0 r) (b_ref1 r) (b_comp_type r) (b_wedge_idx r) (b_mask_sign r) (b_inter_mode r) (b_drl_idx r) (b_interintra_type r) (b_interintra_mode r) (b_motion_mode r) (b_max_ytx r) (b_filter2d r) (b_tx_split0 r) (b_tx_split1 r) (b_mv0 r) v.

#[global] Instance Av1Block_inhabited : Inhabited Av1Block :=
  populate (mk_block 0 0 0 0 0 0 0 0 0 0 0 0 0 0 0 0 0 0 0 0 0 0 0 0 0 0 0 0 0 0 0
                     inhabitant inhabitant).

(** [BlockContext] ([env.h]): the above and the left context, one array of
    32 entries per member ([partition] has 16).  The members the
    reconstruction and loop-filter code owns ([lcoef], [ccoef], [tx_lpf_y],
    [tx_lpf_uv]) belong to the external state. *)
Inductive CtxField : Type :=
  | Intra | Mode | Uvmode | TxIntra | Tx | PalSz | Skip | SkipMode | SegPred
  | CompType | Ref0 | Ref1 | Filter0 | Filter1 | Partition.

#[global] Instance CtxField_eq_dec : EqDecision CtxField.
Proof. solve_decision. Defined.

Definition BlockContext : Type := CtxField -> list Z.

(** [int8_t ref[2][32], tx_intra[32], tx[32]]; every other member is [uint8_t]. *)
Definition ctx_wrap (fld : CtxField) (v : Z) : Z :=
  match fld with
  | Ref0 | Ref1 | TxIntra | Tx => i8 v
  | _ => u8 v
  end.

(** [memset(&arr[off], v, n)] on an array held as a list: the bytes that
    fall inside the array are overwritten. *)
Definition memset (arr : list Z) (off v n : Z) : list Z :=
  list_inserts (Z.to_nat off) (replicate (Z.to_nat n) v) arr.

(** [arr[i]]. *)
Definition idx (arr : list Z) (i : Z) : Z := nth (Z.to_nat i) arr 0.
(** [arr[i] = v]. *)
Definition upd (arr : list Z) (i v : Z) : list Z := <[Z.to_nat i := v]> arr.

Definition ctx_memset (c : BlockContext) (fld : CtxField) (off v n : Z) : BlockContext :=
  fun g => if decide (g = fld) then memset (c fld) off (ctx_wrap fld v) n else c g.

Arguments memset : simpl never.
Arguments idx : simpl never.
Arguments upd : simpl never.
Arguments ctx_memset : simpl never.

(** Pointers that select one of two tables. *)
Inductive TableRef : Type := FrameWide | TileLocal.

(** A 2-D or 3-D table indexed by small integers. *)
Definition upd1 {A} (t : Z -> A) (i : Z) (v : A) : Z -> A :=
  fun j => if j =? i then v else t j.
Definition upd2 {A} (t : Z -> Z -> A) (i j : Z) (v : A) : Z -> Z -> A :=
  fun i' j' => if (i' =? i) && (j' =? j) then v else t i' j'.
Definition upd3 {A} (t : Z -> Z -> Z -> A) (i j k : Z) (v : A) : Z -> Z -> Z -> A :=
  fun i' j' k' => if (i' =? i) && (j' =? j) && (k' =? k) then v else t i' j' k'.

(** One call of [decode_b], as the walk log of the model records it. *)
Record BlockCall : Type := mk_call {
  call_bx : Z; call_by : Z; call_bl : Z; call_bs : Z; call_bp : Z
}.

(** The members of [Dav1dFrameContext] that the block parser only reads:
    the geometry, the pass, and the sequence and frame headers. *)
Record Frame : Type := mk_frame {
  f_bw : Z;  (* f->bw, in 4x4 units *)
  f_bh : Z;
  f_b4_stride : Z;
  f_pass : Z;  (* f->frame_thread.pass *)
  f_layout : Z;  (* f->cur.p.p.layout *)
  f_bpc : Z;  (* f->cur.p.p.bpc *)
  f_cur_poc : Z;  (* f->cur.p.poc *)
  f_refp_poc : Z -> Z;  (* f->refp[i].p.poc *)
  f_prev_segmap : option (list Z);  (* f->prev_segmap, NULL when absent *)
  seq_layout : Z;  (* f->seq_hdr *)
  seq_sb128 : Z;
  seq_bpc : Z;
  seq_filter_intra : Z;
  seq_masked_compound : Z;
  seq_jnt_comp : Z;
  seq_inter_intra : Z;
  seq_dual_filter : Z;
  seq_order_hint_n_bits : Z;
  hdr_frame_type : Z;  (* f->frame_hdr *)
  hdr_frame_offset : Z;
  hdr_primary_ref_frame : Z;
  hdr_skip_mode_enabled : Z;
  hdr_skip_mode_refs : Z -> Z;
  hdr_seg_enabled : Z;  (* segmentation *)
  hdr_seg_update_map : Z;
  hdr_seg_temporal : Z;
  hdr_seg_preskip : Z;  (* seg_data.preskip *)
  hdr_seg_last_active_segid : Z;
  hdr_seg_lossless : Z -> Z;  (* segmentation.lossless[i] *)
  hdr_seg_delta_q : Z -> Z;  (* seg_data.d[i].delta_q *)
  hdr_cdef_n_bits : Z;
  hdr_delta_q_present : Z;  (* delta.q *)
  hdr_delta_q_res_log2 : Z;
  hdr_delta_lf_present : Z;  (* delta.lf *)
  hdr_delta_lf_multi : Z;
  hdr_delta_lf_res_log2 : Z;
  hdr_quant_yac : Z;  (* quant *)
  hdr_quant_ydc_delta : Z;
  hdr_quant_uac_delta : Z;
  hdr_quant_udc_delta : Z;
  hdr_quant_vac_delta : Z;
  hdr_quant_vdc_delta : Z;
  hdr_allow_intrabc : Z;
  hdr_allow_screen_content_tools : Z;
  hdr_txfm_mode : Z;
  hdr_switchable_comp_refs : Z;
  hdr_hp : Z;
  hdr_force_integer_mv : Z;
  hdr_gmv_type : Z -> Z;  (* gmv[i].type *)
  hdr_switchable_motion_mode : Z;
  hdr_warp_motion : Z;
  hdr_subpel_filter_mode : Z
}.

Section TileState.

Context {Msac Ext : Type}.

(** The state a tile worker mutates while it parses: [Dav1dTileContext],
    [Dav1dTileState] and the frame-wide arrays written through [f]. *)
Record Tile : Type := mk_tile {
  ts_msac : Msac;  (* ts->msac together with the CDF table ts->cdf *)
  t_ext : Ext;  (* state owned by the code outside decode.c *)
  t_tl_4x4_filter : Z;
  t_bx : Z;
  t_by : Z;
  t_a : BlockContext;  (* *t->a *)
  t_l : BlockContext;  (* t->l *)
  t_pal_sz_uv_a : list Z;  (* t->pal_sz_uv[0] *)
  t_pal_sz_uv_l : list Z;  (* t->pal_sz_uv[1] *)
  t_al_pal : Z -> Z -> Z -> list Z;  (* t->al_pal[2][32][3][8] *)
  t_pal : Z -> list Z;  (* t->pal[3][8] *)
  ft_pal : Z -> Z -> list Z;  (* f->frame_thread.pal[..][3][8] *)
  t_warpmv : WarpedMotionParams;
  t_cur_sb_cdef_idx : list Z;  (* the entries t->cur_sb_cdef_idx_ptr points at *)
  t_blk : Av1Block;  (* *b: b_mem, or the slot of f->frame_thread.b *)
  ft_b : list Av1Block;  (* f->frame_thread.b *)
  ts_last_qidx : Z;
  ts_last_delta_lf : list Z;  (* int8_t[4] *)
  ts_dq : TableRef;  (* ts->dq: f->dq or ts->dqmem *)
  ts_dqmem : Z -> list Z;  (* ts->dqmem[8][3][2] *)
  ts_lflvl : TableRef;  (* ts->lflvl: f->lf.lvl or ts->lflvlmem *)
  ts_lflvlmem : list Z;
  ts_col_start : Z;  (* ts->tiling *)
  ts_col_end : Z;
  ts_row_start : Z;
  ts_row_end : Z;
  f_cur_segmap : list Z;  (* f->cur_segmap *)
  f_mvs : list refmvs;  (* f->mvs *)
  lf_noskip_mask : list Z;  (* t->lf_mask->noskip_mask[32] *)
  t_scratch_pal_idx : Z -> Z;  (* t->scratch.pal_idx *)
  ft_pal_idx : Z -> Z;  (* f->frame_thread.pal_idx *)
  ts_pal_idx : Z;  (* ts->frame_thread.pal_idx, as an offset *)
  walk_log : list BlockCall  (* calls of decode_b so far (kept by the model) *)
}.

Definition set_ts_msac (v : Msac) (r : Tile) : Tile :=
  mk_tile v (t_ext r) (t_tl_4x4_filter r) (t_bx r) (t_by r) (t_a r) (t_l r) (t_pal_sz_uv_a r) (t_pal_sz_uv_l r) (t_al_pal r) (t_pal r) (ft_pal r) (t_warpmv r) (t_cur_sb_cdef_idx r) (t_blk r) (ft_b r) (ts_last_qidx r) (ts_last_delta_lf r) (ts_dq r) (ts_dqmem r) (ts_lflvl r) (ts_lflvlmem r) (ts_col_start r) (ts_col_end r) (ts_row_start r) (ts_row_end r) (f_cur_segmap r) (f_mvs r) (lf_noskip_mask r) (t_scratch_pal_idx r) (ft_pal_idx r) (ts_pal_idx r) (walk_log r).
Definition set_t_ext (v : Ext) (r : Tile) : Tile :=
  mk_tile (ts_msac r) v (t_tl_4x4_filter r) (t_bx r) (t_by r) (t_a r) (t_l r) (t_pal_sz_uv_a r) (t_pal_sz_uv_l r) (t_al_pal r) (t_pal r) (ft_pal r) (t_warpmv r) (t_cur_sb_cdef_idx r) (t_blk r) (ft_b r) (ts_last_qidx r) (ts_last_delta_lf r) (ts_dq r) (ts_dqmem r) (ts_lflvl r) (ts_lflvlmem r) (ts_col_start r) (ts_col_end r) (ts_row_start r) (ts_row_end r) (f_cur_segmap r) (f_mvs r) (lf_noskip_mask r) (t_scratch_pal_idx r) (ft_pal_idx r) (ts_pal_idx r) (walk_log r).
Definition set_t_tl_4x4_filter (v : Z) (r : Tile) : Tile :=
  mk_tile (ts_msac r) (t_ext r) v (t_bx r) (t_by r) (t_a r) (t_l r) (t_pal_sz_uv_a r) (t_pal_sz_uv_l r) (t_al_pal r) (t_pal r) (ft_pal r) (t_warpmv r) (t_cur_sb_cdef_idx r) (t_blk r) (ft_b r) (ts_last_qidx r) (ts_last_delta_lf r) (ts_dq r) (ts_dqmem r) (ts_lflvl r) (ts_lflvlmem r) (ts_col_start r) (ts_col_end r) (ts_row_start r) (ts_row_end r) (f_cur_segmap r) (f_mvs r) (lf_noskip_mask r) (t_scratch_pal_idx r) (ft_pal_idx r) (ts_pal_idx r) (walk_log r).
Definition set_t_bx (v : Z) (r : Tile) : Tile :=
  mk_tile (ts_msac r) (t_ext r) (t_tl_4x4_filter r) v (t_by r) (t_a r) (t_l r) (t_pal_sz_uv_a r) (t_pal_sz_uv_l r) (t_al_pal r) (t_pal r) (ft_pal r) (t_warpmv r) (t_cur_sb_cdef_idx r) (t_blk r) (ft_b r) (ts_last_qidx r) (ts_last_delta_lf r) (ts_dq r) (ts_dqmem r) (ts_lflvl r) (ts_lflvlmem r) (ts_col_start r) (ts_col_end r) (ts_row_start r) (ts_row_end r) (f_cur_segmap r) (f_mvs r) (lf_noskip_mask r) (t_scratch_pal_idx r) (ft_pal_idx r) (ts_pal_idx r) (walk_log r).
Definition set_t_by (v : Z) (r : Tile) : Tile :=
  mk_tile (ts_msac r) (t_ext r) (t_tl_4x4_filter r) (t_bx r) v (t_a r) (t_l r) (t_pal_sz_uv_a r) (t_pal_sz_uv_l r) (t_al_pal r) (t_pal r) (ft_pal r) (t_warpmv r) (t_cur_sb_cdef_idx r) (t_blk r) (ft_b r) (ts_last_qidx r) (ts_last_delta_lf r) (ts_dq r) (ts_dqmem r) (ts_lflvl r) (ts_lflvlmem r) (ts_col_start r) (ts_col_end r) (ts_row_start r) (ts_row_end r) (f_cur_segmap r) (f_mvs r) (lf_noskip_mask r) (t_scratch_pal_idx r) (ft_pal_idx r) (ts_pal_idx r) (walk_log r).
Definition set_t_a (v : BlockContext) (r : Tile) : Tile :=
  mk_tile (ts_msac r) (t_ext r) (t_tl_4x4_filter r) (t_bx r) (t_by r) v (t_l r) (t_pal_sz_uv_a r) (t_pal_sz_uv_l r) (t_al_pal r) (t_pal r) (ft_pal r) (t_warpmv r) (t_cur_sb_cdef_idx r) (t_blk r) (ft_b r) (ts_last_qidx r) (ts_last_delta_lf r) (ts_dq r) (ts_dqmem r) (ts_lflvl r) (ts_lflvlmem r) (ts_col_start r) (ts_col_end r) (ts_row_start r) (ts_row_end r) (f_cur_segmap r) (f_mvs r) (lf_noskip_mask r) (t_scratch_pal_idx r) (ft_pal_idx r) (ts_pal_idx r) (walk_log r).
Definition set_t_l (v : BlockContext) (r : Tile) : Tile :=
  mk_tile (ts_msac r) (t_ext r) (t_tl_4x4_filter r) (t_bx r) (t_by r) (t_a r) v (t_pal_sz_uv_a r) (t_pal_sz_uv_l r) (t_al_pal r) (t_pal r) (ft_pal r) (t_warpmv r) (t_cur_sb_cdef_idx r) (t_blk r) (ft_b r) (ts_last_qidx r) (ts_last_delta_lf r) (ts_dq r) (ts_dqmem r) (ts_lflvl r) (ts_lflvlmem r) (ts_col_start r) (ts_col_end r) (ts_row_start r) (ts_row_end r) (f_cur_segmap r) (f_mvs r) (lf_noskip_mask r) (t_scratch_pal_idx r) (ft_pal_idx r) (ts_pal_idx r) (walk_log r).
Definition set_t_pal_sz_uv_a (v : list Z) (r : Tile) : Tile :=
  mk_tile (ts_msac r) (t_ext r) (t_tl_4x4_filter r) (t_bx r) (t_by r) (t_a r) (t_l r) v (t_pal_sz_uv_l r) (t_al_pal r) (t_pal r) (ft_pal r) (t_warpmv r) (t_cur_sb_cdef_idx r) (t_blk r) (ft_b r) (ts_last_qidx r) (ts_last_delta_lf r) (ts_dq r) (ts_dqmem r) (ts_lflvl r) (ts_lflvlmem r) (ts_col_start r) (ts_col_end r) (ts_row_start r) (ts_row_end r) (f_cur_segmap r) (f_mvs r) (lf_noskip_mask r) (t_scratch_pal_idx r) (ft_pal_idx r) (ts_pal_idx r) (walk_log r).
Definition set_t_pal_sz_uv_l (v : list Z) (r : Tile) : Tile :=
  mk_tile (ts_msac r) (t_ext r) (t_tl_4x4_filter r) (t_bx r) (t_by r) (t_a r) (t_l r) (t_pal_sz_uv_a r) v (t_al_pal r) (t_pal r) (ft_pal r) (t_warpmv r) (t_cur_sb_cdef_idx r) (t_blk r) (ft_b r) (ts_last_qidx r) (ts_last_delta_lf r) (ts_dq r) (ts_dqmem r) (ts_lflvl r) (ts_lflvlmem r) (ts_col_start r) (ts_col_end r) (ts_row_start r) (ts_row_end r) (f_cur_segmap r) (f_mvs r) (lf_noskip_mask r) (t_scratch_pal_idx r) (ft_pal_idx r) (ts_pal_idx r) (walk_log r).
Definition set_t_al_pal (v : Z -> Z -> Z -> list Z) (r : Tile) : Tile :=
  mk_tile (ts_msac r) (t_ext r) (t_tl_4x4_filter r) (t_bx r) (t_by r) (t_a r) (t_l r) (t_pal_sz_uv_a r) (t_pal_sz_uv_l r) v (t_pal r) (ft_pal r) (t_warpmv r) (t_cur_sb_cdef_idx r) (t_blk r) (ft_b r) (ts_last_qidx r) (ts_last_delta_lf r) (ts_dq r) (ts_dqmem r) (ts_lflvl r) (ts_lflvlmem r) (ts_col_start r) (ts_col_end r) (ts_row_start r) (ts_row_end r) (f_cur_segmap r) (f_mvs r) (lf_noskip_mask r) (t_scratch_pal_idx r) (ft_pal_idx r) (ts_pal_idx r) (walk_log r).
Definition set_t_pal (v : Z -> list Z) (r : Tile) : Tile :=
  mk_tile (ts_msac r) (t_ext r) (t_tl_4x4_filter r) (t_bx r) (t_by r) (t_a r) (t_l r) (t_pal_sz_uv_a r) (t_pal_sz_uv_l r) (t_al_pal r) v (ft_pal r) (t_warpmv r) (t_cur_sb_cdef_idx r) (t_blk r) (ft_b r) (ts_last_qidx r) (ts_last_delta_lf r) (ts_dq r) (ts_dqmem r) (ts_lflvl r) (ts_lflvlmem r) (ts_col_start r) (ts_col_end r) (ts_row_start r) (ts_row_end r) (f_cur_segmap r) (f_mvs r) (lf_noskip_mask r) (t_scratch_pal_idx r) (ft_pal_idx r) (ts_pal_idx r) (walk_log r).
Definition set_ft_pal (v : Z -> Z -> list Z) (r : Tile) : Tile :=
  mk_tile (ts_msac r) (t_ext r) (t_tl_4x4_filter r) (t_bx r) (t_by r) (t_a r) (t_l r) (t_pal_sz_uv_a r) (t_pal_sz_uv_l r) (t_al_pal r) (t_pal r) v (t_warpmv r) (t_cur_sb_cdef_idx r) (t_blk r) (ft_b r) (ts_last_qidx r) (ts_last_delta_lf r) (ts_dq r) (ts_dqmem r) (ts_lflvl r) (ts_lflvlmem r) (ts_col_start r) (ts_col_end r) (ts_row_start r) (ts_row_end r) (f_cur_segmap r) (f_mvs r) (lf_noskip_mask r) (t_scratch_pal_idx r) (ft_pal_idx r) (ts_pal_idx r) (walk_log r).
Definition set_t_warpmv (v : WarpedMotionParams) (r : Tile) : Tile :=
  mk_tile (ts_msac r) (t_ext r) (t_tl_4x4_filter r) (t_bx r) (t_by r) (t_a r) (t_l r) (t_pal_sz_uv_a r) (t_pal_sz_uv_l r) (t_al_pal r) (t_pal r) (ft_pal r) v (t_cur_sb_cdef_idx r) (t_blk r) (ft_b r) (ts_last_qidx r) (ts_last_delta_lf r) (ts_dq r) (ts_dqmem r) (ts_lflvl r) (ts_lflvlmem r) (ts_col_start r) (ts_col_end r) (ts_row_start r) (ts_row_end r) (f_cur_segmap r) (f_mvs r) (lf_noskip_mask r) (t_scratch_pal_idx r) (ft_pal_idx r) (ts_pal_idx r) (walk_log r).
Definition set_t_cur_sb_cdef_idx (v : list Z) (r : Tile) : Tile :=
  mk_tile (ts_msac r) (t_ext r) (t_tl_4x4_filter r) (t_bx r) (t_by r) (t_a r) (t_l r) (t_pal_sz_uv_a r) (t_pal_sz_uv_l r) (t_al_pal r) (t_pal r) (ft_pal r) (t_warpmv r) v (t_blk r) (ft_b r) (ts_last_qidx r) (ts_last_delta_lf r) (ts_dq r) (ts_dqmem r) (ts_lflvl r) (ts_lflvlmem r) (ts_col_start r) (ts_col_end r) (ts_row_start r) (ts_row_end r) (f_cur_segmap r) (f_mvs r) (lf_noskip_mask r) (t_scratch_pal_idx r) (ft_pal_idx r) (ts_pal_idx r) (walk_log r).
Definition set_t_blk (v : Av1Block) (r : Tile) : Tile :=
  mk_tile (ts_msac r) (t_ext r) (t_tl_4x4_filter r) (t_bx r) (t_by r) (t_a r) (t_l r) (t_pal_sz_uv_a r) (t_pal_sz_uv_l r) (t_al_pal r) (t_pal r) (ft_pal r) (t_warpmv r) (t_cur_sb_cdef_idx r) v (ft_b r) (ts_last_qidx r) (ts_last_delta_lf r) (ts_dq r) (ts_dqmem r) (ts_lflvl r) (ts_lflvlmem r) (ts_col_start r) (ts_col_end r) (ts_row_start r) (ts_row_end r) (f_cur_segmap r) (f_mvs r) (lf_noskip_mask r) (t_scratch_pal_idx r) (ft_pal_idx r) (ts_pal_idx r) (walk_log r).
Definition set_ft_b (v : list Av1Block) (r : Tile) : Tile :=
  mk_tile (ts_msac r) (t_ext r) (t_tl_4x4_filter r) (t_bx r) (t_by r) (t_a r) (t_l r) (t_pal_sz_uv_a r) (t_pal_sz_uv_l r) (t_al_pal r) (t_pal r) (ft_pal r) (t_warpmv r) (t_cur_sb_cdef_idx r) (t_blk r) v (ts_last_qidx r) (ts_last_delta_lf r) (ts_dq r) (ts_dqmem r) (ts_lflvl r) (ts_lflvlmem r) (ts_col_start r) (ts_col_end r) (ts_row_start r) (ts_row_end r) (f_cur_segmap r) (f_mvs r) (lf_noskip_mask r) (t_scratch_pal_idx r) (ft_pal_idx r) (ts_pal_idx r) (walk_log r).
Definition set_ts_last_qidx (v : Z) (r : Tile) : Tile :=
  mk_tile (ts_msac r) (t_ext r) (t_tl_4x4_filter r) (t_bx r) (t_by r) (t_a r) (t_l r) (t_pal_sz_uv_a r) (t_pal_sz_uv_l r) (t_al_pal r) (t_pal r) (ft_pal r) (t_warpmv r) (t_cur_sb_cdef_idx r) (t_blk r) (ft_b r) v (ts_last_delta_lf r) (ts_dq r) (ts_dqmem r) (ts_lflvl r) (ts_lflvlmem r) (ts_col_start r) (ts_col_end r) (ts_row_start r) (ts_row_end r) (f_cur_segmap r) (f_mvs r) (lf_noskip_mask r) (t_scratch_pal_idx r) (ft_pal_idx r) (ts_pal_idx r) (walk_log r).
Definition set_ts_last_delta_lf (v : list Z) (r : Tile) : Tile :=
  mk_tile (ts_msac r) (t_ext r) (t_tl_4x4_filter r) (t_bx r) (t_by r) (t_a r) (t_l r) (t_pal_sz_uv_a r) (t_pal_sz_uv_l r) (t_al_pal r) (t_pal r) (ft_pal r) (t_warpmv r) (t_cur_sb_cdef_idx r) (t_blk r) (ft_b r) (ts_last_qidx r) v (ts_dq r) (ts_dqmem r) (ts_lflvl r) (ts_lflvlmem r) (ts_col_start r) (ts_col_end r) (ts_row_start r) (ts_row_end r) (f_cur_segmap r) (f_mvs r) (lf_noskip_mask r) (t_scratch_pal_idx r) (ft_pal_idx r) (ts_pal_idx r) (walk_log r).
Definition set_ts_dq (v : TableRef) (r : Tile) : Tile :=
  mk_tile (ts_msac r) (t_ext r) (t_tl_4x4_filter r) (t_bx r) (t_by r) (t_a r) (t_l r) (t_pal_sz_uv_a r) (t_pal_sz_uv_l r) (t_al_pal r) (t_pal r) (ft_pal r) (t_warpmv r) (t_cur_sb_cdef_idx r) (t_blk r) (ft_b r) (ts_last_qidx r) (ts_last_delta_lf r) v (ts_dqmem r) (ts_lflvl r) (ts_lflvlmem r) (ts_col_start r) (ts_col_end r) (ts_row_start r) (ts_row_end r) (f_cur_segmap r) (f_mvs r) (lf_noskip_mask r) (t_scratch_pal_idx r) (ft_pal_idx r) (ts_pal_idx r) (walk_log r).
Definition set_ts_dqmem (v : Z -> list Z) (r : Tile) : Tile :=
  mk_tile (ts_msac r) (t_ext r) (t_tl_4x4_filter r) (t_bx r) (t_by r) (t_a r) (t_l r) (t_pal_sz_uv_a r) (t_pal_sz_uv_l r) (t_al_pal r) (t_pal r) (ft_pal r) (t_warpmv r) (t_cur_sb_cdef_idx r) (t_blk r) (ft_b r) (ts_last_qidx r) (ts_last_delta_lf r) (ts_dq r) v (ts_lflvl r) (ts_lflvlmem r) (ts_col_start r) (ts_col_end r) (ts_row_start r) (ts_row_end r) (f_cur_segmap r) (f_mvs r) (lf_noskip_mask r) (t_scratch_pal_idx r) (ft_pal_idx r) (ts_pal_idx r) (walk_log r).
Definition set_ts_lflvl (v : TableRef) (r : Tile) : Tile :=
  mk_tile (ts_msac r) (t_ext r) (t_tl_4x4_filter r) (t_bx r) (t_by r) (t_a r) (t_l r) (t_pal_sz_uv_a r) (t_pal_sz_uv_l r) (t_al_pal r) (t_pal r) (ft_pal r) (t_warpmv r) (t_cur_sb_cdef_idx r) (t_blk r) (ft_b r) (ts_last_qidx r) (ts_last_delta_lf r) (ts_dq r) (ts_dqmem r) v (ts_lflvlmem r) (ts_col_start r) (ts_col_end r) (ts_row_start r) (ts_row_end r) (f_cur_segmap r) (f_mvs r) (lf_noskip_mask r) (t_scratch_pal_idx r) (ft_pal_idx r) (ts_pal_idx r) (walk_log r).
Definition set_ts_lflvlmem (v : list Z) (r : Tile) : Tile :=
  mk_tile (ts_msac r) (t_ext r) (t_tl_4x4_filter r) (t_bx r) (t_by r) (t_a r) (t_l r) (t_pal_sz_uv_a r) (t_pal_sz_uv_l r) (t_al_pal r) (t_pal r) (ft_pal r) (t_warpmv r) (t_cur_sb_cdef_idx r) (t_blk r) (ft_b r) (ts_last_qidx r) (ts_last_delta_lf r) (ts_dq r) (ts_dqmem r) (ts_lflvl r) v (ts_col_start r) (ts_col_end r) (ts_row_start r) (ts_row_end r) (f_cur_segmap r) (f_mvs r) (lf_noskip_mask r) (t_scratch_pal_idx r) (ft_pal_idx r) (ts_pal_idx r) (walk_log r).
Definition set_ts_col_start (v : Z) (r : Tile) : Tile :=
  mk_tile (ts_msac r) (t_ext r) (t_tl_4x4_filter r) (t_bx r) (t_by r) (t_a r) (t_l r) (t_pal_sz_uv_a r) (t_pal_sz_uv_l r) (t_al_pal r) (t_pal r) (ft_pal r) (t_warpmv r) (t_cur_sb_cdef_idx r) (t_blk r) (ft_b r) (ts_last_qidx r) (ts_last_delta_lf r) (ts_dq r) (ts_dqmem r) (ts_lflvl r) (ts_lflvlmem r) v (ts_col_end r) (ts_row_start r) (ts_row_end r) (f_cur_segmap r) (f_mvs r) (lf_noskip_mask r) (t_scratch_pal_idx r) (ft_pal_idx r) (ts_pal_idx r) (walk_log r).
Definition set_ts_col_end (v : Z) (r : Tile) : Tile :=
  mk_tile (ts_msac r) (t_ext r) (t_tl_4x4_filter r) (t_bx r) (t_by r) (t_a r) (t_l r) (t_pal_sz_uv_a r) (t_pal_sz_uv_l r) (t_al_pal r) (t_pal r) (ft_pal r) (t_warpmv r) (t_cur_sb_cdef_idx r) (t_blk r) (ft_b r) (ts_last_qidx r) (ts_last_delta_lf r) (ts_dq r) (ts_dqmem r) (ts_lflvl r) (ts_lflvlmem r) (ts_col_start r) v (ts_row_start r) (ts_row_end r) (f_cur_segmap r) (f_mvs r) (lf_noskip_mask r) (t_scratch_pal_idx r) (ft_pal_idx r) (ts_pal_idx r) (walk_log r).
Definition set_ts_row_start (v : Z) (r : Tile) : Tile :=
  mk_tile (ts_msac r) (t_ext r) (t_tl_4x4_filter r) (t_bx r) (t_by r) (t_a r) (t_l r) (t_pal_sz_uv_a r) (t_pal_sz_uv_l r) (t_al_pal r) (t_pal r) (ft_pal r) (t_warpmv r) (t_cur_sb_cdef_idx r) (t_blk r) (ft_b r) (ts_last_qidx r) (ts_last_delta_lf r) (ts_dq r) (ts_dqmem r) (ts_lflvl r) (ts_lflvlmem r) (ts_col_start r) (ts_col_end r) v (ts_row_end r) (f_cur_segmap r) (f_mvs r) (lf_noskip_mask r) (t_scratch_pal_idx r) (ft_pal_idx r) (ts_pal_idx r) (walk_log r).
Definition set_ts_row_end (v : Z) (r : Tile) : Tile :=
  mk_tile (ts_msac r) (t_ext r) (t_tl_4x4_filter r) (t_bx r) (t_by r) (t_a r) (t_l r) (t_pal_sz_uv_a r) (t_pal_sz_uv_l r) (t_al_pal r) (t_pal r) (ft_pal r) (t_warpmv r) (t_cur_sb_cdef_idx r) (t_blk r) (ft_b r) (ts_last_qidx r) (ts_last_delta_lf r) (ts_dq r) (ts_dqmem r) (ts_lflvl r) (ts_lflvlmem r) (ts_col_start r) (ts_col_end r) (ts_row_start r) v (f_cur_segmap r) (f_mvs r) (lf_noskip_mask r) (t_scratch_pal_idx r) (ft_pal_idx r) (ts_pal_idx r) (walk_log r).
Definition set_f_cur_segmap (v : list Z) (r : Tile) : Tile :=
  mk_tile (ts_msac r) (t_ext r) (t_tl_4x4_filter r) (t_bx r) (t_by r) (t_a r) (t_l r) (t_pal_sz_uv_a r) (t_pal_sz_uv_l r) (t_al_pal r) (t_pal r) (ft_pal r) (t_warpmv r) (t_cur_sb_cdef_idx r) (t_blk r) (ft_b r) (ts_last_qidx r) (ts_last_delta_lf r) (ts_dq r) (ts_dqmem r) (ts_lflvl r) (ts_lflvlmem r) (ts_col_start r) (ts_col_end r) (ts_row_start r) (ts_row_end r) v (f_mvs r) (lf_noskip_mask r) (t_scratch_pal_idx r) (ft_pal_idx r) (ts_pal_idx r) (walk_log r).
Definition set_f_mvs (v : list refmvs) (r : Tile) : Tile :=
  mk_tile (ts_msac r) (t_ext r) (t_tl_4x4_filter r) (t_bx r) (t_by r) (t_a r) (t_l r) (t_pal_sz_uv_a r) (t_pal_sz_uv_l r) (t_al_pal r) (t_pal r) (ft_pal r) (t_warpmv r) (t_cur_sb_cdef_idx r) (t_blk r) (ft_b r) (ts_last_qidx r) (ts_last_delta_lf r) (ts_dq r) (ts_dqmem r) (ts_lflvl r) (ts_lflvlmem r) (ts_col_start r) (ts_col_end r) (ts_row_start r) (ts_row_end r) (f_cur_segmap r) v (lf_noskip_mask r) (t_scratch_pal_idx r) (ft_pal_idx r) (ts_pal_idx r) (walk_log r).
Definition set_lf_noskip_mask (v : list Z) (r : Tile) : Tile :=
  mk_tile (ts_msac r) (t_ext r) (t_tl_4x4_filter r) (t_bx r) (t_by r) (t_a r) (t_l r) (t_pal_sz_uv_a r) (t_pal_sz_uv_l r) (t_al_pal r) (t_pal r) (ft_pal r) (t_warpmv r) (t_cur_sb_cdef_idx r) (t_blk r) (ft_b r) (ts_last_qidx r) (ts_last_delta_lf r) (ts_dq r) (ts_dqmem r) (ts_lflvl r) (ts_lflvlmem r) (ts_col_start r) (ts_col_end r) (ts_row_start r) (ts_row_end r) (f_cur_segmap r) (f_mvs r) v (t_scratch_pal_idx r) (ft_pal_idx r) (ts_pal_idx r) (walk_log r).
Definition set_t_scratch_pal_idx (v : Z -> Z) (r : Tile) : Tile :=
  mk_tile (ts_msac r) (t_ext r) (t_tl_4x4_filter r) (t_bx r) (t_by r) (t_a r) (t_l r) (t_pal_sz_uv_a r) (t_pal_sz_uv_l r) (t_al_pal r) (t_pal r) (ft_pal r) (t_warpmv r) (t_cur_sb_cdef_idx r) (t_blk r) (ft_b r) (ts_last_qidx r) (ts_last_delta_lf r) (ts_dq r) (ts_dqmem r) (ts_lflvl r) (ts_lflvlmem r) (ts_col_start r) (ts_col_end r) (ts_row_start r) (ts_row_end r) (f_cur_segmap r) (f_mvs r) (lf_noskip_mask r) v (ft_pal_idx r) (ts_pal_idx r) (walk_log r).
Definition set_ft_pal_idx (v : Z -> Z) (r : Tile) : Tile :=
  mk_tile (ts_msac r) (t_ext r) (t_tl_4x4_filter r) (t_bx r) (t_by r) (t_a r) (t_l r) (t_pal_sz_uv_a r) (t_pal_sz_uv_l r) (t_al_pal r) (t_pal r) (ft_pal r) (t_warpmv r) (t_cur_sb_cdef_idx r) (t_blk r) (ft_b r) (ts_last_qidx r) (ts_last_delta_lf r) (ts_dq r) (ts_dqmem r) (ts_lflvl r) (ts_lflvlmem r) (ts_col_start r) (ts_col_end r) (ts_row_start r) (ts_row_end r) (f_cur_segmap r) (f_mvs r) (lf_noskip_mask r) (t_scratch_pal_idx r) v (ts_pal_idx r) (walk_log r).
Definition set_ts_pal_idx (v : Z) (r : Tile) : Tile :=
  mk_tile (ts_msac r) (t_ext r) (t_tl_4x4_filter r) (t_bx r) (t_by r) (t_a r) (t_l r) (t_pal_sz_uv_a r) (t_pal_sz_uv_l r) (t_al_pal r) (t_pal r) (ft_pal r) (t_warpmv r) (t_cur_sb_cdef_idx r) (t_blk r) (ft_b r) (ts_last_qidx r) (ts_last_delta_lf r) (ts_dq r) (ts_dqmem r) (ts_lflvl r) (ts_lflvlmem r) (ts_col_start r) (ts_col_end r) (ts_row_start r) (ts_row_end r) (f_cur_segmap r) (f_mvs r) (lf_noskip_mask r) (t_scratch_pal_idx r) (ft_pal_idx r) v (walk_log r).
Definition set_walk_log (v : list BlockCall) (r : Tile) : Tile :=
  mk_tile (ts_msac r) (t_ext r) (t_tl_4x4_filter r) (t_bx r) (t_by r) (t_a r) (t_l r) (t_pal_sz_uv_a r) (t_pal_sz_uv_l r) (t_al_pal r) (t_pal r) (ft_pal r) (t_warpmv r) (t_cur_sb_cdef_idx r) (t_blk r) (ft_b r) (ts_last_qidx r) (ts_last_delta_lf r) (ts_dq r) (ts_dqmem r) (ts_lflvl r) (ts_lflvlmem r) (ts_col_start r) (ts_col_end r) (ts_row_start r) (ts_row_end r) (f_cur_segmap r) (f_mvs r) (lf_noskip_mask r) (t_scratch_pal_idx r) (ft_pal_idx r) (ts_pal_idx r) v.

End TileState.

Arguments Tile : clear implicits.
(** ** The code outside [getbits.c] and [decode.c]

    The range coder ([msac.h]), the constant tables ([tables.h]), the context
    derivations ([env.h]), the reference-MV engine ([ref_mvs.h]), the warp
    solver ([warpmv.h]), the loop-filter mask builder ([lf_mask.h]) and the
    reconstruction hooks ([f->bd_fn]) are not among the sources.  The model
    takes them as one record of functions; every property below holds for
    every such record. *)

(** A CDF of [ts->cdf], named by its member and its indices. *)
Record Cdf : Type := mk_cdf { cdf_name : string; cdf_idx : list Z }.

Definition cdf (name : string) (ix : list Z) : Cdf := mk_cdf name ix.
(** A member of a CDF group: [&mv_cdf->comp[i]] then [->classes]. *)
Definition cdf_sub (c : Cdf) (member : string) (ix : list Z) : Cdf :=
  mk_cdf (cdf_name c ++ "." ++ member) (cdf_idx c ++ ix).

(** A warp sample: [pts[i][0]] (in) and [pts[i][1]] (out), each [x, y]. *)
Record Sample : Type := mk_sample {
  s_in_x : Z; s_in_y : Z; s_out_x : Z; s_out_y : Z
}.

#[global] Instance Sample_inhabited : Inhabited Sample := populate (mk_sample 0 0 0 0).

(** What [av1_find_ref_mvs] hands back. *)
Record RefMvs : Type := mk_find {
  mvstack : list candidate_mv;
  n_mvs : Z;
  mvlist : Z -> Z -> mv;
  mv_ctx : Z
}.

(** What a reconstruction hook may write: the range coder (coefficients are
    read inside the hooks), the state of the collaborators, the filter of
    the top-left 4x4 block and the palette-index cursor. *)
Record HookOut (Msac Ext : Type) : Type := mk_hook_out {
  ho_msac : Msac;
  ho_ext : Ext;
  ho_tl_4x4_filter : Z;
  ho_pal_idx : Z
}.
Arguments mk_hook_out {Msac Ext}.
Arguments ho_msac {Msac Ext}.
Arguments ho_ext {Msac Ext}.
Arguments ho_tl_4x4_filter {Msac Ext}.
Arguments ho_pal_idx {Msac Ext}.

Section ExternalsDef.

Context {Msac Ext : Type}.

Record Externals : Type := mk_externals {
  (* msac.h *)
  msac_init : list Z -> Msac;
  msac_decode_bool_adapt : Msac -> Cdf -> Z * Msac;
  msac_decode_symbol_adapt : Msac -> Cdf -> Z -> Z * Msac;
  msac_decode_bool : Msac -> Z -> Z * Msac;
  msac_decode_bools : Msac -> Z -> Z * Msac;
  msac_decode_uniform : Msac -> Z -> Z * Msac;
  (* tables.h *)
  av1_block_dimensions : Z -> list Z;
  av1_txfm_dimensions : Z -> TxfmInfo;
  av1_max_txfm_size_for_bs : Z -> Z -> Z;
  av1_ymode_size_context : Z -> Z;
  intra_mode_context : Z -> Z;
  cfl_allowed_mask : Z;
  wedge_allowed_mask : Z;
  interintra_allowed_mask : Z;
  av1_wedge_ctx_lut : Z -> Z;
  av1_comp_inter_pred_modes : Z -> Z -> Z;
  av1_filter_2d : Z -> Z -> Z;
  eve_av1_filter_dir : Z -> Z -> Z;
  av1_block_sizes : Z -> Z -> Z -> Z;
  av1_al_part_ctx : Z -> Z -> Z -> Z;
  sbtype_to_bs : Z -> Z;
  dav1d_dq_tbl : Z -> Z -> Z -> Z;
  (* env.h *)
  get_cur_frame_segid : Z -> Z -> Z -> Z -> list Z -> Z -> Z * Z;
  (* get_intra_ctx, get_comp_ctx, get_comp_dir_ctx and the av1_get_*_ctx
     family: (a, l, by4, bx4, have_top, have_left) *)
  block_ctx : string -> BlockContext -> BlockContext -> Z -> Z -> Z -> Z -> Z;
  get_tx_ctx : BlockContext -> BlockContext -> TxfmInfo -> Z -> Z -> Z;
  get_partition_ctx : BlockContext -> BlockContext -> Z -> Z -> Z -> Z;
  gather_top_partition_prob : Msac -> Cdf -> Z -> Z;
  gather_left_partition_prob : Msac -> Cdf -> Z -> Z;
  get_drl_context : list candidate_mv -> Z -> Z;
  get_mask_comp_ctx : BlockContext -> BlockContext -> Z -> Z -> Z;
  get_jnt_comp_ctx : Z -> Z -> Z -> Z -> BlockContext -> BlockContext -> Z -> Z -> Z;
  get_filter_ctx : BlockContext -> BlockContext -> Z -> Z -> Z -> Z -> Z -> Z;
  get_gmv_2d : Frame -> Z -> Z -> Z -> Z -> Z -> mv;
  unset_hp_bit : mv -> mv;
  splat_intraref : list refmvs -> Z -> Z -> Z -> Z -> Z -> list refmvs;
  splat_intrabc_mv : list refmvs -> Z -> Z -> Z -> Z -> mv -> list refmvs;
  splat_oneref_mv : list refmvs -> Z -> Z -> Z -> Z -> Z -> Z -> mv -> Z -> list refmvs;
  splat_tworef_mv : list refmvs -> Z -> Z -> Z -> Z -> Z -> Z -> Z -> mv -> mv -> list refmvs;
  (* ref_mvs.h: (libaom_cm, mvs, refs, bs, bp, by, bx, tile bounds) *)
  av1_find_ref_mvs : Frame -> Ext -> list refmvs -> Z * Z -> Z -> Z -> Z -> Z ->
                     Z -> Z -> Z -> Z -> RefMvs;
  (* warpmv.h *)
  find_affine_int : list Sample -> Z -> Z -> Z -> mv -> WarpedMotionParams ->
                    Z -> Z -> Z * WarpedMotionParams;
  get_shear_params : WarpedMotionParams -> Z * WarpedMotionParams;
  (* lf_mask.h: (frame, ts->lflvl, block, bx, by, bs, has_chroma[, is_globalmv]) *)
  dav1d_create_lf_mask_intra : Frame -> TableRef -> list Z -> Av1Block ->
                               Z -> Z -> Z -> Z -> Ext -> Ext;
  dav1d_create_lf_mask_inter : Frame -> TableRef -> list Z -> Av1Block ->
                               Z -> Z -> Z -> Z -> Z -> Ext -> Ext;
  dav1d_calc_lf_values : Frame -> list Z -> list Z;
  (* f->bd_fn: (frame, tile, bs, [intra_edge_flags,] b) *)
  recon_b_intra : Frame -> Tile Msac Ext -> Z -> Z -> Av1Block -> HookOut Msac Ext;
  recon_b_inter : Frame -> Tile Msac Ext -> Z -> Av1Block -> HookOut Msac Ext;
  read_coef_blocks : Frame -> Tile Msac Ext -> Z -> Av1Block -> HookOut Msac Ext
}.

End ExternalsDef.

Arguments Externals : clear implicits.

(** [ctz] of [common/attributes.h]: the number of trailing zero bits. *)
Fixpoint pos_ctz (p : positive) : Z :=
  match p with
  | xO q => 1 + pos_ctz q
  | _ => 0
  end.
Definition ctz (x : Z) : Z :=
  match x with
  | Zpos p => pos_ctz p
  | _ => 0
  end.

(** ** The parser monad: a computation over the tile state *)

Section Monad.

Context {Msac Ext : Type}.

Definition M (A : Type) : Type := Tile Msac Ext -> A * Tile Msac Ext.

Definition ret {A} (x : A) : M A := fun t => (x, t).
Definition bind {A B} (m : M A) (k : A -> M B) : M B :=
  fun t => let '(x, t') := m t in k x t'.
Definition gets {A} (p : Tile Msac Ext -> A) : M A := fun t => (p t, t).
Definition modify (g : Tile Msac Ext -> Tile Msac Ext) : M unit := fun t => (tt, g t).
Definition when (c : bool) (m : M unit) : M unit := if c then m else ret tt.

Definition exec {A} (m : M A) (t : Tile Msac Ext) : Tile Msac Ext := snd (m t).
Definition eval {A} (m : M A) (t : Tile Msac Ext) : A := fst (m t).

End Monad.

Declare Scope parser_scope.
Delimit Scope parser_scope with parser.
Notation "x <- c ;; k" := (bind c (fun x => k))
  (at level 20, c at level 99, k at level 200, only parsing) : parser_scope.
Notation "' pat <- c ;; k" := (bind c (fun x => match x with pat => k end))
  (at level 20, pat pattern, c at level 99, k at level 200, only parsing) : parser_scope.
Notation "c ;; k" := (bind c (fun _ => k))
  (at level 100, k at level 200, only parsing, right associativity) : parser_scope.
Local Open Scope parser_scope.

(** ** [src/decode.c]: the functions *)

Section Decode.

Context {Msac Ext : Type}.
Variable X : Externals Msac Ext.
Variable f : Frame.

Local Abbreviation Parser := (@M Msac Ext).

(** *** The range coder and the tile state, as steps of the parser *)

Definition bool_adapt (c : Cdf) : Parser Z := fun t =>
  let '(v, m) := msac_decode_bool_adapt X (ts_msac t) c in (v, set_ts_msac m t).
Definition symbol_adapt (c : Cdf) (n : Z) : Parser Z := fun t =>
  let '(v, m) := msac_decode_symbol_adapt X (ts_msac t) c n in (v, set_ts_msac m t).
Definition decode_bool (p : Z) : Parser Z := fun t =>
  let '(v, m) := msac_decode_bool X (ts_msac t) p in (v, set_ts_msac m t).
Definition decode_bools (n : Z) : Parser Z := fun t =>
  let '(v, m) := msac_decode_bools X (ts_msac t) n in (v, set_ts_msac m t).
Definition decode_uniform (n : Z) : Parser Z := fun t =>
  let '(v, m) := msac_decode_uniform X (ts_msac t) n in (v, set_ts_msac m t).

(** [b->member = v] and [b->member]. *)
Definition setb (g : Av1Block -> Av1Block) : Parser unit :=
  modify (fun t => set_t_blk (g (t_blk t)) t).
Definition getb {A} (p : Av1Block -> A) : Parser A := gets (fun t => p (t_blk t)).

(** [memset(&t->a->member[off], v, n)] and [memset(&t->l.member[off], v, n)]. *)
Definition memset_a (fld : CtxField) (off v n : Z) : Parser unit :=
  modify (fun t => set_t_a (ctx_memset (t_a t) fld off v n) t).
Definition memset_l (fld : CtxField) (off v n : Z) : Parser unit :=
  modify (fun t => set_t_l (ctx_memset (t_l t) fld off v n) t).

Definition add_bx (d : Z) : Parser unit := modify (fun t => set_t_bx (t_bx t + d) t).
Definition add_by (d : Z) : Parser unit := modify (fun t => set_t_by (t_by t + d) t).

Fixpoint foldM {A B} (g : B -> A -> Parser B) (l : list A) (b : B) : Parser B :=
  match l with
  | [] => ret b
  | x :: l' => b' <- g b x ;; foldM g l' b'
  end.

(** A C loop whose step is not fixed: [fuel] bounds the number of passes. *)
Fixpoint for_loop {S} (fuel : nat) (cond : S -> bool) (body : S -> Parser S) (s : S)
    : Parser S :=
  match fuel with
  | O => ret s
  | S fuel' => if cond s then s' <- body s ;; for_loop fuel' cond body s' else ret s
  end.

(** Applies the writes of a reconstruction hook. *)
Definition hook (h : Tile Msac Ext -> HookOut Msac Ext) : Parser unit :=
  modify (fun t =>
    let o := h t in
    set_ts_pal_idx (ho_pal_idx o)
      (set_t_tl_4x4_filter (ho_tl_4x4_filter o)
        (set_t_ext (ho_ext o) (set_ts_msac (ho_msac o) t)))).

(** [b_dim = av1_block_dimensions[bs]]. *)
Definition b_dim (bs i : Z) : Z := idx (av1_block_dimensions X bs) i.

(** *** [init_quant_tables] *)

Definition init_quant_tables (qidx : Z) (dq : Z -> list Z) : Z -> list Z :=
  let hi := of_bool (seq_bpc f >? 8) in
  fold_left
    (fun dq i =>
       let yac := if truthy (hdr_seg_enabled f)
                  then iclip_u8 (qidx + hdr_seg_delta_q f i) else qidx in
       let ydc := iclip_u8 (yac + hdr_quant_ydc_delta f) in
       let uac := iclip_u8 (yac + hdr_quant_uac_delta f) in
       let udc := iclip_u8 (yac + hdr_quant_udc_delta f) in
       let vac := iclip_u8 (yac + hdr_quant_vac_delta f) in
       let vdc := iclip_u8 (yac + hdr_quant_vdc_delta f) in
       upd1 dq i [ dav1d_dq_tbl X hi ydc 0; dav1d_dq_tbl X hi yac 1;
                   dav1d_dq_tbl X hi udc 0; dav1d_dq_tbl X hi uac 1;
                   dav1d_dq_tbl X hi vdc 0; dav1d_dq_tbl X hi vac 1 ])
    (seqZ 0 (if truthy (hdr_seg_enabled f) then 8 else 1)) dq.

(** *** [read_mv_component_diff], [read_mv_residual] *)

Definition read_mv_component_diff (mv_comp : Cdf) (have_fp : Z) : Parser Z :=
  let have_hp := hdr_hp f in
  sign <- bool_adapt (cdf_sub mv_comp "sign" []) ;;
  cl <- symbol_adapt (cdf_sub mv_comp "classes" []) 11 ;;
  '(up, fp, hp) <-
    (if cl =? 0 then
       up <- bool_adapt (cdf_sub mv_comp "class0" []) ;;
       if truthy have_fp then
         fp <- symbol_adapt (cdf_sub mv_comp "class0_fp" [up]) 4 ;;
         hp <- (if truthy have_hp
                then bool_adapt (cdf_sub mv_comp "class0_hp" []) else ret 1) ;;
         ret (up, fp, hp)
       else ret (up, 3, 1)
     else
       up <- foldM (fun up n =>
                      bit <- bool_adapt (cdf_sub mv_comp "classN" [n]) ;;
                      ret (Z.lor up (Z.shiftl bit n)))
                   (seqZ 0 cl) (Z.shiftl 1 cl) ;;
       if truthy have_fp then
         fp <- symbol_adapt (cdf_sub mv_comp "classN_fp" []) 4 ;;
         hp <- (if truthy have_hp
                then bool_adapt (cdf_sub mv_comp "classN_hp" []) else ret 1) ;;
         ret (up, fp, hp)
       else ret (up, 3, 1)) ;;
  let diff := Z.lor (Z.lor (Z.shiftl up 3) (Z.shiftl fp 1)) hp + 1 in
  ret (if truthy sign then - diff else diff).

Definition read_mv_residual (ref_mv : mv) (mv_cdf : Cdf) (have_fp : Z) : Parser mv :=
  joint <- symbol_adapt (cdf "mv.joint" []) N_MV_JOINTS ;;
  if joint =? MV_JOINT_HV then
    dy <- read_mv_component_diff (cdf_sub mv_cdf "comp" [0]) have_fp ;;
    dx <- read_mv_component_diff (cdf_sub mv_cdf "comp" [1]) have_fp ;;
    ret (mk_mv (s16 (mv_y ref_mv + dy)) (s16 (mv_x ref_mv + dx)))
  else if joint =? MV_JOINT_H then
    dx <- read_mv_component_diff (cdf_sub mv_cdf "comp" [1]) have_fp ;;
    ret (mk_mv (mv_y ref_mv) (s16 (mv_x ref_mv + dx)))
  else if joint =? MV_JOINT_V then
    dy <- read_mv_component_diff (cdf_sub mv_cdf "comp" [0]) have_fp ;;
    ret (mk_mv (s16 (mv_y ref_mv + dy)) (mv_x ref_mv))
  else ret ref_mv.

(** *** [read_tx_tree]

    The recursion is on [rem = 2 - depth]: a split is read only while
    [depth < 2]. *)
Fixpoint read_tx_tree (rem : nat) (from x_off y_off : Z) : Parser unit :=
  let depth := 2 - Z.of_nat rem in
  bx <- gets t_bx ;;
  by_ <- gets t_by ;;
  let bx4 := Z.land bx 31 in
  let by4 := Z.land by_ 31 in
  let t_dim := av1_txfm_dimensions X from in
  let txw := tx_lw t_dim in
  let txh := tx_lh t_dim in
  match rem with
  | S rem' =>
      is_split <-
        (if from >? TX_4X4 then
           let cat := 2 * (TX_64X64 - tx_max t_dim) - depth in
           a <- gets (fun t => of_bool (idx (t_a t Tx) bx4 <? txw)) ;;
           l <- gets (fun t => of_bool (idx (t_l t Tx) by4 <? txh)) ;;
           is_split <- bool_adapt (cdf "m.txpart" [cat; a + l]) ;;
           when (truthy is_split)
             (if depth =? 0
              then setb (fun b => set_b_tx_split0
                          (Z.lor (b_tx_split0 b) (Z.shiftl 1 (y_off * 4 + x_off))) b)
              else setb (fun b => set_b_tx_split1
                          (Z.lor (b_tx_split1 b) (Z.shiftl 1 (y_off * 4 + x_off))) b)) ;;
           ret is_split
         else ret 0) ;;
      if truthy is_split && (tx_max t_dim >? TX_8X8) then
        let sub := tx_sub t_dim in
        let sub_t_dim := av1_txfm_dimensions X sub in
        let txsw := tx_w sub_t_dim in
        let txsh := tx_h sub_t_dim in
        read_tx_tree rem' sub (x_off * 2 + 0) (y_off * 2 + 0) ;;
        add_bx txsw ;;
        bx1 <- gets t_bx ;;
        when ((txw >=? txh) && (bx1 <? f_bw f))
          (read_tx_tree rem' sub (x_off * 2 + 1) (y_off * 2 + 0)) ;;
        add_bx (- txsw) ;;
        add_by txsh ;;
        by1 <- gets t_by ;;
        when ((txh >=? txw) && (by1 <? f_bh f))
          (read_tx_tree rem' sub (x_off * 2 + 0) (y_off * 2 + 1) ;;
           add_bx txsw ;;
           bx2 <- gets t_bx ;;
           when ((txw >=? txh) && (bx2 <? f_bw f))
             (read_tx_tree rem' sub (x_off * 2 + 1) (y_off * 2 + 1)) ;;
           add_bx (- txsw)) ;;
        add_by (- txsh)
      else
        memset_a Tx bx4 (if truthy is_split then TX_4X4 else txw) (tx_w t_dim) ;;
        memset_l Tx by4 (if truthy is_split then TX_4X4 else txh) (tx_h t_dim)
  | O =>
      memset_a Tx bx4 txw (tx_w t_dim) ;;
      memset_l Tx by4 txh (tx_h t_dim)
  end.

(** *** [find_matching_ref]

    [r = &f->mvs[t->by * b4_stride + t->bx]]; [bs(rp)] is
    [av1_block_dimensions[sbtype_to_bs[rp->sb_type]]] and [matches(rp)] is
    [rp->ref[0] == ref + 1 && rp->ref[1] == -1]. *)

Definition mvs_at (t : Tile Msac Ext) (off : Z) : refmvs :=
  f_mvs t !!! Z.to_nat (t_by t * f_b4_stride f + t_bx t + off).

Definition bs_dim (rp : refmvs) (i : Z) : Z := b_dim (sbtype_to_bs X (r_sb_type rp)) i.

Definition matches (ref : Z) (rp : refmvs) : bool :=
  (r_ref0 rp =? ref + 1) && (r_ref1 rp =? -1).

(** The state of the scan: the two masks, the running [count], and whether a
    [return] inside a loop has ended the function. *)
Record MatchScan : Type := mk_scan {
  sc_m0 : Z; sc_m1 : Z; sc_count : Z; sc_done : bool
}.

(** The top row beyond the first neighbour:
    [for (x = aw4; x < w4; x += aw4)], with [r2] at offset [off] from [r]. *)
Fixpoint top_scan (fuel : nat) (t : Tile Msac Ext) (ref w4 : Z)
    (x aw4 mask off : Z) (sc : MatchScan) : MatchScan :=
  match fuel with
  | O => sc
  | S fuel' =>
      if x <? w4 then
        let off := off + aw4 in
        let r2 := mvs_at t off in
        let hit := matches ref r2 in
        let m0 := if hit then Z.lor (sc_m0 sc) mask else sc_m0 sc in
        let count := if hit then sc_count sc + 1 else sc_count sc in
        if hit && (count >=? 8) then mk_scan m0 (sc_m1 sc) count true
        else
          let aw4' := bs_dim r2 0 in
          top_scan fuel' t ref w4 (x + aw4') aw4' (u32 (Z.shiftl mask aw4')) off
                   (mk_scan m0 (sc_m1 sc) count false)
      else sc
  end.

(** The left column beyond the first neighbour:
    [for (y = lh4; y < h4; y += lh4)]. *)
Fixpoint left_scan (fuel : nat) (t : Tile Msac Ext) (ref h4 : Z)
    (y lh4 mask off : Z) (sc : MatchScan) : MatchScan :=
  match fuel with
  | O => sc
  | S fuel' =>
      if y <? h4 then
        let off := off + lh4 * f_b4_stride f in
        let r2 := mvs_at t off in
        let hit := matches ref r2 in
        let m1 := if hit then Z.lor (sc_m1 sc) mask else sc_m1 sc in
        let count := if hit then sc_count sc + 1 else sc_count sc in
        if hit && (count >=? 8) then mk_scan (sc_m0 sc) m1 count true
        else
          let lh4' := bs_dim r2 1 in
          left_scan fuel' t ref h4 (y + lh4') lh4' (u32 (Z.shiftl mask lh4')) off
                    (mk_scan (sc_m0 sc) m1 count false)
      else sc
  end.

Definition find_matching_ref (t : Tile Msac Ext) (intra_edge_flags : Z)
    (bw4 bh4 w4 h4 have_left have_top ref : Z) (masks : Z * Z) : Z * Z :=
  let b4_stride := f_b4_stride f in
  let have_topleft := truthy have_top && truthy have_left in
  let have_topright :=
    (imax bw4 bh4 <? 32) && truthy have_top && (t_bx t + bw4 <? ts_col_end t) &&
    truthy (Z.land intra_edge_flags EDGE_I444_TOP_HAS_RIGHT) in
  let sc := mk_scan (fst masks) (snd masks) 0 false in
  (* if (have_top) *)
  let '(sc, have_topleft, have_topright) :=
    if truthy have_top then
      let r2 := mvs_at t (- b4_stride) in
      let sc := if matches ref r2
                then mk_scan (Z.lor (sc_m0 sc) 1) (sc_m1 sc) 1 false else sc in
      let aw4 := bs_dim r2 0 in
      if aw4 >=? bw4 then
        let off := Z.land (t_bx t) (aw4 - 1) in
        (sc, have_topleft && negb (truthy off),
             have_topright && negb (aw4 - off >? bw4))
      else
        (top_scan (Z.to_nat w4) t ref w4 aw4 aw4 (u32 (Z.shiftl 1 aw4)) (- b4_stride) sc,
         have_topleft, have_topright)
    else (sc, have_topleft, have_topright) in
  if sc_done sc then (sc_m0 sc, sc_m1 sc) else
  (* if (have_left) *)
  let '(sc, have_topleft) :=
    if truthy have_left then
      let r2 := mvs_at t (-1) in
      let hit := matches ref r2 in
      let sc := if hit
                then mk_scan (sc_m0 sc) (Z.lor (sc_m1 sc) 1) (sc_count sc + 1)
                             (sc_count sc + 1 >=? 8)
                else sc in
      if sc_done sc then (sc, have_topleft) else
      let lh4 := bs_dim r2 1 in
      if lh4 >=? bh4 then
        (sc, have_topleft && negb (truthy (Z.land (t_by t) (lh4 - 1))))
      else
        (left_scan (Z.to_nat h4) t ref h4 lh4 lh4 (u32 (Z.shiftl 1 lh4)) (-1) sc,
         have_topleft)
    else (sc, have_topleft) in
  if sc_done sc then (sc_m0 sc, sc_m1 sc) else
  let sc :=
    if have_topleft && matches ref (mvs_at t (- (1 + b4_stride)))
    then mk_scan (sc_m0 sc) (Z.lor (sc_m1 sc) (Z.shiftl 1 32)) (sc_count sc + 1)
                 (sc_count sc + 1 >=? 8)
    else sc in
  if sc_done sc then (sc_m0 sc, sc_m1 sc) else
  if have_topright && matches ref (mvs_at t (bw4 - b4_stride))
  then (Z.lor (sc_m0 sc) (Z.shiftl 1 32), sc_m1 sc)
  else (sc_m0 sc, sc_m1 sc).

(** *** [derive_warpmv] *)

(** [add_sample(dx, dy, sx, sy, rp)]. *)
Definition add_sample (dx dy sx sy : Z) (rp : refmvs) : Sample :=
  let in_x := 16 * (2 * dx + sx * bs_dim rp 0) - 8 in
  let in_y := 16 * (2 * dy + sy * bs_dim rp 1) - 8 in
  mk_sample in_x in_y (in_x + mv_x (r_mv0 rp)) (in_y + mv_y (r_mv0 rp)).

(** [for (unsigned off = 0, xmask = masks[0]; np < 8 && xmask;)]: the samples
    of the top edge; [pts] holds the [np] samples gathered so far. *)
Fixpoint top_samples (fuel : nat) (t : Tile Msac Ext) (off xmask : Z)
    (pts : list Sample) : list Sample :=
  match fuel with
  | O => pts
  | S fuel' =>
      if (Z.of_nat (length pts) <? 8) && truthy xmask then
        let tz := ctz xmask in
        let off := u32 (off + tz) in
        let pts := pts ++ [add_sample off 0 1 (-1) (mvs_at t (off - f_b4_stride f))] in
        top_samples fuel' t (u32 (off + 1)) (Z.shiftr xmask (tz + 1)) pts
      else pts
  end.

Fixpoint left_samples (fuel : nat) (t : Tile Msac Ext) (off ymask : Z)
    (pts : list Sample) : list Sample :=
  match fuel with
  | O => pts
  | S fuel' =>
      if (Z.of_nat (length pts) <? 8) && truthy ymask then
        let tz := ctz ymask in
        let off := u32 (off + tz) in
        let pts := pts ++ [add_sample 0 off (-1) 1 (mvs_at t (off * f_b4_stride f - 1))] in
        left_samples fuel' t (u32 (off + 1)) (Z.shiftr ymask (tz + 1)) pts
      else pts
  end.

(** The projectable motion vectors of the edges, in the order the code
    stores them in [pts]; [np] is the length of the list. *)
Definition warp_samples (t : Tile Msac Ext) (bw4 bh4 : Z) (masks : Z * Z) : list Sample :=
  let b4_stride := f_b4_stride f in
  let m0 := fst masks in
  let m1 := snd masks in
  let pts :=
    if (u32 m0 =? 1) && negb (truthy (Z.shiftr m1 32)) then
      let off := Z.land (t_bx t) (bs_dim (mvs_at t (- b4_stride)) 0 - 1) in
      [add_sample (- off) 0 1 (-1) (mvs_at t (- b4_stride))]
    else top_samples 8 t 0 (u32 m0) [] in
  let pts :=
    if (Z.of_nat (length pts) <? 8) && (m1 =? 1) then
      let off := Z.land (t_by t) (bs_dim (mvs_at t (-1)) 1 - 1) in
      pts ++ [add_sample 0 (- off) (-1) 1 (mvs_at t (-1 - off * b4_stride))]
    else left_samples 8 t 0 (u32 m1) pts in
  let pts :=
    if (Z.of_nat (length pts) <? 8) && truthy (Z.shiftr m1 32)
    then pts ++ [add_sample 0 0 (-1) (-1) (mvs_at t (- (1 + b4_stride)))]
    else pts in
  if (Z.of_nat (length pts) <? 8) && truthy (Z.shiftr m0 32)
  then pts ++ [add_sample bw4 0 1 (-1) (mvs_at t (bw4 - b4_stride))]
  else pts.

Definition warp_thresh (bw4 bh4 : Z) : Z := 4 * iclip (imax bw4 bh4) 4 28.

(** [mvd[i]] before the threshold is applied. *)
Definition sample_mvd (mv0 : mv) (s : Sample) : Z :=
  Z.abs (s_out_x s - s_in_x s - mv_x mv0) + Z.abs (s_out_y s - s_in_y s - mv_y mv0).

(** The first loop: [mvd[i]], or [-1] when it exceeds the threshold. *)
Definition mark_mvd (thresh : Z) (mv0 : mv) (pts : list Sample) : list Z :=
  map (fun s => let d := sample_mvd mv0 s in if d >? thresh then -1 else d) pts.

(** [ret] after the first loop: the number of entries not marked [-1]. *)
Definition count_kept (mvd : list Z) : Z :=
  Z.of_nat (length (filter (fun d => d <> -1) mvd)).

(** [while (mvd[i] != -1) i++;] and [while (mvd[j] == -1) j--;]. *)
Fixpoint scan_discarded (fuel : nat) (mvd : list Z) (i : Z) : Z :=
  match fuel with
  | O => i
  | S fuel' => if idx mvd i =? -1 then i else scan_discarded fuel' mvd (i + 1)
  end.
Fixpoint scan_kept (fuel : nat) (mvd : list Z) (j : Z) : Z :=
  match fuel with
  | O => j
  | S fuel' => if idx mvd j =? -1 then scan_kept fuel' mvd (j - 1) else j
  end.

(** [for (i = 0, j = np - 1, k = 0; k < np - ret; k++, i++, j--)]: [todo]
    counts the passes that remain. *)
Fixpoint compact (todo : nat) (i j : Z) (mvd : list Z) (pts : list Sample)
    : list Z * list Sample :=
  match todo with
  | O => (mvd, pts)
  | S todo' =>
      let i := scan_discarded (length mvd) mvd i in
      let j := scan_kept (length mvd) mvd j in
      if i >? j then (mvd, pts)
      else
        let mvd := upd mvd i (idx mvd j) in
        let pts := <[Z.to_nat i := pts !!! Z.to_nat j]> pts in
        compact todo' (i + 1) (j - 1) mvd pts
  end.

(** The samples handed to [find_affine_int] and their number. *)
Definition select_samples (thresh : Z) (mv0 : mv) (pts : list Sample) : list Sample * Z :=
  let np := Z.of_nat (length pts) in
  let mvd := mark_mvd thresh mv0 pts in
  let ret_ := count_kept mvd in
  if ret_ =? 0 then (pts, 1)
  else (snd (compact (Z.to_nat (np - ret_)) 0 (np - 1) mvd pts), ret_).

Definition derive_warpmv (t : Tile Msac Ext) (bw4 bh4 : Z) (masks : Z * Z)
    (mv0 : mv) (wmp : WarpedMotionParams) : WarpedMotionParams :=
  let pts := warp_samples t bw4 bh4 masks in
  let '(pts, ret_) := select_samples (warp_thresh bw4 bh4) mv0 pts in
  let '(r1, wmp) := find_affine_int X pts ret_ bw4 bh4 mv0 wmp (t_bx t) (t_by t) in
  if r1 =? 0 then
    let '(r2, wmp) := get_shear_params X wmp in
    if r2 =? 0 then set_wm_type WM_TYPE_AFFINE wmp
    else set_wm_type WM_TYPE_IDENTITY wmp
  else set_wm_type WM_TYPE_IDENTITY wmp.

(** *** [findoddzero] *)

Fixpoint findoddzero_from (buf : list Z) (base : Z) (len : nat) (n : Z) : Z :=
  match len with
  | O => 0
  | S len' => if idx buf (base + n * 2) =? 0 then 1
              else findoddzero_from buf base len' (n + 1)
  end.
Definition findoddzero (buf : list Z) (base len : Z) : Z :=
  findoddzero_from buf base (Z.to_nat len) 0.

(** *** [read_pal_plane] *)

(** A palette is [uint16_t[8]]. *)
Definition pal8 (p : list Z) : list Z := take 8 (p ++ replicate 8 0).

(** The slot of [f->frame_thread.pal] that belongs to the block at
    [(t->bx, t->by)]. *)
Definition ft_pal_slot (t : Tile Msac Ext) : Z :=
  (Z.shiftr (t_by t) 1 + Z.land (t_bx t) 1) * Z.shiftr (f_b4_stride f) 1 +
  (Z.shiftr (t_bx t) 1 + Z.land (t_by t) 1).

(** [pal = f->frame_thread.pass ? f->frame_thread.pal[..][pl] : t->pal[pl]]. *)
Definition load_pal (pl : Z) (t : Tile Msac Ext) : list Z :=
  pal8 (if truthy (f_pass f) then ft_pal t (ft_pal_slot t) pl else t_pal t pl).
Definition store_pal (pl : Z) (p : list Z) : Parser unit :=
  modify (fun t =>
    if truthy (f_pass f)
    then set_ft_pal (upd2 (ft_pal t) (ft_pal_slot t) pl p) t
    else set_t_pal (upd1 (t_pal t) pl p) t).

(** [if (!n_cache || cache[n_cache - 1] != v) cache[n_cache++] = v;] *)
Definition cache_push (cache : list Z) (v : Z) : list Z :=
  match last cache with
  | Some w => if w =? v then cache else cache ++ [v]
  | None => cache ++ [v]
  end.

(** [while (l_cache && a_cache)] with [l] and [a] the remaining entries of
    the left and the above palette.  Returns the cache and what is left. *)
Fixpoint cache_merge (fuel : nat) (l_cache a_cache : Z) (l a cache : list Z)
    : Z * Z * list Z * list Z * list Z :=
  match fuel with
  | O => (l_cache, a_cache, l, a, cache)
  | S fuel' =>
      if truthy l_cache && truthy a_cache then
        let lv := idx l 0 in
        let av := idx a 0 in
        if lv <? av then
          cache_merge fuel' (l_cache - 1) a_cache (tail l) a (cache_push cache lv)
        else
          let '(l, l_cache) := if av =? lv then (tail l, l_cache - 1) else (l, l_cache) in
          cache_merge fuel' l_cache (a_cache - 1) l (tail a) (cache_push cache av)
      else (l_cache, a_cache, l, a, cache)
  end.

(** [do { push *p++ } while (--n > 0);] *)
Fixpoint cache_rest (fuel : nat) (n : Z) (p cache : list Z) : list Z :=
  match fuel with
  | O => cache
  | S fuel' =>
      let cache := cache_push cache (idx p 0) in
      if n - 1 >? 0 then cache_rest fuel' (n - 1) (tail p) cache else cache
  end.

(** "fill/sort cache". *)
Definition pal_cache (l_cache a_cache : Z) (l a : list Z) : list Z :=
  let '(l_cache, a_cache, l, a, cache) :=
    cache_merge (Z.to_nat l_cache + Z.to_nat a_cache) l_cache a_cache l a [] in
  if truthy l_cache then cache_rest (Z.to_nat l_cache) l_cache l cache
  else if truthy a_cache then cache_rest (Z.to_nat a_cache) a_cache a cache
  else cache.

(** "find reused cache entries":
    [for (n = 0; n < n_cache && i < pal_sz; n++)]. *)
Fixpoint used_cache_scan (pal_sz : Z) (cache used : list Z) : Parser (list Z) :=
  match cache with
  | [] => ret used
  | c :: cache' =>
      if Z.of_nat (length used) <? pal_sz then
        bit <- decode_bool (Z.shiftl 128 7) ;;
        used_cache_scan pal_sz cache' (if truthy bit then used ++ [c] else used)
      else ret used
  end.

(** [for (; i < pal_sz; i++) pal[i] = pal[i - 1];] *)
Fixpoint pal_fill (fuel : nat) (i pal_sz : Z) (pal : list Z) : list Z :=
  match fuel with
  | O => pal
  | S fuel' =>
      if i <? pal_sz then pal_fill fuel' (i + 1) pal_sz (upd pal i (idx pal (i - 1)))
      else pal
  end.

(** The [do ... while (i < pal_sz)] that parses the entries after the first
    new one. *)
Fixpoint pal_deltas (fuel : nat) (pl pal_sz max : Z) (i prev bits : Z) (pal : list Z)
    : Parser (list Z) :=
  match fuel with
  | O => ret pal
  | S fuel' =>
      delta <- decode_bools bits ;;
      let prev := u16 (imin (prev + delta + lnot pl) max) in
      let pal := upd pal i prev in
      let i := i + 1 in
      if prev + lnot pl >=? max then
        ret (pal_fill (Z.to_nat pal_sz) i pal_sz pal)
      else
        let bits := imin bits (1 + ulog2 (max - prev - lnot pl)) in
        if i <? pal_sz then pal_deltas fuel' pl pal_sz max i prev bits pal
        else ret pal
  end.

(** "merge cache+new entries": [for (i = 0; i < pal_sz; i++)]. *)
Fixpoint pal_merge (fuel : nat) (pal_sz n_used_cache : Z) (used : list Z)
    (i n m : Z) (pal : list Z) : list Z :=
  match fuel with
  | O => pal
  | S fuel' =>
      if i <? pal_sz then
        if (n <? n_used_cache) && ((m >=? pal_sz) || (idx used n <=? idx pal m))
        then pal_merge fuel' pal_sz n_used_cache used (i + 1) (n + 1) m
                       (upd pal i (idx used n))
        else pal_merge fuel' pal_sz n_used_cache used (i + 1) n (m + 1)
                       (upd pal i (idx pal m))
      else pal
  end.

(** [memcpy(pal, used_cache, n * sizeof(uint16_t))]. *)
Definition pal_copy (used pal : list Z) : list Z :=
  list_inserts 0 used pal.

Definition read_pal_plane (pl sz_ctx bx4 by4 : Z) : Parser unit :=
  sym <- symbol_adapt (cdf "m.pal_sz" [pl; sz_ctx]) 7 ;;
  (if pl =? 0 then setb (set_b_pal_sz0 (2 + sym)) else setb (set_b_pal_sz1 (2 + sym))) ;;
  pal_sz <- getb (if pl =? 0 then b_pal_sz0 else b_pal_sz1) ;;
  l_cache <- gets (fun t => if truthy pl then idx (t_pal_sz_uv_l t) by4
                            else idx (t_l t PalSz) by4) ;;
  (* don't reuse above palette outside SB64 boundaries *)
  a_cache <- gets (fun t => if truthy (Z.land by4 15)
                            then if truthy pl then idx (t_pal_sz_uv_a t) bx4
                                 else idx (t_a t PalSz) bx4
                            else 0) ;;
  l <- gets (fun t => t_al_pal t 1 by4 pl) ;;
  a <- gets (fun t => t_al_pal t 0 bx4 pl) ;;
  (* fill/sort cache *)
  let cache := pal_cache l_cache a_cache l a in
  (* find reused cache entries *)
  used_cache <- used_cache_scan pal_sz cache [] ;;
  let n_used_cache := Z.of_nat (length used_cache) in
  let i := n_used_cache in
  (* parse new entries *)
  pal <- gets (load_pal pl) ;;
  pal <-
    (if i <? pal_sz then
       v <- decode_bools (f_bpc f) ;;
       let prev := u16 v in
       let pal := upd pal i prev in
       let i := i + 1 in
       pal <-
         (if i <? pal_sz then
            more <- decode_bools 2 ;;
            let bits := f_bpc f - 3 + more in
            let max := Z.shiftl 1 (f_bpc f) - 1 in
            pal_deltas (Z.to_nat pal_sz) pl pal_sz max i prev bits pal
          else ret pal) ;;
       (* merge cache+new entries *)
       ret (pal_merge (Z.to_nat pal_sz) pal_sz n_used_cache used_cache
                      0 0 n_used_cache pal)
     else ret (pal_copy used_cache pal)) ;;
  store_pal pl pal.

(** *** [read_pal_uv] *)

Definition read_pal_uv (sz_ctx bx4 by4 : Z) : Parser unit :=
  read_pal_plane 1 sz_ctx bx4 by4 ;;
  (* V pal coding *)
  pal <- gets (load_pal 2) ;;
  pal_sz1 <- getb b_pal_sz1 ;;
  is_delta <- decode_bool (Z.shiftl 128 7) ;;
  pal <-
    (if truthy is_delta then
       more <- decode_bools 2 ;;
       let bits := f_bpc f - 4 + more in
       v <- decode_bools (f_bpc f) ;;
       let prev := u16 v in
       let pal := upd pal 0 prev in
       let max := Z.shiftl 1 (f_bpc f) - 1 in
       '(pal, _) <-
         foldM (fun '(pal, prev) i =>
                  delta <- decode_bools bits ;;
                  delta <- (if truthy delta then
                              neg <- decode_bool (Z.shiftl 128 7) ;;
                              ret (if truthy neg then - delta else delta)
                            else ret delta) ;;
                  let prev := u16 (Z.land (prev + delta) max) in
                  ret (upd pal i prev, prev))
               (seqZ 1 (pal_sz1 - 1)) (pal, prev) ;;
       ret pal
     else
       foldM (fun pal i =>
                v <- decode_bools (f_bpc f) ;;
                ret (upd pal i (u16 v)))
             (seqZ 0 pal_sz1) pal) ;;
  store_pal 2 pal.

(** *** [order_palette], [read_pal_indices]

    [pal_idx] points into [t->scratch.pal_idx] or into
    [f->frame_thread.pal_idx]; the model names the buffer and the offset. *)

Inductive PalIdxPtr : Type :=
  | Scratch (off : Z)
  | FrameThread (off : Z).

Definition pal_idx_get (p : PalIdxPtr) (i : Z) (t : Tile Msac Ext) : Z :=
  match p with
  | Scratch off => t_scratch_pal_idx t (off + i)
  | FrameThread off => ft_pal_idx t (off + i)
  end.
Definition pal_idx_set (p : PalIdxPtr) (i v : Z) : Parser unit :=
  modify (fun t =>
    match p with
    | Scratch off => set_t_scratch_pal_idx (upd1 (t_scratch_pal_idx t) (off + i) (u8 v)) t
    | FrameThread off => set_ft_pal_idx (upd1 (ft_pal_idx t) (off + i) (u8 v)) t
    end).

(** The eight colours in context order: the ones [add] put first, then the
    rest in increasing order. *)
Definition order_fill (first : list Z) : list Z :=
  first ++ filter (fun bit => bit ∉ first) (seqZ 0 8).

(** One diagonal entry of [order_palette]: the pixel at column [j] of row
    [i - j]; returns [order[n]] and [ctx[n]]. *)
Definition order_entry (p : PalIdxPtr) (stride i j : Z) (have_top : bool)
    (t : Tile Msac Ext) : list Z * Z :=
  let pos := j + (i - j) * stride in
  let have_left := j >? 0 in
  if negb have_left then (order_fill [pal_idx_get p (pos - stride) t], 0)
  else if negb have_top then (order_fill [pal_idx_get p (pos - 1) t], 0)
  else
    let l := pal_idx_get p (pos - 1) t in
    let tp := pal_idx_get p (pos - stride) t in
    let tl := pal_idx_get p (pos - (stride + 1)) t in
    let same_t_l := tp =? l in
    let same_t_tl := tp =? tl in
    let same_l_tl := l =? tl in
    let same_all := same_t_l && same_t_tl && same_l_tl in
    if same_all then (order_fill [tp], 4)
    else if same_t_l then (order_fill [tp; tl], 3)
    else if same_t_tl || same_l_tl
    then (order_fill [tl; if same_t_tl then l else tp], 2)
    else (order_fill [imin tp l; imax tp l; tl], 1).

(** [for (j = first, n = 0; j >= last; have_top = 1, j--, n++)]. *)
Fixpoint order_palette_from (fuel : nat) (p : PalIdxPtr) (stride i j last : Z)
    (have_top : bool) (t : Tile Msac Ext) : list (list Z * Z) :=
  match fuel with
  | O => []
  | S fuel' =>
      if j >=? last
      then order_entry p stride i j have_top t ::
           order_palette_from fuel' p stride i (j - 1) last true t
      else []
  end.

Definition order_palette (p : PalIdxPtr) (stride i first last : Z)
    (t : Tile Msac Ext) : list (list Z * Z) :=
  order_palette_from (Z.to_nat (first - last + 1)) p stride i first last (i >? first) t.

Definition read_pal_indices (p : PalIdxPtr) (pl w4 h4 bw4 bh4 : Z) : Parser unit :=
  let stride := bw4 * 4 in
  pal_sz <- getb (if pl =? 0 then b_pal_sz0 else b_pal_sz1) ;;
  v0 <- decode_uniform pal_sz ;;
  pal_idx_set p 0 v0 ;;
  (* top/left-to-bottom/right diagonals ("wave-front") *)
  foldM (fun _ i =>
           let first := imin i (w4 * 4 - 1) in
           let last := imax 0 (i - h4 * 4 + 1) in
           order <- gets (order_palette p stride i first last) ;;
           foldM (fun j '(order_m, ctx_m) =>
                    color_idx <- symbol_adapt (cdf "m.color_map" [pl; pal_sz - 2; ctx_m])
                                              pal_sz ;;
                    pal_idx_set p ((i - j) * stride + j) (idx order_m color_idx) ;;
                    ret (j - 1))
                 order first ;;
           ret tt)
        (seqZ 1 (4 * (w4 + h4) - 1 - 1)) tt ;;
  (* fill invisible edges *)
  when (bw4 >? w4)
    (foldM (fun _ y =>
              v <- gets (pal_idx_get p (y * stride + 4 * w4 - 1)) ;;
              foldM (fun _ x => pal_idx_set p (y * stride + 4 * w4 + x) v)
                    (seqZ 0 (4 * (bw4 - w4))) tt)
           (seqZ 0 (4 * h4)) tt) ;;
  when (h4 <? bh4)
    (foldM (fun _ y =>
              foldM (fun _ x =>
                       v <- gets (pal_idx_get p (stride * (4 * h4 - 1) + x)) ;;
                       pal_idx_set p (y * stride + x) v)
                    (seqZ 0 (bw4 * 4)) tt)
           (seqZ (h4 * 4) (bh4 * 4 - h4 * 4)) tt).

(** *** [read_vartx_tree] *)

Definition read_vartx_tree (bs bx4 by4 : Z) : Parser unit :=
  let bw4 := b_dim bs 0 in
  let bh4 := b_dim bs 1 in
  (* var-tx tree coding *)
  setb (fun b => set_b_tx_split1 0 (set_b_tx_split0 0 b)) ;;
  setb (set_b_max_ytx (av1_max_txfm_size_for_bs X bs 0)) ;;
  seg_id <- getb b_seg_id ;;
  max_ytx <- getb b_max_ytx ;;
  skip <- getb b_skip ;;
  if truthy (hdr_seg_lossless f seg_id) || (max_ytx =? TX_4X4) then
    setb (fun b => set_b_max_ytx TX_4X4 (set_b_uvtx TX_4X4 b)) ;;
    when (hdr_txfm_mode f =? TX_SWITCHABLE)
      (memset_a Tx bx4 TX_4X4 bw4 ;;
       memset_l Tx by4 TX_4X4 bh4)
  else if negb (hdr_txfm_mode f =? TX_SWITCHABLE) || truthy skip then
    when (hdr_txfm_mode f =? TX_SWITCHABLE)
      (memset_a Tx bx4 (b_dim bs 2) bw4 ;;
       memset_l Tx by4 (b_dim bs 3) bh4) ;;
    setb (set_b_uvtx (av1_max_txfm_size_for_bs X bs (f_layout f)))
  else
    let ytx := av1_txfm_dimensions X max_ytx in
    (* for (y = 0, y_off = 0; y < bh4; y += ytx->h, y_off++) *)
    '(y, _) <-
      for_loop (Z.to_nat bh4) (fun '(y, y_off) => y <? bh4)
        (fun '(y, y_off) =>
           (* for (x = 0, x_off = 0; x < bw4; x += ytx->w, x_off++) *)
           '(x, _) <-
             for_loop (Z.to_nat bw4) (fun '(x, x_off) => x <? bw4)
               (fun '(x, x_off) =>
                  read_tx_tree 2 max_ytx x_off y_off ;;
                  (* contexts are updated inside read_tx_tree() *)
                  add_bx (tx_w ytx) ;;
                  ret (x + tx_w ytx, x_off + 1))
               (0, 0) ;;
           add_bx (- x) ;;
           add_by (tx_h ytx) ;;
           ret (y + tx_h ytx, y_off + 1))
        (0, 0) ;;
    add_by (- y) ;;
    setb (set_b_uvtx (av1_max_txfm_size_for_bs X bs (f_layout f))).

(** *** [get_prev_frame_segid]

    [dav1d_thread_picture_wait] only blocks until the reference frame has
    been parsed far enough; it has no effect on the state of the model. *)
Definition get_prev_frame_segid (by_ bx w4 h4 : Z) (ref_seg_map : list Z) (stride : Z) : Z :=
  fold_left
    (fun seg_id y =>
       fold_left (fun seg_id x => imin seg_id (idx ref_seg_map ((by_ + y) * stride + bx + x)))
                 (seqZ 0 w4) seg_id)
    (seqZ 0 (imax 1 h4)) 8.

(** The same with the two [assert]s of the function: [None] where the code
    aborts, because the frame has no primary reference frame or because
    [seg_id] is still 8 or more after the loops. *)
Definition get_prev_frame_segid_asserted (by_ bx w4 h4 : Z) (ref_seg_map : list Z)
    (stride : Z) : option Z :=
  if hdr_primary_ref_frame f =? PRIMARY_REF_NONE then None
  else
    let seg_id := get_prev_frame_segid by_ bx w4 h4 ref_seg_map stride in
    if seg_id <? 8 then Some seg_id else None.

(** *** [decode_b] *)

(** The constants [decode_b] derives from the block size and the position
    before it parses anything. *)
Record BlockGeom : Type := mk_geom {
  bx4 : Z; by4 : Z;
  ss_ver : Z; ss_hor : Z;
  cbx4 : Z; cby4 : Z;
  bw4 : Z; bh4 : Z;
  w4 : Z; h4 : Z;
  cbw4 : Z; cbh4 : Z;
  have_left : Z; have_top : Z;
  has_chroma : Z;
  cw4 : Z; ch4 : Z
}.

Definition block_geom (bs : Z) (t : Tile Msac Ext) : BlockGeom :=
  let bx4 := Z.land (t_bx t) 31 in
  let by4 := Z.land (t_by t) 31 in
  let ss_ver := of_bool (f_layout f =? DAV1D_PIXEL_LAYOUT_I420) in
  let ss_hor := of_bool (negb (f_layout f =? DAV1D_PIXEL_LAYOUT_I444)) in
  let bw4 := b_dim bs 0 in
  let bh4 := b_dim bs 1 in
  let w4 := imin bw4 (f_bw f - t_bx t) in
  let h4 := imin bh4 (f_bh f - t_by t) in
  {| bx4 := bx4; by4 := by4;
     ss_ver := ss_ver; ss_hor := ss_hor;
     cbx4 := Z.shiftr bx4 ss_hor; cby4 := Z.shiftr by4 ss_ver;
     bw4 := bw4; bh4 := bh4;
     w4 := w4; h4 := h4;
     cbw4 := Z.shiftr (bw4 + ss_hor) ss_hor;
     cbh4 := Z.shiftr (bh4 + ss_ver) ss_ver;
     have_left := of_bool (t_bx t >? ts_col_start t);
     have_top := of_bool (t_by t >? ts_row_start t);
     has_chroma :=
       of_bool (negb (seq_layout f =? DAV1D_PIXEL_LAYOUT_I400) &&
                ((bw4 >? ss_hor) || truthy (Z.land (t_bx t) 1)) &&
                ((bh4 >? ss_ver) || truthy (Z.land (t_by t) 1)));
     cw4 := Z.shiftr (w4 + ss_hor) ss_hor;
     ch4 := Z.shiftr (h4 + ss_ver) ss_ver |}.

(** [b->y_mode == FILTER_PRED ? DC_PRED : b->y_mode]. *)
Definition y_mode_nofilt (b : Av1Block) : Z :=
  if b_y_mode b =? FILTER_PRED then DC_PRED else b_y_mode b.

(** The body of [if (f->frame_thread.pass == 2)]. *)
Definition decode_b_pass2 (g : BlockGeom) (bs intra_edge_flags : Z) : Parser unit :=
  b <- getb id ;;
  (if truthy (b_intra b) then
     hook (fun t => recon_b_intra X f t bs intra_edge_flags b) ;;
     when (truthy (has_chroma g))
       (memset_l Uvmode (cby4 g) (b_uv_mode b) (cbh4 g) ;;
        memset_a Uvmode (cbx4 g) (b_uv_mode b) (cbw4 g)) ;;
     memset_l Mode (by4 g) (y_mode_nofilt b) (bh4 g) ;;
     memset_a Mode (bx4 g) (y_mode_nofilt b) (bw4 g)
   else
     when ((b_comp_type b =? COMP_INTER_NONE) && (b_motion_mode b =? MM_WARP))
       (modify (fun t =>
          let mask := find_matching_ref t intra_edge_flags (bw4 g) (bh4 g) (w4 g) (h4 g)
                                        (have_left g) (have_top g) (b_ref0 b) (0, 0) in
          set_t_warpmv (derive_warpmv t (bw4 g) (bh4 g) mask (b_mv0 b) (t_warpmv t)) t)) ;;
     hook (fun t => recon_b_inter X f t bs b) ;;
     let filter0 := eve_av1_filter_dir X (b_filter2d b) 0 in
     let filter1 := eve_av1_filter_dir X (b_filter2d b) 1 in
     memset_l Filter0 (by4 g) filter0 (bh4 g) ;;
     memset_a Filter0 (bx4 g) filter0 (bw4 g) ;;
     memset_l Filter1 (by4 g) filter1 (bh4 g) ;;
     memset_a Filter1 (bx4 g) filter1 (bw4 g) ;;
     when (truthy (has_chroma g))
       (memset_l Uvmode (cby4 g) DC_PRED (cbh4 g) ;;
        memset_a Uvmode (cbx4 g) DC_PRED (cbw4 g))) ;;
  memset_l Intra (by4 g) (b_intra b) (bh4 g) ;;
  memset_a Intra (bx4 g) (b_intra b) (bw4 g).

(** "skip_mode". *)
Definition parse_skip_mode (g : BlockGeom) : Parser unit :=
  if truthy (hdr_skip_mode_enabled f) && (imin (bw4 g) (bh4 g) >? 1) then
    smctx <- gets (fun t => idx (t_a t SkipMode) (bx4 g) + idx (t_l t SkipMode) (by4 g)) ;;
    v <- bool_adapt (cdf "m.skip_mode" [smctx]) ;;
    setb (set_b_skip_mode v)
  else setb (set_b_skip_mode 0).

(** [f->prev_segmap ? get_prev_frame_segid(...) : 0]. *)
Definition prev_frame_segid (g : BlockGeom) (t : Tile Msac Ext) : Z :=
  match f_prev_segmap f with
  | Some prev => get_prev_frame_segid (t_by t) (t_bx t) (w4 g) (h4 g) prev (f_b4_stride f)
  | None => 0
  end.

(** [seg_pred = msac_decode_bool_adapt(..., seg_pred[a->seg_pred[bx4] + l.seg_pred[by4]])]. *)
Definition read_seg_pred (g : BlockGeom) : Parser Z :=
  c <- gets (fun t => idx (t_a t SegPred) (bx4 g) + idx (t_l t SegPred) (by4 g)) ;;
  bool_adapt (cdf "m.seg_pred" [c]).

(** The value an explicitly coded segment id leaves in [b->seg_id]:
    [av1_neg_deinterleave(diff, pred_seg_id, last_active_seg_id + 1)]
    narrowed to [uint8_t], then [if (b->seg_id > last_active_seg_id)
    b->seg_id = 0;].  [diff], [pred_seg_id] and [last_active_seg_id] are
    [unsigned]; the callee takes [int]. *)
Definition coded_seg_id (diff pred_seg_id : Z) : Z :=
  let last_active_seg_id := u32 (hdr_seg_last_active_segid f) in
  let v := u8 (av1_neg_deinterleave (s32 (u32 diff)) (s32 (u32 pred_seg_id))
                                    (s32 (u32 (last_active_seg_id + 1)))) in
  if v >? last_active_seg_id then 0 else v.

(** [get_cur_frame_segid(t->by, t->bx, have_top, have_left, &seg_ctx, ...)]. *)
Definition cur_frame_segid (g : BlockGeom) : Parser (Z * Z) :=
  gets (fun t => get_cur_frame_segid X (t_by t) (t_bx t) (have_top g) (have_left g)
                                     (f_cur_segmap t) (f_b4_stride f)).

(** The [else] branch that reads the coded difference. *)
Definition read_seg_id_diff (pred_seg_id seg_ctx : Z) : Parser unit :=
  diff <- symbol_adapt (cdf "m.seg_id" [seg_ctx]) NUM_SEGMENTS ;;
  setb (set_b_seg_id (coded_seg_id diff pred_seg_id)).

(** "segment_id (if seg_feature for skip/ref/gmv is enabled)": returns
    [seg_pred]. *)
Definition parse_seg_id_preskip (g : BlockGeom) : Parser Z :=
  if truthy (hdr_seg_enabled f) then
    if negb (truthy (hdr_seg_update_map f)) then
      v <- gets (prev_frame_segid g) ;;
      setb (set_b_seg_id v) ;;
      ret 0
    else if truthy (hdr_seg_preskip f) then
      seg_pred <- (if truthy (hdr_seg_temporal f) then read_seg_pred g else ret 0) ;;
      (if truthy seg_pred then
         (* temporal predicted seg_id *)
         v <- gets (prev_frame_segid g) ;;
         setb (set_b_seg_id v)
       else
         '(pred_seg_id, seg_ctx) <- cur_frame_segid g ;;
         read_seg_id_diff pred_seg_id seg_ctx) ;;
      ret seg_pred
    else ret 0
  else
    setb (set_b_seg_id 0) ;;
    ret 0.

(** "skip". *)
Definition parse_skip (g : BlockGeom) : Parser unit :=
  sctx <- gets (fun t => idx (t_a t Skip) (bx4 g) + idx (t_l t Skip) (by4 g)) ;;
  skip_mode <- getb b_skip_mode ;;
  if truthy skip_mode then setb (set_b_skip 1)
  else
    v <- bool_adapt (cdf "m.skip" [sctx]) ;;
    setb (set_b_skip v).

(** "segment_id" after the skip flag: returns the new [seg_pred]. *)
Definition parse_seg_id_postskip (g : BlockGeom) (seg_pred : Z) : Parser Z :=
  if truthy (hdr_seg_enabled f) && truthy (hdr_seg_update_map f) &&
     negb (truthy (hdr_seg_preskip f)) then
    skip <- getb b_skip ;;
    seg_pred <- (if negb (truthy skip) && truthy (hdr_seg_temporal f)
                 then read_seg_pred g else ret seg_pred) ;;
    (if negb (truthy skip) && truthy (hdr_seg_temporal f) && truthy seg_pred then
       (* temporal predicted seg_id *)
       v <- gets (prev_frame_segid g) ;;
       setb (set_b_seg_id v)
     else
       '(pred_seg_id, seg_ctx) <- cur_frame_segid g ;;
       if truthy skip then setb (set_b_seg_id pred_seg_id)
       else read_seg_id_diff pred_seg_id seg_ctx) ;;
    ret seg_pred
  else ret seg_pred.

(** "cdef index". *)
Definition parse_cdef_idx (g : BlockGeom) : Parser unit :=
  skip <- getb b_skip ;;
  when (negb (truthy skip))
    (i <- gets (fun t => if truthy (seq_sb128 f)
                         then Z.shiftr (Z.land (t_bx t) 16) 4 + Z.shiftr (Z.land (t_by t) 16) 3
                         else 0) ;;
     cur <- gets (fun t => idx (t_cur_sb_cdef_idx t) i) ;;
     when (cur =? -1)
       (v <- decode_bools (hdr_cdef_n_bits f) ;;
        let put k := modify (fun t => set_t_cur_sb_cdef_idx
                                        (upd (t_cur_sb_cdef_idx t) k (i8 v)) t) in
        put i ;;
        when (bw4 g >? 16) (put (i + 1)) ;;
        when (bh4 g >? 16) (put (i + 2)) ;;
        when ((bw4 g =? 32) && (bh4 g =? 32)) (put (i + 3)))).

(** The token of a delta: [0..2], or [3] followed by its magnitude, then the
    sign and the scale. *)
Definition read_delta (c : Cdf) (res_log2 : Z) : Parser Z :=
  d <- symbol_adapt c 4 ;;
  d <- (if d =? 3 then
          n <- decode_bools 3 ;;
          let n_bits := 1 + n in
          v <- decode_bools n_bits ;;
          ret (v + 1 + Z.shiftl 1 n_bits)
        else ret d) ;;
  if truthy d then
    neg <- decode_bool (Z.shiftl 128 7) ;;
    let d := if truthy neg then - d else d in
    ret (d * Z.shiftl 1 res_log2)
  else ret d.

(** [t->bx] and [t->by] are at the origin of a superblock. *)
Definition at_sb_origin (t : Tile Msac Ext) : bool :=
  negb (truthy (Z.land (t_bx t) (Z.shiftr 31 (lnot (seq_sb128 f))))) &&
  negb (truthy (Z.land (t_by t) (Z.shiftr 31 (lnot (seq_sb128 f))))).

(** "delta-q/lf". *)
Definition parse_delta_q_lf (bs : Z) : Parser unit :=
  origin <- gets at_sb_origin ;;
  when origin
    (prev_qidx <- gets ts_last_qidx ;;
     skip <- getb b_skip ;;
     let have_delta_q :=
       truthy (hdr_delta_q_present f) &&
       (negb (bs =? (if truthy (seq_sb128 f) then BS_128x128 else BS_64x64)) ||
        negb (truthy skip)) in
     when have_delta_q
       (delta_q <- read_delta (cdf "m.delta_q" []) (hdr_delta_q_res_log2 f) ;;
        modify (fun t => set_ts_last_qidx (iclip (ts_last_qidx t + delta_q) 1 255) t)) ;;
     modify (fun t =>
       if ts_last_qidx t =? hdr_quant_yac f then
         (* assign frame-wide q values to this sb *)
         set_ts_dq FrameWide t
       else if negb (ts_last_qidx t =? prev_qidx) then
         (* find sb-specific quant parameters *)
         set_ts_dq TileLocal
           (set_ts_dqmem (init_quant_tables (ts_last_qidx t) (ts_dqmem t)) t)
       else t) ;;
     (* delta_lf *)
     prev_delta_lf <- gets ts_last_delta_lf ;;
     when (have_delta_q && truthy (hdr_delta_lf_present f))
       (let n_lfs := if truthy (hdr_delta_lf_multi f)
                     then if negb (seq_layout f =? DAV1D_PIXEL_LAYOUT_I400) then 4 else 2
                     else 1 in
        foldM (fun _ i =>
                 delta_lf <- read_delta (cdf "m.delta_lf" [i + hdr_delta_lf_multi f])
                                        (hdr_delta_lf_res_log2 f) ;;
                 modify (fun t =>
                   set_ts_last_delta_lf
                     (upd (ts_last_delta_lf t) i
                          (i8 (iclip (idx (ts_last_delta_lf t) i + delta_lf) (-63) 63))) t))
              (seqZ 0 n_lfs) tt) ;;
     modify (fun t =>
       if bool_decide (take 4 (ts_last_delta_lf t) = [0; 0; 0; 0]) then
         (* assign frame-wide lf values to this sb *)
         set_ts_lflvl FrameWide t
       else if negb (bool_decide (take 4 (ts_last_delta_lf t) = take 4 prev_delta_lf)) then
         (* find sb-specific lf lvl parameters *)
         set_ts_lflvl TileLocal
           (set_ts_lflvlmem (dav1d_calc_lf_values X f (ts_last_delta_lf t)) t)
       else t)).

(** The intra/inter decision. *)
Definition parse_intra (g : BlockGeom) : Parser unit :=
  skip_mode <- getb b_skip_mode ;;
  if truthy skip_mode then setb (set_b_intra 0)
  else if truthy (Z.land (hdr_frame_type f) 1) then
    ictx <- gets (fun t => block_ctx X "get_intra_ctx" (t_a t) (t_l t) (by4 g) (bx4 g)
                                     (have_top g) (have_left g)) ;;
    v <- bool_adapt (cdf "m.intra" [ictx]) ;;
    setb (set_b_intra (lnot v))
  else if truthy (hdr_allow_intrabc f) then
    v <- bool_adapt (cdf "m.intrabc" []) ;;
    setb (set_b_intra (lnot v))
  else setb (set_b_intra 1).

(** [pal_idx]: the cursor of the frame-thread buffer, advanced by [n], or
    the scratch buffer at [scratch_off]. *)
Definition take_pal_idx (n scratch_off : Z) : Parser PalIdxPtr :=
  if truthy (f_pass f) then
    p <- gets ts_pal_idx ;;
    modify (fun t => set_ts_pal_idx (ts_pal_idx t + n) t) ;;
    ret (FrameThread p)
  else ret (Scratch scratch_off).

(** [while (depth--) { b->tx = t_dim->sub; t_dim = &av1_txfm_dimensions[b->tx]; }] *)
Fixpoint tx_descend (depth : nat) : Parser unit :=
  match depth with
  | O => ret tt
  | S depth' =>
      tx <- getb b_tx ;;
      setb (set_b_tx (tx_sub (av1_txfm_dimensions X tx))) ;;
      tx_descend depth'
  end.

(** The intra branch up to the reconstruction: modes, angles, CfL, palettes,
    filter-intra and the transform size. *)
Definition parse_intra_modes (g : BlockGeom) (bs : Z) : Parser unit :=
  ymode_cdf <- gets (fun t =>
    if truthy (Z.land (hdr_frame_type f) 1)
    then cdf "m.y_mode" [av1_ymode_size_context X bs]
    else cdf "kfym" [intra_mode_context X (idx (t_a t Mode) (bx4 g));
                     intra_mode_context X (idx (t_l t Mode) (by4 g))]) ;;
  v <- symbol_adapt ymode_cdf N_INTRA_PRED_MODES ;;
  setb (set_b_y_mode v) ;;
  y_mode <- getb b_y_mode ;;
  (* angle delta *)
  (if (b_dim bs 2 + b_dim bs 3 >=? 2) && (y_mode >=? VERT_PRED) &&
      (y_mode <=? VERT_LEFT_PRED) then
     angle <- symbol_adapt (cdf "m.angle_delta" [y_mode - VERT_PRED]) 7 ;;
     setb (set_b_y_angle (angle - 3))
   else setb (set_b_y_angle 0)) ;;
  when (truthy (has_chroma g))
    (let cfl_allowed := of_bool (truthy (Z.land (cfl_allowed_mask X) (Z.shiftl 1 bs))) in
     v <- symbol_adapt (cdf "m.uv_mode" [cfl_allowed; y_mode])
                       (N_UV_INTRA_PRED_MODES - lnot cfl_allowed) ;;
     setb (set_b_uv_mode v) ;;
     uv_mode <- getb b_uv_mode ;;
     if uv_mode =? CFL_PRED then
       s <- symbol_adapt (cdf "m.cfl_sign" []) 8 ;;
       let sign := s + 1 in
       let sign_u := Z.shiftr (sign * 86) 8 in
       let sign_v := sign - sign_u * 3 in
       (if truthy sign_u then
          let ctx := of_bool (sign_u =? 2) * 3 + sign_v in
          a0 <- symbol_adapt (cdf "m.cfl_alpha" [ctx]) 16 ;;
          setb (set_b_cfl_alpha0 (a0 + 1)) ;;
          when (sign_u =? 1) (setb (fun b => set_b_cfl_alpha0 (- b_cfl_alpha0 b) b))
        else setb (set_b_cfl_alpha0 0)) ;;
       (if truthy sign_v then
          let ctx := of_bool (sign_v =? 2) * 3 + sign_u in
          a1 <- symbol_adapt (cdf "m.cfl_alpha" [ctx]) 16 ;;
          setb (set_b_cfl_alpha1 (a1 + 1)) ;;
          when (sign_v =? 1) (setb (fun b => set_b_cfl_alpha1 (- b_cfl_alpha1 b) b))
        else setb (set_b_cfl_alpha1 0))
     else if (b_dim bs 2 + b_dim bs 3 >=? 2) && (uv_mode >=? VERT_PRED) &&
             (uv_mode <=? VERT_LEFT_PRED) then
       angle <- symbol_adapt (cdf "m.angle_delta" [uv_mode - VERT_PRED]) 7 ;;
       setb (set_b_uv_angle (angle - 3))
     else setb (set_b_uv_angle 0)) ;;
  setb (fun b => set_b_pal_sz0 0 (set_b_pal_sz1 0 b)) ;;
  when (truthy (hdr_allow_screen_content_tools f) &&
        (imax (bw4 g) (bh4 g) <=? 16) && (bw4 g + bh4 g >=? 4))
    (let sz_ctx := b_dim bs 2 + b_dim bs 3 - 2 in
     when (y_mode =? DC_PRED)
       (pal_ctx <- gets (fun t => of_bool (idx (t_a t PalSz) (bx4 g) >? 0) +
                                  of_bool (idx (t_l t PalSz) (by4 g) >? 0)) ;;
        use_y_pal <- bool_adapt (cdf "m.pal_y" [sz_ctx; pal_ctx]) ;;
        when (truthy use_y_pal) (read_pal_plane 0 sz_ctx (bx4 g) (by4 g))) ;;
     uv_mode <- getb b_uv_mode ;;
     when (truthy (has_chroma g) && (uv_mode =? DC_PRED))
       (pal_sz0 <- getb b_pal_sz0 ;;
        let pal_ctx := of_bool (pal_sz0 >? 0) in
        use_uv_pal <- bool_adapt (cdf "m.pal_uv" [pal_ctx]) ;;
        (* see aomedia bug 2183 for why we use luma coordinates *)
        when (truthy use_uv_pal) (read_pal_uv sz_ctx (bx4 g) (by4 g)))) ;;
  y_mode <- getb b_y_mode ;;
  pal_sz0 <- getb b_pal_sz0 ;;
  when ((y_mode =? DC_PRED) && negb (truthy pal_sz0) &&
        (imax (b_dim bs 2) (b_dim bs 3) <=? 3) && truthy (seq_filter_intra f))
    (is_filter <- bool_adapt (cdf "m.use_filter_intra" [bs]) ;;
     when (truthy is_filter)
       (setb (set_b_y_mode FILTER_PRED) ;;
        v <- symbol_adapt (cdf "m.filter_intra" []) 5 ;;
        setb (set_b_y_angle v))) ;;
  when (truthy pal_sz0)
    (p <- take_pal_idx (bw4 g * bh4 g * 16) 0 ;;
     read_pal_indices p 0 (w4 g) (h4 g) (bw4 g) (bh4 g)) ;;
  pal_sz1 <- getb b_pal_sz1 ;;
  when (truthy (has_chroma g) && truthy pal_sz1)
    (p <- take_pal_idx (cbw4 g * cbh4 g * 16) (bw4 g * bh4 g * 16) ;;
     read_pal_indices p 1 (cw4 g) (ch4 g) (cbw4 g) (cbh4 g)) ;;
  seg_id <- getb b_seg_id ;;
  if truthy (hdr_seg_lossless f seg_id) then
    setb (fun b => set_b_tx TX_4X4 (set_b_uvtx TX_4X4 b))
  else
    setb (fun b => set_b_uvtx (av1_max_txfm_size_for_bs X bs (f_layout f))
                     (set_b_tx (av1_max_txfm_size_for_bs X bs 0) b)) ;;
    tx <- getb b_tx ;;
    let t_dim := av1_txfm_dimensions X tx in
    when ((hdr_txfm_mode f =? TX_SWITCHABLE) && (tx_max t_dim >? TX_4X4))
      (tctx <- gets (fun t => get_tx_ctx X (t_a t) (t_l t) t_dim (by4 g) (bx4 g)) ;;
       depth <- symbol_adapt (cdf "m.txsz" [tx_max t_dim - 1; tctx])
                             (imin (tx_max t_dim + 1) 3) ;;
       tx_descend (Z.to_nat depth)).

(** [t_dim] at the end of the transform-size selection. *)
Definition intra_t_dim (b : Av1Block) : TxfmInfo :=
  if truthy (hdr_seg_lossless f (b_seg_id b))
  then av1_txfm_dimensions X TX_4X4
  else av1_txfm_dimensions X (b_tx b).

(** [for (x = 0; x < bw4; x++) memcpy(t->al_pal[0][bx4 + x][pl], pal, 16);]
    and the same down the left edge. *)
Definition splat_al_pal (g : BlockGeom) (pl : Z) (pal : list Z) : Parser unit :=
  foldM (fun _ x => modify (fun t => set_t_al_pal (upd3 (t_al_pal t) 0 (bx4 g + x) pl pal) t))
        (seqZ 0 (bw4 g)) tt ;;
  foldM (fun _ y => modify (fun t => set_t_al_pal (upd3 (t_al_pal t) 1 (by4 g + y) pl pal) t))
        (seqZ 0 (bh4 g)) tt.

(** "update contexts" of the intra branch. *)
Definition update_ctx_intra (g : BlockGeom) (bs : Z) : Parser unit :=
  b <- getb id ;;
  let t_dim := intra_t_dim b in
  memset_a TxIntra (bx4 g) (tx_lw t_dim) (bw4 g) ;;
  memset_l TxIntra (by4 g) (tx_lh t_dim) (bh4 g) ;;
  memset_l Mode (by4 g) (y_mode_nofilt b) (bh4 g) ;;
  memset_a Mode (bx4 g) (y_mode_nofilt b) (bw4 g) ;;
  memset_l PalSz (by4 g) (b_pal_sz0 b) (bh4 g) ;;
  memset_a PalSz (bx4 g) (b_pal_sz0 b) (bw4 g) ;;
  when (truthy (b_pal_sz0 b))
    (pal <- gets (load_pal 0) ;;
     splat_al_pal g 0 pal) ;;
  (if truthy (has_chroma g) then
     memset_l Uvmode (cby4 g) (b_uv_mode b) (cbh4 g) ;;
     memset_a Uvmode (cbx4 g) (b_uv_mode b) (cbw4 g) ;;
     (* see aomedia bug 2183 for why we use luma coordinates here *)
     modify (fun t => set_t_pal_sz_uv_l (memset (t_pal_sz_uv_l t) (by4 g) (u8 (b_pal_sz1 b)) (bh4 g)) t) ;;
     modify (fun t => set_t_pal_sz_uv_a (memset (t_pal_sz_uv_a t) (bx4 g) (u8 (b_pal_sz1 b)) (bw4 g)) t) ;;
     when (truthy (b_pal_sz1 b))
       (foldM (fun _ pl =>
                 pal <- gets (load_pal pl) ;;
                 splat_al_pal g pl pal)
              [1; 2] tt)
   else
     (* see aomedia bug 2183 for why we reset this *)
     modify (fun t => set_t_pal_sz_uv_l (memset (t_pal_sz_uv_l t) (by4 g) 0 (bh4 g)) t) ;;
     modify (fun t => set_t_pal_sz_uv_a (memset (t_pal_sz_uv_a t) (bx4 g) 0 (bw4 g)) t)) ;;
  when (truthy (Z.land (hdr_frame_type f) 1) || truthy (hdr_allow_intrabc f))
    (memset_a Tx (bx4 g) (tx_lw t_dim) (bw4 g) ;;
     memset_l Tx (by4 g) (tx_lh t_dim) (bh4 g) ;;
     modify (fun t => set_f_mvs (splat_intraref X (f_mvs t) (f_b4_stride f) (t_by t) (t_bx t)
                                                bs (y_mode_nofilt b)) t)) ;;
  when (truthy (Z.land (hdr_frame_type f) 1))
    (memset_l CompType (by4 g) COMP_INTER_NONE (bh4 g) ;;
     memset_a CompType (bx4 g) COMP_INTER_NONE (bw4 g) ;;
     memset_l Ref0 (by4 g) (-1) (bh4 g) ;;
     memset_a Ref0 (bx4 g) (-1) (bw4 g) ;;
     memset_l Ref1 (by4 g) (-1) (bh4 g) ;;
     memset_a Ref1 (bx4 g) (-1) (bw4 g) ;;
     memset_l Filter0 (by4 g) N_SWITCHABLE_FILTERS (bh4 g) ;;
     memset_a Filter0 (bx4 g) N_SWITCHABLE_FILTERS (bw4 g) ;;
     memset_l Filter1 (by4 g) N_SWITCHABLE_FILTERS (bh4 g) ;;
     memset_a Filter1 (bx4 g) N_SWITCHABLE_FILTERS (bw4 g)).

(** [f->bd_fn.read_coef_blocks] in pass 1, the reconstruction otherwise. *)
Definition reconstruct_intra (bs intra_edge_flags : Z) : Parser unit :=
  b <- getb id ;;
  if f_pass f =? 1 then hook (fun t => read_coef_blocks X f t bs b)
  else hook (fun t => recon_b_intra X f t bs intra_edge_flags b).
Definition reconstruct_inter (bs : Z) : Parser unit :=
  b <- getb id ;;
  if f_pass f =? 1 then hook (fun t => read_coef_blocks X f t bs b)
  else hook (fun t => recon_b_inter X f t bs b).

(** The branch [if (b->intra)]. *)
Definition decode_b_intra (g : BlockGeom) (bs intra_edge_flags : Z) : Parser unit :=
  parse_intra_modes g bs ;;
  (* reconstruction *)
  reconstruct_intra bs intra_edge_flags ;;
  b <- getb id ;;
  modify (fun t => set_t_ext (dav1d_create_lf_mask_intra X f (ts_lflvl t) (ts_lflvlmem t) b
                                (t_bx t) (t_by t) bs (has_chroma g) (t_ext t)) t) ;;
  (* update contexts *)
  update_ctx_intra g bs.

(** The branch [else if (!(f->frame_hdr.frame_type & 1))]: intra block copy. *)
Definition decode_b_intrabc (g : BlockGeom) (bs bp : Z) : Parser unit :=
  r <- gets (fun t => av1_find_ref_mvs X f (t_ext t) (f_mvs t) (-1, -1) bs bp
                        (t_by t) (t_bx t) (ts_col_start t) (ts_col_end t)
                        (ts_row_start t) (ts_row_end t)) ;;
  mv0 <- gets (fun t =>
    if truthy (Z.lor (mv_y (mvlist r 0 0)) (mv_x (mvlist r 0 0))) then mvlist r 0 0
    else if truthy (Z.lor (mv_y (mvlist r 0 1)) (mv_x (mvlist r 0 1))) then mvlist r 0 1
    else if t_by t - Z.shiftl 16 (seq_sb128 f) <? ts_row_start t
    then mk_mv 0 (s16 (- Z.shiftl 512 (seq_sb128 f) - 2048))
    else mk_mv (s16 (- Z.shiftl 512 (seq_sb128 f))) 0) ;;
  mv0 <- read_mv_residual mv0 (cdf "dmv" []) 0 ;;
  setb (set_b_mv0 mv0) ;;
  read_vartx_tree bs (bx4 g) (by4 g) ;;
  (* reconstruction *)
  reconstruct_inter bs ;;
  b <- getb id ;;
  modify (fun t => set_f_mvs (splat_intrabc_mv X (f_mvs t) (f_b4_stride f) (t_by t) (t_bx t)
                                               bs (b_mv0 b)) t) ;;
  memset_a TxIntra (bx4 g) (b_dim bs 2) (bw4 g) ;;
  memset_l TxIntra (by4 g) (b_dim bs 3) (bh4 g) ;;
  memset_l Mode (by4 g) DC_PRED (bh4 g) ;;
  memset_a Mode (bx4 g) DC_PRED (bw4 g) ;;
  memset_l PalSz (by4 g) 0 (bh4 g) ;;
  memset_a PalSz (bx4 g) 0 (bw4 g) ;;
  (* see aomedia bug 2183 for why this is outside if (has_chroma) *)
  modify (fun t => set_t_pal_sz_uv_l (memset (t_pal_sz_uv_l t) (by4 g) 0 (bh4 g)) t) ;;
  modify (fun t => set_t_pal_sz_uv_a (memset (t_pal_sz_uv_a t) (bx4 g) 0 (bw4 g)) t) ;;
  when (truthy (has_chroma g))
    (memset_l Uvmode (cby4 g) DC_PRED (cbh4 g) ;;
     memset_a Uvmode (cbx4 g) DC_PRED (cbw4 g)).

(** A context of the [av1_get_*_ctx] family at the current block. *)
Definition ref_ctx (name : string) (g : BlockGeom) : Parser Z :=
  gets (fun t => block_ctx X name (t_a t) (t_l t) (by4 g) (bx4 g) (have_top g) (have_left g)).

(** [av1_find_ref_mvs(mvstack, &n_mvs, mvlist, &ctx, refs, ...)]. *)
Definition find_ref_mvs (refs : Z * Z) (bs bp : Z) : Parser RefMvs :=
  gets (fun t => av1_find_ref_mvs X f (t_ext t) (f_mvs t) refs bs bp
                   (t_by t) (t_bx t) (ts_col_start t) (ts_col_end t)
                   (ts_row_start t) (ts_row_end t)).

Definition mvstack_at (r : RefMvs) (i : Z) : candidate_mv := mvstack r !!! Z.to_nat i.

Definition hp_fix (m : mv) : mv := if truthy (hdr_hp f) then m else unset_hp_bit X m.

(** One more bit of [b->drl_idx], read with the context of candidate [i]. *)
Definition read_drl_bit (r : RefMvs) (i : Z) : Parser unit :=
  bit <- bool_adapt (cdf "m.drl_bit" [get_drl_context X (mvstack r) i]) ;;
  setb (fun b => set_b_drl_idx (b_drl_idx b + bit) b).

(** The two reference frames of a compound block. *)
Definition parse_comp_refs (g : BlockGeom) : Parser unit :=
  dir_ctx <- ref_ctx "get_comp_dir_ctx" g ;;
  bidir <- bool_adapt (cdf "m.comp_dir" [dir_ctx]) ;;
  if truthy bidir then
    (* bidir - first reference (fw) *)
    ctx1 <- ref_ctx "av1_get_fwd_ref_ctx" g ;;
    v <- bool_adapt (cdf "m.comp_fwd_ref" [0; ctx1]) ;;
    (if truthy v then
       ctx2 <- ref_ctx "av1_get_fwd_ref_2_ctx" g ;;
       w <- bool_adapt (cdf "m.comp_fwd_ref" [2; ctx2]) ;;
       setb (set_b_ref0 (2 + w))
     else
       ctx2 <- ref_ctx "av1_get_fwd_ref_1_ctx" g ;;
       w <- bool_adapt (cdf "m.comp_fwd_ref" [1; ctx2]) ;;
       setb (set_b_ref0 w)) ;;
    (* second reference (bw) *)
    ctx3 <- ref_ctx "av1_get_bwd_ref_ctx" g ;;
    v <- bool_adapt (cdf "m.comp_bwd_ref" [0; ctx3]) ;;
    if truthy v then setb (set_b_ref1 6)
    else
      ctx4 <- ref_ctx "av1_get_bwd_ref_1_ctx" g ;;
      w <- bool_adapt (cdf "m.comp_bwd_ref" [1; ctx4]) ;;
      setb (set_b_ref1 (4 + w))
  else
    (* unidir *)
    uctx_p <- ref_ctx "av1_get_uni_p_ctx" g ;;
    v <- bool_adapt (cdf "m.comp_uni_ref" [0; uctx_p]) ;;
    if truthy v then
      setb (fun b => set_b_ref1 6 (set_b_ref0 4 b))
    else
      uctx_p1 <- ref_ctx "av1_get_uni_p1_ctx" g ;;
      setb (set_b_ref0 0) ;;
      w <- bool_adapt (cdf "m.comp_uni_ref" [1; uctx_p1]) ;;
      setb (set_b_ref1 (1 + w)) ;;
      ref1 <- getb b_ref1 ;;
      when (ref1 =? 2)
        (uctx_p2 <- ref_ctx "av1_get_uni_p2_ctx" g ;;
         w2 <- bool_adapt (cdf "m.comp_uni_ref" [2; uctx_p2]) ;;
         setb (fun b => set_b_ref1 (b_ref1 b + w2) b)).

(** [assign_comp_mv(idx, pfx)]: returns the new [has_subpel_filter]. *)
Definition assign_comp_mv (g : BlockGeom) (r : RefMvs) (im : Z) (i : Z)
    (has_subpel_filter : Z) : Parser Z :=
  let set_mv m := if i =? 0 then setb (set_b_mv0 m) else setb (set_b_mv1 m) in
  let pfx (c : candidate_mv) := if i =? 0 then this_mv c else comp_mv c in
  b <- getb id ;;
  let ref := if i =? 0 then b_ref0 b else b_ref1 b in
  if (im =? NEARMV) || (im =? NEARESTMV) then
    set_mv (hp_fix (pfx (mvstack_at r (b_drl_idx b)))) ;;
    ret has_subpel_filter
  else if im =? GLOBALMV then
    m <- gets (fun t => get_gmv_2d X f ref (t_bx t) (t_by t) (bw4 g) (bh4 g)) ;;
    set_mv m ;;
    ret (Z.lor has_subpel_filter (of_bool (hdr_gmv_type f ref =? WM_TYPE_TRANSLATION)))
  else if im =? NEWMV then
    m <- read_mv_residual (pfx (mvstack_at r (b_drl_idx b))) (cdf "mv" [])
                          (lnot (hdr_force_integer_mv f)) ;;
    set_mv m ;;
    ret has_subpel_filter
  else ret has_subpel_filter.

(** The compound branch [else if (is_comp)]: returns [has_subpel_filter]. *)
Definition parse_inter_comp (g : BlockGeom) (bs bp : Z) : Parser Z :=
  parse_comp_refs g ;;
  b <- getb id ;;
  r <- find_ref_mvs (b_ref0 b, b_ref1 b) bs bp ;;
  v <- symbol_adapt (cdf "m.comp_inter_mode" [mv_ctx r]) N_COMP_INTER_PRED_MODES ;;
  setb (set_b_inter_mode v) ;;
  inter_mode <- getb b_inter_mode ;;
  let im0 := av1_comp_inter_pred_modes X inter_mode 0 in
  let im1 := av1_comp_inter_pred_modes X inter_mode 1 in
  setb (set_b_drl_idx 0) ;;
  (if inter_mode =? NEWMV_NEWMV then
     when (n_mvs r >? 1)
       (read_drl_bit r 0 ;;
        drl <- getb b_drl_idx ;;
        when ((drl =? 1) && (n_mvs r >? 2)) (read_drl_bit r 1))
   else
     when ((im0 =? NEARMV) || (im1 =? NEARMV))
       (setb (set_b_drl_idx 1) ;;
        when (n_mvs r >? 2)
          (read_drl_bit r 1 ;;
           drl <- getb b_drl_idx ;;
           when ((drl =? 2) && (n_mvs r >? 3)) (read_drl_bit r 2)))) ;;
  let has_subpel_filter :=
    of_bool ((imin (bw4 g) (bh4 g) =? 1) || negb (inter_mode =? GLOBALMV_GLOBALMV)) in
  has_subpel_filter <- assign_comp_mv g r im0 0 has_subpel_filter ;;
  has_subpel_filter <- assign_comp_mv g r im1 1 has_subpel_filter ;;
  (* jnt_comp vs. seg vs. wedge *)
  is_segwedge <-
    (if truthy (seq_masked_compound f) then
       mask_ctx <- gets (fun t => get_mask_comp_ctx X (t_a t) (t_l t) (by4 g) (bx4 g)) ;;
       bool_adapt (cdf "m.mask_comp" [mask_ctx])
     else ret 0) ;;
  (if negb (truthy is_segwedge) then
     if truthy (seq_jnt_comp f) then
       b <- getb id ;;
       jnt_ctx <- gets (fun t =>
         get_jnt_comp_ctx X (seq_order_hint_n_bits f) (f_cur_poc f)
                          (f_refp_poc f (b_ref0 b)) (f_refp_poc f (b_ref1 b))
                          (t_a t) (t_l t) (by4 g) (bx4 g)) ;;
       v <- bool_adapt (cdf "m.jnt_comp" [jnt_ctx]) ;;
       setb (set_b_comp_type (COMP_INTER_WEIGHTED_AVG + v))
     else setb (set_b_comp_type COMP_INTER_AVG)
   else
     (if truthy (Z.land (wedge_allowed_mask X) (Z.shiftl 1 bs)) then
        let ctx := av1_wedge_ctx_lut X bs in
        v <- bool_adapt (cdf "m.wedge_comp" [ctx]) ;;
        setb (set_b_comp_type (COMP_INTER_WEDGE - v)) ;;
        comp_type <- getb b_comp_type ;;
        when (comp_type =? COMP_INTER_WEDGE)
          (w <- symbol_adapt (cdf "m.wedge_idx" [ctx]) 16 ;;
           setb (set_b_wedge_idx w))
      else setb (set_b_comp_type COMP_INTER_SEG)) ;;
     s <- decode_bool (Z.shiftl 128 7) ;;
     setb (set_b_mask_sign s)) ;;
  ret has_subpel_filter.

(** The single reference frame. *)
Definition parse_single_ref (g : BlockGeom) : Parser unit :=
  ctx1 <- ref_ctx "av1_get_ref_ctx" g ;;
  v <- bool_adapt (cdf "m.ref" [0; ctx1]) ;;
  (if truthy v then
     ctx2 <- ref_ctx "av1_get_ref_2_ctx" g ;;
     w <- bool_adapt (cdf "m.ref" [1; ctx2]) ;;
     if truthy w then setb (set_b_ref0 6)
     else
       ctx3 <- ref_ctx "av1_get_ref_6_ctx" g ;;
       u <- bool_adapt (cdf "m.ref" [5; ctx3]) ;;
       setb (set_b_ref0 (4 + u))
   else
     ctx2 <- ref_ctx "av1_get_ref_3_ctx" g ;;
     w <- bool_adapt (cdf "m.ref" [2; ctx2]) ;;
     if truthy w then
       ctx3 <- ref_ctx "av1_get_ref_5_ctx" g ;;
       u <- bool_adapt (cdf "m.ref" [4; ctx3]) ;;
       setb (set_b_ref0 (2 + u))
     else
       ctx3 <- ref_ctx "av1_get_ref_4_ctx" g ;;
       u <- bool_adapt (cdf "m.ref" [3; ctx3]) ;;
       setb (set_b_ref0 u)) ;;
  setb (set_b_ref1 (-1)).

(** "mode parsing and mv derivation from ref_mvs": returns
    [has_subpel_filter]. *)
Definition parse_single_mode (g : BlockGeom) (r : RefMvs) : Parser Z :=
  not_new <- bool_adapt (cdf "m.newmv_mode" [Z.land (mv_ctx r) 7]) ;;
  if truthy not_new then
    not_global <- bool_adapt (cdf "m.globalmv_mode" [Z.land (Z.shiftr (mv_ctx r) 3) 1]) ;;
    if negb (truthy not_global) then
      setb (set_b_inter_mode GLOBALMV) ;;
      ref0 <- getb b_ref0 ;;
      m <- gets (fun t => get_gmv_2d X f ref0 (t_bx t) (t_by t) (bw4 g) (bh4 g)) ;;
      setb (set_b_mv0 m) ;;
      ret (of_bool ((imin (bw4 g) (bh4 g) =? 1) ||
                    (hdr_gmv_type f ref0 =? WM_TYPE_TRANSLATION)))
    else
      near <- bool_adapt (cdf "m.refmv_mode" [Z.land (Z.shiftr (mv_ctx r) 4) 15]) ;;
      (if truthy near then
         setb (fun b => set_b_drl_idx 1 (set_b_inter_mode NEARMV b)) ;;
         when (n_mvs r >? 2)
           (read_drl_bit r 1 ;;
            drl <- getb b_drl_idx ;;
            when ((drl =? 2) && (n_mvs r >? 3)) (read_drl_bit r 2))
       else
         setb (fun b => set_b_drl_idx 0 (set_b_inter_mode NEARESTMV b))) ;;
      drl <- getb b_drl_idx ;;
      (if drl >=? 2 then setb (set_b_mv0 (this_mv (mvstack_at r drl)))
       else setb (set_b_mv0 (hp_fix (mvlist r 0 drl)))) ;;
      ret 1
  else
    setb (fun b => set_b_drl_idx 0 (set_b_inter_mode NEWMV b)) ;;
    when (n_mvs r >? 1)
      (read_drl_bit r 0 ;;
       drl <- getb b_drl_idx ;;
       when ((drl =? 1) && (n_mvs r >? 2)) (read_drl_bit r 1)) ;;
    drl <- getb b_drl_idx ;;
    let m := if n_mvs r >? 1 then this_mv (mvstack_at r drl) else hp_fix (mvlist r 0 0) in
    m <- read_mv_residual m (cdf "mv" []) (lnot (hdr_force_integer_mv f)) ;;
    setb (set_b_mv0 m) ;;
    ret 1.

(** "interintra flags". *)
Definition parse_interintra (bs : Z) : Parser unit :=
  let ii_sz_grp := av1_ymode_size_context X bs in
  use <- (if truthy (seq_inter_intra f) &&
             truthy (Z.land (interintra_allowed_mask X) (Z.shiftl 1 bs))
          then bool_adapt (cdf "m.interintra" [ii_sz_grp]) else ret 0) ;;
  if truthy use then
    v <- symbol_adapt (cdf "m.interintra_mode" [ii_sz_grp]) N_INTER_INTRA_PRED_MODES ;;
    setb (set_b_interintra_mode v) ;;
    let wedge_ctx := av1_wedge_ctx_lut X bs in
    w <- bool_adapt (cdf "m.interintra_wedge" [wedge_ctx]) ;;
    setb (set_b_interintra_type (INTER_INTRA_BLEND + w)) ;;
    ty <- getb b_interintra_type ;;
    when (ty =? INTER_INTRA_WEDGE)
      (x <- symbol_adapt (cdf "m.wedge_idx" [wedge_ctx]) 16 ;;
       setb (set_b_wedge_idx x))
  else setb (set_b_interintra_type INTER_INTRA_NONE).

(** "motion variation": returns the new [has_subpel_filter]. *)
Definition parse_motion_mode (g : BlockGeom) (bs intra_edge_flags : Z)
    (has_subpel_filter : Z) : Parser Z :=
  b <- getb id ;;
  allowed <- gets (fun t =>
    truthy (hdr_switchable_motion_mode f) &&
    (b_interintra_type b =? INTER_INTRA_NONE) && (imin (bw4 g) (bh4 g) >=? 2) &&
    (* is not warped global motion *)
    negb (negb (truthy (hdr_force_integer_mv f)) && (b_inter_mode b =? GLOBALMV) &&
          (hdr_gmv_type f (b_ref0 b) >? WM_TYPE_TRANSLATION)) &&
    (* has overlappable neighbours *)
    ((truthy (have_left g) &&
      truthy (findoddzero (t_l t Intra) (by4 g + 1) (Z.shiftr (h4 g) 1))) ||
     (truthy (have_top g) &&
      truthy (findoddzero (t_a t Intra) (bx4 g + 1) (Z.shiftr (w4 g) 1))))) ;;
  if allowed then
    (* reaching here means the block allows obmc - check warp by
       finding matching-ref blocks in top/left edges *)
    mask <- gets (fun t => find_matching_ref t intra_edge_flags (bw4 g) (bh4 g) (w4 g) (h4 g)
                                             (have_left g) (have_top g) (b_ref0 b) (0, 0)) ;;
    let allow_warp := negb (truthy (hdr_force_integer_mv f)) &&
                      truthy (hdr_warp_motion f) &&
                      truthy (Z.lor (fst mask) (snd mask)) in
    v <- (if allow_warp then symbol_adapt (cdf "m.motion_mode" [bs]) 3
          else bool_adapt (cdf "m.obmc" [bs])) ;;
    setb (set_b_motion_mode v) ;;
    motion_mode <- getb b_motion_mode ;;
    if motion_mode =? MM_WARP then
      modify (fun t => set_t_warpmv
                         (derive_warpmv t (bw4 g) (bh4 g) mask (b_mv0 b) (t_warpmv t)) t) ;;
      ret 0
    else ret has_subpel_filter
  else
    setb (set_b_motion_mode MM_TRANSLATION) ;;
    ret has_subpel_filter.

(** "subpel filter": returns [filter[0]] and [filter[1]]. *)
Definition parse_subpel_filter (g : BlockGeom) (has_subpel_filter : Z) : Parser (Z * Z) :=
  if hdr_subpel_filter_mode f =? FILTER_SWITCHABLE then
    if truthy has_subpel_filter then
      b <- getb id ;;
      let comp := of_bool (negb (b_comp_type b =? COMP_INTER_NONE)) in
      ctx1 <- gets (fun t => get_filter_ctx X (t_a t) (t_l t) comp 0 (b_ref0 b) (by4 g) (bx4 g)) ;;
      filter0 <- symbol_adapt (cdf "m.filter" [0; ctx1]) N_SWITCHABLE_FILTERS ;;
      if truthy (seq_dual_filter f) then
        ctx2 <- gets (fun t => get_filter_ctx X (t_a t) (t_l t) comp 1 (b_ref0 b) (by4 g) (bx4 g)) ;;
        filter1 <- symbol_adapt (cdf "m.filter" [1; ctx2]) N_SWITCHABLE_FILTERS ;;
        ret (filter0, filter1)
      else ret (filter0, filter0)
    else ret (FILTER_8TAP_REGULAR, FILTER_8TAP_REGULAR)
  else ret (hdr_subpel_filter_mode f, hdr_subpel_filter_mode f).

(** "context updates" of the inter branch. *)
Definition update_ctx_inter (g : BlockGeom) (bs is_comp : Z) (filter : Z * Z) : Parser unit :=
  b <- getb id ;;
  modify (fun t =>
    set_f_mvs
      (if truthy is_comp
       then splat_tworef_mv X (f_mvs t) (f_b4_stride f) (t_by t) (t_bx t) bs
                            (b_inter_mode b) (b_ref0 b) (b_ref1 b) (b_mv0 b) (b_mv1 b)
       else splat_oneref_mv X (f_mvs t) (f_b4_stride f) (t_by t) (t_bx t) bs
                            (b_inter_mode b) (b_ref0 b) (b_mv0 b) (b_interintra_type b))
      t) ;;
  memset_l PalSz (by4 g) 0 (bh4 g) ;;
  memset_a PalSz (bx4 g) 0 (bw4 g) ;;
  (* see aomedia bug 2183 for why this is outside if (has_chroma) *)
  modify (fun t => set_t_pal_sz_uv_l (memset (t_pal_sz_uv_l t) (by4 g) 0 (bh4 g)) t) ;;
  modify (fun t => set_t_pal_sz_uv_a (memset (t_pal_sz_uv_a t) (bx4 g) 0 (bw4 g)) t) ;;
  when (truthy (has_chroma g))
    (memset_l Uvmode (cby4 g) DC_PRED (cbh4 g) ;;
     memset_a Uvmode (cbx4 g) DC_PRED (cbw4 g)) ;;
  memset_a TxIntra (bx4 g) (b_dim bs 2) (bw4 g) ;;
  memset_l TxIntra (by4 g) (b_dim bs 3) (bh4 g) ;;
  memset_l CompType (by4 g) (b_comp_type b) (bh4 g) ;;
  memset_a CompType (bx4 g) (b_comp_type b) (bw4 g) ;;
  memset_l Filter0 (by4 g) (fst filter) (bh4 g) ;;
  memset_a Filter0 (bx4 g) (fst filter) (bw4 g) ;;
  memset_l Filter1 (by4 g) (snd filter) (bh4 g) ;;
  memset_a Filter1 (bx4 g) (snd filter) (bw4 g) ;;
  memset_l Mode (by4 g) (b_inter_mode b) (bh4 g) ;;
  memset_a Mode (bx4 g) (b_inter_mode b) (bw4 g) ;;
  memset_l Ref0 (by4 g) (b_ref0 b) (bh4 g) ;;
  memset_a Ref0 (bx4 g) (b_ref0 b) (bw4 g) ;;
  memset_l Ref1 (by4 g) (b_ref1 b) (bh4 g) ;;
  memset_a Ref1 (bx4 g) (b_ref1 b) (bw4 g).

(** The branch [else]: "inter-specific mode/mv coding". *)
Definition decode_b_inter (g : BlockGeom) (bs bp intra_edge_flags : Z) : Parser unit :=
  skip_mode <- getb b_skip_mode ;;
  is_comp <-
    (if truthy skip_mode then ret 1
     else if truthy (hdr_switchable_comp_refs f) && (imin (bw4 g) (bh4 g) >? 1) then
       ctx <- ref_ctx "get_comp_ctx" g ;;
       bool_adapt (cdf "m.comp" [ctx])
     else ret 0) ;;
  has_subpel_filter <-
    (if truthy skip_mode then
       setb (fun b => set_b_drl_idx 0
                        (set_b_inter_mode NEARESTMV_NEARESTMV
                          (set_b_comp_type COMP_INTER_AVG
                            (set_b_ref1 (hdr_skip_mode_refs f 1)
                              (set_b_ref0 (hdr_skip_mode_refs f 0) b))))) ;;
       b <- getb id ;;
       r <- find_ref_mvs (b_ref0 b, b_ref1 b) bs bp ;;
       setb (fun b => set_b_mv1 (hp_fix (comp_mv (mvstack_at r 0)))
                        (set_b_mv0 (hp_fix (this_mv (mvstack_at r 0))) b)) ;;
       ret 0
     else if truthy is_comp then parse_inter_comp g bs bp
     else
       setb (set_b_comp_type COMP_INTER_NONE) ;;
       (* ref *)
       parse_single_ref g ;;
       b <- getb id ;;
       r <- find_ref_mvs (b_ref0 b, -1) bs bp ;;
       has_subpel_filter <- parse_single_mode g r ;;
       (* interintra flags *)
       parse_interintra bs ;;
       (* motion variation *)
       parse_motion_mode g bs intra_edge_flags has_subpel_filter) ;;
  (* subpel filter *)
  filter <- parse_subpel_filter g has_subpel_filter ;;
  setb (set_b_filter2d (av1_filter_2d X (snd filter) (fst filter))) ;;
  read_vartx_tree bs (bx4 g) (by4 g) ;;
  (* reconstruction *)
  reconstruct_inter bs ;;
  b <- getb id ;;
  let is_globalmv :=
    of_bool (b_inter_mode b =? (if truthy is_comp then GLOBALMV_GLOBALMV else GLOBALMV)) in
  modify (fun t => set_t_ext (dav1d_create_lf_mask_inter X f (ts_lflvl t) (ts_lflvlmem t) b
                                (t_bx t) (t_by t) bs (has_chroma g) is_globalmv (t_ext t)) t) ;;
  (* context updates *)
  update_ctx_inter g bs is_comp filter.

(** "update contexts" at the end of [decode_b]. *)
Definition update_ctx_final (g : BlockGeom) (seg_pred : Z) : Parser unit :=
  b <- getb id ;;
  when (truthy (hdr_seg_enabled f) && truthy (hdr_seg_update_map f))
    (foldM (fun _ y =>
              modify (fun t =>
                set_f_cur_segmap
                  (memset (f_cur_segmap t) ((t_by t + y) * f_b4_stride f + t_bx t)
                          (b_seg_id b) (bw4 g)) t))
           (seqZ 0 (bh4 g)) tt) ;;
  memset_l SegPred (by4 g) seg_pred (bh4 g) ;;
  memset_a SegPred (bx4 g) seg_pred (bw4 g) ;;
  memset_l SkipMode (by4 g) (b_skip_mode b) (bh4 g) ;;
  memset_a SkipMode (bx4 g) (b_skip_mode b) (bw4 g) ;;
  memset_l Intra (by4 g) (b_intra b) (bh4 g) ;;
  memset_a Intra (bx4 g) (b_intra b) (bw4 g) ;;
  memset_l Skip (by4 g) (b_skip b) (bh4 g) ;;
  memset_a Skip (bx4 g) (b_skip b) (bw4 g) ;;
  when (negb (truthy (b_skip b)))
    (let mask := u32 (Z.shiftl (Z.shiftl 1 (bw4 g) - 1) (bx4 g)) in
     foldM (fun _ y =>
              modify (fun t =>
                set_lf_noskip_mask
                  (upd (lf_noskip_mask t) (by4 g + y)
                       (Z.lor (idx (lf_noskip_mask t) (by4 g + y)) mask)) t))
           (seqZ 0 (bh4 g)) tt).

(** [b = f->frame_thread.pass ? &f->frame_thread.b[t->by * f->b4_stride + t->bx]
    : &b_mem]: in a frame-thread pass the block is the slot of the array,
    loaded on entry and written back on exit. *)
Definition ft_b_slot (t : Tile Msac Ext) : nat := Z.to_nat (t_by t * f_b4_stride f + t_bx t).
Definition load_b : Parser unit :=
  when (truthy (f_pass f)) (modify (fun t => set_t_blk (ft_b t !!! ft_b_slot t) t)).
Definition store_b : Parser unit :=
  when (truthy (f_pass f)) (modify (fun t => set_ft_b (<[ft_b_slot t := t_blk t]> (ft_b t)) t)).

(** The parse of one block (passes 0 and 1): returns [seg_pred]. *)
Definition decode_b_parse (g : BlockGeom) (bl bs bp intra_edge_flags : Z) : Parser Z :=
  setb (fun b => set_b_bs bs (set_b_bp bp (set_b_bl bl b))) ;;
  (* skip_mode *)
  parse_skip_mode g ;;
  (* segment_id (if seg_feature for skip/ref/gmv is enabled) *)
  seg_pred <- parse_seg_id_preskip g ;;
  (* skip *)
  parse_skip g ;;
  (* segment_id *)
  seg_pred <- parse_seg_id_postskip g seg_pred ;;
  (* cdef index *)
  parse_cdef_idx g ;;
  (* delta-q/lf *)
  parse_delta_q_lf bs ;;
  parse_intra g ;;
  (* intra/inter-specific stuff *)
  intra <- getb b_intra ;;
  (if truthy intra then decode_b_intra g bs intra_edge_flags
   else if negb (truthy (Z.land (hdr_frame_type f) 1)) then decode_b_intrabc g bs bp
   else decode_b_inter g bs bp intra_edge_flags) ;;
  ret seg_pred.

Definition decode_b (bl bs bp intra_edge_flags : Z) : Parser unit :=
  modify (fun t => set_walk_log
                     (walk_log t ++ [mk_call (t_bx t) (t_by t) bl bs bp]) t) ;;
  load_b ;;
  g <- gets (block_geom bs) ;;
  if f_pass f =? 2 then decode_b_pass2 g bs intra_edge_flags
  else
    seg_pred <- decode_b_parse g bl bs bp intra_edge_flags ;;
    (* update contexts *)
    update_ctx_final g seg_pred ;;
    store_b.

(** *** [decode_sb] *)

(** The intra-edge tree ([intra_edge.h]): an [EdgeNode] carries the flags of
    the unsplit, horizontally and vertically split block; a tip (level 8x8)
    adds the flags of its four 4x4 blocks, a branch those of the other
    partitions and its four children. *)
Inductive EdgeNode : Type :=
  | EdgeTip (o : Z) (h v : list Z) (split : list Z)
  | EdgeBranch (o : Z) (h v : list Z) (tts tbs tls trs h4 v4 : list Z)
               (split0 split1 split2 split3 : EdgeNode).

Definition node_o (n : EdgeNode) : Z :=
  match n with EdgeTip o _ _ _ => o | EdgeBranch o _ _ _ _ _ _ _ _ _ _ _ _ => o end.
Definition node_h (n : EdgeNode) (i : Z) : Z :=
  match n with EdgeTip _ h _ _ => idx h i | EdgeBranch _ h _ _ _ _ _ _ _ _ _ _ _ => idx h i end.
Definition node_v (n : EdgeNode) (i : Z) : Z :=
  match n with EdgeTip _ _ v _ => idx v i | EdgeBranch _ _ v _ _ _ _ _ _ _ _ _ _ => idx v i end.

(** The walker: a parser step that returns the [int] of [decode_sb], or
    [None] when the C code leaves defined behaviour (a failed [assert], a
    node of the wrong kind behind a cast). *)
Definition Walker : Type := Tile Msac Ext -> option (Z * Tile Msac Ext).

Definition walk (m : Parser unit) (k : Walker) : Walker :=
  fun t => k (exec m t).
(** [if (m) return 1; k]. *)
Definition walk_try (m k : Walker) : Walker :=
  fun t => match m t with
           | Some (r, t') => if r =? 0 then k t' else Some (1, t')
           | None => None
           end.
Definition walk_ret (r : Z) : Walker := fun t => Some (r, t).
Definition walk_abort : Walker := fun _ => None.

(** The V-family partitions that a 4:2:2 layout rejects. *)
Definition is_v_partition (bp : Z) : bool :=
  (bp =? PARTITION_V) || (bp =? PARTITION_V4) ||
  (bp =? PARTITION_T_LEFT_SPLIT) || (bp =? PARTITION_T_RIGHT_SPLIT).

(** [f->frame_thread.b[t->by * f->b4_stride + t->bx]]. *)
Definition ft_b_at (t : Tile Msac Ext) : Av1Block := ft_b t !!! ft_b_slot t.

(** [pc = t->ts->cdf.m.partition[bl][ctx]]. *)
Definition partition_cdf (bl : Z) (t : Tile Msac Ext) : Cdf :=
  let bx8 := Z.shiftr (Z.land (t_bx t) 31) 1 in
  let by8 := Z.shiftr (Z.land (t_by t) 31) 1 in
  cdf "m.partition" [bl; get_partition_ctx X (t_a t) (t_l t) bl by8 bx8].

(** The tail of [decode_sb]: the partition context, then [return 0]. *)
Definition stamp_partition (bl bp bx8 by8 : Z) : Walker :=
  let hsz := Z.shiftr 16 bl in
  walk (when (negb (f_pass f =? 2) && (negb (bp =? PARTITION_SPLIT) || (bl =? BL_8X8)))
          (memset_a Partition bx8 (av1_al_part_ctx X 0 bl bp) hsz ;;
           memset_l Partition by8 (av1_al_part_ctx X 1 bl bp) hsz))
       (walk_ret 0).

(** The partition of a block that fits the frame: from the block record in
    pass 2, from the range coder otherwise. *)
Definition read_partition (bl : Z) : Parser Z :=
  fun t =>
    if f_pass f =? 2 then
      let b := ft_b_at t in
      (if b_bl b =? bl then b_bp b else PARTITION_SPLIT, t)
    else
      let n_part := if bl =? BL_8X8 then N_SUB8X8_PARTITIONS
                    else if bl =? BL_128X128 then N_PARTITIONS - 2 else N_PARTITIONS in
      symbol_adapt (partition_cdf bl t) n_part t.

(** [is_split] of a block that crosses one edge of the frame; [gather] is
    [gather_top_partition_prob] or [gather_left_partition_prob]. *)
Definition read_is_split (gather : Msac -> Cdf -> Z -> Z) (bl : Z) : Parser Z :=
  fun t =>
    if f_pass f =? 2 then (of_bool (negb (b_bl (ft_b_at t) =? bl)), t)
    else decode_bool (gather (ts_msac t) (partition_cdf bl t) bl) t.

Fixpoint decode_sb (node : EdgeNode) (bl : Z) (t : Tile Msac Ext)
    : option (Z * Tile Msac Ext) :=
  let hsz := Z.shiftr 16 bl in
  let have_h_split := f_bw f >? t_bx t + hsz in
  let have_v_split := f_bh f >? t_by t + hsz in
  let bx8 := Z.shiftr (Z.land (t_bx t) 31) 1 in
  let by8 := Z.shiftr (Z.land (t_by t) 31) 1 in
  let blk bp i := av1_block_sizes X bl bp i in
  if negb have_h_split && negb have_v_split then
    (* assert(bl < BL_8X8); return decode_sb(t, bl + 1, branch->split[0]); *)
    match node with
    | EdgeBranch _ _ _ _ _ _ _ _ _ split0 _ _ _ =>
        if bl <? BL_8X8 then decode_sb split0 (bl + 1) t else None
    | EdgeTip _ _ _ _ => None
    end
  else if have_h_split && have_v_split then
    (* the partition: from the block record in pass 2, from the range coder
       otherwise *)
    let '(bp, t) := read_partition bl t in
    if negb (f_pass f =? 2) && (f_layout f =? DAV1D_PIXEL_LAYOUT_I422) && is_v_partition bp
    then Some (1, t)
    else
      let done := stamp_partition bl bp bx8 by8 in
      if bp =? PARTITION_NONE then
        walk (decode_b bl (blk bp 0) PARTITION_NONE (node_o node)) done t
      else if bp =? PARTITION_H then
        walk (decode_b bl (blk bp 0) PARTITION_H (node_h node 0) ;;
              add_by hsz ;;
              decode_b bl (blk bp 0) PARTITION_H (node_h node 1) ;;
              add_by (- hsz)) done t
      else if bp =? PARTITION_V then
        walk (decode_b bl (blk bp 0) PARTITION_V (node_v node 0) ;;
              add_bx hsz ;;
              decode_b bl (blk bp 0) PARTITION_V (node_v node 1) ;;
              add_bx (- hsz)) done t
      else if bp =? PARTITION_SPLIT then
        match node with
        | EdgeTip _ _ _ split =>
            if bl =? BL_8X8 then
              walk (decode_b bl BS_4x4 PARTITION_SPLIT (idx split 0) ;;
                    tl_filter <- gets t_tl_4x4_filter ;;
                    add_bx 1 ;;
                    decode_b bl BS_4x4 PARTITION_SPLIT (idx split 1) ;;
                    add_bx (-1) ;;
                    add_by 1 ;;
                    decode_b bl BS_4x4 PARTITION_SPLIT (idx split 2) ;;
                    add_bx 1 ;;
                    modify (set_t_tl_4x4_filter tl_filter) ;;
                    decode_b bl BS_4x4 PARTITION_SPLIT (idx split 3) ;;
                    add_bx (-1) ;;
                    add_by (-1)) done t
            else None
        | EdgeBranch _ _ _ _ _ _ _ _ _ split0 split1 split2 split3 =>
            if bl =? BL_8X8 then None
            else
              walk_try (decode_sb split0 (bl + 1))
                (walk (add_bx hsz)
                  (walk_try (decode_sb split1 (bl + 1))
                    (walk (add_bx (- hsz) ;; add_by hsz)
                      (walk_try (decode_sb split2 (bl + 1))
                        (walk (add_bx hsz)
                          (walk_try (decode_sb split3 (bl + 1))
                            (walk (add_bx (- hsz) ;; add_by (- hsz)) done))))))) t
        end
      else
        match node with
        | EdgeTip _ _ _ _ => None
        | EdgeBranch _ _ _ tts tbs tls trs h4 v4 _ _ _ _ =>
            if bp =? PARTITION_T_TOP_SPLIT then
              walk (decode_b bl (blk bp 0) PARTITION_T_TOP_SPLIT (idx tts 0) ;;
                    add_bx hsz ;;
                    decode_b bl (blk bp 0) PARTITION_T_TOP_SPLIT (idx tts 1) ;;
                    add_bx (- hsz) ;;
                    add_by hsz ;;
                    decode_b bl (blk bp 1) PARTITION_T_TOP_SPLIT (idx tts 2) ;;
                    add_by (- hsz)) done t
            else if bp =? PARTITION_T_BOTTOM_SPLIT then
              walk (decode_b bl (blk bp 0) PARTITION_T_BOTTOM_SPLIT (idx tbs 0) ;;
                    add_by hsz ;;
                    decode_b bl (blk bp 1) PARTITION_T_BOTTOM_SPLIT (idx tbs 1) ;;
                    add_bx hsz ;;
                    decode_b bl (blk bp 1) PARTITION_T_BOTTOM_SPLIT (idx tbs 2) ;;
                    add_bx (- hsz) ;;
                    add_by (- hsz)) done t
            else if bp =? PARTITION_T_LEFT_SPLIT then
              walk (decode_b bl (blk bp 0) PARTITION_T_LEFT_SPLIT (idx tls 0) ;;
                    add_by hsz ;;
                    decode_b bl (blk bp 0) PARTITION_T_LEFT_SPLIT (idx tls 1) ;;
                    add_by (- hsz) ;;
                    add_bx hsz ;;
                    decode_b bl (blk bp 1) PARTITION_T_LEFT_SPLIT (idx tls 2) ;;
                    add_bx (- hsz)) done t
            else if bp =? PARTITION_T_RIGHT_SPLIT then
              walk (decode_b bl (blk bp 0) PARTITION_T_RIGHT_SPLIT (idx trs 0) ;;
                    add_bx hsz ;;
                    decode_b bl (blk bp 1) PARTITION_T_RIGHT_SPLIT (idx trs 1) ;;
                    add_by hsz ;;
                    decode_b bl (blk bp 1) PARTITION_T_RIGHT_SPLIT (idx trs 2) ;;
                    add_by (- hsz) ;;
                    add_bx (- hsz)) done t
            else if bp =? PARTITION_H4 then
              walk (decode_b bl (blk bp 0) PARTITION_H4 (idx h4 0) ;;
                    add_by (Z.shiftr hsz 1) ;;
                    decode_b bl (blk bp 0) PARTITION_H4 (idx h4 1) ;;
                    add_by (Z.shiftr hsz 1) ;;
                    decode_b bl (blk bp 0) PARTITION_H4 (idx h4 2) ;;
                    add_by (Z.shiftr hsz 1) ;;
                    by_ <- gets t_by ;;
                    when (by_ <? f_bh f)
                      (decode_b bl (blk bp 0) PARTITION_H4 (idx h4 3)) ;;
                    add_by (- Z.shiftr (hsz * 3) 1)) done t
            else if bp =? PARTITION_V4 then
              walk (decode_b bl (blk bp 0) PARTITION_V4 (idx v4 0) ;;
                    add_bx (Z.shiftr hsz 1) ;;
                    decode_b bl (blk bp 0) PARTITION_V4 (idx v4 1) ;;
                    add_bx (Z.shiftr hsz 1) ;;
                    decode_b bl (blk bp 0) PARTITION_V4 (idx v4 2) ;;
                    add_bx (Z.shiftr hsz 1) ;;
                    bx <- gets t_bx ;;
                    when (bx <? f_bw f)
                      (decode_b bl (blk bp 0) PARTITION_V4 (idx v4 3)) ;;
                    add_bx (- Z.shiftr (hsz * 3) 1)) done t
            else None
        end
  else if have_h_split then
    let '(is_split, t) := read_is_split (gather_top_partition_prob X) bl t in
    (* assert(bl < BL_8X8); *)
    if negb (bl <? BL_8X8) then None
    else if truthy is_split then
      match node with
      | EdgeBranch _ _ _ _ _ _ _ _ _ split0 split1 _ _ =>
          walk_try (decode_sb split0 (bl + 1))
            (walk (add_bx hsz)
              (walk_try (decode_sb split1 (bl + 1))
                (walk (add_bx (- hsz)) (stamp_partition bl PARTITION_SPLIT bx8 by8)))) t
      | EdgeTip _ _ _ _ => None
      end
    else
      walk (decode_b bl (blk PARTITION_H 0) PARTITION_H (node_h node 0))
           (stamp_partition bl PARTITION_H bx8 by8) t
  else
    (* assert(have_v_split); *)
    let '(is_split, t) := read_is_split (gather_left_partition_prob X) bl t in
    if negb (f_pass f =? 2) && (f_layout f =? DAV1D_PIXEL_LAYOUT_I422) &&
       negb (truthy is_split)
    then Some (1, t)
    else
    (* assert(bl < BL_8X8); *)
    if negb (bl <? BL_8X8) then None
    else if truthy is_split then
      match node with
      | EdgeBranch _ _ _ _ _ _ _ _ _ split0 _ split2 _ =>
          walk_try (decode_sb split0 (bl + 1))
            (walk (add_by hsz)
              (walk_try (decode_sb split2 (bl + 1))
                (walk (add_by (- hsz)) (stamp_partition bl PARTITION_SPLIT bx8 by8)))) t
      | EdgeTip _ _ _ _ => None
      end
    else
      walk (decode_b bl (blk PARTITION_V 0) PARTITION_V (node_v node 0))
           (stamp_partition bl PARTITION_V bx8 by8) t.

(** *** [setup_tile]

    The assignments of [setup_tile] to the members the model holds: the
    range coder, the running deltas and the tile bounds.  (The restoration
    references and the coefficient cursor belong to the external state.) *)
Definition setup_tile (data : list Z) (tile_start_off : Z)
    (col_sb_start col_sb_end row_sb_start row_sb_end sb_shift : Z)
    (t : Tile Msac Ext) : Tile Msac Ext :=
  let t := set_ts_pal_idx (tile_start_off * 2) t in
  let t := set_ts_last_qidx (hdr_quant_yac f) t in
  let t := set_ts_last_delta_lf [0; 0; 0; 0] t in
  let t := set_ts_msac (msac_init X data) t in
  let t := set_ts_col_start (Z.shiftl col_sb_start sb_shift) t in
  let t := set_ts_col_end (imin (Z.shiftl col_sb_end sb_shift) (f_bw f)) t in
  let t := set_ts_row_start (Z.shiftl row_sb_start sb_shift) t in
  set_ts_row_end (imin (Z.shiftl row_sb_end sb_shift) (f_bh f)) t.

End Decode.

(** ** A concrete instance

    A scripted range coder (each read takes the next number of the script,
    reduced to the range of the read), tables with the entries of AV1, and
    collaborators that do nothing.  The closed examples below run the model
    on it. *)

Module Example.

Definition script_next (s : list Z) : Z * list Z :=
  match s with
  | [] => (0, [])
  | v :: s' => (v, s')
  end.

Definition script_read (bound : Z) (s : list Z) : Z * list Z :=
  let '(v, s') := script_next s in
  (if bound >? 0 then v mod bound else 0, s').

(** Width and height in 4x4 units and their logarithms, by block size. *)
Definition block_dimensions : list (list Z) :=
  [ [32; 32; 5; 5]; [32; 16; 5; 4]; [16; 32; 4; 5]; [16; 16; 4; 4];
    [16; 8; 4; 3]; [16; 4; 4; 2]; [8; 16; 3; 4]; [8; 8; 3; 3];
    [8; 4; 3; 2]; [8; 2; 3; 1]; [4; 16; 2; 4]; [4; 8; 2; 3];
    [4; 4; 2; 2]; [4; 2; 2; 1]; [4; 1; 2; 0]; [2; 8; 1; 3];
    [2; 4; 1; 2]; [2; 2; 1; 1]; [2; 1; 1; 0]; [1; 4; 0; 2];
    [1; 2; 0; 1]; [1; 1; 0; 0] ].

Definition dims_of (bs : Z) : list Z := nth (Z.to_nat bs) block_dimensions [1; 1; 0; 0].

(** The block size with the given width and height. *)
Fixpoint bs_of_from (l : list (list Z)) (i w h : Z) : Z :=
  match l with
  | [] => 21
  | d :: l' => if (idx d 0 =? w) && (idx d 1 =? h) then i else bs_of_from l' (i + 1) w h
  end.
Definition bs_of (w h : Z) : Z := bs_of_from block_dimensions 0 w h.

(** The block sizes of a partition of a block of level [bl]. *)
Definition block_sizes (bl bp i : Z) : Z :=
  let s := Z.shiftr 32 bl in
  let hs := Z.shiftr s 1 in
  let qs := Z.shiftr s 2 in
  if bp =? PARTITION_NONE then bs_of s s
  else if bp =? PARTITION_H then bs_of s hs
  else if bp =? PARTITION_V then bs_of hs s
  else if bp =? PARTITION_SPLIT then bs_of hs hs
  else if bp =? PARTITION_T_TOP_SPLIT then if i =? 0 then bs_of hs hs else bs_of s hs
  else if bp =? PARTITION_T_BOTTOM_SPLIT then if i =? 0 then bs_of s hs else bs_of hs hs
  else if bp =? PARTITION_T_LEFT_SPLIT then if i =? 0 then bs_of hs hs else bs_of hs s
  else if bp =? PARTITION_T_RIGHT_SPLIT then if i =? 0 then bs_of hs s else bs_of hs hs
  else if bp =? PARTITION_H4 then bs_of s qs
  else bs_of qs s.

(** Square transforms only: [TX_4X4 .. TX_64X64]. *)
Definition txfm_dimensions (tx : Z) : TxfmInfo :=
  let k := iclip tx 0 4 in
  mk_txfm (Z.shiftl 1 k) (Z.shiftl 1 k) k k k k (imax 0 (k - 1)) k.

Definition max_txfm_size_for_bs (bs layout : Z) : Z :=
  imin 4 (imin (idx (dims_of bs) 2) (idx (dims_of bs) 3)).

Definition zero_mv : mv := mk_mv 0 0.

Definition no_ref_mvs : RefMvs :=
  mk_find (replicate 8 (mk_candidate_mv zero_mv zero_mv 0)) 0 (fun _ _ => zero_mv) 0.

Definition keep {E : Type} (t : Tile (list Z) E) : HookOut (list Z) E :=
  mk_hook_out (ts_msac t) (t_ext t) (t_tl_4x4_filter t) (ts_pal_idx t).

Definition externals : Externals (list Z) unit := {|
  msac_init := fun data => data;
  msac_decode_bool_adapt := fun s _ => script_read 2 s;
  msac_decode_symbol_adapt := fun s _ n => script_read n s;
  msac_decode_bool := fun s _ => script_read 2 s;
  msac_decode_bools := fun s n => script_read (2 ^ n) s;
  msac_decode_uniform := fun s n => script_read n s;
  av1_block_dimensions := dims_of;
  av1_txfm_dimensions := txfm_dimensions;
  av1_max_txfm_size_for_bs := max_txfm_size_for_bs;
  av1_ymode_size_context := fun _ => 0;
  intra_mode_context := fun _ => 0;
  cfl_allowed_mask := 0;
  wedge_allowed_mask := 0;
  interintra_allowed_mask := 0;
  av1_wedge_ctx_lut := fun _ => 0;
  av1_comp_inter_pred_modes := fun _ _ => 0;
  av1_filter_2d := fun f1 f0 => f1 * 4 + f0;
  eve_av1_filter_dir := fun f2d i => if i =? 0 then f2d mod 4 else f2d / 4;
  av1_block_sizes := block_sizes;
  av1_al_part_ctx := fun _ _ _ => 0;
  sbtype_to_bs := fun s => s;
  dav1d_dq_tbl := fun _ q _ => q;
  get_cur_frame_segid := fun _ _ _ _ _ _ => (0, 0);
  block_ctx := fun _ _ _ _ _ _ _ => 0;
  get_tx_ctx := fun _ _ _ _ _ => 0;
  get_partition_ctx := fun _ _ _ _ _ => 0;
  gather_top_partition_prob := fun _ _ _ => 0;
  gather_left_partition_prob := fun _ _ _ => 0;
  get_drl_context := fun _ _ => 0;
  get_mask_comp_ctx := fun _ _ _ _ => 0;
  get_jnt_comp_ctx := fun _ _ _ _ _ _ _ _ => 0;
  get_filter_ctx := fun _ _ _ _ _ _ _ => 0;
  get_gmv_2d := fun _ _ _ _ _ _ => zero_mv;
  unset_hp_bit := fun m => m;
  splat_intraref := fun mvs _ _ _ _ _ => mvs;
  splat_intrabc_mv := fun mvs _ _ _ _ _ => mvs;
  splat_oneref_mv := fun mvs _ _ _ _ _ _ _ _ => mvs;
  splat_tworef_mv := fun mvs _ _ _ _ _ _ _ _ _ => mvs;
  av1_find_ref_mvs := fun _ _ _ _ _ _ _ _ _ _ _ _ => no_ref_mvs;
  find_affine_int := fun _ _ _ _ _ w _ _ => (0, w);
  get_shear_params := fun w => (0, w);
  dav1d_create_lf_mask_intra := fun _ _ _ _ _ _ _ _ e => e;
  dav1d_create_lf_mask_inter := fun _ _ _ _ _ _ _ _ _ e => e;
  dav1d_calc_lf_values := fun _ d => d;
  recon_b_intra := fun _ t _ _ _ => keep t;
  recon_b_inter := fun _ t _ _ => keep t;
  read_coef_blocks := fun _ t _ _ => keep t
|}.

(** A frame of [bw] by [bh] 4x4 units, 8 bits, with the given segmentation
    header; the fields of the examples are set from it. *)
Definition frame_seg (enabled update_map preskip last_active_segid : Z)
    (bw bh layout pass frame_type yac : Z) : Frame := {|
  f_bw := bw; f_bh := bh; f_b4_stride := 32;
  f_pass := pass;
  f_layout := layout; f_bpc := 8;
  f_cur_poc := 0; f_refp_poc := fun _ => 0;
  f_prev_segmap := None;
  seq_layout := layout; seq_sb128 := 0; seq_bpc := 8;
  seq_filter_intra := 1; seq_masked_compound := 0; seq_jnt_comp := 0;
  seq_inter_intra := 0; seq_dual_filter := 0; seq_order_hint_n_bits := 0;
  hdr_frame_type := frame_type; hdr_frame_offset := 0;
  hdr_primary_ref_frame := 7;
  hdr_skip_mode_enabled := 0; hdr_skip_mode_refs := fun _ => 0;
  hdr_seg_enabled := enabled; hdr_seg_update_map := update_map; hdr_seg_temporal := 0;
  hdr_seg_preskip := preskip; hdr_seg_last_active_segid := last_active_segid;
  hdr_seg_lossless := fun _ => 0;
  hdr_seg_delta_q := fun _ => 0;
  hdr_cdef_n_bits := 0;
  hdr_delta_q_present := 0; hdr_delta_q_res_log2 := 0;
  hdr_delta_lf_present := 0; hdr_delta_lf_multi := 0; hdr_delta_lf_res_log2 := 0;
  hdr_quant_yac := yac; hdr_quant_ydc_delta := 0;
  hdr_quant_uac_delta := 0; hdr_quant_udc_delta := 0;
  hdr_quant_vac_delta := 0; hdr_quant_vdc_delta := 0;
  hdr_allow_intrabc := 0; hdr_allow_screen_content_tools := 0;
  hdr_txfm_mode := TX_LARGEST; hdr_switchable_comp_refs := 0;
  hdr_hp := 0; hdr_force_integer_mv := 0;
  hdr_gmv_type := fun _ => 0;
  hdr_switchable_motion_mode := 0; hdr_warp_motion := 0;
  hdr_subpel_filter_mode := FILTER_8TAP_REGULAR
|}.

(** Without segmentation. *)
Definition frame_sized (bw bh layout pass frame_type yac : Z) : Frame :=
  frame_seg 0 0 0 0 bw bh layout pass frame_type yac.

(** The 64x64 frame with base quantiser index [yac]. *)
Definition frame_q (layout pass frame_type yac : Z) : Frame :=
  frame_sized 16 16 layout pass frame_type yac.

Definition frame (layout pass frame_type : Z) : Frame := frame_q layout pass frame_type 100.

Definition context0 : BlockContext := fun _ => replicate 32 0.

(** A tile at the origin of the frame, with zeroed contexts and the given
    script in the range coder. *)
Definition tile (script : list Z) : Tile (list Z) unit := {|
  ts_msac := script;
  t_ext := tt;
  t_tl_4x4_filter := 0;
  t_bx := 0; t_by := 0;
  t_a := context0; t_l := context0;
  t_pal_sz_uv_a := replicate 32 0; t_pal_sz_uv_l := replicate 32 0;
  t_al_pal := fun _ _ _ => replicate 8 0;
  t_pal := fun _ => replicate 8 0;
  ft_pal := fun _ _ => replicate 8 0;
  t_warpmv := mk_wmp 0 [] [];
  t_cur_sb_cdef_idx := [-1; -1; -1; -1];
  t_blk := inhabitant;
  ft_b := replicate 1024 inhabitant;
  ts_last_qidx := 100; ts_last_delta_lf := [0; 0; 0; 0];
  ts_dq := FrameWide; ts_dqmem := fun _ => [];
  ts_lflvl := FrameWide; ts_lflvlmem := [];
  ts_col_start := 0; ts_col_end := 16;
  ts_row_start := 0; ts_row_end := 16;
  f_cur_segmap := replicate 1024 0;
  f_mvs := replicate 1024 inhabitant;
  lf_noskip_mask := replicate 32 0;
  t_scratch_pal_idx := fun _ => 0;
  ft_pal_idx := fun _ => 0;
  ts_pal_idx := 0;
  walk_log := []
|}.

(** A full intra-edge tree below level [bl]: [depth] levels of branches
    over tips. *)
Fixpoint edge_tree (depth : nat) : EdgeNode :=
  match depth with
  | O => EdgeTip 0 [0; 0] [0; 0] [0; 0; 0; 0]
  | S d => EdgeBranch 0 [0; 0] [0; 0] [0; 0; 0] [0; 0; 0] [0; 0; 0] [0; 0; 0]
                      [0; 0; 0; 0] [0; 0; 0; 0]
                      (edge_tree d) (edge_tree d) (edge_tree d) (edge_tree d)
  end.

(** The collaborators of [externals] with the two solvers of [warpmv.h]
    replaced by [fit] and [shear]. *)
Definition with_solvers
    (fit : list Sample -> Z -> Z -> Z -> mv -> WarpedMotionParams ->
           Z -> Z -> Z * WarpedMotionParams)
    (shear : WarpedMotionParams -> Z * WarpedMotionParams)
    : Externals (list Z) unit := {|
  msac_init := msac_init externals;
  msac_decode_bool_adapt := msac_decode_bool_adapt externals;
  msac_decode_symbol_adapt := msac_decode_symbol_adapt externals;
  msac_decode_bool := msac_decode_bool externals;
  msac_decode_bools := msac_decode_bools externals;
  msac_decode_uniform := msac_decode_uniform externals;
  av1_block_dimensions := av1_block_dimensions externals;
  av1_txfm_dimensions := av1_txfm_dimensions externals;
  av1_max_txfm_size_for_bs := av1_max_txfm_size_for_bs externals;
  av1_ymode_size_context := av1_ymode_size_context externals;
  intra_mode_context := intra_mode_context externals;
  cfl_allowed_mask := cfl_allowed_mask externals;
  wedge_allowed_mask := wedge_allowed_mask externals;
  interintra_allowed_mask := interintra_allowed_mask externals;
  av1_wedge_ctx_lut := av1_wedge_ctx_lut externals;
  av1_comp_inter_pred_modes := av1_comp_inter_pred_modes externals;
  av1_filter_2d := av1_filter_2d externals;
  eve_av1_filter_dir := eve_av1_filter_dir externals;
  av1_block_sizes := av1_block_sizes externals;
  av1_al_part_ctx := av1_al_part_ctx externals;
  sbtype_to_bs := sbtype_to_bs externals;
  dav1d_dq_tbl := dav1d_dq_tbl externals;
  get_cur_frame_segid := get_cur_frame_segid externals;
  block_ctx := block_ctx externals;
  get_tx_ctx := get_tx_ctx externals;
  get_partition_ctx := get_partition_ctx externals;
  gather_top_partition_prob := gather_top_partition_prob externals;
  gather_left_partition_prob := gather_left_partition_prob externals;
  get_drl_context := get_drl_context externals;
  get_mask_comp_ctx := get_mask_comp_ctx externals;
  get_jnt_comp_ctx := get_jnt_comp_ctx externals;
  get_filter_ctx := get_filter_ctx externals;
  get_gmv_2d := get_gmv_2d externals;
  unset_hp_bit := unset_hp_bit externals;
  splat_intraref := splat_intraref externals;
  splat_intrabc_mv := splat_intrabc_mv externals;
  splat_oneref_mv := splat_oneref_mv externals;
  splat_tworef_mv := splat_tworef_mv externals;
  av1_find_ref_mvs := av1_find_ref_mvs externals;
  find_affine_int := fit;
  get_shear_params := shear;
  dav1d_create_lf_mask_intra := dav1d_create_lf_mask_intra externals;
  dav1d_create_lf_mask_inter := dav1d_create_lf_mask_inter externals;
  dav1d_calc_lf_values := dav1d_calc_lf_values externals;
  recon_b_intra := recon_b_intra externals;
  recon_b_inter := recon_b_inter externals;
  read_coef_blocks := read_coef_blocks externals
|}.

(** A least-squares fit that needs at least [n] samples. *)
Definition fit_needs (n : Z) (pts : list Sample) (np bw4 bh4 : Z) (mv0 : mv)
    (w : WarpedMotionParams) (bx by_ : Z) : Z * WarpedMotionParams :=
  (if np <? n then 1 else 0, w).

(** The tile at (4, 4) of a frame whose motion-vector plane holds two
    projectable 2x2 neighbours above the block, with vectors [top0] and
    [top2], and one 4x4 neighbour to its left, with vector [left]. *)
Definition warp_tile (top0 top2 left : mv) : Tile (list Z) unit :=
  let nb sb m := mk_refmvs m inhabitant 1 (-1) 0 sb in
  set_f_mvs (<[131%nat := nb 12 left]>
               (<[102%nat := nb 17 top2]>
                  (<[100%nat := nb 17 top0]> (replicate 1024 inhabitant))))
            (set_t_bx 4 (set_t_by 4 (tile []))).

(** The frame [g] with a primary reference frame and the segmentation map
    of that frame. *)
Definition with_prev_segmap (primary_ref_frame : Z) (prev_segmap : list Z) (g : Frame)
    : Frame := {|
  f_bw := f_bw g;
  f_bh := f_bh g;
  f_b4_stride := f_b4_stride g;
  f_pass := f_pass g;
  f_layout := f_layout g;
  f_bpc := f_bpc g;
  f_cur_poc := f_cur_poc g;
  f_refp_poc := f_refp_poc g;
  f_prev_segmap := Some prev_segmap;
  seq_layout := seq_layout g;
  seq_sb128 := seq_sb128 g;
  seq_bpc := seq_bpc g;
  seq_filter_intra := seq_filter_intra g;
  seq_masked_compound := seq_masked_compound g;
  seq_jnt_comp := seq_jnt_comp g;
  seq_inter_intra := seq_inter_intra g;
  seq_dual_filter := seq_dual_filter g;
  seq_order_hint_n_bits := seq_order_hint_n_bits g;
  hdr_frame_type := hdr_frame_type g;
  hdr_frame_offset := hdr_frame_offset g;
  hdr_primary_ref_frame := primary_ref_frame;
  hdr_skip_mode_enabled := hdr_skip_mode_enabled g;
  hdr_skip_mode_refs := hdr_skip_mode_refs g;
  hdr_seg_enabled := hdr_seg_enabled g;
  hdr_seg_update_map := hdr_seg_update_map g;
  hdr_seg_temporal := hdr_seg_temporal g;
  hdr_seg_preskip := hdr_seg_preskip g;
  hdr_seg_last_active_segid := hdr_seg_last_active_segid g;
  hdr_seg_lossless := hdr_seg_lossless g;
  hdr_seg_delta_q := hdr_seg_delta_q g;
  hdr_cdef_n_bits := hdr_cdef_n_bits g;
  hdr_delta_q_present := hdr_delta_q_present g;
  hdr_delta_q_res_log2 := hdr_delta_q_res_log2 g;
  hdr_delta_lf_present := hdr_delta_lf_present g;
  hdr_delta_lf_multi := hdr_delta_lf_multi g;
  hdr_delta_lf_res_log2 := hdr_delta_lf_res_log2 g;
  hdr_quant_yac := hdr_quant_yac g;
  hdr_quant_ydc_delta := hdr_quant_ydc_delta g;
  hdr_quant_uac_delta := hdr_quant_uac_delta g;
  hdr_quant_udc_delta := hdr_quant_udc_delta g;
  hdr_quant_vac_delta := hdr_quant_vac_delta g;
  hdr_quant_vdc_delta := hdr_quant_vdc_delta g;
  hdr_allow_intrabc := hdr_allow_intrabc g;
  hdr_allow_screen_content_tools := hdr_allow_screen_content_tools g;
  hdr_txfm_mode := hdr_txfm_mode g;
  hdr_switchable_comp_refs := hdr_switchable_comp_refs g;
  hdr_hp := hdr_hp g;
  hdr_force_integer_mv := hdr_force_integer_mv g;
  hdr_gmv_type := hdr_gmv_type g;
  hdr_switchable_motion_mode := hdr_switchable_motion_mode g;
  hdr_warp_motion := hdr_warp_motion g;
  hdr_subpel_filter_mode := hdr_subpel_filter_mode g
|}.

End Example.

(** * Properties *)

(** ** Reasoning about parser steps

    [preserves R m]: every run of [m] relates the state before to the state
    after by [R].  With [R] a preorder this is closed under sequencing, so a
    property of that shape is proved statement by statement. *)

Section Logic.

Context {Msac Ext : Type}.

Local Abbreviation Parser := (@M Msac Ext).
Local Abbreviation State := (Tile Msac Ext).

Definition preserves {A} (R : State -> State -> Prop) (m : Parser A) : Prop :=
  forall t, R t (exec m t).

(** [post P m Q]: from a state that satisfies [P], [m] returns a value and a
    state that satisfy [Q]. *)
Definition post {A} (P : State -> Prop) (m : Parser A) (Q : A -> State -> Prop) : Prop :=
  forall t, P t -> Q (eval m t) (exec m t).

Lemma exec_bind {A B} (m : Parser A) (k : A -> Parser B) t :
  exec (bind m k) t = exec (k (eval m t)) (exec m t).
Proof. unfold exec, eval, bind. destruct (m t). reflexivity. Qed.

Lemma eval_bind {A B} (m : Parser A) (k : A -> Parser B) t :
  eval (bind m k) t = eval (k (eval m t)) (exec m t).
Proof. unfold exec, eval, bind. destruct (m t). reflexivity. Qed.

Lemma run_eta {A} (m : Parser A) t : m t = (eval m t, exec m t).
Proof. unfold eval, exec. destruct (m t). reflexivity. Qed.

Section Preserves.

Context (R : State -> State -> Prop) `{!PreOrder R}.

Lemma preserves_ret {A} (x : A) : preserves R (ret x).
Proof. intros t. reflexivity. Qed.

Lemma preserves_bind {A B} (m : Parser A) (k : A -> Parser B) :
  preserves R m -> (forall x, preserves R (k x)) -> preserves R (bind m k).
Proof.
  intros Hm Hk t. rewrite exec_bind. etransitivity; [apply Hm | apply Hk].
Qed.

Lemma preserves_gets {A} (p : State -> A) : preserves R (gets p).
Proof. intros t. reflexivity. Qed.

Lemma preserves_modify (g : State -> State) :
  (forall t, R t (g t)) -> preserves R (modify g).
Proof. intros H t. apply H. Qed.

Lemma preserves_when (c : bool) (m : Parser unit) :
  preserves R m -> preserves R (when c m).
Proof. intros H. destruct c; [exact H | apply preserves_ret]. Qed.

Lemma preserves_foldM {A B} (g : B -> A -> Parser B) (l : list A) (b : B) :
  (forall b x, preserves R (g b x)) -> preserves R (foldM g l b).
Proof.
  intros H. revert b. induction l as [|x l IH]; intros b; simpl.
  - apply preserves_ret.
  - apply preserves_bind; [apply H | intros; apply IH].
Qed.

Lemma preserves_for_loop {S} (fuel : nat) (cond : S -> bool) (body : S -> Parser S) (s : S) :
  (forall s, preserves R (body s)) -> preserves R (for_loop fuel cond body s).
Proof.
  intros H. revert s. induction fuel as [|fuel IH]; intros s; simpl.
  - apply preserves_ret.
  - destruct (cond s); [|apply preserves_ret].
    apply preserves_bind; [apply H | intros; apply IH].
Qed.

End Preserves.

Lemma post_ret {A} (P : State -> Prop) (x : A) (Q : A -> State -> Prop) :
  (forall t, P t -> Q x t) -> post P (ret x) Q.
Proof. intros H t Ht. apply H, Ht. Qed.

Lemma post_bind {A B} (P : State -> Prop) (m : Parser A) (k : A -> Parser B)
    (I : A -> State -> Prop) (Q : B -> State -> Prop) :
  post P m I -> (forall x, post (I x) (k x) Q) -> post P (bind m k) Q.
Proof.
  intros Hm Hk t Ht. rewrite exec_bind, eval_bind. apply (Hk _ _ (Hm t Ht)).
Qed.

Lemma post_weaken {A} (P P' : State -> Prop) (m : Parser A) (Q Q' : A -> State -> Prop) :
  post P' m Q' -> (forall t, P t -> P' t) -> (forall x t, Q' x t -> Q x t) -> post P m Q.
Proof. intros H HP HQ t Ht. apply HQ, H, HP, Ht. Qed.

Lemma post_trivial {A} (P : State -> Prop) (m : Parser A) : post P m (fun _ _ => True).
Proof. intros t _. exact I. Qed.

(** A property of the state that [m] does not disturb survives [m]. *)
Lemma post_preserved {A} (R : State -> State -> Prop) (m : Parser A)
    (P : State -> Prop) :
  preserves R m -> (forall t t', R t t' -> P t -> P t') -> post P m (fun _ t' => P t').
Proof. intros Hm HR t Ht. exact (HR _ _ (Hm t) Ht). Qed.

End Logic.

(** The structural steps of a [preserves] proof; [side] closes the goals
    [R t (g t)] of the state updates, [leaf] the calls of functions that
    have their own lemma. *)
Ltac preserves_with side leaf :=
  repeat (cbv beta zeta; lazymatch goal with
  | |- preserves ?R (bind _ _) => apply (preserves_bind R); [ | intros ? ]
  | |- preserves ?R (ret _) => apply (preserves_ret R)
  | |- preserves ?R (gets _) => apply (preserves_gets R)
  | |- preserves ?R (when _ _) => apply (preserves_when R)
  | |- preserves ?R (foldM _ _ _) => apply (preserves_foldM R); intros ? ?
  | |- preserves ?R (for_loop _ _ _ _) => apply (preserves_for_loop R); intros ?
  | |- preserves ?R (modify _) => apply (preserves_modify R); intros ?; side
  | |- preserves _ (if ?c then _ else _) => destruct c
  | |- preserves _ (match ?x with _ => _ end) => destruct x
  | |- preserves _ ((match ?x with _ => _ end) _) => destruct x
  | |- preserves _ _ => leaf
  end).

(** The run of a sequence, step by step. *)
Ltac run_binds := repeat (rewrite ?exec_bind, ?eval_bind; cbv beta).
(** ** Properties of [av1_neg_deinterleave] *)

Section NegDeinterleave.

Lemma shiftr1_div2 x : Z.shiftr x 1 = x / 2.
Proof. rewrite Z.shiftr_div_pow2 by lia. reflexivity. Qed.

Lemma odd_cases x : (Z.odd x = true /\ x = 2 * (x / 2) + 1) \/ (Z.odd x = false /\ x = 2 * (x / 2)).
Proof.
  pose proof (Z.div_mod x 2 ltac:(lia)) as Hdm.
  rewrite Zmod_odd in Hdm. revert Hdm.
  destruct (Z.odd x); intros Hdm; [left | right]; split; auto; lia.
Qed.

(** [lia] after the quotients and remainders by constants are unfolded to
    their defining inequalities. *)
Ltac lia_div := Z.to_euclidean_division_equations; lia.

Ltac neg_deinterleave_cases :=
  unfold av1_neg_deinterleave; rewrite ?shiftr1_div2;
  repeat match goal with
  | |- context [Z.odd ?d] =>
      let H := fresh in let E := fresh in
      destruct (odd_cases d) as [[E H] | [E H]]; rewrite E
  | |- context [?a =? ?b] => destruct (Z.eqb_spec a b)
  | |- context [?a <? ?b] => destruct (Z.ltb_spec a b)
  | |- context [?a <=? ?b] => destruct (Z.leb_spec a b)
  | |- context [?a >=? ?b] => rewrite (Z.geb_leb a b)
  end.

Lemma neg_deinterleave_range diff ref max :
  0 <= ref -> 0 <= diff < max -> 0 <= av1_neg_deinterleave diff ref max < max.
Proof.
  intros Href Hdiff. neg_deinterleave_cases; lia_div.
Qed.

Lemma neg_deinterleave_inj d1 d2 ref max :
  0 <= ref -> 0 <= d1 < max -> 0 <= d2 < max ->
  av1_neg_deinterleave d1 ref max = av1_neg_deinterleave d2 ref max -> d1 = d2.
Proof.
  intros Href H1 H2. neg_deinterleave_cases; lia_div.
Qed.

(** C2 (as amended).  For every [ref] and [max] with [0 <= ref <= max], the
    map [diff -> av1_neg_deinterleave diff ref max] is injective on the
    half-open interval [0, max) and its image over that interval is exactly
    [0, max): it is a permutation of [0 .. max - 1], the range of segment ids
    when [max = last_active_segid + 1]. *)
Theorem neg_deinterleave_permutation ref max :
  0 <= ref <= max ->
  (forall d1 d2, 0 <= d1 < max -> 0 <= d2 < max ->
     av1_neg_deinterleave d1 ref max = av1_neg_deinterleave d2 ref max -> d1 = d2) /\
  Permutation ((fun diff => av1_neg_deinterleave diff ref max) <$> seqZ 0 max) (seqZ 0 max).
Proof.
  intros Href. split.
  - intros d1 d2 H1 H2. apply neg_deinterleave_inj; lia.
  - apply submseteq_length_Permutation.
    + apply NoDup_submseteq.
      * apply NoDup_fmap_2_strong; [|apply NoDup_seqZ].
        intros d1 d2 H1%elem_of_seqZ H2%elem_of_seqZ.
        apply neg_deinterleave_inj; lia.
      * intros y (d & -> & Hd%elem_of_seqZ)%list_elem_of_fmap.
        apply elem_of_seqZ.
        pose proof (neg_deinterleave_range d ref max). lia.
    + rewrite length_fmap. lia.
Qed.

Lemma neg_deinterleave_permutation_witness :
  0 <= 2 <= 4 /\
  ((forall d1 d2, 0 <= d1 < 4 -> 0 <= d2 < 4 ->
      av1_neg_deinterleave d1 2 4 = av1_neg_deinterleave d2 2 4 -> d1 = d2) /\
   Permutation ((fun diff => av1_neg_deinterleave diff 2 4) <$> seqZ 0 4) (seqZ 0 4)).
Proof. split; [lia | apply (neg_deinterleave_permutation 2 4); lia]. Defined.

(** The closed interval [0, max] is not permuted: with [ref = 2] and
    [max = 4] the difference [4] is sent to [-1]. *)
Lemma neg_deinterleave_closed_interval_counterexample :
  0 <= 2 <= 4 /\
  ~ Permutation ((fun diff => av1_neg_deinterleave diff 2 4) <$> seqZ 0 (4 + 1))
                (seqZ 0 (4 + 1)).
Proof.
  split; [lia|]. intros HP.
  assert (Hin : -1 ∈ seqZ 0 (4 + 1)).
  { rewrite <- HP. apply list_elem_of_fmap. exists 4. split; [reflexivity|].
    apply elem_of_seqZ. lia. }
  apply elem_of_seqZ in Hin. lia.
Qed.

End NegDeinterleave.


(** ** What the stages of [decode_b] leave alone *)

Section Frames.

Context {Msac Ext : Type}.
Variable X : Externals Msac Ext.
Variable f : Frame.

Local Abbreviation Parser := (@M Msac Ext).
Local Abbreviation State := (Tile Msac Ext).

(** The range-coder steps write [ts_msac] only. *)
Section MsacSteps.

Context (R : State -> State -> Prop) (Hmsac : forall t m, R t (set_ts_msac m t)).

Lemma preserves_bool_adapt c : preserves R (bool_adapt X c).
Proof.
  intros t. unfold exec, bool_adapt.
  destruct (msac_decode_bool_adapt X (ts_msac t) c). apply Hmsac.
Qed.
Lemma preserves_symbol_adapt c n : preserves R (symbol_adapt X c n).
Proof.
  intros t. unfold exec, symbol_adapt.
  destruct (msac_decode_symbol_adapt X (ts_msac t) c n). apply Hmsac.
Qed.
Lemma preserves_decode_bool p : preserves R (decode_bool X p).
Proof.
  intros t. unfold exec, decode_bool.
  destruct (msac_decode_bool X (ts_msac t) p). apply Hmsac.
Qed.
Lemma preserves_decode_bools n : preserves R (decode_bools X n).
Proof.
  intros t. unfold exec, decode_bools.
  destruct (msac_decode_bools X (ts_msac t) n). apply Hmsac.
Qed.
Lemma preserves_decode_uniform n : preserves R (decode_uniform X n).
Proof.
  intros t. unfold exec, decode_uniform.
  destruct (msac_decode_uniform X (ts_msac t) n). apply Hmsac.
Qed.

End MsacSteps.

(** The members of the block record that are settled before the intra/inter
    branch. *)
Definition blk_head (b : Av1Block) : Z * Z * Z * Z * Z * Z * Z :=
  (b_bl b, b_bs b, b_bp b, b_skip_mode b, b_seg_id b, b_skip b, b_intra b).

(** The branches of [decode_b] and everything they call leave the running
    deltas of the tile and the head of the block record as they were. *)
Definition body_inv (t t' : State) : Prop :=
  ts_last_qidx t' = ts_last_qidx t /\
  ts_last_delta_lf t' = ts_last_delta_lf t /\
  blk_head (t_blk t') = blk_head (t_blk t).

#[global] Instance body_inv_preorder : PreOrder body_inv.
Proof.
  split.
  - intros t. repeat split.
  - intros t1 t2 t3 (H1 & H2 & H3) (H4 & H5 & H6). repeat split; congruence.
Qed.

End Frames.

Create HintDb parser discriminated.

#[global] Hint Unfold setb getb memset_a memset_l add_bx add_by hook store_pal
  pal_idx_set take_pal_idx splat_al_pal reconstruct_intra reconstruct_inter
  ref_ctx find_ref_mvs read_drl_bit cur_frame_segid read_seg_pred load_b store_b : parser.

Create HintDb pres discriminated.

Ltac side_body := repeat (first [progress simpl | case_match]); repeat split; reflexivity.

Ltac leaf_with side :=
  first
    [ simple apply preserves_bool_adapt; intros ? ?; side
    | simple apply preserves_symbol_adapt; intros ? ?; side
    | simple apply preserves_decode_bool; intros ? ?; side
    | simple apply preserves_decode_bools; intros ? ?; side
    | simple apply preserves_decode_uniform; intros ? ?; side
    | solve [auto with pres]
    | progress autounfold with parser ].

Ltac pres_body := preserves_with side_body ltac:(leaf_with side_body).

Section BodyFrames.

Context {Msac Ext : Type}.
Variable X : Externals Msac Ext.
Variable f : Frame.

Lemma read_mv_component_diff_body c fp :
  preserves body_inv (read_mv_component_diff X f c fp).
Proof. unfold read_mv_component_diff. pres_body. Qed.
Hint Resolve read_mv_component_diff_body : pres.

Lemma read_mv_residual_body m c fp : preserves body_inv (read_mv_residual X f m c fp).
Proof. unfold read_mv_residual. pres_body. Qed.
Hint Resolve read_mv_residual_body : pres.

Lemma read_tx_tree_body rem from x y : preserves body_inv (read_tx_tree X f rem from x y).
Proof.
  revert from x y. induction rem as [|rem IH]; intros from x y; simpl; pres_body.
Qed.
Hint Resolve read_tx_tree_body : pres.

Lemma used_cache_scan_body pal_sz cache used :
  preserves body_inv (used_cache_scan X pal_sz cache used).
Proof.
  revert used. induction cache as [|c cache IH]; intros used; simpl; pres_body.
Qed.
Hint Resolve used_cache_scan_body : pres.

Lemma pal_deltas_body fuel pl pal_sz max i prev bits pal :
  preserves body_inv (pal_deltas X fuel pl pal_sz max i prev bits pal).
Proof.
  revert i prev bits pal.
  induction fuel as [|fuel IH]; intros i prev bits pal; simpl; pres_body.
Qed.
Hint Resolve pal_deltas_body : pres.

Lemma tx_descend_body depth : preserves body_inv (tx_descend X depth).
Proof. induction depth as [|depth IH]; simpl; pres_body. Qed.
Hint Resolve tx_descend_body : pres.

Lemma read_pal_plane_body pl sz_ctx bx4 by4 : preserves body_inv (read_pal_plane X f pl sz_ctx bx4 by4).
Proof. unfold read_pal_plane. pres_body. Qed.
Hint Resolve read_pal_plane_body : pres.

Lemma read_pal_uv_body sz_ctx bx4 by4 : preserves body_inv (read_pal_uv X f sz_ctx bx4 by4).
Proof. unfold read_pal_uv. pres_body. Qed.
Hint Resolve read_pal_uv_body : pres.

Lemma read_pal_indices_body p pl w4 h4 bw4 bh4 : preserves body_inv (read_pal_indices X p pl w4 h4 bw4 bh4).
Proof. unfold read_pal_indices. pres_body. Qed.
Hint Resolve read_pal_indices_body : pres.

Lemma read_vartx_tree_body bs bx4 by4 : preserves body_inv (read_vartx_tree X f bs bx4 by4).
Proof. unfold read_vartx_tree. pres_body. Qed.
Hint Resolve read_vartx_tree_body : pres.

Lemma parse_intra_modes_body g bs : preserves body_inv (parse_intra_modes X f g bs).
Proof. unfold parse_intra_modes. pres_body. Qed.
Hint Resolve parse_intra_modes_body : pres.

Lemma update_ctx_intra_body g bs : preserves body_inv (update_ctx_intra X f g bs).
Proof. unfold update_ctx_intra. pres_body. Qed.
Hint Resolve update_ctx_intra_body : pres.

Lemma decode_b_intra_body g bs flags : preserves body_inv (decode_b_intra X f g bs flags).
Proof. unfold decode_b_intra. pres_body. Qed.
Hint Resolve decode_b_intra_body : pres.

Lemma decode_b_intrabc_body g bs bp : preserves body_inv (decode_b_intrabc X f g bs bp).
Proof. unfold decode_b_intrabc. pres_body. Qed.
Hint Resolve decode_b_intrabc_body : pres.

Lemma parse_comp_refs_body g : preserves body_inv (parse_comp_refs X g).
Proof. unfold parse_comp_refs. pres_body. Qed.
Hint Resolve parse_comp_refs_body : pres.

Lemma assign_comp_mv_body g r im i h : preserves body_inv (assign_comp_mv X f g r im i h).
Proof. unfold assign_comp_mv. pres_body. Qed.
Hint Resolve assign_comp_mv_body : pres.

Lemma parse_inter_comp_body g bs bp : preserves body_inv (parse_inter_comp X f g bs bp).
Proof. unfold parse_inter_comp. pres_body. Qed.
Hint Resolve parse_inter_comp_body : pres.

Lemma parse_single_ref_body g : preserves body_inv (parse_single_ref X g).
Proof. unfold parse_single_ref. pres_body. Qed.
Hint Resolve parse_single_ref_body : pres.

Lemma parse_single_mode_body g r : preserves body_inv (parse_single_mode X f g r).
Proof. unfold parse_single_mode. pres_body. Qed.
Hint Resolve parse_single_mode_body : pres.

Lemma parse_interintra_body bs : preserves body_inv (parse_interintra X f bs).
Proof. unfold parse_interintra. pres_body. Qed.
Hint Resolve parse_interintra_body : pres.

Lemma parse_motion_mode_body g bs flags h : preserves body_inv (parse_motion_mode X f g bs flags h).
Proof. unfold parse_motion_mode. pres_body. Qed.
Hint Resolve parse_motion_mode_body : pres.

Lemma parse_subpel_filter_body g h : preserves body_inv (parse_subpel_filter X f g h).
Proof. unfold parse_subpel_filter. pres_body. Qed.
Hint Resolve parse_subpel_filter_body : pres.

Lemma update_ctx_inter_body g bs is_comp filter : preserves body_inv (update_ctx_inter X f g bs is_comp filter).
Proof. unfold update_ctx_inter. pres_body. Qed.
Hint Resolve update_ctx_inter_body : pres.

Lemma decode_b_inter_body g bs bp flags : preserves body_inv (decode_b_inter X f g bs bp flags).
Proof. unfold decode_b_inter. pres_body. Qed.
Hint Resolve decode_b_inter_body : pres.

End BodyFrames.

#[global] Hint Resolve read_mv_component_diff_body read_mv_residual_body read_tx_tree_body used_cache_scan_body pal_deltas_body tx_descend_body read_pal_plane_body read_pal_uv_body read_pal_indices_body read_vartx_tree_body parse_intra_modes_body update_ctx_intra_body decode_b_intra_body decode_b_intrabc_body parse_comp_refs_body assign_comp_mv_body parse_inter_comp_body parse_single_ref_body parse_single_mode_body parse_interintra_body parse_motion_mode_body parse_subpel_filter_body update_ctx_inter_body decode_b_inter_body : pres.

(** ** Arrays *)

Section Arrays.

Lemma idx_lookup (l : list Z) (i : Z) : idx l i = default 0 (l !! Z.to_nat i).
Proof. unfold idx. apply nth_lookup. Qed.

Lemma idx_upd_cases (l : list Z) (i j v : Z) :
  idx (upd l i v) j = idx l j \/ idx (upd l i v) j = v.
Proof.
  rewrite !idx_lookup. unfold upd.
  destruct (decide (Z.to_nat i = Z.to_nat j)) as [E|E].
  - destruct (decide (Z.to_nat i < length l)%nat) as [Hlt|Hge].
    + right. rewrite E in *. rewrite list_lookup_insert_eq by lia. reflexivity.
    + left. rewrite list_insert_ge by lia. reflexivity.
  - left. rewrite list_lookup_insert_ne by exact E. reflexivity.
Qed.

Lemma length_memset (l : list Z) (off v n : Z) : length (memset l off v n) = length l.
Proof. unfold memset. apply length_inserts. Qed.

(** Inside the written range, and inside the array, the byte is read back. *)
Lemma idx_memset_in (l : list Z) (off v n x : Z) :
  0 <= off -> off <= x < off + n -> x < Z.of_nat (length l) ->
  idx (memset l off v n) x = v.
Proof.
  intros Hoff Hx Hlen. rewrite idx_lookup. unfold memset.
  rewrite list_lookup_inserts.
  - rewrite lookup_replicate_2; [reflexivity|]. lia.
  - rewrite length_replicate. lia.
  - lia.
Qed.

(** Outside the written range the array is unchanged. *)
Lemma idx_memset_out (l : list Z) (off v n x : Z) :
  0 <= off -> 0 <= x -> (x < off \/ off + n <= x) ->
  idx (memset l off v n) x = idx l x.
Proof.
  intros Hoff Hx Hout. rewrite !idx_lookup. unfold memset.
  destruct Hout as [Hlt|Hge].
  - rewrite list_lookup_inserts_lt by lia. reflexivity.
  - destruct (decide (0 <= n)) as [Hn|Hn].
    + rewrite list_lookup_inserts_ge; [reflexivity|].
      rewrite length_replicate. lia.
    + replace (Z.to_nat n) with 0%nat by lia. reflexivity.
Qed.

Lemma ctx_memset_same (c : BlockContext) fld off v n :
  ctx_memset c fld off v n fld = memset (c fld) off (ctx_wrap fld v) n.
Proof. unfold ctx_memset. rewrite decide_True by reflexivity. reflexivity. Qed.

Lemma ctx_memset_other (c : BlockContext) fld g off v n :
  g <> fld -> ctx_memset c fld off v n g = c g.
Proof. intros H. unfold ctx_memset. rewrite decide_False by exact H. reflexivity. Qed.

End Arrays.

(** ** C10: the running deltas of the tile *)

Section Deltas.

Context {Msac Ext : Type}.

Local Abbreviation State := (Tile Msac Ext).

(** The running quantiser index and loop-filter deltas are as they were. *)
Definition delta_inv (t t' : State) : Prop :=
  ts_last_qidx t' = ts_last_qidx t /\ ts_last_delta_lf t' = ts_last_delta_lf t.

(** ... and so is the position of the block. *)
Definition head_inv (t t' : State) : Prop :=
  t_bx t' = t_bx t /\ t_by t' = t_by t /\ delta_inv t t'.

(** Each running value is as it was or has been clamped into its range. *)
Definition range_inv (t t' : State) : Prop :=
  (ts_last_qidx t' = ts_last_qidx t \/ 1 <= ts_last_qidx t' <= 255) /\
  (forall i, idx (ts_last_delta_lf t') i = idx (ts_last_delta_lf t) i \/
             -63 <= idx (ts_last_delta_lf t') i <= 63).

#[global] Instance delta_inv_preorder : PreOrder delta_inv.
Proof.
  split.
  - intros t. split; reflexivity.
  - intros t1 t2 t3 [H1 H2] [H3 H4]. split; congruence.
Qed.

#[global] Instance head_inv_preorder : PreOrder head_inv.
Proof.
  split.
  - intros t. repeat split.
  - intros t1 t2 t3 (H1 & H2 & H3 & H4) (H5 & H6 & H7 & H8). repeat split; congruence.
Qed.

#[global] Instance range_inv_preorder : PreOrder range_inv.
Proof.
  split.
  - intros t. split; [left; reflexivity | intros i; left; reflexivity].
  - intros t1 t2 t3 [H1 H2] [H3 H4]. split.
    + destruct H3 as [H3|H3]; [rewrite H3; exact H1 | right; exact H3].
    + intros i. destruct (H4 i) as [E|E]; [rewrite E; apply H2 | right; exact E].
Qed.

Lemma body_delta t t' : body_inv t t' -> delta_inv t t'.
Proof. intros (H1 & H2 & _). split; assumption. Qed.

Lemma head_delta t t' : head_inv t t' -> delta_inv t t'.
Proof. intros (_ & _ & H). exact H. Qed.

Lemma delta_range t t' : delta_inv t t' -> range_inv t t'.
Proof.
  intros [H1 H2]. split; [left; exact H1 | intros i; left; rewrite H2; reflexivity].
Qed.

Lemma preserves_sub {A} (R1 R2 : State -> State -> Prop) (m : M A) :
  (forall t t', R1 t t' -> R2 t t') -> preserves R1 m -> preserves R2 m.
Proof. intros H Hm t. apply H, Hm. Qed.

End Deltas.

Ltac pres_head := preserves_with side_body ltac:(leaf_with side_body).
Ltac pres_delta := preserves_with side_body ltac:(leaf_with side_body).

(** A state update meets [range_inv] when it leaves both running values, or
    stores a clamped one. *)
Ltac side_range :=
  repeat case_match; unfold range_inv; simpl;
  first
    [ solve [split; [left; reflexivity | intros ?; left; reflexivity]]
    | solve [split; [right; apply iclip_range; lia | intros ?; left; reflexivity]]
    | split; [left; reflexivity |];
      let j := fresh "j" in
      intros j;
      match goal with
      | |- idx (upd ?l ?i ?v) j = _ \/ _ =>
          destruct (idx_upd_cases l i j v) as [E|E]; rewrite E;
          [left; reflexivity | right];
          match goal with
          | |- context [iclip ?a ?lo ?hi] =>
              pose proof (iclip_range a lo hi ltac:(lia)); rewrite i8_small by lia; lia
          end
      end ].
Ltac pres_range := preserves_with side_range ltac:(leaf_with side_range).

Section DeltaFrames.

Context {Msac Ext : Type}.
Variable X : Externals Msac Ext.
Variable f : Frame.

Lemma read_seg_id_diff_head p c : preserves (@head_inv Msac Ext) (read_seg_id_diff X f p c).
Proof. unfold read_seg_id_diff. pres_head. Qed.
Hint Resolve read_seg_id_diff_head : pres.

Lemma parse_skip_mode_head g : preserves (@head_inv Msac Ext) (parse_skip_mode X f g).
Proof. unfold parse_skip_mode. pres_head. Qed.
Hint Resolve parse_skip_mode_head : pres.

Lemma parse_seg_id_preskip_head g : preserves (@head_inv Msac Ext) (parse_seg_id_preskip X f g).
Proof. unfold parse_seg_id_preskip. pres_head. Qed.
Hint Resolve parse_seg_id_preskip_head : pres.

Lemma parse_skip_head g : preserves (@head_inv Msac Ext) (parse_skip X g).
Proof. unfold parse_skip. pres_head. Qed.
Hint Resolve parse_skip_head : pres.

Lemma parse_seg_id_postskip_head g sp : preserves (@head_inv Msac Ext) (parse_seg_id_postskip X f g sp).
Proof. unfold parse_seg_id_postskip. pres_head. Qed.
Hint Resolve parse_seg_id_postskip_head : pres.

Lemma parse_cdef_idx_head g : preserves (@head_inv Msac Ext) (parse_cdef_idx X f g).
Proof. unfold parse_cdef_idx. pres_head. Qed.
Hint Resolve parse_cdef_idx_head : pres.

Lemma parse_intra_head g : preserves (@head_inv Msac Ext) (parse_intra X f g).
Proof. unfold parse_intra. pres_head. Qed.
Hint Resolve parse_intra_head : pres.

Lemma update_ctx_final_delta g sp : preserves (@delta_inv Msac Ext) (update_ctx_final f g sp).
Proof. unfold update_ctx_final. pres_delta. Qed.
Hint Resolve update_ctx_final_delta : pres.

Lemma decode_b_pass2_delta g bs flags : preserves (@delta_inv Msac Ext) (decode_b_pass2 X f g bs flags).
Proof. unfold decode_b_pass2. pres_delta. Qed.
Hint Resolve decode_b_pass2_delta : pres.

Lemma read_delta_range c r : preserves range_inv (read_delta X c r).
Proof. unfold read_delta. pres_range. Qed.
Hint Resolve read_delta_range : pres.

Lemma parse_delta_q_lf_range bs : preserves range_inv (parse_delta_q_lf X f bs).
Proof. unfold parse_delta_q_lf. pres_range. Qed.

(** Away from a superblock origin the stage is skipped. *)
Lemma parse_delta_q_lf_skipped bs (t : Tile Msac Ext) :
  at_sb_origin f t = false -> exec (parse_delta_q_lf X f bs) t = t.
Proof.
  intros H. unfold parse_delta_q_lf.
  rewrite exec_bind. unfold gets at 1. unfold eval, exec at 2. simpl.
  rewrite H. reflexivity.
Qed.

End DeltaFrames.

#[global] Hint Resolve read_seg_id_diff_head parse_skip_mode_head parse_seg_id_preskip_head parse_skip_head parse_seg_id_postskip_head parse_cdef_idx_head parse_intra_head : pres.
#[global] Hint Resolve update_ctx_final_delta decode_b_pass2_delta : pres.
#[global] Hint Resolve read_delta_range parse_delta_q_lf_range : pres.

Section RunningDeltas.

Context {Msac Ext : Type}.
Variable X : Externals Msac Ext.
Variable f : Frame.

Local Abbreviation State := (Tile Msac Ext).

(** The three relations from the weakest to the strongest, for the calls
    that have a lemma about a stronger one. *)
Ltac leaf_range :=
  first
    [ solve [auto with pres]
    | apply (preserves_sub (@delta_inv Msac Ext) (@range_inv Msac Ext));
        [exact delta_range | solve [auto with pres]]
    | apply (preserves_sub (@head_inv Msac Ext) (@range_inv Msac Ext));
        [intros ? ? ?; apply delta_range, head_delta; assumption | solve [auto with pres]]
    | apply (preserves_sub (@body_inv Msac Ext) (@range_inv Msac Ext));
        [intros ? ? ?; apply delta_range, body_delta; assumption | solve [auto with pres]]
    | leaf_with side_range ].
Ltac leaf_delta :=
  first
    [ solve [auto with pres]
    | apply (preserves_sub (@head_inv Msac Ext) (@delta_inv Msac Ext));
        [exact head_delta | solve [auto with pres]]
    | apply (preserves_sub (@body_inv Msac Ext) (@delta_inv Msac Ext));
        [exact body_delta | solve [auto with pres]]
    | leaf_with side_body ].

Lemma decode_b_range bl bs bp flags :
  preserves (@range_inv Msac Ext) (decode_b X f bl bs bp flags).
Proof.
  unfold decode_b, decode_b_parse.
  preserves_with side_range leaf_range.
Qed.

(** The stages before "delta-q/lf". *)
Definition before_deltas (t0 t : State) : Prop :=
  at_sb_origin f t = false /\ delta_inv t0 t.

Lemma before_deltas_head (t0 t t' : State) :
  head_inv t t' -> before_deltas t0 t -> before_deltas t0 t'.
Proof.
  intros (Hx & Hy & Hd) [Ho Hd0]. split.
  - unfold at_sb_origin in *. rewrite Hx, Hy. exact Ho.
  - etransitivity; eassumption.
Qed.

Lemma delta_inv_step (t0 t t' : State) :
  delta_inv t t' -> delta_inv t0 t -> delta_inv t0 t'.
Proof. intros H1 H2. etransitivity; eassumption. Qed.

Lemma decode_b_parse_skipped g bl bs bp flags t0 :
  post (before_deltas t0) (decode_b_parse X f g bl bs bp flags)
       (fun _ t' => delta_inv t0 t').
Proof.
  unfold decode_b_parse.
  (* the stages up to the CDEF index keep the position and the deltas *)
  do 6 (eapply post_bind;
    [ apply (post_preserved head_inv);
        [ solve [preserves_with side_body ltac:(leaf_with side_body)]
        | apply before_deltas_head ]
    | intros ? ]).
  (* "delta-q/lf" is skipped *)
  eapply post_bind.
  { intros t [Ho Hd]. rewrite parse_delta_q_lf_skipped by exact Ho.
    instantiate (1 := fun _ t' => delta_inv t0 t'). exact Hd. }
  intros ?.
  (* the rest leaves the deltas alone *)
  apply (post_preserved delta_inv); [| apply delta_inv_step].
  preserves_with side_body leaf_delta.
Qed.

Lemma decode_b_skipped bl bs bp flags (t : State) :
  at_sb_origin f t = false -> delta_inv t (exec (decode_b X f bl bs bp flags) t).
Proof.
  intros Ho.
  assert (H : post (before_deltas t) (decode_b X f bl bs bp flags)
                   (fun _ t' => delta_inv t t')).
  { unfold decode_b.
    do 3 (eapply post_bind;
      [ apply (post_preserved head_inv);
          [ solve [preserves_with side_body ltac:(leaf_with side_body)]
          | apply before_deltas_head ]
      | intros ? ]).
    destruct (f_pass f =? 2).
    - eapply post_weaken;
        [ apply (post_preserved delta_inv _ (delta_inv t));
            [solve [auto with pres] | apply delta_inv_step]
        | intros ? [_ Hd]; exact Hd
        | intros ? ? Hd; exact Hd ].
    - eapply post_bind; [apply decode_b_parse_skipped | intros ?].
      apply (post_preserved delta_inv); [| apply delta_inv_step].
      preserves_with side_body leaf_delta. }
  apply H. split; [exact Ho | reflexivity].
Qed.

(** C10 (as amended).  [decode_b] changes the running quantiser index and
    the running loop-filter deltas of the tile only when the block starts at
    a superblock origin.  Whatever the block, each of these values is
    afterwards either what it was or a value clamped into its range:
    [1, 255] for [ts->last_qidx], [-63, 63] for every [ts->last_delta_lf[i]].
    So both ranges are invariants of the parse; a running index of 0, which
    [setup_tile] stores for a frame whose base index [quant.yac] is 0, is
    kept until a delta is accumulated. *)
Theorem decode_b_running_deltas bl bs bp flags (t : State) :
  let t' := exec (decode_b X f bl bs bp flags) t in
  (at_sb_origin f t = false ->
     ts_last_qidx t' = ts_last_qidx t /\ ts_last_delta_lf t' = ts_last_delta_lf t) /\
  (ts_last_qidx t' = ts_last_qidx t \/ 1 <= ts_last_qidx t' <= 255) /\
  (forall i, idx (ts_last_delta_lf t') i = idx (ts_last_delta_lf t) i \/
             -63 <= idx (ts_last_delta_lf t') i <= 63) /\
  (1 <= ts_last_qidx t <= 255 -> 1 <= ts_last_qidx t' <= 255) /\
  ((forall i, -63 <= idx (ts_last_delta_lf t) i <= 63) ->
   forall i, -63 <= idx (ts_last_delta_lf t') i <= 63).
Proof.
  intros t'.
  pose proof (decode_b_range bl bs bp flags t) as [Hq Hl]. fold t' in Hq, Hl.
  split; [|split; [|split; [|split]]].
  - intros Ho. apply (decode_b_skipped bl bs bp flags t Ho).
  - exact Hq.
  - exact Hl.
  - intros Hr. destruct Hq as [Hq|Hq]; [rewrite Hq; exact Hr | exact Hq].
  - intros Hr i. destruct (Hl i) as [E|E]; [rewrite E; apply Hr | exact E].
Qed.

End RunningDeltas.

(** The 32x32 block at column 8 of the example tile is not at a superblock
    origin: its parse leaves the running deltas alone. *)
Lemma decode_b_running_deltas_witness :
  let f := Example.frame DAV1D_PIXEL_LAYOUT_I420 0 0 in
  let t := set_t_bx 8 (Example.tile [1; 0; 3]) in
  let t' := exec (decode_b Example.externals f BL_32X32 7 PARTITION_NONE 0) t in
  at_sb_origin f t = false /\
  ts_last_qidx t' = ts_last_qidx t /\ ts_last_delta_lf t' = ts_last_delta_lf t.
Proof.
  intros f t t'. split; [reflexivity|].
  apply (proj1 (decode_b_running_deltas Example.externals f BL_32X32 7 PARTITION_NONE 0 t)).
  reflexivity.
Defined.

(** A frame whose base quantiser index is 0 and that codes no delta-q:
    [setup_tile] starts the running index at 0 and the parse of the first
    block leaves it there, outside [1, 255]. *)
Lemma last_qidx_zero_counterexample :
  let f := Example.frame_q DAV1D_PIXEL_LAYOUT_I420 0 0 0 in
  let t := setup_tile Example.externals f [] 0 0 1 0 1 4 (Example.tile []) in
  let t' := exec (decode_b Example.externals f BL_64X64 BS_64x64 PARTITION_NONE 0) t in
  ts_last_qidx t' = 0 /\ ~ (1 <= ts_last_qidx t' <= 255).
Proof.
  intros f t t'.
  assert (E : ts_last_qidx t' = 0) by (vm_compute; reflexivity).
  split; [exact E | rewrite E; lia].
Qed.

(** ** C6: pass 2 does not use the range coder *)

Section WalkerLogic.

Context {Msac Ext : Type}.

Local Abbreviation State := (Tile Msac Ext).

(** Every completed run of the walker relates the state before to the
    state after by [R]. *)
Definition walk_preserves (R : State -> State -> Prop) (w : State -> option (Z * State)) : Prop :=
  forall t r t', w t = Some (r, t') -> R t t'.

Context (R : State -> State -> Prop) `{!PreOrder R}.

Lemma walk_preserves_ret r : walk_preserves R (walk_ret r).
Proof. intros t r' t' [= _ <-]. reflexivity. Qed.

Lemma walk_preserves_abort : walk_preserves R walk_abort.
Proof. intros t r t' [=]. Qed.

Lemma walk_preserves_walk (m : M unit) (k : Walker) :
  preserves R m -> walk_preserves R k -> walk_preserves R (walk m k).
Proof.
  intros Hm Hk t r t' H. unfold walk in H.
  etransitivity; [apply Hm | eapply Hk, H].
Qed.

Lemma walk_preserves_try (m k : Walker) :
  walk_preserves R m -> walk_preserves R k -> walk_preserves R (walk_try m k).
Proof.
  intros Hm Hk t r t' H. unfold walk_try in H.
  destruct (m t) as [[r1 t1]|] eqn:E; [|discriminate].
  pose proof (Hm _ _ _ E) as H1.
  destruct (r1 =? 0).
  - etransitivity; [exact H1 | eapply Hk, H].
  - injection H as _ <-. exact H1.
Qed.

End WalkerLogic.

(** The range-coder reads replaced: every other member of the record is
    the one of [X]. *)
Definition replace_msac {Msac Ext} (X : Externals Msac Ext)
    (init : list Z -> Msac)
    (bool_adapt symbol : Msac -> Cdf -> Z * Msac) (symbol_adapt : Msac -> Cdf -> Z -> Z * Msac)
    (bool bools uniform : Msac -> Z -> Z * Msac)
    (top_prob left_prob : Msac -> Cdf -> Z -> Z) : Externals Msac Ext :=
  {| msac_init := init;
     msac_decode_bool_adapt := bool_adapt;
     msac_decode_symbol_adapt := symbol_adapt;
     msac_decode_bool := bool;
     msac_decode_bools := bools;
     msac_decode_uniform := uniform;
     av1_block_dimensions := av1_block_dimensions X;
     av1_txfm_dimensions := av1_txfm_dimensions X;
     av1_max_txfm_size_for_bs := av1_max_txfm_size_for_bs X;
     av1_ymode_size_context := av1_ymode_size_context X;
     intra_mode_context := intra_mode_context X;
     cfl_allowed_mask := cfl_allowed_mask X;
     wedge_allowed_mask := wedge_allowed_mask X;
     interintra_allowed_mask := interintra_allowed_mask X;
     av1_wedge_ctx_lut := av1_wedge_ctx_lut X;
     av1_comp_inter_pred_modes := av1_comp_inter_pred_modes X;
     av1_filter_2d := av1_filter_2d X;
     eve_av1_filter_dir := eve_av1_filter_dir X;
     av1_block_sizes := av1_block_sizes X;
     av1_al_part_ctx := av1_al_part_ctx X;
     sbtype_to_bs := sbtype_to_bs X;
     dav1d_dq_tbl := dav1d_dq_tbl X;
     get_cur_frame_segid := get_cur_frame_segid X;
     block_ctx := block_ctx X;
     get_tx_ctx := get_tx_ctx X;
     get_partition_ctx := get_partition_ctx X;
     gather_top_partition_prob := top_prob;
     gather_left_partition_prob := left_prob;
     get_drl_context := get_drl_context X;
     get_mask_comp_ctx := get_mask_comp_ctx X;
     get_jnt_comp_ctx := get_jnt_comp_ctx X;
     get_filter_ctx := get_filter_ctx X;
     get_gmv_2d := get_gmv_2d X;
     unset_hp_bit := unset_hp_bit X;
     splat_intraref := splat_intraref X;
     splat_intrabc_mv := splat_intrabc_mv X;
     splat_oneref_mv := splat_oneref_mv X;
     splat_tworef_mv := splat_tworef_mv X;
     av1_find_ref_mvs := av1_find_ref_mvs X;
     find_affine_int := find_affine_int X;
     get_shear_params := get_shear_params X;
     dav1d_create_lf_mask_intra := dav1d_create_lf_mask_intra X;
     dav1d_create_lf_mask_inter := dav1d_create_lf_mask_inter X;
     dav1d_calc_lf_values := dav1d_calc_lf_values X;
     recon_b_intra := recon_b_intra X;
     recon_b_inter := recon_b_inter X;
     read_coef_blocks := read_coef_blocks X |}.

Section Pass2.

Context {Msac Ext : Type}.
Variable X : Externals Msac Ext.
Variable f : Frame.

Local Abbreviation State := (Tile Msac Ext).

(** The range coder (and the CDFs it adapts) is as it was. *)
Definition msac_inv (t t' : State) : Prop := ts_msac t' = ts_msac t.

#[local] Instance msac_inv_preorder : PreOrder msac_inv.
Proof.
  split.
  - intros t. reflexivity.
  - intros t1 t2 t3 H1 H2. unfold msac_inv in *. congruence.
Qed.

Hypothesis Hpass : f_pass f = 2.
(** In pass 2 the reconstruction hooks take the coefficients from the
    frame-thread buffers, not from the range coder. *)
Hypothesis Hintra : forall t bs flags b, ho_msac (recon_b_intra X f t bs flags b) = ts_msac t.
Hypothesis Hinter : forall t bs b, ho_msac (recon_b_inter X f t bs b) = ts_msac t.

Ltac side_msac :=
  repeat case_match; unfold msac_inv; simpl; rewrite ?Hintra, ?Hinter; reflexivity.

Lemma decode_b_pass2_msac bl bs bp flags :
  preserves msac_inv (decode_b X f bl bs bp flags).
Proof.
  unfold decode_b. rewrite Hpass. change (2 =? 2) with true. cbv iota.
  unfold decode_b_pass2.
  preserves_with side_msac ltac:(leaf_with side_msac).
Qed.

Lemma stamp_partition_pass2 bl bp bx8 by8 :
  walk_preserves msac_inv (stamp_partition X f bl bp bx8 by8).
Proof.
  unfold stamp_partition. rewrite Hpass. change (2 =? 2) with true.
  cbn [negb andb]. unfold when.
  apply walk_preserves_walk; [typeclasses eauto | | apply walk_preserves_ret; typeclasses eauto].
  apply preserves_ret; typeclasses eauto.
Qed.

Ltac walk_msac :=
  repeat (cbv beta zeta; lazymatch goal with
  | |- walk_preserves ?R (walk _ _) => apply (walk_preserves_walk R)
  | |- walk_preserves ?R (walk_try _ _) => apply (walk_preserves_try R)
  | |- walk_preserves ?R walk_abort => apply (walk_preserves_abort R)
  | |- walk_preserves _ (stamp_partition _ _ _ _ _ _) => apply stamp_partition_pass2
  | |- walk_preserves _ (fun _ => None) => intros ? ? ? [=]
  | |- walk_preserves _ (if ?c then _ else _) => destruct c
  | |- preserves _ (decode_b _ _ _ _ _ _) => apply decode_b_pass2_msac
  | |- preserves _ _ => preserves_with side_msac ltac:(leaf_with side_msac)
  end).

Lemma decode_sb_pass2_msac node :
  forall bl, walk_preserves msac_inv (decode_sb X f node bl).
Proof.
  induction node as [o h v split
                    | o h v tts tbs tls trs h4 v4 s0 IH0 s1 IH1 s2 IH2 s3 IH3];
    intros bl t r t' H; cbn [decode_sb] in H; unfold read_partition, read_is_split in H;
    rewrite Hpass in H; change (2 =? 2) with true in H; cbn [negb andb] in H.
  - (* a tip *)
    repeat match type of H with
    | (if ?c then _ else _) = _ => destruct c
    | None = Some _ => discriminate H
    end;
    match type of H with
    | ?w t = Some _ => assert (Hw : walk_preserves msac_inv w) by walk_msac; exact (Hw _ _ _ H)
    end.
  - (* a branch *)
    repeat match type of H with
    | (if ?c then _ else _) = _ => destruct c
    | None = Some _ => discriminate H
    end;
    try (match type of H with
         | decode_sb _ _ ?s ?b ?t0 = Some _ =>
             first [ exact (IH0 _ _ _ _ H) | exact (IH1 _ _ _ _ H)
                   | exact (IH2 _ _ _ _ H) | exact (IH3 _ _ _ _ H) ]
         end);
    match type of H with
    | ?w t = Some _ =>
        assert (Hw : walk_preserves msac_inv w);
        [ repeat (first [ apply IH0 | apply IH1 | apply IH2 | apply IH3 | progress walk_msac ])
        | exact (Hw _ _ _ H) ]
    end.
Qed.

End Pass2.


Section Pass2Independent.

Context {Msac Ext : Type}.
Variable X : Externals Msac Ext.
Variable f : Frame.
Variable init : list Z -> Msac.
Variables bool_adapt symbol : Msac -> Cdf -> Z * Msac.
Variable symbol_adapt : Msac -> Cdf -> Z -> Z * Msac.
Variables bool bools uniform : Msac -> Z -> Z * Msac.
Variables top_prob left_prob : Msac -> Cdf -> Z -> Z.

Local Abbreviation X' :=
  (replace_msac X init bool_adapt symbol symbol_adapt bool bools uniform top_prob left_prob).

Hypothesis Hpass : f_pass f = 2.

Lemma b_dim_independent : b_dim X' = b_dim X.
Proof. reflexivity. Qed.

Lemma bs_dim_independent : bs_dim X' = bs_dim X.
Proof. reflexivity. Qed.

Lemma block_geom_independent : block_geom X' f = block_geom X f.
Proof. unfold block_geom. rewrite b_dim_independent. reflexivity. Qed.

Lemma top_scan_independent : top_scan X' f = top_scan X f.
Proof. unfold top_scan. rewrite bs_dim_independent. reflexivity. Qed.

Lemma left_scan_independent : left_scan X' f = left_scan X f.
Proof. unfold left_scan. rewrite bs_dim_independent. reflexivity. Qed.

Lemma find_matching_ref_independent : find_matching_ref X' f = find_matching_ref X f.
Proof.
  unfold find_matching_ref.
  rewrite bs_dim_independent, top_scan_independent, left_scan_independent. reflexivity.
Qed.

Lemma add_sample_independent : add_sample X' = add_sample X.
Proof. unfold add_sample. rewrite bs_dim_independent. reflexivity. Qed.

Lemma top_samples_independent : top_samples X' f = top_samples X f.
Proof. unfold top_samples. rewrite add_sample_independent. reflexivity. Qed.

Lemma left_samples_independent : left_samples X' f = left_samples X f.
Proof. unfold left_samples. rewrite add_sample_independent. reflexivity. Qed.

Lemma warp_samples_independent : warp_samples X' f = warp_samples X f.
Proof.
  unfold warp_samples.
  rewrite bs_dim_independent, add_sample_independent, top_samples_independent,
    left_samples_independent.
  reflexivity.
Qed.

Lemma derive_warpmv_independent : derive_warpmv X' f = derive_warpmv X f.
Proof. unfold derive_warpmv. rewrite warp_samples_independent. reflexivity. Qed.

Lemma decode_b_pass2_body_independent : decode_b_pass2 X' f = decode_b_pass2 X f.
Proof.
  unfold decode_b_pass2.
  rewrite find_matching_ref_independent, derive_warpmv_independent. reflexivity.
Qed.

Lemma decode_b_pass2_independent bl bs bp flags :
  decode_b X' f bl bs bp flags = decode_b X f bl bs bp flags.
Proof.
  unfold decode_b. rewrite Hpass. change (2 =? 2) with true. cbv iota.
  rewrite block_geom_independent, decode_b_pass2_body_independent. reflexivity.
Qed.

Lemma stamp_partition_independent bl bp bx8 by8 :
  stamp_partition X' f bl bp bx8 by8 = stamp_partition X f bl bp bx8 by8.
Proof. unfold stamp_partition. rewrite Hpass. change (2 =? 2) with true. reflexivity. Qed.

Lemma walk_try_ext (m m' k k' : Tile Msac Ext -> option (Z * Tile Msac Ext)) t :
  (forall t, m t = m' t) -> (forall t, k t = k' t) -> walk_try m k t = walk_try m' k' t.
Proof.
  intros Hm Hk. unfold walk_try. rewrite Hm.
  destruct (m' t) as [[r t1]|]; [|reflexivity]. destruct (r =? 0); [apply Hk | reflexivity].
Qed.

Lemma walk_ext (m : M unit) (k k' : Tile Msac Ext -> option (Z * Tile Msac Ext)) t :
  (forall t, k t = k' t) -> walk m k t = walk m k' t.
Proof. intros Hk. unfold walk. apply Hk. Qed.

Lemma av1_block_sizes_independent : av1_block_sizes X' = av1_block_sizes X.
Proof. reflexivity. Qed.

Lemma decode_sb_pass2_independent node :
  forall bl t, decode_sb X' f node bl t = decode_sb X f node bl t.
Proof.
  induction node as [o h v split
                    | o h v tts tbs tls trs h4 v4 s0 IH0 s1 IH1 s2 IH2 s3 IH3];
    intros bl t; cbn [decode_sb]; unfold read_partition, read_is_split;
    rewrite Hpass; change (2 =? 2) with true;
    cbn [negb andb];
    rewrite ?decode_b_pass2_independent, ?stamp_partition_independent,
      ?av1_block_sizes_independent;
    repeat lazymatch goal with
    | |- decode_sb _ _ s0 _ _ = _ => apply IH0
    | |- decode_sb _ _ s1 _ _ = _ => apply IH1
    | |- decode_sb _ _ s2 _ _ = _ => apply IH2
    | |- decode_sb _ _ s3 _ _ = _ => apply IH3
    | |- walk_try _ _ _ = _ => apply walk_try_ext; intros ?
    | |- (if ?c then _ else _) = _ => destruct c
    | |- ?l = _ =>
        lazymatch l with
        | context [replace_msac] => apply walk_ext; intros ?
        | _ => reflexivity
        end
    end.
Qed.

End Pass2Independent.



(** ** The log of the blocks visited *)

Section LogInv.

Context {Msac Ext : Type}.

(** The list of the [decode_b] calls made so far is as it was. *)
Definition log_inv (t t' : Tile Msac Ext) : Prop := walk_log t' = walk_log t.

#[global] Instance log_inv_preorder : PreOrder log_inv.
Proof.
  split.
  - intros t. reflexivity.
  - intros t1 t2 t3 H1 H2. unfold log_inv in *. congruence.
Qed.

End LogInv.

Ltac side_log := repeat (first [progress simpl | case_match]); reflexivity.
Ltac pres_log := preserves_with side_log ltac:(leaf_with side_log).

Section LogFrames.

Context {Msac Ext : Type}.
Variable X : Externals Msac Ext.
Variable f : Frame.

Lemma read_mv_component_diff_log c fp :
  preserves (@log_inv Msac Ext) (read_mv_component_diff X f c fp).
Proof. unfold read_mv_component_diff. pres_log. Qed.
Hint Resolve read_mv_component_diff_log : pres.

Lemma read_mv_residual_log m c fp : preserves (@log_inv Msac Ext) (read_mv_residual X f m c fp).
Proof. unfold read_mv_residual. pres_log. Qed.
Hint Resolve read_mv_residual_log : pres.

Lemma read_tx_tree_log rem from x y : preserves (@log_inv Msac Ext) (read_tx_tree X f rem from x y).
Proof.
  revert from x y. induction rem as [|rem IH]; intros from x y; simpl; pres_log.
Qed.
Hint Resolve read_tx_tree_log : pres.

Lemma used_cache_scan_log pal_sz cache used :
  preserves (@log_inv Msac Ext) (used_cache_scan X pal_sz cache used).
Proof.
  revert used. induction cache as [|c cache IH]; intros used; simpl; pres_log.
Qed.
Hint Resolve used_cache_scan_log : pres.

Lemma pal_deltas_log fuel pl pal_sz max i prev bits pal :
  preserves (@log_inv Msac Ext) (pal_deltas X fuel pl pal_sz max i prev bits pal).
Proof.
  revert i prev bits pal.
  induction fuel as [|fuel IH]; intros i prev bits pal; simpl; pres_log.
Qed.
Hint Resolve pal_deltas_log : pres.

Lemma tx_descend_log depth : preserves (@log_inv Msac Ext) (tx_descend X depth).
Proof. induction depth as [|depth IH]; simpl; pres_log. Qed.
Hint Resolve tx_descend_log : pres.

Lemma read_pal_plane_log pl sz_ctx bx4 by4 : preserves (@log_inv Msac Ext) (read_pal_plane X f pl sz_ctx bx4 by4).
Proof. unfold read_pal_plane. pres_log. Qed.
Hint Resolve read_pal_plane_log : pres.

Lemma read_pal_uv_log sz_ctx bx4 by4 : preserves (@log_inv Msac Ext) (read_pal_uv X f sz_ctx bx4 by4).
Proof. unfold read_pal_uv. pres_log. Qed.
Hint Resolve read_pal_uv_log : pres.

Lemma read_pal_indices_log p pl w4 h4 bw4 bh4 : preserves (@log_inv Msac Ext) (read_pal_indices X p pl w4 h4 bw4 bh4).
Proof. unfold read_pal_indices. pres_log. Qed.
Hint Resolve read_pal_indices_log : pres.

Lemma read_vartx_tree_log bs bx4 by4 : preserves (@log_inv Msac Ext) (read_vartx_tree X f bs bx4 by4).
Proof. unfold read_vartx_tree. pres_log. Qed.
Hint Resolve read_vartx_tree_log : pres.

Lemma parse_intra_modes_log g bs : preserves (@log_inv Msac Ext) (parse_intra_modes X f g bs).
Proof. unfold parse_intra_modes. pres_log. Qed.
Hint Resolve parse_intra_modes_log : pres.

Lemma update_ctx_intra_log g bs : preserves (@log_inv Msac Ext) (update_ctx_intra X f g bs).
Proof. unfold update_ctx_intra. pres_log. Qed.
Hint Resolve update_ctx_intra_log : pres.

Lemma decode_b_intra_log g bs flags : preserves (@log_inv Msac Ext) (decode_b_intra X f g bs flags).
Proof. unfold decode_b_intra. pres_log. Qed.
Hint Resolve decode_b_intra_log : pres.

Lemma decode_b_intrabc_log g bs bp : preserves (@log_inv Msac Ext) (decode_b_intrabc X f g bs bp).
Proof. unfold decode_b_intrabc. pres_log. Qed.
Hint Resolve decode_b_intrabc_log : pres.

Lemma parse_comp_refs_log g : preserves (@log_inv Msac Ext) (parse_comp_refs X g).
Proof. unfold parse_comp_refs. pres_log. Qed.
Hint Resolve parse_comp_refs_log : pres.

Lemma assign_comp_mv_log g r im i h : preserves (@log_inv Msac Ext) (assign_comp_mv X f g r im i h).
Proof. unfold assign_comp_mv. pres_log. Qed.
Hint Resolve assign_comp_mv_log : pres.

Lemma parse_inter_comp_log g bs bp : preserves (@log_inv Msac Ext) (parse_inter_comp X f g bs bp).
Proof. unfold parse_inter_comp. pres_log. Qed.
Hint Resolve parse_inter_comp_log : pres.

Lemma parse_single_ref_log g : preserves (@log_inv Msac Ext) (parse_single_ref X g).
Proof. unfold parse_single_ref. pres_log. Qed.
Hint Resolve parse_single_ref_log : pres.

Lemma parse_single_mode_log g r : preserves (@log_inv Msac Ext) (parse_single_mode X f g r).
Proof. unfold parse_single_mode. pres_log. Qed.
Hint Resolve parse_single_mode_log : pres.

Lemma parse_interintra_log bs : preserves (@log_inv Msac Ext) (parse_interintra X f bs).
Proof. unfold parse_interintra. pres_log. Qed.
Hint Resolve parse_interintra_log : pres.

Lemma parse_motion_mode_log g bs flags h : preserves (@log_inv Msac Ext) (parse_motion_mode X f g bs flags h).
Proof. unfold parse_motion_mode. pres_log. Qed.
Hint Resolve parse_motion_mode_log : pres.

Lemma parse_subpel_filter_log g h : preserves (@log_inv Msac Ext) (parse_subpel_filter X f g h).
Proof. unfold parse_subpel_filter. pres_log. Qed.
Hint Resolve parse_subpel_filter_log : pres.

Lemma update_ctx_inter_log g bs is_comp filter : preserves (@log_inv Msac Ext) (update_ctx_inter X f g bs is_comp filter).
Proof. unfold update_ctx_inter. pres_log. Qed.
Hint Resolve update_ctx_inter_log : pres.

Lemma decode_b_inter_log g bs bp flags : preserves (@log_inv Msac Ext) (decode_b_inter X f g bs bp flags).
Proof. unfold decode_b_inter. pres_log. Qed.
Hint Resolve decode_b_inter_log : pres.

Lemma read_seg_id_diff_log p c : preserves (@log_inv Msac Ext) (read_seg_id_diff X f p c).
Proof. unfold read_seg_id_diff. pres_log. Qed.
Hint Resolve read_seg_id_diff_log : pres.

Lemma parse_skip_mode_log g : preserves (@log_inv Msac Ext) (parse_skip_mode X f g).
Proof. unfold parse_skip_mode. pres_log. Qed.
Hint Resolve parse_skip_mode_log : pres.

Lemma parse_seg_id_preskip_log g : preserves (@log_inv Msac Ext) (parse_seg_id_preskip X f g).
Proof. unfold parse_seg_id_preskip. pres_log. Qed.
Hint Resolve parse_seg_id_preskip_log : pres.

Lemma parse_skip_log g : preserves (@log_inv Msac Ext) (parse_skip X g).
Proof. unfold parse_skip. pres_log. Qed.
Hint Resolve parse_skip_log : pres.

Lemma parse_seg_id_postskip_log g sp : preserves (@log_inv Msac Ext) (parse_seg_id_postskip X f g sp).
Proof. unfold parse_seg_id_postskip. pres_log. Qed.
Hint Resolve parse_seg_id_postskip_log : pres.

Lemma parse_cdef_idx_log g : preserves (@log_inv Msac Ext) (parse_cdef_idx X f g).
Proof. unfold parse_cdef_idx. pres_log. Qed.
Hint Resolve parse_cdef_idx_log : pres.

Lemma parse_intra_log g : preserves (@log_inv Msac Ext) (parse_intra X f g).
Proof. unfold parse_intra. pres_log. Qed.
Hint Resolve parse_intra_log : pres.


Lemma update_ctx_final_log g sp : preserves (@log_inv Msac Ext) (update_ctx_final f g sp).
Proof. unfold update_ctx_final. pres_log. Qed.
Hint Resolve update_ctx_final_log : pres.

Lemma decode_b_pass2_log g bs flags : preserves (@log_inv Msac Ext) (decode_b_pass2 X f g bs flags).
Proof. unfold decode_b_pass2. pres_log. Qed.
Hint Resolve decode_b_pass2_log : pres.

Lemma read_delta_log c r : preserves (@log_inv Msac Ext) (read_delta X c r).
Proof. unfold read_delta. pres_log. Qed.
Hint Resolve read_delta_log : pres.

Lemma parse_delta_q_lf_log bs : preserves (@log_inv Msac Ext) (parse_delta_q_lf X f bs).
Proof. unfold parse_delta_q_lf. pres_log. Qed.
Hint Resolve parse_delta_q_lf_log : pres.

Lemma decode_b_parse_log g bl bs bp flags :
  preserves (@log_inv Msac Ext) (decode_b_parse X f g bl bs bp flags).
Proof. unfold decode_b_parse. pres_log. Qed.
Hint Resolve decode_b_parse_log : pres.

(** A call of [decode_b] adds one entry to the log: its own. *)
Lemma decode_b_log bl bs bp flags (t : Tile Msac Ext) :
  walk_log (exec (decode_b X f bl bs bp flags) t) =
  walk_log t ++ [mk_call (t_bx t) (t_by t) bl bs bp].
Proof.
  unfold decode_b. rewrite exec_bind.
  match goal with
  | |- walk_log (exec ?m ?t1) = _ =>
      assert (H : preserves (@log_inv Msac Ext) m) by pres_log;
      rewrite (H t1)
  end.
  reflexivity.
Qed.

End LogFrames.

#[global] Hint Resolve read_mv_component_diff_log read_mv_residual_log read_tx_tree_log used_cache_scan_log pal_deltas_log tx_descend_log read_pal_plane_log read_pal_uv_log read_pal_indices_log read_vartx_tree_log parse_intra_modes_log update_ctx_intra_log decode_b_intra_log decode_b_intrabc_log parse_comp_refs_log assign_comp_mv_log parse_inter_comp_log parse_single_ref_log parse_single_mode_log parse_interintra_log parse_motion_mode_log parse_subpel_filter_log update_ctx_inter_log decode_b_inter_log read_seg_id_diff_log parse_skip_mode_log parse_seg_id_preskip_log parse_skip_log parse_seg_id_postskip_log parse_cdef_idx_log parse_intra_log  update_ctx_final_log decode_b_pass2_log read_delta_log parse_delta_q_lf_log decode_b_parse_log : pres.

(** ** C9: the partition walk at the edges of the frame *)

Section FrameEdges.

Context {Msac Ext : Type}.
Variable X : Externals Msac Ext.
Variable f : Frame.

Local Abbreviation State := (Tile Msac Ext).

Lemma gtb_true a b : a > b -> (a >? b) = true.
Proof. intros H. destruct (Z.gtb_spec a b); [reflexivity | lia]. Qed.

Lemma gtb_false a b : a <= b -> (a >? b) = false.
Proof. intros H. destruct (Z.gtb_spec a b); [lia | reflexivity]. Qed.

Lemma exec_gets {A} (g : State -> A) (t : State) : exec (gets g) t = t.
Proof. reflexivity. Qed.

Lemma eval_gets {A} (g : State -> A) (t : State) : eval (gets g) t = g t.
Proof. reflexivity. Qed.

Lemma exec_ret {A} (x : A) (t : State) : exec (ret x) t = t.
Proof. reflexivity. Qed.

Lemma add_bx_log d (t : State) : walk_log (exec (add_bx d) t) = walk_log t.
Proof. reflexivity. Qed.

Lemma add_by_log d (t : State) : walk_log (exec (add_by d) t) = walk_log t.
Proof. reflexivity. Qed.

(** The three quarter blocks that [PARTITION_H4] always decodes, each
    followed by the step to the next one. *)
Definition h4_first_three (bl : Z) (h4 : list Z) : M unit :=
  let hsz := Z.shiftr 16 bl in
  let bs := av1_block_sizes X bl PARTITION_H4 0 in
  decode_b X f bl bs PARTITION_H4 (idx h4 0) ;;
  add_by (Z.shiftr hsz 1) ;;
  decode_b X f bl bs PARTITION_H4 (idx h4 1) ;;
  add_by (Z.shiftr hsz 1) ;;
  decode_b X f bl bs PARTITION_H4 (idx h4 2) ;;
  add_by (Z.shiftr hsz 1).

Definition v4_first_three (bl : Z) (v4 : list Z) : M unit :=
  let hsz := Z.shiftr 16 bl in
  let bs := av1_block_sizes X bl PARTITION_V4 0 in
  decode_b X f bl bs PARTITION_V4 (idx v4 0) ;;
  add_bx (Z.shiftr hsz 1) ;;
  decode_b X f bl bs PARTITION_V4 (idx v4 1) ;;
  add_bx (Z.shiftr hsz 1) ;;
  decode_b X f bl bs PARTITION_V4 (idx v4 2) ;;
  add_bx (Z.shiftr hsz 1).

Lemma stamp_partition_log bl bp bx8 by8 (t : State) :
  exists t', stamp_partition X f bl bp bx8 by8 t = Some (0, t') /\ walk_log t' = walk_log t.
Proof.
  unfold stamp_partition, walk, walk_ret. eexists. split; [reflexivity|].
  match goal with
  | |- walk_log (exec ?m t) = _ =>
      assert (H : preserves (@log_inv Msac Ext) m) by pres_log; exact (H t)
  end.
Qed.


Lemma decode_sb_h4 bl (t t1 : State) o h v tts tbs tls trs h4 v4 s0 s1 s2 s3 :
  f_bw f > t_bx t + Z.shiftr 16 bl -> f_bh f > t_by t + Z.shiftr 16 bl ->
  read_partition X f bl t = (PARTITION_H4, t1) ->
  let s := exec (h4_first_three bl h4) t1 in
  exists t',
    decode_sb X f (EdgeBranch o h v tts tbs tls trs h4 v4 s0 s1 s2 s3) bl t = Some (0, t') /\
    walk_log t' =
      walk_log s ++
      (if t_by s <? f_bh f
       then [mk_call (t_bx s) (t_by s) bl (av1_block_sizes X bl PARTITION_H4 0) PARTITION_H4]
       else []).
Proof.
  intros Hh Hv Hbp s. cbn [decode_sb].
  rewrite (gtb_true _ _ Hh), (gtb_true _ _ Hv). cbn [negb andb].
  rewrite Hbp.
  change (is_v_partition PARTITION_H4) with false. rewrite andb_false_r.
  repeat match goal with
  | |- context [PARTITION_H4 =? ?p] =>
      let b := eval vm_compute in (PARTITION_H4 =? p) in
      change (PARTITION_H4 =? p) with b; cbv iota
  end.
  unfold walk at 1.
  match goal with
  | |- exists t', stamp_partition X f ?a ?b ?c ?d ?u = _ /\ _ =>
      destruct (stamp_partition_log a b c d u) as (t' & E & L); exists t'; split; [exact E|];
      rewrite L
  end.
  subst s. unfold h4_first_three. rewrite !exec_bind.
  rewrite exec_gets, eval_gets. clear E L.
  match goal with
  | |- context [when (?c) _] => destruct c
  end; unfold when; cbv iota; rewrite ?add_by_log, ?add_bx_log.
  - rewrite decode_b_log. reflexivity.
  - rewrite exec_ret, app_nil_r. reflexivity.
Qed.

Lemma decode_sb_v4 bl (t t1 : State) o h v tts tbs tls trs h4 v4 s0 s1 s2 s3 :
  f_bw f > t_bx t + Z.shiftr 16 bl -> f_bh f > t_by t + Z.shiftr 16 bl ->
  negb (f_pass f =? 2) && (f_layout f =? DAV1D_PIXEL_LAYOUT_I422) = false ->
  read_partition X f bl t = (PARTITION_V4, t1) ->
  let s := exec (v4_first_three bl v4) t1 in
  exists t',
    decode_sb X f (EdgeBranch o h v tts tbs tls trs h4 v4 s0 s1 s2 s3) bl t = Some (0, t') /\
    walk_log t' =
      walk_log s ++
      (if t_bx s <? f_bw f
       then [mk_call (t_bx s) (t_by s) bl (av1_block_sizes X bl PARTITION_V4 0) PARTITION_V4]
       else []).
Proof.
  intros Hh Hv Hl Hbp s. cbn [decode_sb].
  rewrite (gtb_true _ _ Hh), (gtb_true _ _ Hv). cbn [negb andb].
  rewrite Hbp.
  rewrite Hl. cbn [andb].
  repeat match goal with
  | |- context [PARTITION_V4 =? ?p] =>
      let b := eval vm_compute in (PARTITION_V4 =? p) in
      change (PARTITION_V4 =? p) with b; cbv iota
  end.
  unfold walk at 1.
  match goal with
  | |- exists t', stamp_partition X f ?a ?b ?c ?d ?u = _ /\ _ =>
      destruct (stamp_partition_log a b c d u) as (t' & E & L); exists t'; split; [exact E|];
      rewrite L
  end.
  subst s. unfold v4_first_three. rewrite !exec_bind.
  rewrite exec_gets, eval_gets. clear E L.
  match goal with
  | |- context [when (?c) _] => destruct c
  end; unfold when; cbv iota; rewrite ?add_by_log, ?add_bx_log.
  - rewrite decode_b_log. reflexivity.
  - rewrite exec_ret, app_nil_r. reflexivity.
Qed.

End FrameEdges.

(** C9. At the edges of the frame: when neither the horizontal nor the
    vertical split of the level fits inside the frame, [decode_sb] of a
    branch node is [decode_sb] of its first child one level down, started
    in the very state it was called in, so no partition symbol is read;
    and for [PARTITION_H4] (resp. [PARTITION_V4]) the walk completes with
    0 and, after the first three quarter blocks, logs a fourth call of
    [decode_b], at the position then current, exactly when
    [t->by < f->bh] (resp. [t->bx < f->bw]) there; otherwise no further
    block is decoded. *)
Theorem decode_sb_frame_edges {Msac Ext : Type} (X : Externals Msac Ext) (f : Frame)
    (bl : Z) (t : Tile Msac Ext) o h v tts tbs tls trs h4 v4 s0 s1 s2 s3 :
  let node := EdgeBranch o h v tts tbs tls trs h4 v4 s0 s1 s2 s3 in
  let hsz := Z.shiftr 16 bl in
  (f_bw f <= t_bx t + hsz -> f_bh f <= t_by t + hsz -> bl < BL_8X8 ->
   decode_sb X f node bl t = decode_sb X f s0 (bl + 1) t) /\
  (f_bw f > t_bx t + hsz -> f_bh f > t_by t + hsz ->
   forall t1, read_partition X f bl t = (PARTITION_H4, t1) ->
   let s := exec (h4_first_three X f bl h4) t1 in
   exists t',
     decode_sb X f node bl t = Some (0, t') /\
     walk_log t' =
       walk_log s ++
       (if t_by s <? f_bh f
        then [mk_call (t_bx s) (t_by s) bl (av1_block_sizes X bl PARTITION_H4 0) PARTITION_H4]
        else [])) /\
  (f_bw f > t_bx t + hsz -> f_bh f > t_by t + hsz ->
   negb (f_pass f =? 2) && (f_layout f =? DAV1D_PIXEL_LAYOUT_I422) = false ->
   forall t1, read_partition X f bl t = (PARTITION_V4, t1) ->
   let s := exec (v4_first_three X f bl v4) t1 in
   exists t',
     decode_sb X f node bl t = Some (0, t') /\
     walk_log t' =
       walk_log s ++
       (if t_bx s <? f_bw f
        then [mk_call (t_bx s) (t_by s) bl (av1_block_sizes X bl PARTITION_V4 0) PARTITION_V4]
        else [])).
Proof.
  intros node hsz. split; [|split].
  - intros Hh Hv Hbl. subst node hsz. cbn [decode_sb].
    rewrite (gtb_false _ _ Hh), (gtb_false _ _ Hv). cbn [negb andb].
    destruct (Z.ltb_spec bl BL_8X8); [reflexivity | lia].
  - intros Hh Hv t1 Hbp. apply decode_sb_h4; assumption.
  - intros Hh Hv Hl t1 Hbp. apply decode_sb_v4; assumption.
Qed.

(** A 32x32 block at row 8 of a frame 14 units high, split in four
    stripes: the fourth stripe would start at row 14 and is not decoded;
    in a frame 16 units high it is. *)
Lemma decode_sb_frame_edges_witness :
  let t := set_t_by 8 (Example.tile [8]) in
  (exists t',
     decode_sb Example.externals (Example.frame_sized 16 14 DAV1D_PIXEL_LAYOUT_I420 0 0 100)
               (Example.edge_tree 1) BL_32X32 t = Some (0, t') /\
     length (walk_log t') = 3%nat) /\
  (exists t',
     decode_sb Example.externals (Example.frame_sized 16 16 DAV1D_PIXEL_LAYOUT_I420 0 0 100)
               (Example.edge_tree 1) BL_32X32 t = Some (0, t') /\
     length (walk_log t') = 4%nat).
Proof.
  intros t. split.
  - destruct (proj1 (proj2 (decode_sb_frame_edges Example.externals
                (Example.frame_sized 16 14 DAV1D_PIXEL_LAYOUT_I420 0 0 100) BL_32X32 t
                0 [0; 0] [0; 0] [0; 0; 0] [0; 0; 0] [0; 0; 0] [0; 0; 0]
                [0; 0; 0; 0] [0; 0; 0; 0]
                (Example.edge_tree 0) (Example.edge_tree 0)
                (Example.edge_tree 0) (Example.edge_tree 0)))
              ltac:(vm_compute; reflexivity) ltac:(vm_compute; reflexivity)
              (set_ts_msac [] t) eq_refl) as (t' & E & L).
    exists t'. split; [exact E|]. rewrite L. vm_compute. reflexivity.
  - destruct (proj1 (proj2 (decode_sb_frame_edges Example.externals
                (Example.frame_sized 16 16 DAV1D_PIXEL_LAYOUT_I420 0 0 100) BL_32X32 t
                0 [0; 0] [0; 0] [0; 0; 0] [0; 0; 0] [0; 0; 0] [0; 0; 0]
                [0; 0; 0; 0] [0; 0; 0; 0]
                (Example.edge_tree 0) (Example.edge_tree 0)
                (Example.edge_tree 0) (Example.edge_tree 0)))
              ltac:(vm_compute; reflexivity) ltac:(vm_compute; reflexivity)
              (set_ts_msac [] t) eq_refl) as (t' & E & L).
    exists t'. split; [exact E|]. rewrite L. vm_compute. reflexivity.
Defined.

(** ** C4: the partitions a 4:2:2 layout rejects *)

Section Layout422.

Context {Msac Ext : Type}.
Variable X : Externals Msac Ext.
Variable f : Frame.

Local Abbreviation State := (Tile Msac Ext).

(** Every completed run of the walker returns 0. *)
Definition walk_succeeds (w : State -> option (Z * State)) : Prop :=
  forall t r t', w t = Some (r, t') -> r = 0.

Lemma walk_succeeds_ret : walk_succeeds (walk_ret 0).
Proof. intros t r t' [= <- _]. reflexivity. Qed.

Lemma walk_succeeds_walk (m : M unit) (k : State -> option (Z * State)) :
  walk_succeeds k -> walk_succeeds (walk m k).
Proof. intros Hk t r t' H. exact (Hk _ _ _ H). Qed.

Lemma walk_succeeds_try (m k : State -> option (Z * State)) :
  walk_succeeds m -> walk_succeeds k -> walk_succeeds (walk_try m k).
Proof.
  intros Hm Hk t r t' H. unfold walk_try in H.
  destruct (m t) as [[r1 t1]|] eqn:E; [|discriminate].
  destruct (r1 =? 0) eqn:E1.
  - exact (Hk _ _ _ H).
  - rewrite (Hm _ _ _ E) in E1. discriminate E1.
Qed.

Lemma stamp_partition_succeeds bl bp bx8 by8 :
  walk_succeeds (stamp_partition X f bl bp bx8 by8).
Proof. unfold stamp_partition. apply walk_succeeds_walk, walk_succeeds_ret. Qed.

Ltac walk_ok :=
  repeat (cbv beta zeta; lazymatch goal with
  | |- walk_succeeds (walk _ _) => apply walk_succeeds_walk
  | |- walk_succeeds (walk_try _ _) => apply walk_succeeds_try
  | |- walk_succeeds (stamp_partition _ _ _ _ _ _) => apply stamp_partition_succeeds
  | |- walk_succeeds (if ?c then _ else _) => destruct c
  end).

Ltac split_ifs H :=
  repeat match type of H with
  | (if ?c then _ else _) = _ => destruct c eqn:?
  | None = Some _ => discriminate H
  end.

(** Where the 4:2:2 check does not apply (another layout, or pass 2),
    [decode_sb] has no way to return 1. *)
Lemma decode_sb_succeeds node :
  negb (f_pass f =? 2) && (f_layout f =? DAV1D_PIXEL_LAYOUT_I422) = false ->
  forall bl, walk_succeeds (decode_sb X f node bl).
Proof.
  intros Hl.
  induction node as [o h v split
                    | o h v tts tbs tls trs h4 v4 s0 IH0 s1 IH1 s2 IH2 s3 IH3];
    intros bl t r t' H; cbn [decode_sb] in H; rewrite ?Hl in H; cbn [andb] in H.
  - destruct (read_partition X f bl t) as [bp t1].
    destruct (read_is_split X f (gather_top_partition_prob X) bl t) as [sp1 t2].
    destruct (read_is_split X f (gather_left_partition_prob X) bl t) as [sp2 t3].
    rewrite ?Hl in H; cbn [andb] in H.
    split_ifs H;
    match type of H with
    | ?w ?u = Some _ => assert (Hw : walk_succeeds w) by walk_ok; exact (Hw _ _ _ H)
    end.
  - destruct (read_partition X f bl t) as [bp t1].
    destruct (read_is_split X f (gather_top_partition_prob X) bl t) as [sp1 t2].
    destruct (read_is_split X f (gather_left_partition_prob X) bl t) as [sp2 t3].
    rewrite ?Hl in H; cbn [andb] in H.
    split_ifs H;
    try (match type of H with
         | decode_sb _ _ _ _ _ = Some _ => exact (IH0 _ _ _ _ H)
         end);
    match type of H with
    | ?w ?u = Some _ =>
        assert (Hw : walk_succeeds w);
        [ repeat (first [ apply IH0 | apply IH1 | apply IH2 | apply IH3 | progress walk_ok ])
        | exact (Hw _ _ _ H) ]
    end.
Qed.


Lemma read_partition_log bl : preserves (@log_inv Msac Ext) (read_partition X f bl).
Proof.
  intros t. unfold exec, read_partition. destruct (f_pass f =? 2); [reflexivity|].
  apply (preserves_symbol_adapt X (@log_inv Msac Ext)). intros; reflexivity.
Qed.

Lemma read_is_split_log gather bl : preserves (@log_inv Msac Ext) (read_is_split X f gather bl).
Proof.
  intros t. unfold exec, read_is_split. destruct (f_pass f =? 2); [reflexivity|].
  apply (preserves_decode_bool X (@log_inv Msac Ext)). intros; reflexivity.
Qed.

Lemma pass_not_2 : f_pass f <> 2 -> negb (f_pass f =? 2) = true.
Proof. intros H. destruct (Z.eqb_spec (f_pass f) 2); [contradiction | reflexivity]. Qed.

Lemma decode_sb_rejects node bl (t t1 : State) bp :
  f_pass f <> 2 -> f_layout f = DAV1D_PIXEL_LAYOUT_I422 ->
  f_bw f > t_bx t + Z.shiftr 16 bl -> f_bh f > t_by t + Z.shiftr 16 bl ->
  read_partition X f bl t = (bp, t1) -> is_v_partition bp = true ->
  decode_sb X f node bl t = Some (1, t1).
Proof.
  intros Hp Hl Hh Hv Hbp Hfam.
  destruct node; cbn [decode_sb];
    rewrite (gtb_true _ _ Hh), (gtb_true _ _ Hv), Hbp, (pass_not_2 Hp), Hl, Hfam;
    reflexivity.
Qed.

Lemma decode_sb_rejects_forced node bl (t t1 : State) :
  f_pass f <> 2 -> f_layout f = DAV1D_PIXEL_LAYOUT_I422 ->
  f_bw f <= t_bx t + Z.shiftr 16 bl -> f_bh f > t_by t + Z.shiftr 16 bl ->
  read_is_split X f (gather_left_partition_prob X) bl t = (0, t1) ->
  decode_sb X f node bl t = Some (1, t1).
Proof.
  intros Hp Hl Hh Hv Hsp.
  destruct node; cbn [decode_sb];
    rewrite (gtb_false _ _ Hh), (gtb_true _ _ Hv), Hsp, (pass_not_2 Hp), Hl;
    reflexivity.
Qed.

(** A partition outside the V family that is not a split is decoded: the
    walk of the level, if it completes, returns 0. *)
Lemma decode_sb_accepts node bl (t t1 : State) bp :
  f_bw f > t_bx t + Z.shiftr 16 bl -> f_bh f > t_by t + Z.shiftr 16 bl ->
  read_partition X f bl t = (bp, t1) -> is_v_partition bp = false ->
  bp <> PARTITION_SPLIT ->
  forall r t', decode_sb X f node bl t = Some (r, t') -> r = 0.
Proof.
  intros Hh Hv Hbp Hfam Hns r t' H.
  assert (Es : (bp =? PARTITION_SPLIT) = false) by (apply Z.eqb_neq; exact Hns).
  destruct node; cbn [decode_sb] in H;
    rewrite (gtb_true _ _ Hh), (gtb_true _ _ Hv), Hbp, Hfam, Es, ?andb_false_r in H;
    cbn [negb andb] in H;
    split_ifs H;
    match type of H with
    | ?w ?u = Some _ => assert (Hw : walk_succeeds w) by walk_ok; exact (Hw _ _ _ H)
    end.
Qed.

(** The forced horizontal partition of a block that crosses only the
    bottom edge has no 4:2:2 check: it is decoded on every layout. *)
Lemma decode_sb_accepts_forced node bl (t t1 : State) :
  f_bw f > t_bx t + Z.shiftr 16 bl -> f_bh f <= t_by t + Z.shiftr 16 bl ->
  read_is_split X f (gather_top_partition_prob X) bl t = (0, t1) ->
  forall r t', decode_sb X f node bl t = Some (r, t') -> r = 0.
Proof.
  intros Hh Hv Hsp r t' H.
  destruct node; cbn [decode_sb] in H;
    rewrite (gtb_true _ _ Hh), (gtb_false _ _ Hv), Hsp in H;
    cbn [negb andb truthy Z.eqb] in H;
    split_ifs H;
    match type of H with
    | ?w ?u = Some _ => assert (Hw : walk_succeeds w) by walk_ok; exact (Hw _ _ _ H)
    end.
Qed.

(** The 4:2:2 check fires at level [bl] in state [u] and leaves [t']:
    outside pass 2 and on a 4:2:2 layout, either the block fits the frame
    and the partition read is of the V family, or the block crosses only
    the right edge and the read says "no split". *)
Definition rejected_422 (bl : Z) (u t' : State) : Prop :=
  f_pass f <> 2 /\ f_layout f = DAV1D_PIXEL_LAYOUT_I422 /\
  ((f_bw f > t_bx u + Z.shiftr 16 bl /\ f_bh f > t_by u + Z.shiftr 16 bl /\
    exists bp, read_partition X f bl u = (bp, t') /\
      (bp = PARTITION_V \/ bp = PARTITION_V4 \/
       bp = PARTITION_T_LEFT_SPLIT \/ bp = PARTITION_T_RIGHT_SPLIT)) \/
   (f_bw f <= t_bx u + Z.shiftr 16 bl /\ f_bh f > t_by u + Z.shiftr 16 bl /\
    read_is_split X f (gather_left_partition_prob X) bl u = (0, t'))).

(** A completed walk returns 0, or 1 from a 4:2:2 check at a level of at
    least [lo]. *)
Definition walk_rejected (lo : Z) (w : State -> option (Z * State)) : Prop :=
  forall t r t', w t = Some (r, t') ->
    r = 0 \/ (r = 1 /\ exists bl' u, lo <= bl' /\ rejected_422 bl' u t').

Lemma walk_rejected_succeeds lo w : walk_succeeds w -> walk_rejected lo w.
Proof. intros Hw t r t' H. left. exact (Hw _ _ _ H). Qed.

Lemma walk_rejected_walk lo (m : M unit) (k : State -> option (Z * State)) :
  walk_rejected lo k -> walk_rejected lo (walk m k).
Proof. intros Hk t r t' H. exact (Hk _ _ _ H). Qed.

Lemma walk_rejected_try lo (m k : State -> option (Z * State)) :
  walk_rejected lo m -> walk_rejected lo k -> walk_rejected lo (walk_try m k).
Proof.
  intros Hm Hk t r t' H. unfold walk_try in H.
  destruct (m t) as [[r1 t1]|] eqn:E; [|discriminate].
  destruct (r1 =? 0) eqn:E1.
  - exact (Hk _ _ _ H).
  - injection H as <- <-. destruct (Hm _ _ _ E) as [E0|[_ Hrej]].
    + subst r1. discriminate E1.
    + right. split; [reflexivity | exact Hrej].
Qed.

Lemma is_v_partition_cases bp :
  is_v_partition bp = true ->
  bp = PARTITION_V \/ bp = PARTITION_V4 \/
  bp = PARTITION_T_LEFT_SPLIT \/ bp = PARTITION_T_RIGHT_SPLIT.
Proof.
  unfold is_v_partition. intros H.
  destruct (Z.eqb_spec bp PARTITION_V); [tauto|].
  destruct (Z.eqb_spec bp PARTITION_V4); [tauto|].
  destruct (Z.eqb_spec bp PARTITION_T_LEFT_SPLIT); [tauto|].
  destruct (Z.eqb_spec bp PARTITION_T_RIGHT_SPLIT); [tauto|].
  discriminate H.
Qed.

Ltac walk_rej IH0 IH1 IH2 IH3 :=
  repeat (cbv beta zeta; lazymatch goal with
  | |- walk_rejected _ (walk _ _) => apply walk_rejected_walk
  | |- walk_rejected _ (walk_try _ _) => apply walk_rejected_try
  | |- walk_rejected _ (stamp_partition _ _ _ _ _ _) =>
      apply walk_rejected_succeeds, stamp_partition_succeeds
  | |- walk_rejected _ (decode_sb _ _ _ _) =>
      first [apply IH0 | apply IH1 | apply IH2 | apply IH3]
  | |- walk_rejected _ (if ?c then _ else _) => destruct c
  end).

(** Every 1 that [decode_sb] returns comes from the 4:2:2 check: at the
    level of the call, in the state of the call, or at a deeper level. *)
Lemma decode_sb_rejected node :
  forall bl (t : State) r t', decode_sb X f node bl t = Some (r, t') ->
    r = 0 \/
    (r = 1 /\ (rejected_422 bl t t' \/
               exists bl' u, bl + 1 <= bl' /\ rejected_422 bl' u t')).
Proof.
  induction node as [o h v split
                    | o h v tts tbs tls trs h4 v4 s0 IH0 s1 IH1 s2 IH2 s3 IH3];
    intros bl t r t' H; cbn [decode_sb] in H.
  - destruct (f_bw f >? t_bx t + Z.shiftr 16 bl) eqn:Eh;
    destruct (f_bh f >? t_by t + Z.shiftr 16 bl) eqn:Ev; cbn [negb andb] in H;
      try discriminate H.
    + destruct (read_partition X f bl t) as [bp t1] eqn:Ebp.
      destruct (negb (f_pass f =? 2)) eqn:Ep; cbn [andb] in H;
        [destruct (f_layout f =? DAV1D_PIXEL_LAYOUT_I422) eqn:El; cbn [andb] in H;
           [destruct (is_v_partition bp) eqn:Efam|]|].
      * injection H as <- <-. right. split; [reflexivity|]. left.
        split; [intros E; rewrite E in Ep; discriminate Ep|].
        split; [apply Z.eqb_eq; exact El|]. left.
        split; [apply Z.gtb_gt; exact Eh|]. split; [apply Z.gtb_gt; exact Ev|].
        exists bp. split; [exact Ebp | apply is_v_partition_cases; exact Efam].
      * left. split_ifs H;
        match type of H with
        | ?w ?u = Some _ => assert (Hw : walk_succeeds w) by walk_ok; exact (Hw _ _ _ H)
        end.
      * left. split_ifs H;
        match type of H with
        | ?w ?u = Some _ => assert (Hw : walk_succeeds w) by walk_ok; exact (Hw _ _ _ H)
        end.
      * left. split_ifs H;
        match type of H with
        | ?w ?u = Some _ => assert (Hw : walk_succeeds w) by walk_ok; exact (Hw _ _ _ H)
        end.
    + destruct (read_is_split X f (gather_top_partition_prob X) bl t) as [sp t1].
      left. split_ifs H;
        match type of H with
        | ?w ?u = Some _ => assert (Hw : walk_succeeds w) by walk_ok; exact (Hw _ _ _ H)
        end.
    + destruct (read_is_split X f (gather_left_partition_prob X) bl t) as [sp t1] eqn:Esp.
      destruct (negb (f_pass f =? 2)) eqn:Ep; cbn [andb] in H;
        [destruct (f_layout f =? DAV1D_PIXEL_LAYOUT_I422) eqn:El; cbn [andb] in H;
           [destruct (truthy sp) eqn:Es; cbn [negb] in H|]|].
      * left. split_ifs H;
        match type of H with
        | ?w ?u = Some _ => assert (Hw : walk_succeeds w) by walk_ok; exact (Hw _ _ _ H)
        end.
      * injection H as <- <-. right. split; [reflexivity|]. left.
        split; [intros E; rewrite E in Ep; discriminate Ep|].
        split; [apply Z.eqb_eq; exact El|]. right.
        split; [rewrite Z.gtb_ltb in Eh; apply Z.ltb_ge in Eh; lia|]. split; [apply Z.gtb_gt; exact Ev|].
        unfold truthy in Es. apply negb_false_iff, Z.eqb_eq in Es. subst sp. exact Esp.
      * left. split_ifs H;
        match type of H with
        | ?w ?u = Some _ => assert (Hw : walk_succeeds w) by walk_ok; exact (Hw _ _ _ H)
        end.
      * left. split_ifs H;
        match type of H with
        | ?w ?u = Some _ => assert (Hw : walk_succeeds w) by walk_ok; exact (Hw _ _ _ H)
        end.
  - assert (Deep : forall w u,
              walk_rejected (bl + 1) w -> w u = Some (r, t') ->
              r = 0 \/ (r = 1 /\ (rejected_422 bl t t' \/
                         exists bl' u, bl + 1 <= bl' /\ rejected_422 bl' u t'))).
    { intros w u Hw Hu. destruct (Hw _ _ _ Hu) as [E|[E Hrej]]; [left; exact E|].
      right. split; [exact E | right; exact Hrej]. }
    assert (C0 : walk_rejected (bl + 1) (decode_sb X f s0 (bl + 1))).
    { intros u r0 u' Hu. destruct (IH0 _ _ _ _ Hu) as [E|[E [Hrej|(bl' & w & Hle & Hrej)]]];
        [left; exact E | right; split; [exact E|] ..].
      - exists (bl + 1), u. split; [lia | exact Hrej].
      - exists bl', w. split; [lia | exact Hrej]. }
    assert (C1 : walk_rejected (bl + 1) (decode_sb X f s1 (bl + 1))).
    { intros u r0 u' Hu. destruct (IH1 _ _ _ _ Hu) as [E|[E [Hrej|(bl' & w & Hle & Hrej)]]];
        [left; exact E | right; split; [exact E|] ..].
      - exists (bl + 1), u. split; [lia | exact Hrej].
      - exists bl', w. split; [lia | exact Hrej]. }
    assert (C2 : walk_rejected (bl + 1) (decode_sb X f s2 (bl + 1))).
    { intros u r0 u' Hu. destruct (IH2 _ _ _ _ Hu) as [E|[E [Hrej|(bl' & w & Hle & Hrej)]]];
        [left; exact E | right; split; [exact E|] ..].
      - exists (bl + 1), u. split; [lia | exact Hrej].
      - exists bl', w. split; [lia | exact Hrej]. }
    assert (C3 : walk_rejected (bl + 1) (decode_sb X f s3 (bl + 1))).
    { intros u r0 u' Hu. destruct (IH3 _ _ _ _ Hu) as [E|[E [Hrej|(bl' & w & Hle & Hrej)]]];
        [left; exact E | right; split; [exact E|] ..].
      - exists (bl + 1), u. split; [lia | exact Hrej].
      - exists bl', w. split; [lia | exact Hrej]. }
    destruct (f_bw f >? t_bx t + Z.shiftr 16 bl) eqn:Eh;
    destruct (f_bh f >? t_by t + Z.shiftr 16 bl) eqn:Ev; cbn [negb andb] in H.
    + destruct (read_partition X f bl t) as [bp t1] eqn:Ebp.
      destruct (negb (f_pass f =? 2)) eqn:Ep; cbn [andb] in H;
        [destruct (f_layout f =? DAV1D_PIXEL_LAYOUT_I422) eqn:El; cbn [andb] in H;
           [destruct (is_v_partition bp) eqn:Efam|]|].
      * injection H as <- <-. right. split; [reflexivity|]. left.
        split; [intros E; rewrite E in Ep; discriminate Ep|].
        split; [apply Z.eqb_eq; exact El|]. left.
        split; [apply Z.gtb_gt; exact Eh|]. split; [apply Z.gtb_gt; exact Ev|].
        exists bp. split; [exact Ebp | apply is_v_partition_cases; exact Efam].
      * split_ifs H;
        match type of H with
        | ?w ?u = Some _ =>
            refine (Deep w u _ H); walk_rej C0 C1 C2 C3
        end.
      * split_ifs H;
        match type of H with
        | ?w ?u = Some _ =>
            refine (Deep w u _ H); walk_rej C0 C1 C2 C3
        end.
      * split_ifs H;
        match type of H with
        | ?w ?u = Some _ =>
            refine (Deep w u _ H); walk_rej C0 C1 C2 C3
        end.
    + destruct (read_is_split X f (gather_top_partition_prob X) bl t) as [sp t1].
      split_ifs H;
        match type of H with
        | ?w ?u = Some _ =>
            refine (Deep w u _ H); walk_rej C0 C1 C2 C3
        end.
    + destruct (read_is_split X f (gather_left_partition_prob X) bl t) as [sp t1] eqn:Esp.
      destruct (negb (f_pass f =? 2)) eqn:Ep; cbn [andb] in H;
        [destruct (f_layout f =? DAV1D_PIXEL_LAYOUT_I422) eqn:El; cbn [andb] in H;
           [destruct (truthy sp) eqn:Es; cbn [negb] in H|]|].
      * split_ifs H;
        match type of H with
        | ?w ?u = Some _ =>
            refine (Deep w u _ H); walk_rej C0 C1 C2 C3
        end.
      * injection H as <- <-. right. split; [reflexivity|]. left.
        split; [intros E; rewrite E in Ep; discriminate Ep|].
        split; [apply Z.eqb_eq; exact El|]. right.
        split; [rewrite Z.gtb_ltb in Eh; apply Z.ltb_ge in Eh; lia|]. split; [apply Z.gtb_gt; exact Ev|].
        unfold truthy in Es. apply negb_false_iff, Z.eqb_eq in Es. subst sp. exact Esp.
      * split_ifs H;
        match type of H with
        | ?w ?u = Some _ =>
            refine (Deep w u _ H); walk_rej C0 C1 C2 C3
        end.
      * split_ifs H;
        match type of H with
        | ?w ?u = Some _ =>
            refine (Deep w u _ H); walk_rej C0 C1 C2 C3
        end.
    + split_ifs H. refine (Deep _ _ C0 H).
Qed.

End Layout422.

(** C4. On a 4:2:2 layout, outside pass 2: when the partition read for a
    block that fits the frame is [PARTITION_V], [PARTITION_V4],
    [PARTITION_T_LEFT_SPLIT] or [PARTITION_T_RIGHT_SPLIT], and when a block
    that crosses only the right edge reads "no split" (the forced
    vertical partition), [decode_sb] returns 1 in the state the read left,
    with no block decoded.  On any other layout (and in pass 2) no
    completed walk returns 1; on every layout a partition outside the V
    family that is not a split returns 0, and so does the forced horizontal
    partition of a block that crosses only the bottom edge.  Every 1 that
    a completed walk returns comes from that check, made for the block of
    the call or for a block of a deeper level. *)
Theorem decode_sb_rejects_422 {Msac Ext : Type} (X : Externals Msac Ext) (f : Frame)
    (node : EdgeNode) (bl : Z) (t : Tile Msac Ext) :
  let hsz := Z.shiftr 16 bl in
  (f_pass f <> 2 -> f_layout f = DAV1D_PIXEL_LAYOUT_I422 ->
   f_bw f > t_bx t + hsz -> f_bh f > t_by t + hsz ->
   forall bp t1, read_partition X f bl t = (bp, t1) ->
   bp = PARTITION_V \/ bp = PARTITION_V4 \/
   bp = PARTITION_T_LEFT_SPLIT \/ bp = PARTITION_T_RIGHT_SPLIT ->
   decode_sb X f node bl t = Some (1, t1) /\ walk_log t1 = walk_log t) /\
  (f_pass f <> 2 -> f_layout f = DAV1D_PIXEL_LAYOUT_I422 ->
   f_bw f <= t_bx t + hsz -> f_bh f > t_by t + hsz ->
   forall t1, read_is_split X f (gather_left_partition_prob X) bl t = (0, t1) ->
   decode_sb X f node bl t = Some (1, t1) /\ walk_log t1 = walk_log t) /\
  (f_pass f = 2 \/ f_layout f <> DAV1D_PIXEL_LAYOUT_I422 ->
   forall r t', decode_sb X f node bl t = Some (r, t') -> r = 0) /\
  (f_bw f > t_bx t + hsz -> f_bh f > t_by t + hsz ->
   forall bp t1, read_partition X f bl t = (bp, t1) ->
   bp <> PARTITION_V -> bp <> PARTITION_V4 ->
   bp <> PARTITION_T_LEFT_SPLIT -> bp <> PARTITION_T_RIGHT_SPLIT ->
   bp <> PARTITION_SPLIT ->
   forall r t', decode_sb X f node bl t = Some (r, t') -> r = 0) /\
  (f_bw f > t_bx t + hsz -> f_bh f <= t_by t + hsz ->
   forall t1, read_is_split X f (gather_top_partition_prob X) bl t = (0, t1) ->
   forall r t', decode_sb X f node bl t = Some (r, t') -> r = 0) /\
  (forall r t', decode_sb X f node bl t = Some (r, t') ->
   r = 0 \/
   (r = 1 /\ (rejected_422 X f bl t t' \/
              exists bl' u, bl + 1 <= bl' /\ rejected_422 X f bl' u t'))).
Proof.
  intros hsz. split; [|split; [|split; [|split; [|split]]]].
  - intros Hp Hl Hh Hv bp t1 Hbp Hfam. split.
    + apply (decode_sb_rejects X f node bl t t1 bp); try assumption.
      unfold is_v_partition.
      destruct Hfam as [E|[E|[E|E]]]; subst bp; reflexivity.
    + pose proof (read_partition_log X f bl t) as L. unfold exec in L.
      rewrite Hbp in L. exact L.
  - intros Hp Hl Hh Hv t1 Hsp. split.
    + apply decode_sb_rejects_forced; assumption.
    + pose proof (read_is_split_log X f (gather_left_partition_prob X) bl t) as L.
      unfold exec in L. rewrite Hsp in L. exact L.
  - intros Hl r t' H. refine (decode_sb_succeeds X f node _ bl t r t' H).
    destruct Hl as [Hl|Hl].
    + rewrite Hl. reflexivity.
    + destruct (Z.eqb_spec (f_layout f) DAV1D_PIXEL_LAYOUT_I422);
        [contradiction | apply andb_false_r].
  - intros Hh Hv bp t1 Hbp H1 H2 H3 H4 H5 r t' H.
    refine (decode_sb_accepts X f node bl t t1 bp Hh Hv Hbp _ H5 r t' H).
    unfold is_v_partition.
    rewrite (proj2 (Z.eqb_neq _ _) H1), (proj2 (Z.eqb_neq _ _) H2),
      (proj2 (Z.eqb_neq _ _) H3), (proj2 (Z.eqb_neq _ _) H4).
    reflexivity.
  - intros Hh Hv t1 Hsp r t' H.
    exact (decode_sb_accepts_forced X f node bl t t1 Hh Hv Hsp r t' H).
  - intros r t' H. exact (decode_sb_rejected X f node bl t r t' H).
Qed.

(** The 64x64 superblock of a 4:2:2 example frame whose first symbol is
    [PARTITION_V]: the walk returns 1 and no block has been decoded.  On
    a 4:2:2 frame of half the height the same superblock crosses only the
    bottom edge: it reads "no split", decodes the forced horizontal
    partition and returns 0. *)
Lemma decode_sb_rejects_422_witness :
  let f := Example.frame DAV1D_PIXEL_LAYOUT_I422 0 0 in
  let t := Example.tile [2; 1; 1] in
  let g := Example.frame_sized 16 8 DAV1D_PIXEL_LAYOUT_I422 0 0 100 in
  let u := Example.tile [0; 1; 1] in
  (decode_sb Example.externals f (Example.edge_tree 3) BL_64X64 t
     = Some (1, set_ts_msac [1; 1] t) /\
   walk_log (set_ts_msac [1; 1] t) = []) /\
  fst <$> decode_sb Example.externals g (Example.edge_tree 3) BL_64X64 u = Some 0.
Proof.
  intros f t g u. split.
  - refine (proj1 (decode_sb_rejects_422 Example.externals f (Example.edge_tree 3) BL_64X64 t)
              _ _ _ _ PARTITION_V (set_ts_msac [1; 1] t) _ _).
    + discriminate.
    + reflexivity.
    + reflexivity.
    + reflexivity.
    + reflexivity.
    + left. reflexivity.
  - destruct (decode_sb Example.externals g (Example.edge_tree 3) BL_64X64 u)
      as [[r t']|] eqn:E.
    + rewrite (proj1 (proj2 (proj2 (proj2 (proj2
                 (decode_sb_rejects_422 Example.externals g (Example.edge_tree 3)
                    BL_64X64 u)))))
                 ltac:(reflexivity) ltac:(discriminate) (set_ts_msac [1; 1] u)
                 ltac:(reflexivity) r t' E).
      reflexivity.
    + vm_compute in E. discriminate E.
Defined.

(** ** C3: the explicitly coded segment id *)

Section SegId.

Context {Msac Ext : Type}.
Variable X : Externals Msac Ext.
Variable f : Frame.

Local Abbreviation State := (Tile Msac Ext).

(** [last_active_seg_id] as the code holds it, in an [unsigned]. *)
Definition last_active_seg_id : Z := u32 (hdr_seg_last_active_segid f).

(** The segment id of the block record is inside the active range. *)
Definition seg_ok (b : Av1Block) : Prop := 0 <= b_seg_id b <= last_active_seg_id.

(** The segment id and the skip flag of the block record are as they were. *)
Definition seg_inv (t t' : State) : Prop :=
  b_seg_id (t_blk t') = b_seg_id (t_blk t) /\ b_skip (t_blk t') = b_skip (t_blk t).

#[local] Instance seg_inv_preorder : PreOrder seg_inv.
Proof.
  split.
  - intros t. split; reflexivity.
  - intros t1 t2 t3 [H1 H2] [H3 H4]. split; congruence.
Qed.

Lemma body_seg t t' : body_inv t t' -> seg_inv t t'.
Proof.
  intros (_ & _ & H). unfold blk_head in H. injection H as _ _ _ _ H1 H2 _.
  split; assumption.
Qed.

Lemma coded_seg_id_range diff pred_seg_id :
  0 <= coded_seg_id f diff pred_seg_id <= last_active_seg_id /\
  coded_seg_id f diff pred_seg_id <= 255.
Proof.
  unfold coded_seg_id, last_active_seg_id.
  pose proof (u32_range (hdr_seg_last_active_segid f)) as Hl.
  match goal with |- context [u8 ?x] => pose proof (u8_range x) as Hv; set (v := u8 x) in * end.
  destruct (Z.gtb_spec v (u32 (hdr_seg_last_active_segid f))); lia.
Qed.

Lemma coded_seg_id_clamped diff pred_seg_id :
  let v := u8 (av1_neg_deinterleave (s32 (u32 diff)) (s32 (u32 pred_seg_id))
                                    (s32 (u32 (last_active_seg_id + 1)))) in
  (v > last_active_seg_id -> coded_seg_id f diff pred_seg_id = 0) /\
  (v <= last_active_seg_id -> coded_seg_id f diff pred_seg_id = v).
Proof.
  intros v. subst v. unfold coded_seg_id, last_active_seg_id.
  match goal with |- context [u8 ?x] => set (v := u8 x) end.
  destruct (Z.gtb_spec v (u32 (hdr_seg_last_active_segid f))); split; intros; lia.
Qed.


Ltac leaf_seg :=
  first
    [ solve [auto with pres]
    | apply (preserves_sub (@body_inv Msac Ext) seg_inv);
        [exact body_seg | solve [auto with pres]]
    | leaf_with side_body ].
Ltac pres_seg := preserves_with side_body leaf_seg.

(** The stages of [decode_b] up to the second "segment_id": they return
    [seg_pred]. *)
Definition seg_stages (g : BlockGeom) (bl bs bp : Z) : M Z :=
  setb (fun b => set_b_bs bs (set_b_bp bp (set_b_bl bl b))) ;;
  parse_skip_mode X f g ;;
  seg_pred <- parse_seg_id_preskip X f g ;;
  parse_skip X g ;;
  parse_seg_id_postskip X f g seg_pred.

(** The stages after them; none writes [b->seg_id] or [b->skip]. *)
Definition after_seg_stages (g : BlockGeom) (bs bp intra_edge_flags : Z) : M unit :=
  parse_cdef_idx X f g ;;
  parse_delta_q_lf X f bs ;;
  parse_intra X f g ;;
  intra <- getb b_intra ;;
  if truthy intra then decode_b_intra X f g bs intra_edge_flags
  else if negb (truthy (Z.land (hdr_frame_type f) 1)) then decode_b_intrabc X f g bs bp
  else decode_b_inter X f g bs bp intra_edge_flags.

Lemma after_seg_stages_seg g bs bp flags :
  preserves seg_inv (after_seg_stages g bs bp flags).
Proof.
  unfold after_seg_stages, parse_cdef_idx, parse_delta_q_lf, read_delta, parse_intra.
  pres_seg.
Qed.

Lemma decode_b_parse_stages g bl bs bp flags (t : State) :
  eval (decode_b_parse X f g bl bs bp flags) t = eval (seg_stages g bl bs bp) t /\
  exec (decode_b_parse X f g bl bs bp flags) t =
    exec (after_seg_stages g bs bp flags) (exec (seg_stages g bl bs bp) t).
Proof.
  unfold decode_b_parse, seg_stages, after_seg_stages. run_binds.
  split; reflexivity.
Qed.


(** The read of the coded difference leaves a segment id inside the active
    range, whatever the symbol. *)
Lemma read_seg_id_diff_ok pred_seg_id seg_ctx (t : State) :
  seg_ok (t_blk (exec (read_seg_id_diff X f pred_seg_id seg_ctx) t)) /\
  b_skip (t_blk (exec (read_seg_id_diff X f pred_seg_id seg_ctx) t)) = b_skip (t_blk t).
Proof.
  unfold read_seg_id_diff. run_binds.
  set (diff := eval _ t).
  assert (Hm : b_skip (t_blk (exec (symbol_adapt X (cdf "m.seg_id" [seg_ctx]) NUM_SEGMENTS) t))
               = b_skip (t_blk t)).
  { unfold exec, symbol_adapt. destruct (msac_decode_symbol_adapt X _ _ _). reflexivity. }
  unfold setb, modify, exec at 1 3. cbn [snd t_blk set_t_blk]. unfold seg_ok.
  cbn [b_seg_id b_skip set_b_seg_id].
  destruct (coded_seg_id_range diff pred_seg_id) as [H1 H2].
  rewrite u8_small by lia. split; [exact H1 | exact Hm].
Qed.

Lemma truthy_0 : truthy 0 = false.
Proof. reflexivity. Qed.

(** "segment_id" before the skip flag, on the path that reads the id. *)
Lemma parse_seg_id_preskip_explicit g (t : State) :
  truthy (hdr_seg_enabled f) = true -> truthy (hdr_seg_update_map f) = true ->
  truthy (hdr_seg_preskip f) = true ->
  eval (parse_seg_id_preskip X f g) t = 0 ->
  seg_ok (t_blk (exec (parse_seg_id_preskip X f g) t)).
Proof.
  intros He Hu Hp. unfold parse_seg_id_preskip. rewrite He, Hu, Hp. cbn [negb].
  run_binds. unfold eval at 1. cbn [ret fst]. intros Hsp. rewrite Hsp, truthy_0.
  unfold exec at 1. cbn [ret snd].
  run_binds. destruct (eval (cur_frame_segid X f g) _) as [pred_seg_id seg_ctx].
  apply read_seg_id_diff_ok.
Qed.


Lemma eval_ret {A} (x : A) (t : State) : eval (ret x) t = x.
Proof. reflexivity. Qed.

Lemma setb_blk (g : Av1Block -> Av1Block) (t : State) :
  t_blk (exec (setb g) t) = g (t_blk t).
Proof. reflexivity. Qed.

Lemma read_seg_pred_blk g (t : State) : t_blk (exec (read_seg_pred X g) t) = t_blk t.
Proof.
  unfold read_seg_pred. run_binds. unfold exec, bool_adapt, gets. cbn [snd].
  destruct (msac_decode_bool_adapt X _ _). reflexivity.
Qed.

Lemma parse_skip_seg_id g (t : State) :
  b_seg_id (t_blk (exec (parse_skip X g) t)) = b_seg_id (t_blk t).
Proof.
  unfold parse_skip. run_binds. destruct (truthy _).
  - reflexivity.
  - run_binds. unfold exec, bool_adapt, getb, gets, setb, modify. cbn [snd].
    destruct (msac_decode_bool_adapt X _ _). reflexivity.
Qed.

(** "segment_id" after the skip flag does nothing when the id is coded
    before it. *)
Lemma parse_seg_id_postskip_skipped g seg_pred (t : State) :
  truthy (hdr_seg_preskip f) = true ->
  parse_seg_id_postskip X f g seg_pred t = (seg_pred, t).
Proof.
  intros Hp. unfold parse_seg_id_postskip. rewrite Hp, andb_false_r. reflexivity.
Qed.

(** ... and on the path that reads the id, it leaves it in range. *)
Lemma parse_seg_id_postskip_explicit g seg_pred (t : State) :
  truthy (hdr_seg_enabled f) = true -> truthy (hdr_seg_update_map f) = true ->
  truthy (hdr_seg_preskip f) = false ->
  let t' := exec (parse_seg_id_postskip X f g seg_pred) t in
  b_skip (t_blk t') = b_skip (t_blk t) /\
  (b_skip (t_blk t) = 0 -> eval (parse_seg_id_postskip X f g seg_pred) t = 0 ->
   seg_ok (t_blk t')).
Proof.
  intros He Hu Hp. unfold parse_seg_id_postskip. rewrite He, Hu, Hp. cbn [negb andb].
  cbv zeta. run_binds. unfold getb.
  rewrite !eval_gets, !exec_gets.
  set (m := if negb (truthy (b_skip (t_blk t))) && truthy (hdr_seg_temporal f)
            then read_seg_pred X g else ret seg_pred).
  assert (Hm : t_blk (exec m t) = t_blk t).
  { subst m. destruct (_ && _); [apply read_seg_pred_blk | reflexivity]. }
  rewrite !exec_ret, !eval_ret. split.
  - destruct (_ && _ && _).
    + run_binds. rewrite exec_gets, setb_blk. cbn [b_skip set_b_seg_id].
      rewrite Hm. reflexivity.
    + run_binds. destruct (eval (cur_frame_segid X f g) _) as [pred_seg_id seg_ctx].
      unfold cur_frame_segid. rewrite exec_gets.
      destruct (truthy (b_skip (t_blk t))).
      * rewrite setb_blk. cbn [b_skip set_b_seg_id]. rewrite Hm. reflexivity.
      * rewrite (proj2 (read_seg_id_diff_ok _ _ _)), Hm. reflexivity.
  - intros Hskip Hsp. rewrite Hsp, truthy_0, andb_false_r.
    run_binds. destruct (eval (cur_frame_segid X f g) _) as [pred_seg_id seg_ctx].
    rewrite Hskip, truthy_0. apply read_seg_id_diff_ok.
Qed.


Lemma seg_stages_explicit g bl bs bp (t : State) :
  truthy (hdr_seg_enabled f) = true -> truthy (hdr_seg_update_map f) = true ->
  eval (seg_stages g bl bs bp) t = 0 ->
  truthy (hdr_seg_preskip f) = true \/ b_skip (t_blk (exec (seg_stages g bl bs bp) t)) = 0 ->
  seg_ok (t_blk (exec (seg_stages g bl bs bp) t)).
Proof.
  intros He Hu. unfold seg_stages. run_binds.
  set (t1 := exec (parse_skip_mode X f g) _).
  set (sp1 := eval (parse_seg_id_preskip X f g) t1).
  set (s1 := exec (parse_seg_id_preskip X f g) t1).
  set (s2 := exec (parse_skip X g) s1).
  destruct (truthy (hdr_seg_preskip f)) eqn:Hp.
  - unfold eval at 1, exec at 1 2.
    rewrite (parse_seg_id_postskip_skipped g sp1 s2 Hp). cbn [fst snd].
    intros Hsp _. unfold seg_ok. subst s2. rewrite parse_skip_seg_id.
    apply (parse_seg_id_preskip_explicit g t1 He Hu Hp Hsp).
  - intros Hsp [Hc|Hskip]; [discriminate Hc|].
    destruct (parse_seg_id_postskip_explicit g sp1 s2 He Hu Hp) as [Hk Hok].
    apply Hok; [rewrite <- Hk; exact Hskip | exact Hsp].
Qed.

(** The whole parse of a block on the path that reads the segment id:
    [seg_pred] is 0, and the id is coded before the skip flag or the block
    is not skipped. *)
Lemma decode_b_parse_explicit g bl bs bp flags (t : State) :
  truthy (hdr_seg_enabled f) = true -> truthy (hdr_seg_update_map f) = true ->
  eval (decode_b_parse X f g bl bs bp flags) t = 0 ->
  truthy (hdr_seg_preskip f) = true \/
    b_skip (t_blk (exec (decode_b_parse X f g bl bs bp flags) t)) = 0 ->
  seg_ok (t_blk (exec (decode_b_parse X f g bl bs bp flags) t)).
Proof.
  intros He Hu.
  destruct (decode_b_parse_stages g bl bs bp flags t) as [Ev Ex]. rewrite Ev, Ex.
  destruct (after_seg_stages_seg g bs bp flags (exec (seg_stages g bl bs bp) t)) as [H1 H2].
  unfold seg_ok. rewrite H1, H2. apply seg_stages_explicit; assumption.
Qed.

Lemma store_b_blk (t : State) : t_blk (exec (store_b f) t) = t_blk t.
Proof. unfold store_b, when. destruct (truthy _); reflexivity. Qed.

(** The state in which the parse of a block starts: the call is logged and
    the block record loaded. *)
Definition block_entry (bl bs bp : Z) (t : State) : State :=
  exec (load_b f)
       (exec (modify (fun t => set_walk_log
                        (walk_log t ++ [mk_call (t_bx t) (t_by t) bl bs bp]) t)) t).

(** What [decode_b] leaves in the block record is what the parse left. *)
Lemma decode_b_blk bl bs bp flags (t : State) :
  f_pass f <> 2 ->
  let t0 := block_entry bl bs bp t in
  t_blk (exec (decode_b X f bl bs bp flags) t) =
  t_blk (exec (decode_b_parse X f (block_geom X f bs t0) bl bs bp flags) t0).
Proof.
  intros Hp t0. unfold decode_b. run_binds. rewrite exec_gets, eval_gets.
  fold (block_entry bl bs bp t). fold t0.
  destruct (Z.eqb_spec (f_pass f) 2); [contradiction|].
  run_binds.
  match goal with
  | |- t_blk (exec (store_b f) (exec ?u ?s)) = _ =>
      assert (Hu : t_blk (exec u s) = t_blk s)
  end.
  { match goal with
    | |- t_blk (exec ?u ?s) = _ =>
        assert (H : preserves (fun a b : State => t_blk b = t_blk a) u)
    end.
    { unfold update_ctx_final.
      assert (PreOrder (fun a b : State => t_blk b = t_blk a)).
      { split; [intros ?; reflexivity | intros ? ? ? ? ?; congruence]. }
      preserves_with ltac:(repeat case_match; reflexivity)
                     ltac:(leaf_with ltac:(repeat case_match; reflexivity)). }
    apply H. }
  rewrite store_b_blk. exact Hu.
Qed.

End SegId.

(** The bound the code passes to [av1_neg_deinterleave],
    [last_active_seg_id + 1] computed in [unsigned] and converted to [int],
    is the header field plus one. *)
Lemma last_active_plus_one (h : Z) :
  - 2 ^ 31 <= h < 2 ^ 31 - 1 -> s32 (u32 (u32 h + 1)) = h + 1.
Proof.
  intros H. unfold s32, u32.
  change (2 ^ 32) with 4294967296. change (2 ^ 31) with 2147483648 in *.
  Z.div_mod_to_equations. lia.
Qed.

(** With a negative header field the comparison is against a value of at
    least [2 ^ 31], which no [uint8_t] exceeds: the id is never reset. *)
Lemma coded_seg_id_never_reset (f : Frame) (diff pred_seg_id : Z) :
  - 2 ^ 31 <= hdr_seg_last_active_segid f < 0 ->
  coded_seg_id f diff pred_seg_id =
    u8 (av1_neg_deinterleave (s32 (u32 diff)) (s32 (u32 pred_seg_id))
                             (hdr_seg_last_active_segid f + 1)).
Proof.
  intros H. unfold coded_seg_id. rewrite last_active_plus_one by lia.
  match goal with |- context [u8 ?x] => pose proof (u8_range x) as Hv; set (v := u8 x) in * end.
  assert (E : u32 (hdr_seg_last_active_segid f) = hdr_seg_last_active_segid f + 2 ^ 32).
  { unfold u32. change (2 ^ 32) with 4294967296. change (2 ^ 31) with 2147483648 in H.
    Z.div_mod_to_equations. lia. }
  rewrite E. destruct (Z.gtb_spec v (hdr_seg_last_active_segid f + 2 ^ 32)); [lia | reflexivity].
Qed.




(** ** C5: the samples and the type of [derive_warpmv] *)

Section Positions.

Local Open Scope nat_scope.

(** Filters of lists of positions. *)

Context {A : Type} (P : A -> Prop) `{!forall x, Decision (P x)}.

Lemma filter_all (l : list A) : Forall P l -> filter P l = l.
Proof.
  induction 1 as [|x l Hx _ IH]; [reflexivity|].
  rewrite filter_cons_True by exact Hx. rewrite IH. reflexivity.
Qed.

Lemma filter_none (l : list A) : Forall (fun x => ~ P x) l -> filter P l = [].
Proof.
  induction 1 as [|x l Hx _ IH]; [reflexivity|].
  rewrite filter_cons_False by exact Hx. exact IH.
Qed.

Lemma filter_full (l : list A) : length l <= length (filter P l) -> filter P l = l.
Proof.
  induction l as [|x l IH]; [reflexivity|]. intros Hl.
  destruct (decide (P x)) as [Hx|Hx].
  - rewrite filter_cons_True in * by exact Hx. simpl in Hl. rewrite IH by lia. reflexivity.
  - rewrite filter_cons_False in Hl by exact Hx. pose proof (length_filter P l).
    simpl in Hl. lia.
Qed.

Lemma filter_ext_in (Q : A -> Prop) `{!forall x, Decision (Q x)} (l : list A) :
  (forall x, x ∈ l -> (P x <-> Q x)) -> filter P l = filter Q l.
Proof.
  induction l as [|x l IH]; [reflexivity|]. intros Hext.
  assert (Hx : P x <-> Q x) by (apply Hext; left).
  assert (Hl : filter P l = filter Q l)
    by (apply IH; intros y Hy; apply Hext; right; exact Hy).
  destruct (decide (P x)) as [HP|HP].
  - rewrite filter_cons_True by exact HP. rewrite filter_cons_True by (apply Hx, HP).
    rewrite Hl. reflexivity.
  - rewrite filter_cons_False by exact HP.
    rewrite filter_cons_False by (intros HQ; apply HP, Hx, HQ). exact Hl.
Qed.

End Positions.

Section Lookups.

Local Open Scope nat_scope.

Context {A : Type} `{!Inhabited A}.

(** The first [k] elements, by position. *)
Lemma take_by_position (l : list A) (k : nat) :
  k <= length l -> map (fun p => l !!! p) (seq 0 k) = take k l.
Proof.
  induction k as [|k IH]; intros Hk; [reflexivity|].
  rewrite seq_S, map_app, IH by lia. simpl.
  destruct (lookup_lt_is_Some_2 l k ltac:(lia)) as [x Hx].
  rewrite (take_S_r l k x Hx). rewrite (list_lookup_total_correct l k x Hx). reflexivity.
Qed.

(** A filter of a list, by position. *)
Lemma filter_by_position (P : A -> Prop) `{!forall x, Decision (P x)} (l : list A) :
  map (fun p => l !!! p) (filter (fun p => P (l !!! p)) (seq 0 (length l))) = filter P l.
Proof.
  induction l as [|x l IH] using rev_ind; [reflexivity|].
  rewrite length_app. simpl. rewrite Nat.add_1_r, seq_S, !filter_app, map_app. simpl.
  f_equal.
  - rewrite <- IH. 
    rewrite (filter_ext_in (fun p => P ((l ++ [x]) !!! p)) (fun p => P (l !!! p))).
    + apply map_ext_in. intros p Hp. apply list_elem_of_In, list_elem_of_filter in Hp.
      destruct Hp as [_ Hp]. apply elem_of_seq in Hp.
      apply lookup_total_app_l. lia.
    + intros p Hp. apply elem_of_seq in Hp. rewrite lookup_total_app_l by lia. reflexivity.
  - assert (E : (l ++ [x]) !!! length l = x).
    { rewrite lookup_total_app_r by lia. rewrite Nat.sub_diag. reflexivity. }
    destruct (decide (P x)) as [Hx|Hx].
    + rewrite filter_cons_True by (rewrite E; exact Hx). simpl. rewrite E.
      rewrite filter_cons_True by exact Hx. reflexivity.
    + rewrite filter_cons_False by (rewrite E; exact Hx). simpl.
      rewrite filter_cons_False by exact Hx. reflexivity.
Qed.

End Lookups.

Section WarpSelect.

(** [mvd[p]] is not the mark of a discarded sample. *)
Definition keptpos (mvd : list Z) (p : nat) : Prop := idx mvd (Z.of_nat p) <> -1.

#[local] Instance keptpos_dec mvd p : Decision (keptpos mvd p).
Proof. unfold keptpos. apply _. Defined.

(** The positions of the window [[i, j1)] that hold a kept sample. *)
Definition window_kept (mvd : list Z) (i j1 : nat) : list nat :=
  filter (keptpos mvd) (seq i (j1 - i)).

(** The samples gathered so far: those of the positions below [i], then
    the kept samples of the window. *)
Definition gathered (mvd : list Z) (pts : list Sample) (i j1 : nat) : list Sample :=
  map (fun p => pts !!! p) (seq 0 i ++ window_kept mvd i j1).

Lemma scan_discarded_spec fuel mvd i :
  let i' := scan_discarded fuel mvd i in
  i <= i' <= i + Z.of_nat fuel /\
  (forall p, i <= p < i' -> idx mvd p <> -1) /\
  (i' < i + Z.of_nat fuel -> idx mvd i' = -1).
Proof.
  revert i. induction fuel as [|fuel IH]; intros i; cbn [scan_discarded].
  - cbv zeta. split; [lia | split; intros; lia].
  - destruct (Z.eqb_spec (idx mvd i) (-1)) as [E|E].
    + cbv zeta. split; [lia | split; [intros p Hp; lia | intros _; exact E]].
    + specialize (IH (i + 1)). cbv zeta in IH. destruct IH as (H1 & H2 & H3).
      cbv zeta. split; [lia | split].
      * intros p Hp. destruct (Z.eq_dec p i) as [->|Hne]; [exact E | apply H2; lia].
      * intros Hlt. apply H3. lia.
Qed.

Lemma scan_kept_spec fuel mvd j :
  let j' := scan_kept fuel mvd j in
  j - Z.of_nat fuel <= j' <= j /\
  (forall p, j' < p <= j -> idx mvd p = -1) /\
  (j - Z.of_nat fuel < j' -> idx mvd j' <> -1).
Proof.
  revert j. induction fuel as [|fuel IH]; intros j; cbn [scan_kept].
  - cbv zeta. split; [lia | split; intros; lia].
  - destruct (Z.eqb_spec (idx mvd j) (-1)) as [E|E].
    + specialize (IH (j - 1)). cbv zeta in IH. destruct IH as (H1 & H2 & H3).
      cbv zeta. split; [lia | split].
      * intros p Hp. destruct (Z.eq_dec p j) as [->|Hne]; [exact E | apply H2; lia].
      * intros Hlt. apply H3. lia.
    + cbv zeta. split; [lia | split; [intros p Hp; lia | intros _; exact E]].
Qed.

Lemma idx_upd_other (l : list Z) (a : nat) (v : Z) (p : nat) :
  p <> a -> idx (upd l (Z.of_nat a) v) (Z.of_nat p) = idx l (Z.of_nat p).
Proof.
  intros Hne. unfold idx, upd. rewrite !Nat2Z.id.
  rewrite !nth_lookup. rewrite list_lookup_insert_ne by congruence. reflexivity.
Qed.

(** The window between two positions [a < b] of it. *)
Lemma window_split (i a b j1 : nat) :
  (i <= a)%nat -> (a < b)%nat -> (b < j1)%nat ->
  seq i (j1 - i) =
    seq i (a - i) ++ [a] ++ seq (S a) (b - S a) ++ [b] ++ seq (S b) (j1 - S b).
Proof.
  intros H1 H2 H3.
  replace (j1 - i)%nat with ((a - i) + (1 + ((b - S a) + (1 + (j1 - S b)))))%nat by lia.
  rewrite !seq_app. cbn [seq app].
  replace (i + (a - i))%nat with a by lia.
  replace (a + 1)%nat with (S a) by lia.
  replace (S a + (b - S a))%nat with b by lia.
  replace (b + 1)%nat with (S b) by lia.
  reflexivity.
Qed.


(** The invariant of the compaction loop: whatever remains to be done, the
    result starts with a rearrangement of the samples gathered so far. *)
Lemma compact_gathered todo :
  forall (i j1 : nat) (mvd : list Z) (pts : list Sample),
    (i <= j1)%nat -> (j1 <= length pts)%nat -> length mvd = length pts ->
    (j1 - i <= todo + length (window_kept mvd i j1))%nat ->
    let r := snd (compact todo (Z.of_nat i) (Z.of_nat j1 - 1) mvd pts) in
    length r = length pts /\
    take (i + length (window_kept mvd i j1)) r ≡ₚ gathered mvd pts i j1.
Proof.
  induction todo as [|todo IH]; intros i j1 mvd pts Hi Hj Hlen Htodo; cbn [compact].
  - cbv zeta. cbn [snd]. split; [reflexivity|].
    assert (E : window_kept mvd i j1 = seq i (j1 - i)).
    { apply filter_full. rewrite length_seq. exact Htodo. }
    unfold gathered. rewrite E, length_seq, <- seq_app.
    replace (i + (j1 - i))%nat with j1 by lia.
    rewrite take_by_position by lia. reflexivity.
  - pose proof (scan_discarded_spec (length mvd) mvd (Z.of_nat i)) as Hd.
    pose proof (scan_kept_spec (length mvd) mvd (Z.of_nat j1 - 1)) as Hk.
    cbv zeta in Hd, Hk. cbv zeta.
    set (i' := scan_discarded (length mvd) mvd (Z.of_nat i)) in *.
    set (j' := scan_kept (length mvd) mvd (Z.of_nat j1 - 1)) in *.
    destruct Hd as (Hd1 & Hd2 & Hd3). destruct Hk as (Hk1 & Hk2 & Hk3).
    destruct (Z.gtb_spec i' j') as [Hgt|Hle].
    + (* [if (i > j) break;] *)
      cbn [snd]. split; [reflexivity|].
      set (c := Z.to_nat (j' + 1 - Z.of_nat i)).
      assert (E : window_kept mvd i j1 = seq i c).
      { unfold window_kept. replace (j1 - i)%nat with (c + (j1 - i - c))%nat by lia.
        rewrite seq_app, filter_app, filter_all, filter_none; [apply app_nil_r | |].
        - apply Forall_forall. intros p Hp. apply elem_of_seq in Hp.
          unfold keptpos. intros Hkp. apply Hkp, Hk2. lia.
        - apply Forall_forall. intros p Hp. apply elem_of_seq in Hp.
          unfold keptpos. apply Hd2. lia. }
      unfold gathered. rewrite E, length_seq, <- seq_app.
      rewrite take_by_position by lia. reflexivity.
    + (* the discarded sample at [i] is replaced by the kept one at [j] *)
      assert (Hdisc : idx mvd i' = -1) by (apply Hd3; lia).
      assert (Hkept : idx mvd j' <> -1) by (apply Hk3; lia).
      assert (Hne : i' <> j') by (intros E; apply Hkept; rewrite <- E; exact Hdisc).
      set (a := Z.to_nat i'). set (b := Z.to_nat j').
      assert (Ea : i' = Z.of_nat a) by lia. assert (Eb : j' = Z.of_nat b) by lia.
      assert (Hia : (i <= a)%nat) by lia. assert (Hab : (a < b)%nat) by lia.
      assert (Hbj : (b < j1)%nat) by lia.
      replace (i' + 1) with (Z.of_nat (S a)) by lia.
      replace (j' - 1) with (Z.of_nat b - 1) by lia.
      set (mvd' := upd mvd i' (idx mvd j')).
      set (pts' := <[a := pts !!! b]> pts).
      set (W := window_kept mvd (S a) b).
      assert (EW' : window_kept mvd' (S a) b = W).
      { unfold W, window_kept. apply filter_ext_in. intros p Hp. apply elem_of_seq in Hp.
        unfold keptpos, mvd'. rewrite Ea, idx_upd_other by lia. reflexivity. }
      assert (EW : window_kept mvd i j1 = seq i (a - i) ++ W ++ [b]).
      { unfold window_kept. rewrite (window_split i a b j1) by assumption.
        rewrite !filter_app.
        rewrite (filter_all _ (seq i (a - i))).
        2:{ apply Forall_forall. intros p Hp. apply elem_of_seq in Hp.
            unfold keptpos. apply Hd2. lia. }
        rewrite (filter_none _ (seq (S b) (j1 - S b))).
        2:{ apply Forall_forall. intros p Hp. apply elem_of_seq in Hp.
            unfold keptpos. intros Hkp. apply Hkp, Hk2. lia. }
        rewrite (filter_cons_False _ a) by (unfold keptpos; rewrite <- Ea; intros H; apply H, Hdisc).
        rewrite (filter_cons_True _ b) by (unfold keptpos; rewrite <- Eb; exact Hkept).
        rewrite !filter_nil, app_nil_r. reflexivity. }
      destruct (IH (S a) b mvd' pts') as [L1 L2].
      { lia. }
      { unfold pts'. rewrite length_insert. lia. }
      { unfold mvd', pts', upd. rewrite !length_insert. exact Hlen. }
      { rewrite EW'. rewrite EW, !length_app, length_seq in Htodo. cbn [length] in Htodo.
        fold W in Htodo. lia. }
      cbv zeta in L1, L2. split.
      { rewrite L1. unfold pts'. apply length_insert. }
      rewrite EW' in L2. rewrite EW, !length_app, length_seq. cbn [length].
      replace (i + (a - i + (length W + 1)))%nat with (S a + length W)%nat by lia.
      rewrite L2. unfold gathered. rewrite EW', EW.
      rewrite seq_S, !map_app. cbn [map app Nat.add].
      rewrite (app_assoc (map _ (seq 0 i))), <- map_app, <- seq_app.
      replace (i + (a - i))%nat with a by lia.
      assert (E1 : map (fun p => pts' !!! p) (seq 0 a) = map (fun p => pts !!! p) (seq 0 a)).
      { apply map_ext_in. intros p Hp. apply in_seq in Hp.
        unfold pts'. apply list_lookup_total_insert_ne. lia. }
      assert (E2 : map (fun p => pts' !!! p) W = map (fun p => pts !!! p) W).
      { apply map_ext_in. intros p Hp. apply list_elem_of_In, list_elem_of_filter in Hp.
        destruct Hp as [_ Hp]. apply elem_of_seq in Hp.
        unfold pts'. apply list_lookup_total_insert_ne. lia. }
      assert (E3 : pts' !!! a = pts !!! b).
      { unfold pts'. apply list_lookup_total_insert_eq. lia. }
      rewrite E1, E2, E3. rewrite <- !app_assoc. apply Permutation_app_head.
      apply Permutation_app_comm.
Qed.


Lemma sample_mvd_nonneg mv0 s : 0 <= sample_mvd mv0 s.
Proof. unfold sample_mvd. lia. Qed.

Lemma idx_total (l : list Z) (p : nat) : (p < length l)%nat -> idx l (Z.of_nat p) = l !!! p.
Proof.
  intros Hp. unfold idx. rewrite Nat2Z.id, nth_lookup.
  destruct (lookup_lt_is_Some_2 l p Hp) as [x Hx].
  rewrite (list_lookup_total_correct l p x Hx), Hx. reflexivity.
Qed.

Lemma length_mark_mvd thresh mv0 pts : length (mark_mvd thresh mv0 pts) = length pts.
Proof. unfold mark_mvd. apply length_map. Qed.

(** A position is marked as kept exactly when its sample is within the
    threshold. *)
Lemma mark_mvd_kept thresh mv0 pts (p : nat) :
  (p < length pts)%nat ->
  keptpos (mark_mvd thresh mv0 pts) p <-> sample_mvd mv0 (pts !!! p) <= thresh.
Proof.
  intros Hp. unfold keptpos, mark_mvd, idx. rewrite Nat2Z.id, nth_lookup.
  destruct (lookup_lt_is_Some_2 pts p Hp) as [s Hs].
  rewrite list_lookup_fmap, Hs, (list_lookup_total_correct pts p s Hs). cbn.
  pose proof (sample_mvd_nonneg mv0 s).
  destruct (Z.gtb_spec (sample_mvd mv0 s) thresh); split; intros; lia.
Qed.

Lemma count_kept_window mvd :
  count_kept mvd = Z.of_nat (length (window_kept mvd 0 (length mvd))).
Proof.
  unfold count_kept, window_kept. f_equal.
  rewrite <- (filter_by_position (fun d => d <> -1) mvd), length_map, Nat.sub_0_r.
  f_equal. apply filter_ext_in. intros p Hp. apply elem_of_seq in Hp.
  unfold keptpos. rewrite idx_total by lia. reflexivity.
Qed.

Lemma gathered_all thresh mv0 pts :
  gathered (mark_mvd thresh mv0 pts) pts 0 (length pts) =
  filter (fun s => sample_mvd mv0 s <= thresh) pts.
Proof.
  unfold gathered, window_kept. cbn [seq app]. rewrite Nat.sub_0_r.
  rewrite <- (filter_by_position (fun s => sample_mvd mv0 s <= thresh) pts).
  f_equal. apply filter_ext_in. intros p Hp. apply elem_of_seq in Hp.
  apply mark_mvd_kept. lia.
Qed.

(** [select_samples]: the samples within the threshold come first, in some
    order, and [ret] counts them; when there is none, the samples are left
    as they are and [ret] is 1. *)
Lemma select_samples_spec thresh mv0 pts :
  let Q := filter (fun s => sample_mvd mv0 s <= thresh) pts in
  let sel := select_samples thresh mv0 pts in
  length (fst sel) = length pts /\
  (Q = [] -> sel = (pts, 1)) /\
  (Q <> [] -> snd sel = Z.of_nat (length Q) /\ take (length Q) (fst sel) ≡ₚ Q).
Proof.
  intros Q sel. subst sel. unfold select_samples.
  set (mvd := mark_mvd thresh mv0 pts).
  assert (Hlen : length mvd = length pts) by apply length_mark_mvd.
  assert (Hret : count_kept mvd = Z.of_nat (length Q)).
  { rewrite count_kept_window, Hlen. f_equal. subst Q.
    rewrite <- gathered_all. unfold gathered. cbn [seq app]. rewrite length_map. reflexivity. }
  rewrite Hret.
  destruct (Z.eqb_spec (Z.of_nat (length Q)) 0) as [E|E].
  - assert (HQ : Q = []) by (destruct Q; [reflexivity | discriminate]).
    cbn [fst snd]. split; [reflexivity | split; [reflexivity | contradiction]].
  - cbn [fst snd].
    assert (HK : length (window_kept mvd 0 (length pts)) = length Q).
    { rewrite <- Hlen. apply Nat2Z.inj. rewrite <- count_kept_window. exact Hret. }
    destruct (compact_gathered (Z.to_nat (Z.of_nat (length pts) - Z.of_nat (length Q)))
                0 (length pts) mvd pts) as [L1 L2].
    { lia. }
    { lia. }
    { exact Hlen. }
    { rewrite HK. pose proof (length_filter (fun s => sample_mvd mv0 s <= thresh) pts).
      fold Q in H. lia. }
    cbv zeta in L1, L2. change (Z.of_nat 0) with 0 in L1, L2.
    rewrite HK in L2. cbn [Nat.add] in L2.
    split; [exact L1 | split].
    + intros HQ. rewrite HQ in E. contradiction E. reflexivity.
    + intros _. split; [reflexivity|]. rewrite L2. unfold mvd. rewrite gathered_all.
      reflexivity.
Qed.

End WarpSelect.

(** C5. [derive_warpmv]: with [thresh = 4 * iclip(imax(bw4, bh4), 4, 28)],
    a candidate sample [pts[i]] is within the threshold when
    [|pts[i][1][0] - pts[i][0][0] - mv.x| + |pts[i][1][1] - pts[i][0][1] - mv.y|]
    is at most [thresh].  The samples handed to [find_affine_int] start with
    the candidates within the threshold (all of them, in some order), and
    [ret] is their number; when no sample is within the threshold the
    samples are handed over as they are with [ret = 1].  The type it stores
    is [WM_TYPE_AFFINE] exactly when [find_affine_int] and then
    [get_shear_params] both return 0, and [WM_TYPE_IDENTITY] in every other
    case. *)
Theorem derive_warpmv_selects_and_types {Msac Ext : Type} (X : Externals Msac Ext)
    (f : Frame) (t : Tile Msac Ext) (bw4 bh4 : Z) (masks : Z * Z) (mv0 : mv)
    (wmp : WarpedMotionParams) :
  let pts := warp_samples X f t bw4 bh4 masks in
  let thresh := 4 * iclip (imax bw4 bh4) 4 28 in
  let Q := filter (fun s => Z.abs (s_out_x s - s_in_x s - mv_x mv0) +
                            Z.abs (s_out_y s - s_in_y s - mv_y mv0) <= thresh) pts in
  let sel := select_samples thresh mv0 pts in
  let fit := find_affine_int X (fst sel) (snd sel) bw4 bh4 mv0 wmp (t_bx t) (t_by t) in
  let shear := get_shear_params X (snd fit) in
  let out := derive_warpmv X f t bw4 bh4 masks mv0 wmp in
  (Q = [] -> sel = (pts, 1)) /\
  (Q <> [] -> snd sel = Z.of_nat (length Q) /\ take (length Q) (fst sel) ≡ₚ Q) /\
  (wm_type out = WM_TYPE_AFFINE <-> fst fit = 0 /\ fst shear = 0) /\
  (~ (fst fit = 0 /\ fst shear = 0) -> wm_type out = WM_TYPE_IDENTITY) /\
  (fst fit = 0 -> fst shear = 0 -> out = set_wm_type WM_TYPE_AFFINE (snd shear)).
Proof.
  intros pts thresh Q sel fit shear out.
  destruct (select_samples_spec thresh mv0 pts) as (_ & Hnone & Hsome).
  split; [exact Hnone | split; [exact Hsome |]].
  assert (Hout : out = if fst fit =? 0
                       then if fst shear =? 0
                            then set_wm_type WM_TYPE_AFFINE (snd shear)
                            else set_wm_type WM_TYPE_IDENTITY (snd shear)
                       else set_wm_type WM_TYPE_IDENTITY (snd fit)).
  { subst out shear fit sel thresh pts. unfold derive_warpmv, warp_thresh.
    destruct (select_samples _ mv0 _) as [pts' ret_]. cbn [fst snd].
    destruct (find_affine_int X pts' ret_ bw4 bh4 mv0 wmp (t_bx t) (t_by t)) as [r1 wmp1].
    cbn [fst snd]. destruct (r1 =? 0); [|reflexivity].
    destruct (get_shear_params X wmp1) as [r2 wmp2]. reflexivity. }
  rewrite Hout.
  destruct (Z.eqb_spec (fst fit) 0) as [E1|E1];
    [destruct (Z.eqb_spec (fst shear) 0) as [E2|E2]|]; cbn [wm_type set_wm_type].
  - split; [split; [intros _; split; assumption | intros _; reflexivity] | split].
    + intros H. exfalso. apply H. split; assumption.
    + intros _ _. reflexivity.
  - split; [split; [discriminate | intros [_ H]; contradiction] | split].
    + intros _. reflexivity.
    + intros _ H. contradiction.
  - split; [split; [discriminate | intros [H _]; contradiction] | split].
    + intros _. reflexivity.
    + intros H. contradiction.
Qed.

(** Three candidates: the first neighbour above the block moves 100 units
    away from the block and is over the threshold 16, the second one above
    and the one to the left are within it.  The discarded sample is
    overwritten by the last one, two samples are handed over, and the type
    is affine when both solvers succeed and the identity when the fit,
    asking for three samples, fails.  Against a block vector 1000 units
    away no candidate is within the threshold: the samples are handed over
    as they are, with [ret = 1]. *)
Lemma derive_warpmv_selects_and_types_witness :
  let f := Example.frame DAV1D_PIXEL_LAYOUT_I420 0 1 in
  let t := Example.warp_tile (mk_mv 0 100) (mk_mv 1 1) (mk_mv (-3) 0) in
  let top0 := mk_sample 24 (-40) 124 (-40) in
  let top2 := mk_sample 88 (-40) 89 (-39) in
  let left := mk_sample (-72) 56 (-72) 53 in
  let pts := warp_samples Example.externals f t 4 4 (5, 1) in
  let sel := select_samples 16 (mk_mv 0 0) pts in
  let lax := Example.with_solvers (Example.fit_needs 2) (fun w => (0, w)) in
  let strict := Example.with_solvers (Example.fit_needs 3) (fun w => (0, w)) in
  pts = [top0; top2; left] /\
  (snd sel = 2 /\ take 2 (fst sel) ≡ₚ [top2; left]) /\
  select_samples 16 (mk_mv 0 1000) pts = (pts, 1) /\
  wm_type (derive_warpmv lax f t 4 4 (5, 1) (mk_mv 0 0) (mk_wmp 0 [] [])) = WM_TYPE_AFFINE /\
  wm_type (derive_warpmv strict f t 4 4 (5, 1) (mk_mv 0 0) (mk_wmp 0 [] []))
    = WM_TYPE_IDENTITY.
Proof.
  intros f t top0 top2 left pts sel lax strict.
  split; [reflexivity | split; [|split; [|split]]].
  - apply (proj1 (proj2
             (derive_warpmv_selects_and_types Example.externals f t 4 4 (5, 1)
                (mk_mv 0 0) (mk_wmp 0 [] [])))).
    discriminate.
  - apply (proj1
             (derive_warpmv_selects_and_types Example.externals f t 4 4 (5, 1)
                (mk_mv 0 1000) (mk_wmp 0 [] []))).
    reflexivity.
  - apply (proj2 (proj1 (proj2 (proj2
             (derive_warpmv_selects_and_types lax f t 4 4 (5, 1)
                (mk_mv 0 0) (mk_wmp 0 [] [])))))).
    split; reflexivity.
  - apply (proj1 (proj2 (proj2 (proj2
             (derive_warpmv_selects_and_types strict f t 4 4 (5, 1)
                (mk_mv 0 0) (mk_wmp 0 [] [])))))).
    intros [H _]. discriminate H.
Defined.

(** ** C7: the luma palette *)

(** An 8-bit block whose first new palette entry is 255: the second entry
    is clipped to 255 as well, so the two entries of the palette are
    equal. *)
Lemma pal_not_strictly_increasing_counterexample :
  let f := Example.frame DAV1D_PIXEL_LAYOUT_I420 0 0 in
  let t' := exec (read_pal_plane Example.externals f 0 0 0 0) (Example.tile [0; 255; 0; 0]) in
  b_pal_sz0 (t_blk t') = 2 /\
  idx (load_pal f 0 t') 0 = 255 /\ idx (load_pal f 0 t') 1 = 255 /\
  ~ (idx (load_pal f 0 t') 0 < idx (load_pal f 0 t') 1).
Proof.
  intros f t'.
  assert (E0 : idx (load_pal f 0 t') 0 = 255) by (vm_compute; reflexivity).
  assert (E1 : idx (load_pal f 0 t') 1 = 255) by (vm_compute; reflexivity).
  split; [vm_compute; reflexivity|]. rewrite E0, E1. repeat split; lia.
Qed.

Section PaletteOrder.

(** The entries [a .. b - 1] of an array do not decrease. *)
Definition sorted_range (l : list Z) (a b : Z) : Prop :=
  forall i j, a <= i -> i <= j -> j < b -> idx l i <= idx l j.

Lemma idx_upd (l : list Z) (i v p : Z) :
  0 <= i < Z.of_nat (length l) -> 0 <= p ->
  idx (upd l i v) p = if p =? i then v else idx l p.
Proof.
  intros Hi Hp. rewrite !idx_lookup. unfold upd.
  destruct (Z.eqb_spec p i) as [->|Hne].
  - rewrite list_lookup_insert_eq by lia. reflexivity.
  - rewrite list_lookup_insert_ne by lia. reflexivity.
Qed.

Lemma length_upd (l : list Z) (i v : Z) : length (upd l i v) = length l.
Proof. unfold upd. apply length_insert. Qed.

(** "merge cache+new entries": the new entries, sorted, are at
    [m .. pal_sz - 1]; the reused ones, sorted, in [used]; what has been
    merged, at [0 .. i - 1], is below both. *)
Lemma pal_merge_sorted fuel :
  forall pal_sz n_used used i n m pal,
    0 <= n -> n <= n_used -> n_used <= m -> m <= pal_sz -> i = n + (m - n_used) ->
    pal_sz <= Z.of_nat (length pal) -> pal_sz - i <= Z.of_nat fuel ->
    sorted_range used 0 n_used -> sorted_range pal m pal_sz -> sorted_range pal 0 i ->
    (forall p, 0 <= p < i -> n < n_used -> idx pal p <= idx used n) ->
    (forall p, 0 <= p < i -> m < pal_sz -> idx pal p <= idx pal m) ->
    sorted_range (pal_merge fuel pal_sz n_used used i n m pal) 0 pal_sz.
Proof.
  induction fuel as [|fuel IH];
    intros pal_sz n_used used i n m pal Hn Hnu Hm Hmp Hi Hlen Hfuel Hused Hnew Hpre Hpu Hpn;
    cbn [pal_merge].
  - assert (i = pal_sz) by lia. subst pal_sz. exact Hpre.
  - destruct (Z.ltb_spec i pal_sz) as [Hlt|Hge].
    2:{ assert (i = pal_sz) by lia. subst pal_sz. exact Hpre. }
    destruct ((n <? n_used) && ((m >=? pal_sz) || (idx used n <=? idx pal m))) eqn:Hc.
    + apply andb_true_iff in Hc. destruct Hc as [Hc1 Hc2].
      apply Z.ltb_lt in Hc1.
      assert (Hord : m < pal_sz -> idx used n <= idx pal m).
      { intros Hmlt. apply orb_true_iff in Hc2. destruct Hc2 as [Hc2|Hc2].
        - destruct (Z.geb_spec m pal_sz); [lia | discriminate].
        - apply Z.leb_le. exact Hc2. }
      assert (Hupd : forall p, 0 <= p ->
                idx (upd pal i (idx used n)) p = if p =? i then idx used n else idx pal p).
      { intros p Hp. apply idx_upd; lia. }
      apply IH; try lia.
      * rewrite length_upd. exact Hlen.
      * exact Hused.
      * intros p q Hp Hpq Hq. rewrite !Hupd by lia.
        destruct (Z.eqb_spec p i); [lia|]. destruct (Z.eqb_spec q i); [lia|].
        apply Hnew; lia.
      * intros p q Hp Hpq Hq. rewrite !Hupd by lia.
        destruct (Z.eqb_spec p i); destruct (Z.eqb_spec q i); try lia.
        -- apply Hpu; lia.
        -- apply Hpre; lia.
      * intros p Hp Hn1. rewrite Hupd by lia.
        assert (idx used n <= idx used (n + 1)) by (apply Hused; lia).
        destruct (Z.eqb_spec p i); [lia|].
        assert (idx pal p <= idx used n) by (apply Hpu; lia). lia.
      * intros p Hp Hm1. rewrite !Hupd by lia.
        destruct (Z.eqb_spec m i); [lia|].
        destruct (Z.eqb_spec p i); [apply Hord; lia | apply Hpn; lia].
    + assert (Hm1 : m < pal_sz).
      { destruct (Z.ltb_spec n n_used) as [Hn1|Hn1]; [|lia].
        cbn [andb] in Hc. apply orb_false_iff in Hc. destruct Hc as [Hc _].
        destruct (Z.geb_spec m pal_sz); [discriminate | lia]. }
      assert (Hord : n < n_used -> idx pal m < idx used n).
      { intros Hn1. destruct (Z.ltb_spec n n_used) as [_|Hn2]; [|lia].
        cbn [andb] in Hc. apply orb_false_iff in Hc. destruct Hc as [_ Hc].
        apply Z.leb_gt in Hc. exact Hc. }
      assert (Hupd : forall p, 0 <= p ->
                idx (upd pal i (idx pal m)) p = if p =? i then idx pal m else idx pal p).
      { intros p Hp. apply idx_upd; lia. }
      apply IH; try lia.
      * rewrite length_upd. exact Hlen.
      * exact Hused.
      * intros p q Hp Hpq Hq. rewrite !Hupd by lia.
        destruct (Z.eqb_spec p i); [lia|]. destruct (Z.eqb_spec q i); [lia|].
        apply Hnew; lia.
      * intros p q Hp Hpq Hq. rewrite !Hupd by lia.
        destruct (Z.eqb_spec p i); destruct (Z.eqb_spec q i); try lia.
        -- apply Hpn; lia.
        -- apply Hpre; lia.
      * intros p Hp Hn1. rewrite Hupd by lia.
        destruct (Z.eqb_spec p i); [specialize (Hord Hn1); lia | apply Hpu; lia].
      * intros p Hp Hm2. rewrite !Hupd by lia.
        assert (idx pal m <= idx pal (m + 1)) by (apply Hnew; lia).
        destruct (Z.eqb_spec (m + 1) i); [lia|].
        destruct (Z.eqb_spec p i); [lia|].
        assert (idx pal p <= idx pal m) by (apply Hpn; lia). lia.
Qed.

End PaletteOrder.

Section PaletteCache.

Lemma idx_nil i : idx [] i = 0.
Proof. unfold idx. destruct (Z.to_nat i); reflexivity. Qed.

Lemma idx_tail (l : list Z) (i : Z) : 0 <= i -> idx (tail l) i = idx l (i + 1).
Proof.
  intros Hi. unfold idx. replace (Z.to_nat (i + 1)) with (S (Z.to_nat i)) by lia.
  destruct l as [|x l]; [destruct (Z.to_nat i); reflexivity | reflexivity].
Qed.

Lemma sorted_range_tail (l : list Z) (k : Z) :
  sorted_range l 0 k -> sorted_range (tail l) 0 (k - 1).
Proof.
  intros H i j Hi Hij Hj. rewrite !idx_tail by lia. apply H; lia.
Qed.

(** A sorted list, by position. *)
Lemma sorted_by_position (l : list Z) :
  StronglySorted Z.le l -> sorted_range l 0 (Z.of_nat (length l)).
Proof.
  induction 1 as [|x l Hs IH Hx]; intros i j Hi Hij Hj.
  - cbn [length] in Hj. lia.
  - cbn [length] in Hj. unfold idx.
    destruct (Z.to_nat i) as [|i'] eqn:Ei; destruct (Z.to_nat j) as [|j'] eqn:Ej;
      cbn [nth]; try lia.
    + rewrite Forall_forall in Hx. apply Hx. apply list_elem_of_In, nth_In. lia.
    + specialize (IH (Z.of_nat i') (Z.of_nat j')). unfold idx in IH.
      rewrite !Nat2Z.id in IH. apply IH; lia.
Qed.

(** [cache_push] keeps the cache sorted when the value is above it. *)
Lemma cache_push_sorted (cache : list Z) (v w : Z) :
  StronglySorted Z.le cache -> Forall (fun x => x <= v) cache -> v <= w ->
  StronglySorted Z.le (cache_push cache v) /\
  Forall (fun x => x <= w) (cache_push cache v).
Proof.
  intros Hs Hb Hvw.
  assert (Hb' : Forall (fun x => x <= w) cache).
  { eapply Forall_impl; [exact Hb | intros x Hx; cbv beta in *; lia]. }
  assert (Happ : StronglySorted Z.le (cache ++ [v]) /\ Forall (fun x => x <= w) (cache ++ [v])).
  { split.
    - apply StronglySorted_app_2; [| exact Hs | repeat constructor].
      intros x1 x2 H1 H2. apply list_elem_of_singleton in H2. subst x2.
      rewrite Forall_forall in Hb. apply Hb, H1.
    - apply Forall_app. split; [exact Hb' | repeat constructor; exact Hvw]. }
  unfold cache_push. destruct (last cache) as [u|]; [|exact Happ].
  destruct (u =? v); [split; assumption | exact Happ].
Qed.

Lemma cache_merge_inv fuel :
  forall lc ac l a cache,
    0 <= lc -> 0 <= ac -> sorted_range l 0 lc -> sorted_range a 0 ac ->
    StronglySorted Z.le cache ->
    (0 < lc -> Forall (fun x => x <= idx l 0) cache) ->
    (0 < ac -> Forall (fun x => x <= idx a 0) cache) ->
    let '(lc', ac', l', a', cache') := cache_merge fuel lc ac l a cache in
    0 <= lc' /\ 0 <= ac' /\ sorted_range l' 0 lc' /\ sorted_range a' 0 ac' /\
    StronglySorted Z.le cache' /\
    (0 < lc' -> Forall (fun x => x <= idx l' 0) cache') /\
    (0 < ac' -> Forall (fun x => x <= idx a' 0) cache').
Proof.
  induction fuel as [|fuel IH]; intros lc ac l a cache Hlc Hac Hl Ha Hs Hbl Hba;
    cbn [cache_merge].
  - repeat split; assumption.
  - destruct (truthy lc && truthy ac) eqn:Hc; [|repeat split; assumption].
    apply andb_true_iff in Hc. destruct Hc as [Hc1 Hc2].
    assert (Hlc1 : 0 < lc).
    { unfold truthy in Hc1. destruct (Z.eqb_spec lc 0); [discriminate | lia]. }
    assert (Hac1 : 0 < ac).
    { unfold truthy in Hc2. destruct (Z.eqb_spec ac 0); [discriminate | lia]. }
    specialize (Hbl Hlc1). specialize (Hba Hac1).
    destruct (Z.ltb_spec (idx l 0) (idx a 0)) as [Hlt|Hge].
    + (* the left entry is the smaller one *)
      apply IH; try lia.
      * apply sorted_range_tail, Hl.
      * exact Ha.
      * apply (cache_push_sorted cache (idx l 0) (idx l 0)); [assumption | assumption | lia].
      * intros Hlc2. rewrite idx_tail by lia.
        apply (cache_push_sorted cache (idx l 0)); [assumption | assumption |].
        apply Hl; lia.
      * intros _. apply (cache_push_sorted cache (idx l 0)); [assumption | assumption | lia].
    + destruct (Z.eqb_spec (idx a 0) (idx l 0)) as [Heq|Hne].
      * (* equal entries: both are consumed *)
        apply IH; try lia.
        -- apply sorted_range_tail, Hl.
        -- apply sorted_range_tail, Ha.
        -- apply (cache_push_sorted cache (idx a 0) (idx a 0)); [assumption | assumption | lia].
        -- intros Hlc2. rewrite idx_tail by lia.
           apply (cache_push_sorted cache (idx a 0)); [assumption | assumption |].
           rewrite Heq. apply Hl; lia.
        -- intros Hac2. rewrite idx_tail by lia.
           apply (cache_push_sorted cache (idx a 0)); [assumption | assumption |].
           apply Ha; lia.
      * apply IH; try lia.
        -- exact Hl.
        -- apply sorted_range_tail, Ha.
        -- apply (cache_push_sorted cache (idx a 0) (idx a 0)); [assumption | assumption | lia].
        -- intros _. apply (cache_push_sorted cache (idx a 0)); [assumption | assumption | lia].
        -- intros Hac2. rewrite idx_tail by lia.
           apply (cache_push_sorted cache (idx a 0)); [assumption | assumption |].
           apply Ha; lia.
Qed.

Lemma cache_rest_sorted fuel :
  forall n p cache,
    StronglySorted Z.le cache -> Forall (fun x => x <= idx p 0) cache ->
    sorted_range p 0 n ->
    StronglySorted Z.le (cache_rest fuel n p cache).
Proof.
  induction fuel as [|fuel IH]; intros n p cache Hs Hb Hp; cbn [cache_rest].
  - exact Hs.
  - cbv zeta. destruct (Z.gtb_spec (n - 1) 0) as [Hn|Hn].
    + apply IH.
      * apply (cache_push_sorted cache (idx p 0) (idx p 0)); [assumption | assumption | lia].
      * rewrite idx_tail by lia.
        apply (cache_push_sorted cache (idx p 0)); [assumption | assumption |].
        apply Hp; lia.
      * apply sorted_range_tail, Hp.
    + apply (cache_push_sorted cache (idx p 0) (idx p 0)); [assumption | assumption | lia].
Qed.

(** "fill/sort cache": the cache of two sorted palettes is sorted. *)
Lemma pal_cache_sorted lc ac l a :
  0 <= lc -> 0 <= ac -> sorted_range l 0 lc -> sorted_range a 0 ac ->
  StronglySorted Z.le (pal_cache lc ac l a).
Proof.
  intros Hlc Hac Hl Ha. unfold pal_cache.
  pose proof (cache_merge_inv (Z.to_nat lc + Z.to_nat ac) lc ac l a [] Hlc Hac Hl Ha
                (SSorted_nil _) (fun _ => Forall_nil_2 _) (fun _ => Forall_nil_2 _)) as H.
  destruct (cache_merge _ lc ac l a []) as [[[[lc' ac'] l'] a'] cache'].
  destruct H as (H1 & H2 & H3 & H4 & H5 & H6 & H7).
  destruct (truthy lc') eqn:E1.
  - apply cache_rest_sorted with (n := lc'); [exact H5 | | exact H3].
    apply H6. unfold truthy in E1. destruct (Z.eqb_spec lc' 0); [discriminate | lia].
  - destruct (truthy ac') eqn:E2; [|exact H5].
    apply cache_rest_sorted with (n := ac'); [exact H5 | | exact H4].
    apply H7. unfold truthy in E2. destruct (Z.eqb_spec ac' 0); [discriminate | lia].
Qed.

End PaletteCache.

Section PaletteEntries.

Context {Msac Ext : Type}.
Variable X : Externals Msac Ext.

Local Abbreviation State := (Tile Msac Ext).

Lemma eval_decode_bools n (t : State) :
  eval (decode_bools X n) t = fst (msac_decode_bools X (ts_msac t) n).
Proof. unfold eval, decode_bools. destruct (msac_decode_bools X _ _). reflexivity. Qed.

Lemma eval_symbol_adapt c n (t : State) :
  eval (symbol_adapt X c n) t = fst (msac_decode_symbol_adapt X (ts_msac t) c n).
Proof. unfold eval, symbol_adapt. destruct (msac_decode_symbol_adapt X _ _ _). reflexivity. Qed.

(** "find reused cache entries": what is picked from a sorted cache is
    sorted, and no more than [pal_sz] entries are picked. *)
Lemma used_cache_scan_sorted pal_sz cache :
  forall used (t : State),
    StronglySorted Z.le (used ++ cache) ->
    Z.of_nat (length used) <= pal_sz ->
    let r := eval (used_cache_scan X pal_sz cache used) t in
    StronglySorted Z.le r /\ Z.of_nat (length r) <= pal_sz.
Proof.
  induction cache as [|c cache IH]; intros used t Hs Hlen; cbn [used_cache_scan].
  - rewrite app_nil_r in Hs. cbv zeta. rewrite eval_ret. split; assumption.
  - destruct (Z.ltb_spec (Z.of_nat (length used)) pal_sz) as [Hlt|Hge].
    + cbv zeta. rewrite eval_bind.
      destruct (truthy (eval (decode_bool X (Z.shiftl 128 7)) t)).
      * apply IH.
        -- rewrite <- app_assoc. exact Hs.
        -- rewrite length_app. cbn [length]. lia.
      * apply IH; [|exact Hlen].
        apply StronglySorted_app in Hs. destruct Hs as (H1 & H2 & H3).
        apply StronglySorted_app_2; [| exact H2 |].
        -- intros x1 x2 Hx1 Hx2. apply H1; [exact Hx1 | right; exact Hx2].
        -- apply StronglySorted_cons in H3. apply H3.
    + cbv zeta. rewrite eval_ret. split; [|exact Hlen].
      apply StronglySorted_app_1_l in Hs. exact Hs.
Qed.

(** [for (; i < pal_sz; i++) pal[i] = pal[i - 1];] *)
Lemma pal_fill_sorted fuel :
  forall i pal_sz pal a,
    0 <= a -> a < i -> i <= pal_sz -> pal_sz <= Z.of_nat (length pal) ->
    pal_sz - i <= Z.of_nat fuel -> sorted_range pal a i ->
    sorted_range (pal_fill fuel i pal_sz pal) a pal_sz /\
    length (pal_fill fuel i pal_sz pal) = length pal.
Proof.
  induction fuel as [|fuel IH]; intros i pal_sz pal a Ha Hai Hi Hlen Hfuel Hs;
    cbn [pal_fill].
  - assert (i = pal_sz) by lia. subst i. split; [exact Hs | reflexivity].
  - destruct (Z.ltb_spec i pal_sz) as [Hlt|Hge].
    2:{ assert (i = pal_sz) by lia. subst i. split; [exact Hs | reflexivity]. }
    destruct (IH (i + 1) pal_sz (upd pal i (idx pal (i - 1))) a) as [H1 H2]; try lia.
    + rewrite length_upd. exact Hlen.
    + intros p q Hp Hpq Hq. rewrite !idx_upd by lia.
      destruct (Z.eqb_spec p i); destruct (Z.eqb_spec q i); try lia.
      * apply Hs; lia.
      * apply Hs; lia.
    + split; [exact H1 | rewrite H2; apply length_upd].
Qed.

Hypothesis Hbools : forall m n, 0 <= n -> 0 <= fst (msac_decode_bools X m n) < 2 ^ n.

(** The entries after the first new one: each is the previous one plus a
    difference, clipped to [max]; the new entries do not decrease. *)
Lemma pal_deltas_sorted fuel :
  forall pal_sz max i prev bits pal a (t : State),
    0 <= a -> a < i -> i < pal_sz -> pal_sz <= Z.of_nat (length pal) ->
    pal_sz - i <= Z.of_nat fuel ->
    0 <= prev -> prev <= max -> max < 2 ^ 16 -> 0 <= bits ->
    idx pal (i - 1) = prev -> sorted_range pal a i ->
    let r := eval (pal_deltas X fuel 0 pal_sz max i prev bits pal) t in
    sorted_range r a pal_sz /\ length r = length pal.
Proof.
  induction fuel as [|fuel IH];
    intros pal_sz max i prev bits pal a t Ha Hai Hi Hlen Hfuel Hp0 Hpm Hmax Hbits Hprev Hs;
    cbn [pal_deltas]; [lia|].
  cbv zeta. rewrite eval_bind, eval_decode_bools.
  set (delta := fst (msac_decode_bools X (ts_msac t) bits)).
  assert (Hd : 0 <= delta) by (apply Hbools; exact Hbits).
  change (lnot 0) with 1.
  set (prev' := u16 (imin (prev + delta + 1) max)).
  assert (Hprev' : prev <= prev' <= max).
  { subst prev'. unfold imin. destruct (Z.ltb_spec (prev + delta + 1) max);
      unfold u16; rewrite Z.mod_small by lia; lia. }
  set (pal' := upd pal i prev').
  assert (Hs' : sorted_range pal' a (i + 1)).
  { intros p q Hp Hpq Hq. unfold pal'. rewrite !idx_upd by lia.
    destruct (Z.eqb_spec p i); destruct (Z.eqb_spec q i); try lia.
    - assert (idx pal p <= idx pal (i - 1)) by (apply Hs; lia). lia.
    - apply Hs; lia. }
  assert (Hlen' : length pal' = length pal) by apply length_upd.
  destruct (Z.geb_spec (prev' + 1) max) as [Hclip|Hmore].
  - rewrite eval_ret.
    destruct (pal_fill_sorted (Z.to_nat pal_sz) (i + 1) pal_sz pal' a) as [H1 H2]; try lia.
    + exact Hs'.
    + split; [exact H1 | rewrite H2; exact Hlen'].
  - destruct (Z.ltb_spec (i + 1) pal_sz) as [Hlt|Hge].
    + destruct (IH pal_sz max (i + 1) prev'
                  (imin bits (1 + ulog2 (max - prev' - 1))) pal' a
                  (exec (decode_bools X bits) t)) as [H1 H2]; try lia.
      * unfold imin, ulog2. pose proof (Z.log2_nonneg (max - prev' - 1)).
        destruct (_ <? _); lia.
      * replace (i + 1 - 1) with i by lia. unfold pal'. rewrite idx_upd by lia.
        rewrite Z.eqb_refl. reflexivity.
      * exact Hs'.
      * split; [exact H1 | rewrite H2; exact Hlen'].
    + rewrite eval_ret. assert (i + 1 = pal_sz) by lia. subst pal_sz.
      split; [exact Hs' | exact Hlen'].
Qed.

End PaletteEntries.

Section PalettePlane.

Context {Msac Ext : Type}.
Variable X : Externals Msac Ext.
Variable f : Frame.

Local Abbreviation State := (Tile Msac Ext).

(** The block record is as it was. *)
Definition blk_inv (t t' : State) : Prop := t_blk t' = t_blk t.

#[local] Instance blk_inv_preorder : PreOrder blk_inv.
Proof.
  split.
  - intros t. reflexivity.
  - intros t1 t2 t3 H1 H2. unfold blk_inv in *. congruence.
Qed.

Ltac side_blk := repeat case_match; reflexivity.
Ltac pres_blk := preserves_with side_blk ltac:(leaf_with side_blk).

Lemma used_cache_scan_blk pal_sz cache used :
  preserves blk_inv (used_cache_scan X pal_sz cache used).
Proof. revert used. induction cache as [|c cache IH]; intros used; simpl; pres_blk. Qed.

Lemma pal_deltas_blk fuel pl pal_sz max i prev bits pal :
  preserves blk_inv (pal_deltas X fuel pl pal_sz max i prev bits pal).
Proof.
  revert i prev bits pal.
  induction fuel as [|fuel IH]; intros i prev bits pal; simpl; pres_blk.
Qed.

Lemma load_store_pal pl (p : list Z) (t : State) :
  load_pal f pl (exec (store_pal f pl p) t) = pal8 p.
Proof.
  unfold load_pal, store_pal, exec, modify. cbn [snd].
  destruct (truthy (f_pass f)).
  - cbn [ft_pal set_ft_pal]. unfold ft_pal_slot. cbn [t_bx t_by set_ft_pal].
    unfold upd2. rewrite !Z.eqb_refl. reflexivity.
  - cbn [t_pal set_t_pal]. unfold upd1. rewrite Z.eqb_refl. reflexivity.
Qed.

Lemma pal8_length (p : list Z) : length (pal8 p) = 8%nat.
Proof. unfold pal8. rewrite length_take, length_app, length_replicate. lia. Qed.

Lemma pal8_id (p : list Z) : length p = 8%nat -> pal8 p = p.
Proof.
  intros H. unfold pal8. rewrite take_app_le by lia. apply take_ge. lia.
Qed.

Lemma length_pal_merge fuel :
  forall pal_sz n_used used i n m pal,
    length (pal_merge fuel pal_sz n_used used i n m pal) = length pal.
Proof.
  induction fuel as [|fuel IH]; intros pal_sz n_used used i n m pal; cbn [pal_merge];
    [reflexivity|].
  destruct (i <? pal_sz); [|reflexivity].
  destruct (_ && _); rewrite IH; apply length_upd.
Qed.

Lemma store_pal_blk pl p (t : State) : t_blk (exec (store_pal f pl p) t) = t_blk t.
Proof. unfold store_pal, exec, modify. cbn [snd]. destruct (truthy _); reflexivity. Qed.

Lemma idx_pal_copy (used pal : list Z) (p : Z) :
  0 <= p < Z.of_nat (length used) -> (length used <= length pal)%nat ->
  idx (pal_copy used pal) p = idx used p.
Proof.
  intros Hp Hlen. rewrite !idx_lookup. unfold pal_copy.
  rewrite list_lookup_inserts by lia. rewrite Nat.sub_0_r. reflexivity.
Qed.

Hypothesis Hsym : forall m c n, 0 < n -> 0 <= fst (msac_decode_symbol_adapt X m c n) < n.
Hypothesis Hbools : forall m n, 0 <= n -> 0 <= fst (msac_decode_bools X m n) < 2 ^ n.
Hypothesis Hbpc : 3 <= f_bpc f <= 16.

(** The palette of the luma plane: its size is the symbol plus 2, and its
    entries do not decrease when those of the neighbours do not. *)
Lemma read_pal_plane_luma sz_ctx bx4 by4 (t : State) :
  0 <= idx (t_l t PalSz) by4 ->
  sorted_range (t_al_pal t 1 by4 0) 0 (idx (t_l t PalSz) by4) ->
  0 <= idx (t_a t PalSz) bx4 ->
  sorted_range (t_al_pal t 0 bx4 0) 0 (idx (t_a t PalSz) bx4) ->
  let t' := exec (read_pal_plane X f 0 sz_ctx bx4 by4) t in
  let pal_sz := b_pal_sz0 (t_blk t') in
  pal_sz = 2 + eval (symbol_adapt X (cdf "m.pal_sz" [0; sz_ctx]) 7) t /\
  2 <= pal_sz <= 8 /\
  sorted_range (load_pal f 0 t') 0 pal_sz.
Proof.
  intros Hl0 Hl Ha0 Ha. cbv zeta.
  unfold read_pal_plane. change (0 =? 0) with true. cbv iota. change (truthy 0) with false.
  cbv iota.
  rewrite exec_bind. set (sym := eval (symbol_adapt X _ 7) t).
  set (t1 := exec (symbol_adapt X _ 7) t). cbv beta.
  rewrite exec_bind. set (t2 := exec (setb _) t1). cbv beta.
  unfold getb. rewrite exec_bind, exec_gets, eval_gets. cbv beta.
  set (pal_sz := b_pal_sz0 (t_blk t2)).
  rewrite exec_bind, exec_gets, eval_gets. cbv beta. set (l_cache := idx (t_l t2 PalSz) by4).
  rewrite exec_bind, exec_gets, eval_gets. cbv beta.
  set (a_cache := if truthy (Z.land by4 15) then idx (t_a t2 PalSz) bx4 else 0).
  rewrite exec_bind, exec_gets, eval_gets. cbv beta.
  rewrite exec_bind, exec_gets, eval_gets. cbv beta.
  set (cache := pal_cache _ _ _ _). cbv zeta.
  rewrite exec_bind. cbv beta.
  set (used := eval (used_cache_scan X pal_sz cache []) t2).
  set (t3 := exec (used_cache_scan X pal_sz cache []) t2).
  rewrite exec_bind, exec_gets, eval_gets. cbv beta.
  rewrite exec_bind. cbv beta.
  match goal with |- context [store_pal f 0 (eval ?m0 t3)] => set (m := m0) end.
  set (palF := eval m t3). set (tF := exec m t3).
  (* the states *)
  assert (Hsym' : 0 <= sym < 7).
  { subst sym. rewrite eval_symbol_adapt. apply Hsym. lia. }
  assert (Ht2 : t_l t2 = t_l t /\ t_a t2 = t_a t /\ t_al_pal t2 = t_al_pal t /\
                b_pal_sz0 (t_blk t2) = 2 + sym).
  { subst t2 t1. unfold exec, setb, modify, symbol_adapt.
    destruct (msac_decode_symbol_adapt X (ts_msac t) _ 7). cbn.
    repeat split. apply u8_small. lia. }
  destruct Ht2 as (El & Ea & Eal & Esz).
  assert (Epal : pal_sz = 2 + sym) by exact Esz.
  assert (Hblk : t_blk (exec (store_pal f 0 palF) tF) = t_blk t2).
  { rewrite store_pal_blk. subst tF t3.
    assert (Hm : preserves blk_inv m).
    { subst m. pose proof pal_deltas_blk. pres_blk. }
    rewrite (Hm _). apply used_cache_scan_blk. }
  rewrite Hblk. fold pal_sz. rewrite load_store_pal.
  split; [exact Epal | split; [lia|]].
  (* the cache *)
  assert (Hcache : StronglySorted Z.le cache).
  { subst cache l_cache a_cache. rewrite El, Ea, Eal.
    apply pal_cache_sorted; try assumption.
    - destruct (truthy _); [assumption | lia].
    - destruct (truthy _); [assumption | intros i j ? ? ?; lia]. }
  destruct (used_cache_scan_sorted X pal_sz cache [] t2) as [Hused Hnused].
  { exact Hcache. }
  { cbn [length]. lia. }
  fold used in Hused, Hnused.
  pose proof (sorted_by_position used Hused) as Hu.
  set (n_used := Z.of_nat (length used)) in *.
  assert (Hpal0 : length (load_pal f 0 t3) = 8%nat) by apply pal8_length.
  (* the new entries and the merge *)
  assert (HF : length palF = 8%nat /\ sorted_range palF 0 pal_sz).
  { subst palF m. destruct (Z.ltb_spec n_used pal_sz) as [Hlt|Hge].
    - rewrite eval_bind. cbv beta. rewrite eval_decode_bools.
      set (v := fst (msac_decode_bools X (ts_msac t3) (f_bpc f))).
      assert (Hv : 0 <= v < 2 ^ f_bpc f) by (apply Hbools; lia).
      assert (Hpow : 2 ^ f_bpc f <= 2 ^ 16) by (apply Z.pow_le_mono_r; lia).
      assert (Hu16 : u16 v = v) by (unfold u16; apply Z.mod_small; lia).
      rewrite Hu16.
      set (pal1 := upd (load_pal f 0 t3) n_used v).
      assert (Hlen1 : length pal1 = 8%nat) by (unfold pal1; rewrite length_upd; exact Hpal0).
      assert (Hidx1 : idx pal1 n_used = v).
      { unfold pal1. rewrite idx_upd by lia. rewrite Z.eqb_refl. reflexivity. }
      rewrite eval_bind. cbv beta. rewrite eval_ret.
      match goal with
      | |- context [pal_merge _ _ _ _ _ _ _ ?p] => set (pal2 := p)
      end.
      assert (H2 : length pal2 = 8%nat /\ sorted_range pal2 n_used pal_sz).
      { subst pal2. destruct (Z.ltb_spec (n_used + 1) pal_sz) as [Hlt1|Hge1].
        - rewrite eval_bind. cbv beta.
          set (more := eval (decode_bools X 2) _).
          assert (Hmore : 0 <= more) by (subst more; rewrite eval_decode_bools; apply Hbools; lia).
          destruct (pal_deltas_sorted X Hbools (Z.to_nat pal_sz) pal_sz (Z.shiftl 1 (f_bpc f) - 1)
                      (n_used + 1) v (f_bpc f - 3 + more) pal1 n_used
                      (exec (decode_bools X 2) (exec (decode_bools X (f_bpc f)) t3)))
            as [H1 H2]; try lia.
          + rewrite Z.shiftl_1_l. lia.
          + rewrite Z.shiftl_1_l. lia.
          + replace (n_used + 1 - 1) with n_used by lia. exact Hidx1.
          + intros i j Hi Hij Hj. replace j with i by lia. lia.
          + split; [rewrite H2; exact Hlen1 | exact H1].
        - rewrite eval_ret. split; [exact Hlen1|].
          intros i j Hi Hij Hj. replace j with i by lia. lia. }
      destruct H2 as [Hlen2 Hs2]. split.
      + rewrite length_pal_merge. exact Hlen2.
      + apply pal_merge_sorted; try lia.
        * exact Hu.
        * exact Hs2.
        * intros i j ? ? ?. lia.
    - rewrite eval_ret. split.
      + unfold pal_copy. rewrite length_inserts. exact Hpal0.
      + assert (n_used = pal_sz) by lia.
        intros i j Hi Hij Hj. rewrite !idx_pal_copy by lia. apply Hu; lia. }
  destruct HF as [HF1 HF2]. rewrite pal8_id by exact HF1. exact HF2.
Qed.

End PalettePlane.

(** C7 (as amended). With the symbols of the range coder in their ranges
    (a symbol of [n] values in [[0, n)], [n] bits in [[0, 2^n)]) and a bit
    depth of 3 to 16: after [read_pal_plane] for the luma plane,
    [b->pal_sz[0]] is the decoded symbol plus 2, so between 2 and 8, and
    the [pal_sz[0]] entries of the palette it has written do not decrease,
    provided the cached entries of the left and of the above palette do
    not.  They need not increase strictly. *)
Theorem read_pal_plane_luma_sorted {Msac Ext : Type} (X : Externals Msac Ext) (f : Frame)
    (Hsym : forall m c n, 0 < n -> 0 <= fst (msac_decode_symbol_adapt X m c n) < n)
    (Hbools : forall m n, 0 <= n -> 0 <= fst (msac_decode_bools X m n) < 2 ^ n)
    (Hbpc : 3 <= f_bpc f <= 16)
    (sz_ctx bx4 by4 : Z) (t : Tile Msac Ext)
    (Hl0 : 0 <= idx (t_l t PalSz) by4)
    (Hl : sorted_range (t_al_pal t 1 by4 0) 0 (idx (t_l t PalSz) by4))
    (Ha0 : 0 <= idx (t_a t PalSz) bx4)
    (Ha : sorted_range (t_al_pal t 0 bx4 0) 0 (idx (t_a t PalSz) bx4)) :
  let t' := exec (read_pal_plane X f 0 sz_ctx bx4 by4) t in
  let pal_sz := b_pal_sz0 (t_blk t') in
  pal_sz = 2 + eval (symbol_adapt X (cdf "m.pal_sz" [0; sz_ctx]) 7) t /\
  2 <= pal_sz <= 8 /\
  forall i j, 0 <= i -> i <= j -> j < pal_sz ->
    idx (load_pal f 0 t') i <= idx (load_pal f 0 t') j.
Proof.
  exact (read_pal_plane_luma X f Hsym Hbools Hbpc sz_ctx bx4 by4 t Hl0 Hl Ha0 Ha).
Qed.

(** A palette of five entries, none of them from the cache: 10, then the
    differences 1, 2, 5 and 7. *)
Lemma read_pal_plane_luma_sorted_witness :
  let f := Example.frame DAV1D_PIXEL_LAYOUT_I420 0 0 in
  let t' := exec (read_pal_plane Example.externals f 0 0 0 0)
                 (Example.tile [3; 10; 0; 1; 2; 5; 7]) in
  b_pal_sz0 (t_blk t') = 5 /\
  take 5 (load_pal f 0 t') = [10; 12; 15; 21; 29] /\
  forall i j, 0 <= i -> i <= j -> j < b_pal_sz0 (t_blk t') ->
    idx (load_pal f 0 t') i <= idx (load_pal f 0 t') j.
Proof.
  intros f t'. split; [reflexivity | split; [reflexivity|]].
  refine (proj2 (proj2 (read_pal_plane_luma_sorted Example.externals f _ _ _ 0 0 0
                          (Example.tile [3; 10; 0; 1; 2; 5; 7]) _ _ _ _))).
  - intros m c n Hn. cbn. unfold Example.script_read.
    destruct (Example.script_next m) as [v s]. cbn [fst].
    destruct (Z.gtb_spec n 0); [apply Z.mod_pos_bound | ]; lia.
  - intros m n Hn. cbn. unfold Example.script_read.
    destruct (Example.script_next m) as [v s]. cbn [fst].
    assert (0 < 2 ^ n) by (apply Z.pow_pos_nonneg; lia).
    destruct (Z.gtb_spec (2 ^ n) 0); [apply Z.mod_pos_bound | ]; lia.
  - cbn. lia.
  - cbv. discriminate.
  - intros i j Hi Hij Hj. exfalso. revert Hj. change (j < 0 -> False). lia.
  - cbv. discriminate.
  - intros i j Hi Hij Hj. exfalso. revert Hj. change (j < 0 -> False). lia.
Defined.

(** ** C8: [get_uniform] *)

Section BitArith.

Lemma land_low a b k : 0 <= k -> 0 <= b < 2 ^ k -> Z.land (a * 2 ^ k) b = 0.
Proof.
  intros Hk Hb. apply Z.bits_inj'. intros i Hi.
  rewrite Z.land_spec, Z.bits_0.
  destruct (Z.lt_ge_cases i k) as [Hlt|Hge].
  - rewrite <- Z.shiftl_mul_pow2 by lia. rewrite Z.shiftl_spec_low by lia. reflexivity.
  - destruct (Z.eq_dec b 0) as [->|Hne].
    + rewrite Z.bits_0. apply andb_false_r.
    + rewrite (Z.bits_above_log2 b i); [apply andb_false_r | lia |].
      apply Z.lt_le_trans with k; [|lia]. apply Z.log2_lt_pow2; lia.
Qed.

(** Bits put below a shifted value add to it. *)
Lemma lor_add_low a b k : 0 <= k -> 0 <= b < 2 ^ k -> Z.lor (a * 2 ^ k) b = a * 2 ^ k + b.
Proof.
  intros Hk Hb. pose proof (Z.add_lor_land (a * 2 ^ k) b) as H.
  rewrite (land_low a b k Hk Hb) in H. lia.
Qed.

Lemma lor_range a b k : 0 <= a < 2 ^ k -> 0 <= b < 2 ^ k -> 0 <= Z.lor a b < 2 ^ k.
Proof.
  intros Ha Hb. split; [apply Z.lor_nonneg; lia|].
  destruct (Z.eq_dec (Z.lor a b) 0) as [E|E]; [lia|].
  assert (Hpos : 0 < Z.lor a b) by (pose proof (proj2 (Z.lor_nonneg a b)); lia).
  assert (Hk : 0 < k).
  { destruct (Z.lt_ge_cases 0 k) as [|Hk]; [assumption|]. exfalso.
    assert (2 ^ k <= 1).
    { destruct (Z.eq_dec k 0) as [->|]; [simpl; lia|]. rewrite Z.pow_neg_r; lia. }
    assert (a = 0) by lia. assert (b = 0) by lia. subst. simpl in E. contradiction. }
  apply Z.log2_lt_pow2; [exact Hpos|].
  rewrite Z.log2_lor by lia.
  assert (La : Z.log2 a < k).
  { destruct (Z.eq_dec a 0) as [->|]; [simpl; lia | apply Z.log2_lt_pow2; lia]. }
  assert (Lb : Z.log2 b < k).
  { destruct (Z.eq_dec b 0) as [->|]; [simpl; lia | apply Z.log2_lt_pow2; lia]. }
  lia.
Qed.

(** The top [n] bits of a 64-bit word. *)
Lemma shiftr_top st n : 0 <= st < 2 ^ 64 -> 0 <= n <= 64 -> 0 <= Z.shiftr st (64 - n) < 2 ^ n.
Proof.
  intros Hst Hn. rewrite Z.shiftr_div_pow2 by lia.
  assert (Hp : 0 < 2 ^ (64 - n)) by (apply Z.pow_pos_nonneg; lia).
  split; [apply Z.div_pos; lia|].
  apply Z.div_lt_upper_bound; [exact Hp|].
  rewrite <- Z.pow_add_r by lia. replace (64 - n + n) with 64 by lia. lia.
Qed.

End BitArith.

Section ReaderRange.

Import GetBits.

Lemma refill_state_range c n : 0 <= state c < 2 ^ 64 -> 0 <= state (refill c n) < 2 ^ 64.
Proof.
  intros H. unfold refill. destruct (refill_loop _ n c 0) as [c' st] eqn:E.
  cbn [state].
  assert (Hst : state c' = state c).
  { clear H. revert c st E. generalize 0 as st0. generalize (Z.to_nat n) as fuel.
    induction fuel as [|fuel IH]; intros st0 c0 st E.
    - cbn [refill_loop] in E. unfold refill_body in E.
      repeat match type of E with
      | context [if ?b then _ else _] => destruct b
      end; injection E as <- _; reflexivity.
    - cbn [refill_loop] in E.
      destruct (refill_body c0 st0) as [c1 st1] eqn:E1.
      assert (H1 : state c1 = state c0).
      { unfold refill_body in E1.
        repeat match type of E1 with
        | context [if ?b then _ else _] => destruct b
        end; injection E1 as <- _; reflexivity. }
      destruct (n >? bits_left c1).
      + rewrite (IH _ _ _ E). exact H1.
      + injection E as <- _. exact H1. }
  rewrite Hst. apply lor_range; [exact H | apply u64_range].
Qed.

(** [get_bits] returns an [n]-bit value. *)
Lemma get_bits_range c n :
  0 <= state c < 2 ^ 64 -> 0 <= n <= 32 ->
  0 <= fst (get_bits c n) < 2 ^ n /\ 0 <= state (snd (get_bits c n)) < 2 ^ 64.
Proof.
  intros Hst Hn. unfold get_bits. cbn [fst snd state].
  set (c1 := if n >? bits_left c then refill c n else c).
  assert (H1 : 0 <= state c1 < 2 ^ 64).
  { subst c1. destruct (n >? bits_left c); [apply refill_state_range|]; exact Hst. }
  split; [|apply u64_range].
  pose proof (shiftr_top (state c1) n H1 ltac:(lia)) as Hv.
  assert (2 ^ n <= 2 ^ 32) by (apply Z.pow_le_mono_r; lia).
  rewrite u32_small by lia. exact Hv.
Qed.

End ReaderRange.

Section UniformRange.

Import GetBits.

(** The [int] arithmetic of [get_uniform] for [n] below [2^31]:
    [l = ulog2(n) + 1] and [m = (1 << l) - n]. *)
Lemma uniform_lm N :
  1 <= N < 2 ^ 31 ->
  let l := ulog2 N + 1 in
  1 <= l <= 31 /\ 2 ^ (l - 1) <= N < 2 ^ l /\
  s32 (u32 (s32 (Z.shiftl 1 l)) - N) = 2 ^ l - N.
Proof.
  intros HN l. unfold ulog2 in l.
  pose proof (Z.log2_spec N ltac:(lia)) as Hs.
  pose proof (Z.log2_nonneg N) as H0.
  assert (Hl31 : Z.log2 N < 31) by (apply Z.log2_lt_pow2; lia).
  subst l. replace (Z.log2 N + 1 - 1) with (Z.log2 N) by lia.
  replace (Z.succ (Z.log2 N)) with (Z.log2 N + 1) in Hs by lia.
  split; [lia | split; [lia|]].
  rewrite Z.shiftl_1_l.
  destruct (Z.eq_dec (Z.log2 N + 1) 31) as [E|E].
  - rewrite E in *. change (s32 (2 ^ 31)) with (- 2 ^ 31).
    change (u32 (- 2 ^ 31)) with (2 ^ 31). apply s32_small.
    replace (Z.log2 N) with 30 in Hs by lia. lia.
  - assert (Hp : 2 ^ (Z.log2 N + 1) <= 2 ^ 30) by (apply Z.pow_le_mono_r; lia).
    assert (0 < 2 ^ (Z.log2 N + 1)) by (apply Z.pow_pos_nonneg; lia).
    rewrite (s32_small (2 ^ _)) by lia. rewrite u32_small by lia.
    apply s32_small. lia.
Qed.

(** [get_uniform] in terms of its two reads. *)
Lemma get_uniform_reads c N :
  0 <= state c < 2 ^ 64 -> 1 <= N < 2 ^ 31 ->
  let l := ulog2 N + 1 in
  let m := 2 ^ l - N in
  let v := fst (get_bits c (l - 1)) in
  let b := fst (get_bits (snd (get_bits c (l - 1))) 1) in
  0 <= v < 2 ^ (l - 1) /\ 0 <= b < 2 /\
  fst (get_uniform c N) = if v <? m then v else 2 * v - m + b.
Proof.
  intros Hst HN l m v b.
  destruct (uniform_lm N HN) as (Hl & Hpow & Hm). fold l in Hl, Hpow, Hm.
  destruct (get_bits_range c (l - 1) Hst ltac:(lia)) as [Hv Hst1]. fold v in Hv.
  destruct (get_bits_range (snd (get_bits c (l - 1))) 1 Hst1 ltac:(lia)) as [Hb _].
  fold b in Hb. change (2 ^ 1) with 2 in Hb.
  split; [exact Hv | split; [exact Hb|]].
  assert (Hp30 : 2 ^ (l - 1) <= 2 ^ 30) by (apply Z.pow_le_mono_r; lia).
  assert (Hpl : 2 ^ l = 2 * 2 ^ (l - 1)).
  { replace l with (l - 1 + 1) at 1 by lia. rewrite Z.pow_add_r by lia. lia. }
  unfold get_uniform. fold l. rewrite Hm. fold m.
  destruct (get_bits c (l - 1)) as [v0 c1] eqn:E1. cbn [fst snd] in *. subst v.
  rewrite (s32_small v0) by lia.
  destruct (Z.ltb_spec v0 m) as [Hlt|Hge]; cbn [fst].
  - apply u32_small. lia.
  - destruct (get_bits c1 1) as [b0 c2] eqn:E2. cbn [fst snd] in *. subst b.
    rewrite Z.shiftl_mul_pow2 by lia. change (2 ^ 1) with 2.
    unfold m in *. rewrite (s32_small (v0 * 2)) by lia.
    rewrite s32_small by lia. rewrite u32_small by lia. lia.
Qed.

(** [get_uniform(n)] is below [n], whatever the reader holds. *)
Lemma get_uniform_range c N :
  0 <= state c < 2 ^ 64 -> 1 <= N < 2 ^ 31 -> 0 <= fst (get_uniform c N) < N.
Proof.
  intros Hst HN.
  destruct (get_uniform_reads c N Hst HN) as (Hv & Hb & E).
  destruct (uniform_lm N HN) as (Hl & Hpow & _). cbv zeta in *.
  set (l := ulog2 N + 1) in *.
  assert (Hpl : 2 ^ l = 2 * 2 ^ (l - 1)).
  { replace l with (l - 1 + 1) at 1 by lia. rewrite Z.pow_add_r by lia. lia. }
  rewrite E. destruct (Z.ltb_spec (fst (get_bits c (l - 1))) (2 ^ l - N)); lia.
Qed.

End UniformRange.

Section PowArith.

Lemma pow2_pos k : 0 <= k -> 0 < 2 ^ k.
Proof. intros H. apply Z.pow_pos_nonneg; lia. Qed.

Lemma mod_shift_add W s b k :
  0 <= b -> 0 <= k -> 0 <= s < 2 ^ k ->
  (W * 2 ^ k + s) mod 2 ^ (b + k) = (W mod 2 ^ b) * 2 ^ k + s.
Proof.
  intros Hb Hk Hs. pose proof (pow2_pos b Hb). pose proof (pow2_pos k Hk).
  rewrite Z.pow_add_r by lia.
  pose proof (Z.div_mod W (2 ^ b) ltac:(lia)) as E.
  pose proof (Z.mod_pos_bound W (2 ^ b) ltac:(lia)) as Hr.
  symmetry. apply Z.mod_unique_pos with (q := W / 2 ^ b); [nia | nia].
Qed.

Lemma mod_div_pow a s n :
  0 <= s -> 0 <= n -> (a mod 2 ^ (s + n)) / 2 ^ s = (a / 2 ^ s) mod 2 ^ n.
Proof.
  intros Hs Hn. pose proof (pow2_pos s Hs). pose proof (pow2_pos n Hn).
  rewrite Z.pow_add_r by lia. rewrite Z.rem_mul_r by lia.
  rewrite (Z.mul_comm (2 ^ s)), Z.div_add by lia.
  rewrite Z.div_small by (apply Z.mod_pos_bound; lia). lia.
Qed.

Lemma mod_mod_pow a s n :
  0 <= s -> 0 <= n -> (a mod 2 ^ (s + n)) mod 2 ^ s = a mod 2 ^ s.
Proof.
  intros Hs Hn. pose proof (pow2_pos s Hs). pose proof (pow2_pos n Hn).
  rewrite Z.pow_add_r by lia. rewrite Z.rem_mul_r by lia.
  rewrite (Z.mul_comm (2 ^ s)), Z.mod_add by lia. apply Z.mod_mod. lia.
Qed.

Lemma mul_mod_pow R e b :
  0 <= e -> 0 <= b -> (R * 2 ^ e) mod 2 ^ (b + e) = (R mod 2 ^ b) * 2 ^ e.
Proof.
  intros He Hb. pose proof (pow2_pos e He). pose proof (pow2_pos b Hb).
  rewrite Z.pow_add_r by lia. apply Z.mul_mod_distr_r; lia.
Qed.

Lemma div_shift R a b : 0 <= a -> 0 <= b -> (R * 2 ^ a) / 2 ^ (b + a) = R / 2 ^ b.
Proof.
  intros Ha Hb. pose proof (pow2_pos a Ha). pose proof (pow2_pos b Hb).
  rewrite Z.pow_add_r by lia. apply Z.div_mul_cancel_r; lia.
Qed.

Lemma div_pow_add a x y : 0 <= x -> 0 <= y -> a / 2 ^ (x + y) = a / 2 ^ x / 2 ^ y.
Proof.
  intros Hx Hy. rewrite Z.pow_add_r by lia.
  pose proof (pow2_pos x Hx). pose proof (pow2_pos y Hy).
  symmetry. apply Z.div_div; lia.
Qed.

End PowArith.

Section Reader.

Import GetBits.

Variable bytes : list Z.

(** The byte at a position of the stream: zero past the end. *)
Definition byte_at (i : nat) : Z := u8 (nth i bytes 0).

(** The first [j] bytes of the stream, most significant first. *)
Fixpoint window (j : nat) : Z :=
  match j with
  | O => 0
  | S j' => window j' * 256 + byte_at j'
  end.

Lemma byte_at_range i : 0 <= byte_at i < 256.
Proof. apply u8_range. Qed.

Lemma byte_at_end i : (length bytes <= i)%nat -> byte_at i = 0.
Proof. intros H. unfold byte_at. rewrite nth_overflow by lia. reflexivity. Qed.

Lemma window_range j : 0 <= window j < 2 ^ (8 * Z.of_nat j).
Proof.
  induction j as [|j IH]; [cbn; lia|].
  cbn [window]. pose proof (byte_at_range j).
  replace (8 * Z.of_nat (S j)) with (8 * Z.of_nat j + 8) by lia.
  rewrite Z.pow_add_r by lia. change (2 ^ 8) with 256. lia.
Qed.

(** The reader has fetched [vp] bytes of the stream, real or past its end:
    before the end [ptr] counts them; from the end on [eof] is set, and
    [error] as soon as a byte past the end was fetched. *)
Definition pos_ok (c : t) (vp : nat) : Prop :=
  data c = bytes /\
  ((eof c = 0 /\ error c = 0 /\ ptr c = vp /\
    (vp < length bytes \/ length bytes = 0 /\ vp = 0)%nat) \/
   (eof c = 1 /\ (length bytes <= vp)%nat /\ (1 <= vp)%nat /\
    ptr c = Nat.max (length bytes) 1 /\
    error c = if (Nat.max (length bytes) 1 <? vp)%nat then 1 else 0)).

Lemma refill_body_spec c st vp :
  pos_ok c vp -> 0 <= st -> st * 256 + 255 < 2 ^ 64 -> 0 <= bits_left c < 2 ^ 32 - 8 ->
  pos_ok (fst (refill_body c st)) (S vp) /\
  snd (refill_body c st) = st * 256 + byte_at vp /\
  bits_left (fst (refill_body c st)) = bits_left c + 8 /\
  state (fst (refill_body c st)) = state c.
Proof.
  intros [Hd Hpos] Hst Hst64 Hbl. unfold refill_body.
  assert (Hsh : u64 (Z.shiftl st 8) = st * 256).
  { rewrite Z.shiftl_mul_pow2 by lia. change (2 ^ 8) with 256.
    unfold u64. apply Z.mod_small. lia. }
  rewrite Hsh. cbn [eof error state bits_left ptr data].
  rewrite (u32_small (bits_left c + 8)) by lia.
  destruct Hpos as [(He & Her & Hp & Hv)|(He & Hv & Hv1 & Hp & Her)].
  - rewrite He. change (0 =? 0) with true. cbv iota.
    cbn [eof error state bits_left ptr data].
    assert (Hload : Z.lor (st * 256)
                      (load (mk (error c) 0 (state c) (bits_left c + 8) (ptr c) (data c)))
                    = st * 256 + byte_at vp).
    { unfold load. cbn [ptr data]. rewrite Hd, Hp. fold (byte_at vp).
      apply (lor_add_low st (byte_at vp) 8); [lia | apply byte_at_range]. }
    rewrite Hload. rewrite Hd, Hp.
    destruct (Nat.leb_spec (length bytes) (S vp)) as [Hle|Hgt];
      cbn [fst snd eof error state bits_left ptr data].
    + split; [|split; [reflexivity | split; reflexivity]].
      split; [reflexivity|]. right. cbn [eof ptr error].
      split; [reflexivity|]. split; [lia|]. split; [lia|]. split; [lia|].
      destruct (Nat.ltb_spec (Nat.max (length bytes) 1) (S vp)); [lia | reflexivity].
    + split; [|split; [reflexivity | split; reflexivity]].
      split; [reflexivity|]. left. cbn [eof ptr error].
      split; [reflexivity|]. split; [exact Her|]. split; [reflexivity|]. lia.
  - rewrite He. change (1 =? 0) with false. cbv iota.
    cbn [eof error state bits_left ptr data]. rewrite Hd.
    destruct (Nat.leb_spec (length bytes) (ptr c)) as [Hle|Hgt]; [|lia].
    cbn [fst snd eof error state bits_left ptr data].
    rewrite (byte_at_end vp Hv).
    split; [|split; [lia | split; reflexivity]].
    split; [reflexivity|]. right. cbn [eof ptr error].
    split; [reflexivity|]. split; [lia|]. split; [lia|]. split; [lia|].
    destruct (Nat.ltb_spec (Nat.max (length bytes) 1) (S vp)); [reflexivity | lia].
Qed.

Lemma window_S vp : window (vp + 1) = window vp * 256 + byte_at vp.
Proof. replace (vp + 1)%nat with (S vp) by lia. reflexivity. Qed.

Lemma pow8_S (j : nat) : 2 ^ (8 * Z.of_nat (S j)) = 256 * 2 ^ (8 * Z.of_nat j).
Proof.
  replace (8 * Z.of_nat (S j)) with (8 + 8 * Z.of_nat j) by lia.
  rewrite Z.pow_add_r by lia. reflexivity.
Qed.

(** The loop of [refill]: [j] bytes are taken from the stream, as many as
    it takes for [n <= bits_left], and at least one. *)
Lemma refill_loop_spec n fuel :
  forall c st vp s,
    pos_ok c vp -> 0 <= st < 2 ^ s -> 0 <= s <= bits_left c ->
    bits_left c < n -> n <= 32 -> n <= bits_left c + 8 * (Z.of_nat fuel + 1) ->
    exists j : nat,
      (1 <= j)%nat /\
      pos_ok (fst (refill_loop fuel n c st)) (vp + j) /\
      snd (refill_loop fuel n c st)
        = st * 2 ^ (8 * Z.of_nat j) + (window (vp + j) - window vp * 2 ^ (8 * Z.of_nat j)) /\
      0 <= snd (refill_loop fuel n c st) < 2 ^ (s + 8 * Z.of_nat j) /\
      bits_left (fst (refill_loop fuel n c st)) = bits_left c + 8 * Z.of_nat j /\
      state (fst (refill_loop fuel n c st)) = state c /\
      n <= bits_left (fst (refill_loop fuel n c st)) < n + 8.
Proof.
  induction fuel as [|fuel IH]; intros c st vp s Hpos Hst Hs Hbl Hn Hfuel.
  - assert (Hp : 2 ^ s <= 2 ^ 32) by (apply Z.pow_le_mono_r; lia).
    destruct (refill_body_spec c st vp Hpos) as (H1 & H2 & H3 & H4); try lia.
    exists 1%nat. cbn [refill_loop]. destruct (refill_body c st) as [c1 st1].
    cbn [fst snd] in *. change (8 * Z.of_nat 1) with 8. change (2 ^ 8) with 256.
    rewrite window_S. replace (vp + 1)%nat with (S vp) by lia.
    rewrite Z.pow_add_r by lia. change (2 ^ 8) with 256.
    pose proof (byte_at_range vp). subst st1.
    split; [lia|]. split; [exact H1|]. split; [lia|]. split; [lia|].
    split; [lia|]. split; [exact H4 | lia].
  - assert (Hp : 2 ^ s <= 2 ^ 32) by (apply Z.pow_le_mono_r; lia).
    destruct (refill_body_spec c st vp Hpos) as (H1 & H2 & H3 & H4); try lia.
    cbn [refill_loop]. destruct (refill_body c st) as [c1 st1]. cbn [fst snd] in *.
    pose proof (byte_at_range vp) as Hb.
    destruct (Z.gtb_spec n (bits_left c1)) as [Hmore|Hdone].
    + destruct (IH c1 st1 (S vp) (s + 8)) as (j & Hj & G1 & G2 & G3 & G4 & G5 & G6);
        try assumption; try lia.
      { subst st1. rewrite Z.pow_add_r by lia. change (2 ^ 8) with 256. lia. }
      exists (S j). replace (vp + S j)%nat with (S vp + j)%nat by lia.
      rewrite pow8_S.
      replace (s + 8 * Z.of_nat (S j)) with (s + 8 + 8 * Z.of_nat j) by lia.
      split; [lia|]. split; [exact G1|].
      split; [rewrite G2; subst st1; cbn [window]; ring|].
      split; [lia|]. split; [lia|]. split; [rewrite G5; exact H4 | lia].
    + exists 1%nat. change (8 * Z.of_nat 1) with 8. change (2 ^ 8) with 256.
      rewrite window_S. replace (vp + 1)%nat with (S vp) by lia.
      rewrite Z.pow_add_r by lia. change (2 ^ 8) with 256. subst st1. cbn [window fst snd].
      split; [lia|]. split; [exact H1|]. split; [lia|]. split; [lia|].
      split; [lia|]. split; [exact H4 | lia].
Qed.

(** What the reader holds: it has taken [vp] bytes of the stream and the
    last [bits_left] bits of them are at the top of [state]. *)
Definition holds (c : t) (vp : nat) : Prop :=
  pos_ok c vp /\ 0 <= bits_left c <= 64 /\
  state c = (window vp mod 2 ^ bits_left c) * 2 ^ (64 - bits_left c).

Lemma holds_init : holds (init_get_bits bytes) 0.
Proof.
  unfold holds, pos_ok, init_get_bits. cbn [data eof ptr bits_left state].
  split; [split; [reflexivity|] | split; [lia | reflexivity]].
  left. split; [reflexivity | split; [reflexivity | split; [reflexivity|]]].
  destruct bytes; cbn [length]; [right | left]; lia.
Qed.

Lemma refill_spec c vp n :
  holds c vp -> bits_left c < n -> n <= 32 ->
  exists j : nat,
    (1 <= j)%nat /\ holds (refill c n) (vp + j) /\
    bits_left (refill c n) = bits_left c + 8 * Z.of_nat j /\
    n <= bits_left (refill c n) < n + 8.
Proof.
  intros (Hpos & Hbl & Hstate) Hlt Hn.
  destruct (refill_loop_spec n (Z.to_nat n) c 0 vp 0 Hpos)
    as (j & Hj & G1 & G2 & G3 & G4 & G5 & G6); try lia.
  unfold refill. destruct (refill_loop (Z.to_nat n) n c 0) as [c1 st].
  cbn [fst snd] in *. exists j.
  set (bl := bits_left c) in *. set (bl' := bits_left c1) in *.
  set (k := 8 * Z.of_nat j) in *.
  assert (Hst : st = window (vp + j) - window vp * 2 ^ k) by lia.
  assert (Hk : 0 <= k) by lia.
  assert (E1 : 2 ^ k * 2 ^ (64 - bl') = 2 ^ (64 - bl)).
  { rewrite <- Z.pow_add_r by lia. f_equal. lia. }
  pose proof (pow2_pos (64 - bl') ltac:(lia)) as Hp1.
  pose proof (pow2_pos (64 - bl) ltac:(lia)) as Hp2.
  assert (Hp3 : 2 ^ (64 - bl) <= 2 ^ 64) by (apply Z.pow_le_mono_r; lia).
  assert (Hseg : 0 <= st * 2 ^ (64 - bl') < 2 ^ (64 - bl)).
  { rewrite <- E1. replace (0 + k) with k in G3 by lia. nia. }
  split; [exact Hj|]. split; [|cbn [bits_left]; lia].
  unfold holds. cbn [bits_left state].
  split; [unfold pos_ok in *; cbn [data eof ptr]; exact G1|].
  split; [lia|].
  rewrite Z.shiftl_mul_pow2 by lia.
  unfold u64. rewrite (Z.mod_small (st * 2 ^ (64 - bl'))) by lia.
  rewrite G5, Hstate. fold bl.
  rewrite lor_add_low by lia.
  assert (Hw : window (vp + j) = window vp * 2 ^ k + st) by lia.
  rewrite Hw. fold bl'. replace (2 ^ bl') with (2 ^ (bl + k)) by (f_equal; lia).
  replace (0 + k) with k in G3 by lia.
  rewrite mod_shift_add by lia.
  rewrite Z.mul_add_distr_r, <- Z.mul_assoc, E1. reflexivity.
Qed.

(** [get_bits]: the value is the next [n] bits of the bytes taken so far,
    and the reader holds what is left of them. *)
Lemma get_bits_holds c vp n :
  holds c vp -> 0 <= n <= 32 ->
  exists vp' : nat,
    (vp <= vp')%nat /\ holds (snd (get_bits c n)) vp' /\
    8 * Z.of_nat vp' - bits_left (snd (get_bits c n)) = 8 * Z.of_nat vp - bits_left c + n /\
    fst (get_bits c n) = (window vp' / 2 ^ bits_left (snd (get_bits c n))) mod 2 ^ n.
Proof.
  intros Hc Hn.
  assert (Hfull : exists vp' : nat, (vp <= vp')%nat /\
            let c1 := if n >? bits_left c then refill c n else c in
            holds c1 vp' /\ n <= bits_left c1 /\
            8 * Z.of_nat vp' - bits_left c1 = 8 * Z.of_nat vp - bits_left c).
  { destruct (Z.gtb_spec n (bits_left c)) as [Hgt|Hle].
    - destruct (refill_spec c vp n Hc) as (j & Hj & G1 & G2 & G3); try lia.
      exists (vp + j)%nat. split; [lia|]. cbv zeta. split; [exact G1|]. split; lia.
    - exists vp. split; [lia|]. cbv zeta. split; [exact Hc|]. split; lia. }
  destruct Hfull as (vp' & Hvp & Hc1 & Hbl1 & Hpos1). cbv zeta in *.
  unfold get_bits. set (c1 := if n >? bits_left c then refill c n else c) in *.
  cbn [fst snd]. destruct Hc1 as (Hp1 & Hb1 & Hs1).
  set (bl := bits_left c1) in *. set (W := window vp') in *.
  exists vp'. split; [exact Hvp|].
  assert (Hu : u32 (bl - n) = bl - n) by (apply u32_small; lia).
  pose proof (pow2_pos (bl - n) ltac:(lia)) as Hq1.
  pose proof (pow2_pos n ltac:(lia)) as Hq2.
  pose proof (pow2_pos (64 - bl) ltac:(lia)) as Hq3.
  split; [|split].
  - unfold holds. cbn [bits_left state]. rewrite Hu.
    split; [unfold pos_ok in *; cbn [data eof ptr]; exact Hp1|].
    split; [lia|].
    rewrite Hs1, Z.shiftl_mul_pow2 by lia. rewrite <- Z.mul_assoc, <- Z.pow_add_r by lia.
    unfold u64. replace (64 - bl + n) with (64 - (bl - n)) by lia.
    replace 64 with (bl - n + (64 - (bl - n))) at 2 by lia.
    rewrite mul_mod_pow by lia.
    replace (2 ^ bl) with (2 ^ (bl - n + n)) by (f_equal; lia).
    rewrite mod_mod_pow by lia. reflexivity.
  - cbn [bits_left]. rewrite Hu. lia.
  - cbn [bits_left]. rewrite Hu.
    rewrite Hs1, Z.shiftr_div_pow2 by lia.
    replace (64 - n) with (bl - n + (64 - bl)) by lia.
    rewrite div_shift by lia.
    replace (2 ^ bl) with (2 ^ (bl - n + n)) by (f_equal; lia).
    rewrite mod_div_pow by lia.
    subst W. apply u32_small.
    pose proof (Z.mod_pos_bound (window vp' / 2 ^ (bl - n)) (2 ^ n) Hq2).
    assert (2 ^ n <= 2 ^ 32) by (apply Z.pow_le_mono_r; lia). lia.
Qed.

(** Bit [i] of the stream, counted from the most significant bit of the
    first byte; bits past the end are zero. *)
Definition stream_bit (i : Z) : Z :=
  Z.b2z (Z.testbit (byte_at (Z.to_nat (i / 8))) (7 - i mod 8)).

(** The [n] bits from bit [p] on, as a number, most significant first. *)
Fixpoint take_bits (p : Z) (n : nat) : Z :=
  match n with
  | O => 0
  | S n' => 2 * take_bits p n' + stream_bit (p + Z.of_nat n')
  end.

(** The first [q] bits of the stream as a number. *)
Definition prefix (q : Z) : Z :=
  window (Z.to_nat ((q + 7) / 8)) / 2 ^ (8 * ((q + 7) / 8) - q).

Lemma stream_bit_range i : 0 <= stream_bit i <= 1.
Proof. unfold stream_bit. destruct (Z.testbit _ _); cbn; lia. Qed.

Lemma window_drop vp j : window (vp + j) / 2 ^ (8 * Z.of_nat j) = window vp.
Proof.
  induction j as [|j IH].
  - replace (vp + 0)%nat with vp by lia. cbn. apply Z.div_1_r.
  - replace (vp + S j)%nat with (S (vp + j)) by lia. cbn [window].
    replace (8 * Z.of_nat (S j)) with (8 + 8 * Z.of_nat j) by lia.
    rewrite div_pow_add by lia. change (2 ^ 8) with 256.
    rewrite Z.div_add_l by lia.
    rewrite (Z.div_small (byte_at _)) by apply byte_at_range.
    rewrite Z.add_0_r. exact IH.
Qed.

Lemma window_prefix vp q :
  0 <= q <= 8 * Z.of_nat vp -> window vp / 2 ^ (8 * Z.of_nat vp - q) = prefix q.
Proof.
  intros Hq. unfold prefix.
  set (v0 := (q + 7) / 8).
  assert (Hv0 : 8 * v0 <= q + 7 < 8 * v0 + 8).
  { pose proof (Z.div_mod (q + 7) 8 ltac:(lia)).
    pose proof (Z.mod_pos_bound (q + 7) 8 ltac:(lia)). unfold v0. lia. }
  assert (Hj : exists j : nat, vp = (Z.to_nat v0 + j)%nat).
  { exists (vp - Z.to_nat v0)%nat. lia. }
  destruct Hj as [j ->].
  replace (8 * Z.of_nat (Z.to_nat v0 + j) - q)
    with (8 * Z.of_nat j + (8 * v0 - q)) by lia.
  rewrite div_pow_add by lia.
  rewrite window_drop. reflexivity.
Qed.

Lemma prefix_S q : 0 <= q -> prefix (q + 1) = 2 * prefix q + stream_bit q.
Proof.
  intros Hq.
  pose proof (Z.div_mod q 8 ltac:(lia)) as Hdm.
  pose proof (Z.mod_pos_bound q 8 ltac:(lia)) as Hm.
  assert (Hd : 0 <= q / 8) by (apply Z.div_pos; lia).
  set (a := Z.to_nat (q / 8)).
  set (e := 7 - q mod 8).
  assert (E1 : 8 * Z.of_nat (S a) - (q + 1) = e) by (unfold a, e; lia).
  assert (E2 : 8 * Z.of_nat (S a) - q = e + 1) by (unfold a, e; lia).
  rewrite <- (window_prefix (S a) (q + 1)) by lia.
  rewrite <- (window_prefix (S a) q) by lia.
  rewrite E1, E2. cbn [window].
  unfold stream_bit. fold a. fold e.
  pose proof (byte_at_range a) as Hb.
  pose proof (pow2_pos e ltac:(lia)) as He.
  set (W := window a) in *. set (b := byte_at a) in *.
  rewrite Z.testbit_spec' by lia.
  rewrite div_pow_add by lia. change (2 ^ 1) with 2.
  assert (E3 : (W * 256 + b) / 2 ^ e = W * 2 ^ (8 - e) + b / 2 ^ e).
  { replace 256 with (2 ^ (8 - e) * 2 ^ e)
      by (rewrite <- Z.pow_add_r by lia; replace (8 - e + e) with 8 by lia; reflexivity).
    rewrite Z.mul_assoc. rewrite Z.div_add_l by lia. reflexivity. }
  rewrite E3.
  assert (E4 : 2 ^ (8 - e) = 2 * 2 ^ (7 - e)).
  { replace (8 - e) with (1 + (7 - e)) by lia. rewrite Z.pow_add_r by lia. reflexivity. }
  rewrite E4.
  replace (W * (2 * 2 ^ (7 - e)) + b / 2 ^ e)
    with (b / 2 ^ e + W * 2 ^ (7 - e) * 2) by ring.
  rewrite Z.div_add by lia.
  pose proof (Z.div_mod (b / 2 ^ e) 2 ltac:(lia)). lia.
Qed.

Lemma take_bits_prefix p n : 0 <= p -> take_bits p n = prefix (p + Z.of_nat n) mod 2 ^ Z.of_nat n.
Proof.
  intros Hp. induction n as [|n IH].
  - cbn [take_bits]. change (2 ^ Z.of_nat 0) with 1. rewrite Z.mod_1_r. reflexivity.
  - cbn [take_bits]. rewrite IH.
    replace (p + Z.of_nat (S n)) with (p + Z.of_nat n + 1) by lia.
    rewrite prefix_S by lia.
    replace (Z.of_nat (S n)) with (1 + Z.of_nat n) by lia.
    rewrite Z.pow_add_r by lia. change (2 ^ 1) with 2.
    set (P := prefix (p + Z.of_nat n)). set (m := 2 ^ Z.of_nat n).
    pose proof (stream_bit_range (p + Z.of_nat n)) as Hb.
    set (b := stream_bit (p + Z.of_nat n)) in *.
    assert (Hm : 0 < m) by (apply pow2_pos; lia).
    pose proof (Z.div_mod P m ltac:(lia)) as E.
    pose proof (Z.mod_pos_bound P m Hm) as Hr.
    apply Z.mod_unique_pos with (q := P / m); [nia | nia].
Qed.

Lemma take_bits_range p n : 0 <= take_bits p n < 2 ^ Z.of_nat n.
Proof.
  induction n as [|n IH]; [cbn; lia|].
  cbn [take_bits]. pose proof (stream_bit_range (p + Z.of_nat n)).
  replace (Z.of_nat (S n)) with (1 + Z.of_nat n) by lia.
  rewrite Z.pow_add_r by lia. change (2 ^ 1) with 2. lia.
Qed.

Lemma take_bits_app p a b :
  take_bits p (a + b) = take_bits p a * 2 ^ Z.of_nat b + take_bits (p + Z.of_nat a) b.
Proof.
  induction b as [|b IH].
  - replace (a + 0)%nat with a by lia. cbn [take_bits]. change (2 ^ Z.of_nat 0) with 1. lia.
  - replace (a + S b)%nat with (S (a + b)) by lia. cbn [take_bits]. rewrite IH.
    replace (Z.of_nat (S b)) with (1 + Z.of_nat b) by lia.
    rewrite Z.pow_add_r by lia. change (2 ^ 1) with 2.
    replace (p + Z.of_nat (a + b)) with (p + Z.of_nat a + Z.of_nat b) by lia. ring.
Qed.

(** The reader stands at bit [p] of the stream: it has fetched the bytes
    up to the one that holds bit [p - 1], and nothing further. *)
Definition reader_at (c : t) (p : Z) : Prop :=
  bytes <> [] /\
  exists vp : nat,
    holds c vp /\ bits_left c < 8 /\ 0 <= p /\ p = 8 * Z.of_nat vp - bits_left c.

Lemma reader_at_init : bytes <> [] -> reader_at (init_get_bits bytes) 0.
Proof. intros Hne. split; [exact Hne|]. exists 0%nat. split; [apply holds_init|]. cbn. lia. Qed.

Lemma reader_at_pos c p : reader_at c p -> 0 <= p.
Proof. intros (_ & vp & _ & _ & Hp & _). exact Hp. Qed.

Lemma reader_at_state c p : reader_at c p -> 0 <= state c < 2 ^ 64.
Proof.
  intros (_ & vp & (_ & Hb & Hs) & Hlt & _ & _). rewrite Hs.
  pose proof (pow2_pos (bits_left c) ltac:(lia)) as H1.
  pose proof (pow2_pos (64 - bits_left c) ltac:(lia)) as H2.
  pose proof (Z.mod_pos_bound (window vp) (2 ^ bits_left c) H1) as H3.
  assert (E : 2 ^ 64 = 2 ^ bits_left c * 2 ^ (64 - bits_left c)).
  { rewrite <- Z.pow_add_r by lia. f_equal. lia. }
  rewrite E. nia.
Qed.

Lemma get_bits_at c p n :
  reader_at c p -> 0 <= n <= 32 ->
  fst (get_bits c n) = take_bits p (Z.to_nat n) /\
  reader_at (snd (get_bits c n)) (p + n).
Proof.
  intros (Hne & vp & Hc & Hlt & Hp0 & Hp) Hn.
  destruct (get_bits_holds c vp n Hc Hn) as (vp' & Hvp & Hc' & Hpos & Hv).
  pose proof Hc' as (_ & Hb' & _).
  split.
  - rewrite Hv. rewrite take_bits_prefix by lia. rewrite Z2Nat.id by lia.
    rewrite <- (window_prefix vp' (p + n)) by lia.
    replace (8 * Z.of_nat vp' - (p + n)) with (bits_left (snd (get_bits c n))) by lia.
    reflexivity.
  - split; [exact Hne|]. exists vp'. split; [exact Hc'|]. split; [|lia].
    unfold get_bits. cbn [snd bits_left].
    destruct (Z.gtb_spec n (bits_left c)) as [Hgt|Hle].
    + destruct Hc as (Hpo & Hbl & Hst).
      destruct (refill_spec c vp n (conj Hpo (conj Hbl Hst))) as (j & _ & _ & _ & G); try lia.
      rewrite u32_small; lia.
    + destruct Hc as (_ & Hbl & _). rewrite u32_small; lia.
Qed.

Lemma length_nonempty : bytes <> [] -> (1 <= length bytes)%nat.
Proof. destruct bytes; [congruence | cbn; lia]. Qed.

(** [error] is set exactly when a bit past the end of the data was asked
    for. *)
Lemma reader_at_error c p :
  reader_at c p ->
  error c = if 8 * Z.of_nat (length bytes) <? p then 1 else 0.
Proof.
  intros (Hne & vp & ((_ & Hpos) & Hbl & _) & Hlt & _ & ->).
  apply length_nonempty in Hne.
  destruct Hpos as [(_ & He & _ & Hv)|(_ & _ & _ & _ & He)]; rewrite He.
  - destruct (Z.ltb_spec (8 * Z.of_nat (length bytes))
                         (8 * Z.of_nat vp - bits_left c)); [lia | reflexivity].
  - destruct (Nat.ltb_spec (Nat.max (length bytes) 1) vp);
      destruct (Z.ltb_spec (8 * Z.of_nat (length bytes))
                           (8 * Z.of_nat vp - bits_left c)); try reflexivity; lia.
Qed.

(** The bit position determines the reader. *)
Lemma reader_at_unique c c' p : reader_at c p -> reader_at c' p -> c = c'.
Proof.
  intros (_ & vp & ((Hd & Hpos) & Hbl & Hs) & Hlt & _ & Hp)
         (_ & vp' & ((Hd' & Hpos') & Hbl' & Hs') & Hlt' & _ & Hp').
  assert (vp' = vp) by lia. subst vp'.
  assert (Eb : bits_left c' = bits_left c) by lia.
  assert (Es : state c' = state c) by (rewrite Hs, Hs', Eb; reflexivity).
  destruct c as [er eo st bl pt da], c' as [er' eo' st' bl' pt' da'].
  cbn [error eof state bits_left ptr data] in *. subst.
  destruct Hpos as [(-> & -> & -> & Hv)|(-> & Hv & Hv1 & -> & ->)];
    destruct Hpos' as [(-> & -> & -> & Hv')|(-> & Hv' & Hv1' & -> & ->)];
    try reflexivity; lia.
Qed.

Lemma flush_get_bits_at c p :
  reader_at c p -> reader_at (snd (flush_get_bits c)) (8 * ((p + 7) / 8)).
Proof.
  intros (Hne & vp & ((Hd & Hpos) & Hbl & _) & Hlt & Hp0 & ->).
  assert (E : (8 * Z.of_nat vp - bits_left c + 7) / 8 = Z.of_nat vp).
  { symmetry. apply Z.div_unique with (r := 7 - bits_left c); lia. }
  rewrite E. split; [exact Hne|].
  exists vp. unfold flush_get_bits. cbn [snd bits_left].
  split; [|split; [lia | split; lia]].
  split; [split; [exact Hd | exact Hpos]|]. cbn [bits_left state].
  split; [lia|]. change (2 ^ 0) with 1. rewrite Z.mod_1_r. reflexivity.
Qed.

End Reader.

(** ** The bit reader against the byte stream *)

(** A run of [get_bits] calls, one per width of [ns]. *)
Fixpoint read_all (c : GetBits.t) (ns : list Z) : list Z * GetBits.t :=
  match ns with
  | [] => ([], c)
  | n :: ns' =>
      let '(v, c1) := GetBits.get_bits c n in
      let '(vs, c2) := read_all c1 ns' in
      (v :: vs, c2)
  end.

Fixpoint total (ns : list Z) : Z :=
  match ns with
  | [] => 0
  | n :: ns' => n + total ns'
  end.

(** An [n + 1]-bit field read as a two's complement number. *)
Definition signed_field (n v : Z) : Z := if v <? 2 ^ n then v else v - 2 ^ (n + 1).

Section ReaderFacts.

Import GetBits.

Variable bytes : list Z.

Lemma read_all_at ns :
  forall c p, reader_at bytes c p -> Forall (fun n => 0 <= n <= 32) ns ->
  reader_at bytes (snd (read_all c ns)) (p + total ns).
Proof.
  induction ns as [|n ns IH]; intros c p Hc Hns.
  - cbn [read_all total snd]. rewrite Z.add_0_r. exact Hc.
  - inversion Hns as [|n' ns' Hn Hns']; subst.
    destruct (get_bits_at bytes c p n Hc Hn) as [_ Hc1].
    cbn [read_all total]. destruct (get_bits c n) as [v c1]. cbn [snd] in Hc1.
    specialize (IH c1 (p + n) Hc1 Hns').
    destruct (read_all c1 ns) as [vs c2]. cbn [snd] in *.
    rewrite Z.add_assoc. exact IH.
Qed.

Lemma take_bits_1 p : take_bits bytes p 1 = stream_bit bytes p.
Proof. cbn [take_bits]. rewrite Z.add_0_r. lia. Qed.

Lemma get_bit_at c p :
  reader_at bytes c p ->
  fst (get_bits c 1) = stream_bit bytes p /\ reader_at bytes (snd (get_bits c 1)) (p + 1).
Proof.
  intros Hc. destruct (get_bits_at bytes c p 1 Hc ltac:(lia)) as [Hv Hc1].
  change (Z.to_nat 1) with 1%nat in Hv. rewrite take_bits_1 in Hv. split; assumption.
Qed.

(** The zero bits of [get_vlc]: [k] of them, then a set bit. *)
Lemma get_vlc_zeros_at (k : nat) :
  forall fuel c p nb,
    reader_at bytes c p ->
    (forall i, 0 <= i < Z.of_nat k -> stream_bit bytes (p + i) = 0) ->
    stream_bit bytes (p + Z.of_nat k) = 1 ->
    (k < fuel)%nat -> 0 <= nb -> nb + Z.of_nat k < 2 ^ 31 ->
    exists c', get_vlc_zeros fuel c nb = Some (nb + Z.of_nat k, c') /\
               reader_at bytes c' (p + Z.of_nat k + 1).
Proof.
  induction k as [|k IH]; intros fuel c p nb Hc Hz H1 Hf Hnb Hlim.
  - destruct fuel as [|fuel]; [lia|]. cbn [get_vlc_zeros].
    destruct (get_bit_at c p Hc) as [Hv Hc1].
    destruct (get_bits c 1) as [b c1]. cbn [fst snd] in *.
    rewrite Z.add_0_r in H1. rewrite Hv, H1. change (1 =? 0) with false. cbv iota.
    exists c1. rewrite !Z.add_0_r. split; [reflexivity | exact Hc1].
  - destruct fuel as [|fuel]; [lia|]. cbn [get_vlc_zeros].
    destruct (get_bit_at c p Hc) as [Hv Hc1].
    destruct (get_bits c 1) as [b c1]. cbn [fst snd] in *.
    rewrite Hv. specialize (Hz 0 ltac:(lia)) as Hz0. rewrite Z.add_0_r in Hz0.
    rewrite Hz0. change (0 =? 0) with true. cbv iota.
    rewrite s32_small by lia.
    destruct (IH fuel c1 (p + 1) (nb + 1) Hc1) as (c' & E & Hc'); try lia.
    + intros i Hi. replace (p + 1 + i) with (p + (i + 1)) by lia. apply Hz. lia.
    + replace (p + 1 + Z.of_nat k) with (p + Z.of_nat (S k)) by lia. exact H1.
    + exists c'. rewrite E. split.
      * do 2 f_equal. lia.
      * replace (p + Z.of_nat (S k) + 1) with (p + 1 + Z.of_nat k + 1) by lia. exact Hc'.
Qed.

Lemma get_vlc_zeros_none fuel :
  forall c p nb,
    reader_at bytes c p -> (forall i, p <= i -> stream_bit bytes i = 0) ->
    get_vlc_zeros fuel c nb = None.
Proof.
  induction fuel as [|fuel IH]; intros c p nb Hc Hz; [reflexivity|].
  cbn [get_vlc_zeros]. destruct (get_bit_at c p Hc) as [Hv Hc1].
  destruct (get_bits c 1) as [b c1]. cbn [fst snd] in *.
  rewrite Hv, (Hz p) by lia. change (0 =? 0) with true. cbv iota.
  apply (IH c1 (p + 1)); [exact Hc1|]. intros i Hi. apply Hz. lia.
Qed.

Lemma stream_bit_end i : 8 * Z.of_nat (length bytes) <= i -> stream_bit bytes i = 0.
Proof.
  intros Hi. unfold stream_bit. rewrite byte_at_end; [rewrite Z.testbit_0_l; reflexivity|].
  assert (Z.of_nat (length bytes) <= i / 8) by (apply Z.div_le_lower_bound; lia). lia.
Qed.

Lemma take_bits_byte (q : nat) : take_bits bytes (8 * Z.of_nat q) 8 = byte_at bytes q.
Proof.
  rewrite take_bits_prefix by lia.
  rewrite <- (window_prefix bytes (S q)) by lia.
  replace (8 * Z.of_nat (S q) - (8 * Z.of_nat q + Z.of_nat 8)) with 0 by lia.
  change (2 ^ 0) with 1. rewrite Z.div_1_r. cbn [window].
  change (2 ^ Z.of_nat 8) with 256.
  rewrite Z.add_comm, Z.mod_add by lia. apply Z.mod_small, byte_at_range.
Qed.

End ReaderFacts.

(** [get_uniform] against the stream. *)
Lemma get_uniform_at (bytes : list Z) (c : GetBits.t) (p N : Z) :
  reader_at bytes c p -> 1 <= N < 2 ^ 31 ->
  let l := ulog2 N + 1 in
  let m := 2 ^ l - N in
  let v := take_bits bytes p (Z.to_nat (l - 1)) in
  (if v <? m
   then fst (GetBits.get_uniform c N) = v /\
        reader_at bytes (snd (GetBits.get_uniform c N)) (p + (l - 1))
   else fst (GetBits.get_uniform c N) = 2 * v - m + stream_bit bytes (p + (l - 1)) /\
        reader_at bytes (snd (GetBits.get_uniform c N)) (p + l)) /\
  0 <= fst (GetBits.get_uniform c N) < N.
Proof.
  intros Hc HN l m v.
  destruct (uniform_lm N HN) as (Hl & Hpow & Hm). fold l in Hl, Hpow, Hm.
  split; [|apply get_uniform_range; [apply (reader_at_state bytes c p Hc) | exact HN]].
  destruct (get_bits_at bytes c p (l - 1) Hc ltac:(lia)) as [Hv Hc1]. fold v in Hv.
  pose proof (take_bits_range bytes p (Z.to_nat (l - 1))) as Hr. fold v in Hr.
  rewrite Z2Nat.id in Hr by lia.
  assert (Hp30 : 2 ^ (l - 1) <= 2 ^ 30) by (apply Z.pow_le_mono_r; lia).
  assert (Hpl : 2 ^ l = 2 * 2 ^ (l - 1)).
  { replace l with (l - 1 + 1) at 1 by lia. rewrite Z.pow_add_r by lia. lia. }
  unfold GetBits.get_uniform. fold l. rewrite Hm. fold m.
  destruct (GetBits.get_bits c (l - 1)) as [v0 c1]. cbn [fst snd] in *. subst v0.
  rewrite (s32_small v) by lia.
  destruct (Z.ltb_spec v m) as [Hlt|Hge]; cbn [fst snd].
  - split; [apply u32_small; lia | exact Hc1].
  - destruct (get_bit_at bytes c1 (p + (l - 1)) Hc1) as [Hb Hc2].
    pose proof (stream_bit_range bytes (p + (l - 1))) as Hbr.
    destruct (GetBits.get_bits c1 1) as [b c2]. cbn [fst snd] in *. subst b.
    rewrite Z.shiftl_mul_pow2 by lia. change (2 ^ 1) with 2.
    unfold m in *. rewrite (s32_small (v * 2)) by lia.
    rewrite s32_small by lia. rewrite u32_small by lia.
    split; [lia|]. replace (p + l) with (p + (l - 1) + 1) by lia. exact Hc2.
Qed.

(** X1.  [get_bits(c, n)] returns the next [n] bits of the byte buffer as a
    number, most significant bit first, reading zero bits past the end of
    the buffer, and leaves the reader [n] bits further. *)
Theorem get_bits_reads_stream (bytes : list Z) (c : GetBits.t) (p n : Z) :
  reader_at bytes c p -> 0 <= n <= 32 ->
  fst (GetBits.get_bits c n) = take_bits bytes p (Z.to_nat n) /\
  0 <= fst (GetBits.get_bits c n) < 2 ^ n /\
  reader_at bytes (snd (GetBits.get_bits c n)) (p + n).
Proof.
  intros Hc Hn. destruct (get_bits_at bytes c p n Hc Hn) as [Hv Hc1].
  split; [exact Hv|]. split; [|exact Hc1].
  rewrite Hv. pose proof (take_bits_range bytes p (Z.to_nat n)) as H.
  rewrite Z2Nat.id in H by lia. exact H.
Qed.

Lemma get_bits_reads_stream_witness :
  fst (GetBits.get_bits (snd (GetBits.get_bits (GetBits.init_get_bits [165; 60]) 3)) 7)
    = take_bits [165; 60] 3 7.
Proof.
  refine (proj1 (get_bits_reads_stream [165; 60] _ 3 7 _ _)); [|lia].
  refine (proj2 (proj2 (get_bits_reads_stream [165; 60] _ 0 3 _ _))); [|lia].
  apply reader_at_init. discriminate.
Defined.

(** X2.  Two reads in a row are one read of the sum of the widths: the
    value of the wide read is the first value followed by the second, and
    the reader is left in the same state. *)
Theorem get_bits_split (bytes : list Z) (c : GetBits.t) (p a b : Z) :
  reader_at bytes c p -> 0 <= a -> 0 <= b -> a + b <= 32 ->
  GetBits.get_bits c (a + b) =
    (fst (GetBits.get_bits c a) * 2 ^ b
       + fst (GetBits.get_bits (snd (GetBits.get_bits c a)) b),
     snd (GetBits.get_bits (snd (GetBits.get_bits c a)) b)).
Proof.
  intros Hc Ha Hb Hab.
  destruct (get_bits_at bytes c p (a + b) Hc ltac:(lia)) as [Hv Hc'].
  destruct (get_bits_at bytes c p a Hc ltac:(lia)) as [Hva Hc1].
  destruct (get_bits_at bytes _ (p + a) b Hc1 ltac:(lia)) as [Hvb Hc2].
  rewrite (surjective_pairing (GetBits.get_bits c (a + b))). f_equal.
  - rewrite Hv, Hva, Hvb. rewrite Z2Nat.inj_add by lia.
    rewrite take_bits_app. rewrite !Z2Nat.id by lia. reflexivity.
  - apply (reader_at_unique bytes _ _ (p + a + b)); [|exact Hc2].
    rewrite <- Z.add_assoc. exact Hc'.
Qed.

Lemma get_bits_split_witness :
  GetBits.get_bits (GetBits.init_get_bits [165; 60]) (3 + 7) =
    (fst (GetBits.get_bits (GetBits.init_get_bits [165; 60]) 3) * 2 ^ 7
       + fst (GetBits.get_bits (snd (GetBits.get_bits (GetBits.init_get_bits [165; 60]) 3)) 7),
     snd (GetBits.get_bits (snd (GetBits.get_bits (GetBits.init_get_bits [165; 60]) 3)) 7)).
Proof.
  apply (get_bits_split [165; 60] _ 0 3 7); [apply reader_at_init; discriminate | lia | lia | lia].
Defined.

(** X3.  After any run of [get_bits] calls on a fresh reader over a
    non-empty buffer, [error] is set exactly when more bits were asked for
    than the buffer holds. *)
Theorem get_bits_error_flag (bytes : list Z) (ns : list Z) :
  bytes <> [] -> Forall (fun n => 0 <= n <= 32) ns ->
  GetBits.error (snd (read_all (GetBits.init_get_bits bytes) ns)) =
    if 8 * Z.of_nat (length bytes) <? total ns then 1 else 0.
Proof.
  intros Hne Hns.
  apply (reader_at_error bytes _ (total ns)).
  apply (read_all_at bytes ns _ 0 (reader_at_init bytes Hne) Hns).
Qed.

Lemma get_bits_error_flag_witness :
  GetBits.error (snd (read_all (GetBits.init_get_bits [165; 60]) [9; 7; 1])) = 1.
Proof.
  apply (get_bits_error_flag [165; 60] [9; 7; 1]); [discriminate|].
  repeat constructor; lia.
Defined.

(** X4.  [get_sbits(c, n)] reads [n + 1] bits and returns them as a two's
    complement number, in [-2^n, 2^n). *)
Theorem get_sbits_sign_extends (bytes : list Z) (c : GetBits.t) (p n : Z) :
  reader_at bytes c p -> 0 <= n <= 31 ->
  fst (GetBits.get_sbits c n) = signed_field n (take_bits bytes p (Z.to_nat (n + 1))) /\
  - 2 ^ n <= fst (GetBits.get_sbits c n) < 2 ^ n /\
  reader_at bytes (snd (GetBits.get_sbits c n)) (p + (n + 1)).
Proof.
  intros Hc Hn. unfold GetBits.get_sbits.
  rewrite (u32_small (31 - n)) by lia. rewrite (s32_small (31 - n)) by lia.
  rewrite (u32_small (n + 1)) by lia.
  destruct (get_bits_at bytes c p (n + 1) Hc ltac:(lia)) as [Hv Hc1].
  pose proof (take_bits_range bytes p (Z.to_nat (n + 1))) as Hr.
  rewrite Z2Nat.id in Hr by lia.
  destruct (GetBits.get_bits c (n + 1)) as [v c1]. cbn [fst snd] in *.
  rewrite <- Hv in *. clear Hv.
  pose proof (pow2_pos n ltac:(lia)) as Hp1.
  pose proof (pow2_pos (31 - n) ltac:(lia)) as Hp2.
  assert (E1 : 2 ^ (n + 1) = 2 * 2 ^ n).
  { rewrite Z.pow_add_r by lia. change (2 ^ 1) with 2. lia. }
  assert (E2 : 2 ^ n * 2 ^ (31 - n) = 2 ^ 31).
  { rewrite <- Z.pow_add_r by lia. f_equal. lia. }
  assert (Hres : Z.shiftr (s32 (u32 (Z.shiftl v (31 - n)))) (31 - n) = signed_field n v).
  { rewrite Z.shiftl_mul_pow2, Z.shiftr_div_pow2 by lia.
    rewrite u32_small by nia. unfold signed_field.
    destruct (Z.ltb_spec v (2 ^ n)) as [Hlt|Hge].
    - rewrite s32_small by nia. apply Z.div_mul. lia.
    - unfold s32. replace (v * 2 ^ (31 - n) + 2 ^ 31)
        with (v * 2 ^ (31 - n) - 2 ^ 31 + 1 * 2 ^ 32) by lia.
      rewrite Z.mod_add by lia. rewrite Z.mod_small by nia.
      replace (v * 2 ^ (31 - n) - 2 ^ 31 - 2 ^ 31)
        with ((v - 2 ^ (n + 1)) * 2 ^ (31 - n)) by nia.
      apply Z.div_mul. lia. }
  rewrite Hres. split; [reflexivity|]. split; [|exact Hc1].
  unfold signed_field. destruct (Z.ltb_spec v (2 ^ n)); lia.
Qed.

Lemma get_sbits_sign_extends_witness :
  fst (GetBits.get_sbits (GetBits.init_get_bits [165; 60]) 3) = -6.
Proof.
  refine (proj1 (get_sbits_sign_extends [165; 60] _ 0 3 _ _)); [|lia].
  apply reader_at_init. discriminate.
Defined.

(** X5.  [get_uniform(c, n)], for [1 <= n < 2^31], with [l = ulog2(n) + 1]
    and [m = 2^l - n]: it reads [l - 1] bits; a value [v < m] is the result;
    otherwise one more bit [b] is read and the result is [2 v - m + b].  The
    result is below [n] in both cases. *)
Theorem get_uniform_value (bytes : list Z) (c : GetBits.t) (p N : Z) :
  reader_at bytes c p -> 1 <= N < 2 ^ 31 ->
  let l := ulog2 N + 1 in
  let m := 2 ^ l - N in
  let v := take_bits bytes p (Z.to_nat (l - 1)) in
  (if v <? m
   then fst (GetBits.get_uniform c N) = v /\
        reader_at bytes (snd (GetBits.get_uniform c N)) (p + (l - 1))
   else fst (GetBits.get_uniform c N) = 2 * v - m + stream_bit bytes (p + (l - 1)) /\
        reader_at bytes (snd (GetBits.get_uniform c N)) (p + l)) /\
  0 <= fst (GetBits.get_uniform c N) < N.
Proof. exact (get_uniform_at bytes c p N). Qed.

Lemma get_uniform_value_witness :
  0 <= fst (GetBits.get_uniform (GetBits.init_get_bits [165; 60]) 5) < 5.
Proof.
  refine (proj2 (get_uniform_value [165; 60] _ 0 5 _ _)); [apply reader_at_init; discriminate|].
  change (2 ^ 31) with 2147483648. lia.
Defined.

(** The four bytes of a 32-bit number, most significant first. *)
Definition be32 (V : Z) : list Z :=
  [V / 2 ^ 24 mod 256; V / 2 ^ 16 mod 256; V / 2 ^ 8 mod 256; V mod 256].

Lemma window_be32 V : 0 <= V < 2 ^ 32 -> window (be32 V) 4 = V.
Proof.
  intros HV. unfold be32. cbn [window]. unfold byte_at. cbn [nth].
  rewrite !u8_small by (apply Z.mod_pos_bound; lia).
  change (2 ^ 24) with (256 * 256 * 256). change (2 ^ 16) with (256 * 256).
  change (2 ^ 8) with 256. change (2 ^ 32) with (256 * 256 * 256 * 256) in HV.
  pose proof (Z.div_mod V 256 ltac:(lia)) as E0.
  pose proof (Z.div_mod (V / 256) 256 ltac:(lia)) as E1.
  pose proof (Z.div_mod (V / 256 / 256) 256 ltac:(lia)) as E2.
  rewrite <- !Z.div_div by lia.
  assert (H3 : 0 <= V / 256 / 256 / 256 < 256).
  { split; [repeat apply Z.div_pos; lia|].
    repeat (apply Z.div_lt_upper_bound; [lia|]). lia. }
  rewrite (Z.mod_small (V / 256 / 256 / 256)) by lia. lia.
Qed.

(** The leading [n] bits of a left-aligned 32-bit code word. *)
Lemma take_bits_be32 V n :
  0 <= V < 2 ^ 32 -> 0 <= n <= 32 ->
  take_bits (be32 V) 0 (Z.to_nat n) = V / 2 ^ (32 - n).
Proof.
  intros HV Hn. rewrite take_bits_prefix by lia. rewrite Z2Nat.id by lia.
  rewrite Z.add_0_l. rewrite <- (window_prefix (be32 V) 4) by lia.
  rewrite window_be32 by lia. change (8 * Z.of_nat 4) with 32.
  apply Z.mod_small. split; [apply Z.div_pos; [lia | apply pow2_pos; lia]|].
  apply Z.div_lt_upper_bound; [apply pow2_pos; lia|].
  rewrite <- Z.pow_add_r by lia. replace (32 - n + n) with 32 by lia. lia.
Qed.

(** X6.  [get_uniform(c, n)] reaches every value below [n]: each has a code
    word of [l - 1] or [l] bits that is read back as that value. *)
Theorem get_uniform_onto (N x : Z) :
  1 <= N < 2 ^ 31 -> 0 <= x < N ->
  exists bytes : list Z,
    fst (GetBits.get_uniform (GetBits.init_get_bits bytes) N) = x.
Proof.
  intros HN Hx.
  destruct (uniform_lm N HN) as (Hl & Hpow & _). cbv zeta in Hl, Hpow.
  set (l := ulog2 N + 1) in *. set (m := 2 ^ l - N).
  assert (Hpl : 2 ^ l = 2 * 2 ^ (l - 1)).
  { replace l with (l - 1 + 1) at 1 by lia. rewrite Z.pow_add_r by lia. lia. }
  pose proof (pow2_pos (l - 1) ltac:(lia)) as Hp1.
  pose proof (pow2_pos (32 - l) ltac:(lia)) as Hp2.
  assert (E32 : 2 ^ l * 2 ^ (32 - l) = 2 ^ 32).
  { rewrite <- Z.pow_add_r by lia. f_equal. lia. }
  assert (E33 : 2 ^ (32 - (l - 1)) = 2 * 2 ^ (32 - l)).
  { replace (32 - (l - 1)) with (1 + (32 - l)) by lia. rewrite Z.pow_add_r by lia. reflexivity. }
  destruct (Z.ltb_spec x m) as [Hlt|Hge].
  - set (V := x * 2 ^ (32 - (l - 1))).
    assert (HV : 0 <= V < 2 ^ 32) by (unfold V; nia).
    exists (be32 V).
    pose proof (get_uniform_at (be32 V) _ 0 N (reader_at_init (be32 V) ltac:(unfold be32; discriminate)) HN) as [H _].
    cbv zeta in H. fold l in H. fold m in H.
    rewrite take_bits_be32 in H by lia.
    unfold V in H at 1 3. rewrite Z.div_mul in H by lia.
    destruct (Z.ltb_spec x m); [exact (proj1 H) | lia].
  - set (V := (x + m) * 2 ^ (32 - l)).
    assert (HV : 0 <= V < 2 ^ 32) by (unfold V, m in *; nia).
    exists (be32 V).
    pose proof (get_uniform_at (be32 V) _ 0 N (reader_at_init (be32 V) ltac:(unfold be32; discriminate)) HN) as [H _].
    cbv zeta in H. fold l in H. fold m in H.
    assert (Ew : take_bits (be32 V) 0 (Z.to_nat l) = x + m).
    { rewrite take_bits_be32 by lia. unfold V. apply Z.div_mul. lia. }
    replace (Z.to_nat l) with (Z.to_nat (l - 1) + 1)%nat in Ew by lia.
    rewrite take_bits_app, take_bits_1 in Ew.
    rewrite Z2Nat.id in Ew by lia. change (2 ^ Z.of_nat 1) with 2 in Ew.
    pose proof (stream_bit_range (be32 V) (0 + (l - 1))) as Hb.
    set (v := take_bits (be32 V) 0 (Z.to_nat (l - 1))) in *.
    destruct (Z.ltb_spec v m) as [Hv|Hv]; [lia|].
    rewrite (proj1 H). lia.
Qed.

Lemma get_uniform_onto_witness :
  exists bytes : list Z, fst (GetBits.get_uniform (GetBits.init_get_bits bytes) 5) = 4.
Proof.
  apply (get_uniform_onto 5 4); [change (2 ^ 31) with 2147483648|]; lia.
Defined.

(** X7.  [get_vlc] on [k] zero bits, a set bit and [k] further bits returns
    [2^k - 1] plus the value of the further bits when [k <= 30], and
    [0xFFFFFFFF] without reading further bits when [k >= 32]; any fuel above
    [k] is enough. *)
Theorem get_vlc_value (bytes : list Z) (c : GetBits.t) (p : Z) (k fuel : nat) :
  reader_at bytes c p ->
  (forall i, 0 <= i < Z.of_nat k -> stream_bit bytes (p + i) = 0) ->
  stream_bit bytes (p + Z.of_nat k) = 1 ->
  (k < fuel)%nat -> Z.of_nat k < 2 ^ 31 -> k <> 31%nat ->
  exists c',
    GetBits.get_vlc fuel c =
      Some (if Z.of_nat k <? 32
            then 2 ^ Z.of_nat k - 1 + take_bits bytes (p + Z.of_nat k + 1) k
            else 4294967295, c') /\
    reader_at bytes c' (if Z.of_nat k <? 32 then p + 2 * Z.of_nat k + 1
                        else p + Z.of_nat k + 1).
Proof.
  intros Hc Hz H1 Hf Hk Hk31.
  destruct (get_vlc_zeros_at bytes k fuel c p 0 Hc Hz H1 Hf ltac:(lia) ltac:(lia))
    as (c1 & E & Hc1).
  unfold GetBits.get_vlc. rewrite E. rewrite Z.add_0_l.
  destruct (Z.ltb_spec (Z.of_nat k) 32) as [Hlt|Hge].
  - destruct (Z.geb_spec (Z.of_nat k) 32) as [?|_]; [lia|].
    rewrite u32_small by lia.
    destruct (get_bits_at bytes c1 _ (Z.of_nat k) Hc1 ltac:(lia)) as [Hv Hc2].
    rewrite Nat2Z.id in Hv.
    pose proof (take_bits_range bytes (p + Z.of_nat k + 1) k) as Hr.
    destruct (GetBits.get_bits c1 (Z.of_nat k)) as [v c2]. cbn [fst snd] in *.
    exists c2. split.
    + do 2 f_equal. rewrite Z.shiftl_1_l.
      assert (Hp : 0 < 2 ^ Z.of_nat k <= 2 ^ 30).
      { split; [apply pow2_pos; lia | apply Z.pow_le_mono_r; lia]. }
      rewrite (s32_small (2 ^ _)) by lia. rewrite s32_small by lia.
      rewrite Hv. apply u32_small. lia.
    + replace (p + 2 * Z.of_nat k + 1) with (p + Z.of_nat k + 1 + Z.of_nat k) by lia.
      exact Hc2.
  - destruct (Z.geb_spec (Z.of_nat k) 32) as [_|?]; [|lia].
    exists c1. split; [reflexivity | exact Hc1].
Qed.

Lemma get_vlc_value_witness :
  exists c', GetBits.get_vlc 3 (GetBits.init_get_bits [44]) = Some (4, c') /\
             reader_at [44] c' 5.
Proof.
  refine (get_vlc_value [44] _ 0 2 3 (reader_at_init [44] ltac:(discriminate)) _ _ _ _ _);
    [| reflexivity | lia | change (2 ^ 31) with 2147483648; lia | lia].
  intros i Hi. assert (Hc : i = 0 \/ i = 1) by lia. destruct Hc as [->| ->]; reflexivity.
Defined.

(** X8.  [get_vlc] never returns once no set bit is left in the stream: in
    particular on a reader that stands at or past the end of the buffer,
    where every bit reads as zero, the loop runs out of any fuel. *)
Theorem get_vlc_zero_tail (bytes : list Z) (c : GetBits.t) (p : Z) (fuel : nat) :
  reader_at bytes c p -> 8 * Z.of_nat (length bytes) <= p ->
  GetBits.get_vlc fuel c = None.
Proof.
  intros Hc Hp. unfold GetBits.get_vlc.
  rewrite (get_vlc_zeros_none bytes fuel c p 0 Hc); [reflexivity|].
  intros i Hi. apply stream_bit_end. lia.
Qed.

Lemma get_vlc_zero_tail_witness :
  GetBits.get_vlc 1000 (snd (GetBits.get_bits (GetBits.init_get_bits [165; 60]) 16)) = None.
Proof.
  refine (get_vlc_zero_tail [165; 60] _ 16 1000 _ _); [|cbn; lia].
  refine (proj2 (get_bits_at [165; 60] _ 0 16 (reader_at_init [165; 60] ltac:(discriminate)) _)). lia.
Defined.

(** X9.  [flush_get_bits] drops the bits left of the current byte: the
    reader stands at the next byte boundary, so that the next eight bits
    read are the whole byte there, and the pointer returned is the index of
    that byte, capped at the end of the buffer. *)
Theorem flush_get_bits_realigns (bytes : list Z) (c : GetBits.t) (p : Z) :
  reader_at bytes c p ->
  let q := Z.to_nat ((p + 7) / 8) in
  reader_at bytes (snd (GetBits.flush_get_bits c)) (8 * Z.of_nat q) /\
  fst (GetBits.get_bits (snd (GetBits.flush_get_bits c)) 8) = byte_at bytes q /\
  fst (GetBits.flush_get_bits c) = Nat.min q (length bytes).
Proof.
  intros Hc q.
  pose proof (reader_at_pos bytes c p Hc) as Hp.
  assert (Hq : 0 <= (p + 7) / 8) by (apply Z.div_pos; lia).
  assert (Hf : reader_at bytes (snd (GetBits.flush_get_bits c)) (8 * Z.of_nat q)).
  { unfold q. rewrite Z2Nat.id by lia. apply flush_get_bits_at. exact Hc. }
  split; [exact Hf|]. split.
  - destruct (get_bits_at bytes _ _ 8 Hf ltac:(lia)) as [Hv _].
    rewrite Hv. change (Z.to_nat 8) with 8%nat. apply take_bits_byte.
  - destruct Hc as (Hne & vp & ((_ & Hpos) & Hbl & _) & Hlt & _ & ->).
    apply length_nonempty in Hne.
    assert (E : (8 * Z.of_nat vp - GetBits.bits_left c + 7) / 8 = Z.of_nat vp).
    { symmetry. apply Z.div_unique with (r := 7 - GetBits.bits_left c); lia. }
    unfold q. rewrite E, Nat2Z.id. unfold GetBits.flush_get_bits. cbn [fst].
    destruct Hpos as [(_ & _ & Hptr & Hv)|(_ & Hv & Hv1 & Hptr & _)]; lia.
Qed.

Lemma flush_get_bits_realigns_witness :
  fst (GetBits.get_bits
         (snd (GetBits.flush_get_bits
                 (snd (GetBits.get_bits (GetBits.init_get_bits [165; 60]) 3)))) 8) = 60.
Proof.
  refine (proj1 (proj2 (flush_get_bits_realigns [165; 60] _ 3 _))).
  refine (proj2 (get_bits_at [165; 60] _ 0 3 (reader_at_init [165; 60] ltac:(discriminate)) _)). lia.
Defined.

(** ** C8: the uniform code written and read back *)

Section Written.

Import PutBits.

Lemma length_bytes_be k x : length (bytes_be k x) = k.
Proof. induction k as [|k IH]; [reflexivity|]. cbn [bytes_be length]. rewrite IH. reflexivity. Qed.

Lemma nth_bytes_be k x : forall j, (j < k)%nat ->
  nth j (bytes_be k x) 0 = (x / 2 ^ (8 * Z.of_nat (k - 1 - j))) mod 256.
Proof.
  induction k as [|k IH]; intros j Hj; [lia|].
  cbn [bytes_be]. destruct j as [|j]; cbn [nth].
  - replace (S k - 1 - 0)%nat with k by lia. reflexivity.
  - rewrite IH by lia. replace (S k - 1 - S j)%nat with (k - 1 - j)%nat by lia. reflexivity.
Qed.

(** The first [j] bytes of the [k] bytes of [x] are its leading [8 j] bits. *)
Lemma window_bytes_be k x j :
  (j <= k)%nat ->
  window (bytes_be k x) j = (x / 2 ^ (8 * Z.of_nat (k - j))) mod 2 ^ (8 * Z.of_nat j).
Proof.
  induction j as [|j IH]; intros Hj.
  - cbn [window]. change (2 ^ (8 * Z.of_nat 0)) with 1. rewrite Z.mod_1_r. reflexivity.
  - cbn [window]. rewrite IH by lia. unfold byte_at. rewrite nth_bytes_be by lia.
    rewrite u8_small by (apply Z.mod_pos_bound; lia).
    replace (k - 1 - j)%nat with (k - S j)%nat by lia.
    set (y := x / 2 ^ (8 * Z.of_nat (k - S j))).
    replace (x / 2 ^ (8 * Z.of_nat (k - j))) with (y / 256).
    2:{ unfold y. replace (8 * Z.of_nat (k - j)) with (8 * Z.of_nat (k - S j) + 8) by lia.
        rewrite div_pow_add by lia. reflexivity. }
    replace (2 ^ (8 * Z.of_nat (S j))) with (256 * 2 ^ (8 * Z.of_nat j)).
    2:{ replace (8 * Z.of_nat (S j)) with (8 + 8 * Z.of_nat j) by lia.
        rewrite Z.pow_add_r by lia. reflexivity. }
    rewrite Z.rem_mul_r by (try apply pow2_pos; lia). lia.
Qed.

(** The bytes of a flushed writer start with the bits written. *)
Lemma take_bits_flush (w : PutBits.t) :
  0 <= nbits w -> 0 <= acc w < 2 ^ nbits w ->
  take_bits (flush_put_bits w) 0 (Z.to_nat (nbits w)) = acc w.
Proof.
  intros Hn Ha. unfold flush_put_bits.
  set (n := nbits w) in *. set (K := (n + 7) / 8).
  assert (HK : 8 * K <= n + 7 < 8 * K + 8).
  { pose proof (Z.div_mod (n + 7) 8 ltac:(lia)).
    pose proof (Z.mod_pos_bound (n + 7) 8 ltac:(lia)). unfold K. lia. }
  set (x := acc w * 2 ^ (8 * K - n)).
  pose proof (pow2_pos (8 * K - n) ltac:(lia)) as Hp.
  rewrite take_bits_prefix by lia. rewrite Z2Nat.id by lia. rewrite Z.add_0_l.
  unfold prefix. fold K.
  rewrite window_bytes_be by lia. rewrite Nat.sub_diag. change (8 * Z.of_nat 0) with 0.
  change (2 ^ 0) with 1. rewrite Z.div_1_r. rewrite Z2Nat.id by lia.
  assert (Hx : 0 <= x < 2 ^ (8 * K)).
  { replace (8 * K) with (n + (8 * K - n)) by lia. rewrite Z.pow_add_r by lia.
    unfold x. nia. }
  rewrite (Z.mod_small x) by exact Hx.
  unfold x. rewrite Z.div_mul by lia. apply Z.mod_small. exact Ha.
Qed.

Lemma flush_nonempty (w : PutBits.t) : 1 <= nbits w -> flush_put_bits w <> [].
Proof.
  intros Hn E. apply (f_equal (@length Z)) in E. unfold flush_put_bits in E.
  rewrite length_bytes_be in E. cbn [length] in E.
  assert (1 <= (nbits w + 7) / 8) by (apply Z.div_le_lower_bound; lia). lia.
Qed.

Lemma put_bits_some w n v :
  0 < n -> put_bits w n v = mk (acc w * 2 ^ n + v mod 2 ^ n) (nbits w + n).
Proof. intros H. unfold put_bits. destruct (Z.leb_spec n 0); [lia | reflexivity]. Qed.

Lemma put_bits_none w n v : n <= 0 -> put_bits w n v = w.
Proof. intros H. unfold put_bits. destruct (Z.leb_spec n 0); [reflexivity | lia]. Qed.

Lemma land_1 x : Z.land x 1 = x mod 2.
Proof. change 1 with (Z.ones 1). rewrite Z.land_ones by lia. reflexivity. Qed.

(** The code word of the specification's codebook, for [N >= 2], in terms
    of [l = ulog2(N) + 1] and [m = 2^l - N] of [get_uniform]: [v] itself
    on [l - 1] bits when [v < m], and [v + m] on [l] bits otherwise.  For
    [N = 1] it is one zero bit. *)
Lemma put_uniform_word N v :
  1 <= N -> 0 <= v < N ->
  let w := put_uniform empty N v in
  let l := ulog2 N + 1 in
  let m := 2 ^ l - N in
  (N = 1 -> nbits w = 1 /\ acc w = 0) /\
  (2 <= N ->
   (v < m -> nbits w = l - 1 /\ acc w = v) /\
   (m <= v -> nbits w = l /\ acc w = v + m)).
Proof.
  intros HN Hv w l m. split.
  - intros ->. assert (v = 0) by lia. subst v. split; reflexivity.
  - intros H2. unfold ulog2 in l.
    pose proof (Z.log2_spec N ltac:(lia)) as Hs.
    pose proof (Z.log2_up_spec N ltac:(lia)) as Hu.
    pose proof (Z.log2_nonneg N) as H0.
    assert (Hl1 : 1 <= Z.log2 N).
    { apply Z.log2_le_pow2; [lia|]. change (2 ^ 1) with 2. lia. }
    replace (Z.succ (Z.log2 N)) with l in Hs by (unfold l; lia).
    assert (Hpl : 2 ^ l = 2 * 2 ^ (l - 1)).
    { replace l with (l - 1 + 1) at 1 by lia. rewrite Z.pow_add_r by lia. lia. }
    replace (Z.log2 N) with (l - 1) in Hs by (unfold l; lia).
    set (L := Z.log2_up N) in *.
    assert (HL1 : 1 <= L).
    { destruct (Z.le_gt_cases 1 L) as [|Hlt]; [assumption|].
      assert (L <= 0) by lia.
      assert (2 ^ L <= 2 ^ 0) by (apply Z.pow_le_mono_r; lia || (unfold L; apply Z.log2_up_nonneg)).
      change (2 ^ 0) with 1 in *. lia. }
    assert (HpL : 2 ^ L = 2 * 2 ^ (L - 1)).
    { replace L with (L - 1 + 1) at 1 by lia. rewrite Z.pow_add_r by lia. lia. }
    replace (Z.pred L) with (L - 1) in Hu by lia.
    pose proof (pow2_pos (L - 1) ltac:(lia)) as HpL1.
    pose proof (pow2_pos (l - 1) ltac:(lia)) as Hpl1.
    assert (Hcase : (N = 2 ^ L /\ l = L + 1) \/ (N < 2 ^ L /\ l = L)).
    { destruct (Z.eq_dec N (2 ^ L)) as [E|E].
      - left. split; [exact E|].
        assert (l - 1 = L); [|lia].
        apply (Z.pow_inj_r 2); try lia.
        destruct (Z.lt_trichotomy (l - 1) L) as [Hlt|[Heq|Hgt]].
        + assert (2 ^ l <= 2 ^ L) by (apply Z.pow_le_mono_r; lia). lia.
        + rewrite Heq. reflexivity.
        + assert (2 ^ (L + 1) <= 2 ^ (l - 1)) by (apply Z.pow_le_mono_r; lia).
          rewrite Z.pow_add_r in H by lia. lia.
      - right. split; [lia|].
        destruct (Z.lt_trichotomy l L) as [Hlt|[Heq|Hgt]].
        + assert (2 ^ l <= 2 ^ (L - 1)) by (apply Z.pow_le_mono_r; lia). lia.
        + exact Heq.
        + assert (2 ^ L <= 2 ^ (l - 1)) by (apply Z.pow_le_mono_r; lia). lia. }
    subst w. unfold put_uniform. fold L.
    destruct Hcase as [[EN El]|[EN El]].
    + (* a power of two: both codes are v on L bits *)
      assert (Em : m = N) by (unfold m; rewrite El, Z.pow_add_r by lia; change (2 ^ 1) with 2; lia).
      replace (2 ^ L - N) with 0 by lia.
      destruct (Z.ltb_spec v 0) as [|_]; [lia|].
      rewrite Z.add_0_r. rewrite Z.shiftr_div_pow2 by lia. change (2 ^ 1) with 2.
      rewrite land_1.
      split; [|intros; lia]. intros _.
      rewrite (put_bits_some _ 1) by lia. cbn [acc nbits].
      change (2 ^ 1) with 2. rewrite Z.mod_mod by lia.
      pose proof (Z.div_mod v 2 ltac:(lia)) as Hdm.
      destruct (Z.le_gt_cases (L - 1) 0) as [Hz|Hz].
      * rewrite put_bits_none by lia. cbn [acc nbits empty].
        assert (EL : L = 1) by lia. rewrite EL in *. change (2 ^ 1) with 2 in *.
        rewrite Z.mod_small by lia. lia.
      * rewrite put_bits_some by lia. cbn [acc nbits empty].
        assert (v / 2 < 2 ^ (L - 1)) by (apply Z.div_lt_upper_bound; lia).
        rewrite (Z.mod_small (v / 2)) by (split; [apply Z.div_pos; lia | lia]).
        split; lia.
    + rewrite <- El in *. fold m.
      assert (Hm : 0 < m) by (unfold m; lia).
      assert (Hl2 : 2 <= l).
      { destruct (Z.eq_dec l 1) as [E1|]; [|lia]. rewrite E1 in *.
        change (2 ^ 1) with 2 in *. change (2 ^ (1 - 1)) with 1 in *. lia. }
      split.
      * intros Hlt. destruct (Z.ltb_spec v m) as [_|]; [|lia].
        rewrite put_bits_some by lia. cbn [acc nbits empty].
        rewrite Z.mod_small by (unfold m in *; lia). split; lia.
      * intros Hge. destruct (Z.ltb_spec v m) as [|_]; [lia|].
        rewrite Z.shiftr_div_pow2 by lia. change (2 ^ 1) with 2.
        rewrite land_1.
        rewrite (put_bits_some _ 1) by lia. rewrite put_bits_some by lia.
        cbn [acc nbits empty]. change (2 ^ 1) with 2. rewrite Z.mod_mod by lia.
        assert ((v + m) / 2 < 2 ^ (l - 1)) by (apply Z.div_lt_upper_bound; unfold m; lia).
        rewrite (Z.mod_small ((v + m) / 2)) by (split; [apply Z.div_pos; lia | lia]).
        pose proof (Z.div_mod (v + m) 2 ltac:(lia)). split; lia.
Qed.

End Written.

(** [get_uniform] on a stream that holds the code word of [v] at the
    reader's position. *)
Lemma get_uniform_word (bytes : list Z) (c : GetBits.t) (p N v : Z) :
  reader_at bytes c p -> 1 <= N < 2 ^ 31 -> 0 <= v < N ->
  let w := PutBits.put_uniform PutBits.empty N v in
  take_bits bytes p (Z.to_nat (PutBits.nbits w)) = PutBits.acc w ->
  fst (GetBits.get_uniform c N) = v /\
  (2 <= N -> reader_at bytes (snd (GetBits.get_uniform c N)) (p + PutBits.nbits w)).
Proof.
  intros Hc HN Hv w Hw.
  destruct (get_uniform_at bytes c p N Hc HN) as [Hread Hrange].
  destruct (put_uniform_word N v ltac:(lia) Hv) as [_ Hword]. fold w in Hword.
  destruct (Z.eq_dec N 1) as [E1|E1].
  - split; [lia | intros; lia].
  - specialize (Hword ltac:(lia)). cbv zeta in Hword, Hread.
    destruct (uniform_lm N HN) as (Hl & Hpow & _). cbv zeta in Hl, Hpow.
    set (l := ulog2 N + 1) in *. set (m := 2 ^ l - N) in *.
    destruct Hword as [Hshort Hlong].
    destruct (Z.lt_ge_cases v m) as [Hlt|Hge].
    + destruct (Hshort Hlt) as [En Ea]. rewrite En, Ea in Hw. rewrite Hw in Hread.
      destruct (Z.ltb_spec v m) as [_|]; [|lia].
      rewrite En. split; [exact (proj1 Hread) | intros _; exact (proj2 Hread)].
    + destruct (Hlong Hge) as [En Ea]. rewrite En, Ea in Hw.
      replace (Z.to_nat l) with (Z.to_nat (l - 1) + 1)%nat in Hw by lia.
      rewrite take_bits_app, take_bits_1 in Hw.
      rewrite Z2Nat.id in Hw by lia. change (2 ^ Z.of_nat 1) with 2 in Hw.
      pose proof (stream_bit_range bytes (p + (l - 1))) as Hb.
      set (v' := take_bits bytes p (Z.to_nat (l - 1))) in *.
      destruct (Z.ltb_spec v' m) as [|_]; [lia|].
      rewrite En. split; [rewrite (proj1 Hread); lia | intros _; exact (proj2 Hread)].
Qed.

(** C8. For [1 <= N < 2^31] and [0 <= v < N]: when the stream holds, at the
    reader's position, the code word that the two-step uniform codebook of
    the specification gives to [v], [get_uniform(N)] returns [v], and for
    [N >= 2] it leaves the reader just behind the code word; in particular
    it returns [v] on the bytes of a writer that wrote the code word and
    was flushed.  Whatever the stream holds, the value that [get_uniform(N)]
    returns is below [N]. *)
Theorem get_uniform_round_trip (N v : Z) :
  1 <= N < 2 ^ 31 -> 0 <= v < N ->
  let w := PutBits.put_uniform PutBits.empty N v in
  (forall bytes c p,
     reader_at bytes c p ->
     take_bits bytes p (Z.to_nat (PutBits.nbits w)) = PutBits.acc w ->
     fst (GetBits.get_uniform c N) = v /\
     (2 <= N -> reader_at bytes (snd (GetBits.get_uniform c N)) (p + PutBits.nbits w))) /\
  fst (GetBits.get_uniform (GetBits.init_get_bits (PutBits.flush_put_bits w)) N) = v /\
  (forall bytes c p, reader_at bytes c p -> 0 <= fst (GetBits.get_uniform c N) < N).
Proof.
  intros HN Hv w. split; [|split].
  - intros bytes c p Hc Hw. exact (get_uniform_word bytes c p N v Hc HN Hv Hw).
  - assert (Hbits : 1 <= PutBits.nbits w /\ 0 <= PutBits.acc w < 2 ^ PutBits.nbits w).
    { destruct (put_uniform_word N v ltac:(lia) Hv) as [H1 H2]. fold w in H1, H2.
      destruct (Z.eq_dec N 1) as [E1|E1].
      - destruct (H1 E1) as [-> ->]. change (2 ^ 1) with 2. lia.
      - specialize (H2 ltac:(lia)). cbv zeta in H2.
        destruct (uniform_lm N HN) as (Hl & Hpow & _). cbv zeta in Hl, Hpow.
        set (l := ulog2 N + 1) in *. set (m := 2 ^ l - N) in *.
        assert (Hpl : 2 ^ l = 2 * 2 ^ (l - 1)).
        { replace l with (l - 1 + 1) at 1 by lia. rewrite Z.pow_add_r by lia. lia. }
        assert (Hl2 : 2 <= l).
        { destruct (Z.eq_dec l 1) as [E|]; [|lia]. rewrite E in *.
          change (2 ^ 1) with 2 in *. lia. }
        destruct H2 as [Hs Hg].
        destruct (Z.lt_ge_cases v m) as [Hlt|Hge].
        + destruct (Hs Hlt) as [-> ->]. unfold m in *. lia.
        + destruct (Hg Hge) as [-> ->]. unfold m in *. lia. }
    destruct Hbits as [Hn Ha].
    refine (proj1 (get_uniform_word (PutBits.flush_put_bits w) _ 0 N v _ HN Hv _)).
    + apply reader_at_init, flush_nonempty. exact Hn.
    + fold w. apply take_bits_flush; [lia | exact Ha].
  - intros bytes c p Hc. exact (proj2 (get_uniform_at bytes c p N Hc HN)).
Qed.

(** [N = 5], [v = 4]: the code word is [111], the flushed writer holds
    the byte 224, and [get_uniform(5)] reads 4 back from it. *)
Lemma get_uniform_round_trip_witness :
  let w := PutBits.put_uniform PutBits.empty 5 4 in
  (PutBits.acc w = 7 /\ PutBits.nbits w = 3 /\ PutBits.flush_put_bits w = [224]) /\
  fst (GetBits.get_uniform (GetBits.init_get_bits [224]) 5) = 4.
Proof.
  intros w. split; [repeat split|].
  refine (proj1 (proj2 (get_uniform_round_trip 5 4 _ _))).
  - change (2 ^ 31) with 2147483648. lia.
  - lia.
Defined.

(** [N = 2^31], [v = 1]: the code word is [v] on 31 bits, the four bytes
    0, 0, 0, 2 once flushed.  [get_uniform] computes [l = 32] and
    [m = (1 << 32) - N] in [int]: [m] is negative, the second branch is
    taken, and the result, [2 v - m] narrowed to [unsigned], is neither [v]
    nor below [N].  (The shift by 32 is outside what C defines for an
    [int]; the model narrows the shifted value, 0, and returns [2^31 + 2];
    with a shift count taken modulo 32 the shift gives 1 and the result is
    [2^31 + 1].) *)
Lemma get_uniform_round_trip_counterexample :
  let N := 2 ^ 31 in
  let v := 1 in
  let w := PutBits.put_uniform PutBits.empty N v in
  let r := fst (GetBits.get_uniform (GetBits.init_get_bits (PutBits.flush_put_bits w)) N) in
  (1 <= N /\ 0 <= v < N) /\ PutBits.flush_put_bits w = [0; 0; 0; 2] /\
  r <> v /\ ~ (r < N).
Proof.
  intros N v w r.
  assert (E : r = 2 ^ 31 + 2) by (vm_compute; reflexivity).
  split; [subst N v; change (2 ^ 31) with 2147483648; lia|].
  split; [vm_compute; reflexivity|].
  rewrite E. subst N v. change (2 ^ 31) with 2147483648. lia.
Qed.

(** ** The position of the tile context

    [decode_b] and what it calls leave [t->bx] and [t->by] where they found
    them; [read_tx_tree] and [read_vartx_tree] move them while they work
    and move them back. *)

Section PosInv.

Context {Msac Ext : Type}.

Definition pos_inv (t t' : Tile Msac Ext) : Prop :=
  t_bx t' = t_bx t /\ t_by t' = t_by t.

#[global] Instance pos_inv_preorder : PreOrder pos_inv.
Proof.
  split.
  - intros t. split; reflexivity.
  - intros t1 t2 t3 [H1 H2] [H3 H4]. split; congruence.
Qed.

(** [m] moves the position by [(dx, dy)]. *)
Definition moved {A} (dx dy : Z) (m : M A) : Prop :=
  forall t : Tile Msac Ext,
    t_bx (exec m t) = t_bx t + dx /\ t_by (exec m t) = t_by t + dy.

Lemma moved_bind {A B} a b c d dx dy (m : M A) (k : A -> M B) :
  moved a b m -> (forall x, moved c d (k x)) -> dx = a + c -> dy = b + d ->
  moved dx dy (bind m k).
Proof.
  intros Hm Hk -> -> t. rewrite exec_bind.
  destruct (Hm t) as [H1 H2]. destruct (Hk (eval m t) (exec m t)) as [H3 H4]. lia.
Qed.

Lemma moved_ret {A} dx dy (x : A) : dx = 0 -> dy = 0 -> moved dx dy (ret x).
Proof. intros -> -> t. cbn. lia. Qed.

Lemma moved_gets {A} dx dy (p : Tile Msac Ext -> A) : dx = 0 -> dy = 0 -> moved dx dy (gets p).
Proof. intros -> -> t. cbn. lia. Qed.

Lemma moved_add_bx dx dy d : dx = d -> dy = 0 -> moved dx dy (add_bx d).
Proof. intros -> -> t. cbn. lia. Qed.

Lemma moved_add_by dx dy d : dx = 0 -> dy = d -> moved dx dy (add_by d).
Proof. intros -> -> t. cbn. lia. Qed.

Lemma moved_when dx dy c (m : M unit) : moved 0 0 m -> dx = 0 -> dy = 0 -> moved dx dy (when c m).
Proof. intros H -> ->. destruct c; [exact H | apply moved_ret; reflexivity]. Qed.

Lemma moved_pres {A} dx dy (m : M A) : preserves pos_inv m -> dx = 0 -> dy = 0 -> moved dx dy m.
Proof. intros H -> -> t. destruct (H t) as [H1 H2]. lia. Qed.

Lemma moved_eq {A} dx dy a b (m : M A) : moved a b m -> dx = a -> dy = b -> moved dx dy m.
Proof. intros H -> ->. exact H. Qed.

Lemma pres_moved {A} (m : M A) : moved 0 0 m -> preserves pos_inv m.
Proof. intros H t. destruct (H t) as [H1 H2]. split; lia. Qed.

(** A loop that advances [bx] by what it adds to its counter. *)
Lemma for_loop_bx {S} (fuel : nat) (cond : S -> bool) (body : S -> M S) (cnt : S -> Z) :
  (forall s (t : Tile Msac Ext),
     t_bx (exec (body s) t) = t_bx t + (cnt (eval (body s) t) - cnt s) /\
     t_by (exec (body s) t) = t_by t) ->
  forall s (t : Tile Msac Ext),
    t_bx (exec (for_loop fuel cond body s) t)
      = t_bx t + (cnt (eval (for_loop fuel cond body s) t) - cnt s) /\
    t_by (exec (for_loop fuel cond body s) t) = t_by t.
Proof.
  intros Hb. induction fuel as [|fuel IH]; intros s t; cbn [for_loop].
  - cbn. lia.
  - destruct (cond s); [|cbn; lia].
    rewrite exec_bind, eval_bind.
    destruct (Hb s t) as [H1 H2].
    destruct (IH (eval (body s) t) (exec (body s) t)) as [H3 H4]. lia.
Qed.

Lemma for_loop_by {S} (fuel : nat) (cond : S -> bool) (body : S -> M S) (cnt : S -> Z) :
  (forall s (t : Tile Msac Ext),
     t_by (exec (body s) t) = t_by t + (cnt (eval (body s) t) - cnt s) /\
     t_bx (exec (body s) t) = t_bx t) ->
  forall s (t : Tile Msac Ext),
    t_by (exec (for_loop fuel cond body s) t)
      = t_by t + (cnt (eval (for_loop fuel cond body s) t) - cnt s) /\
    t_bx (exec (for_loop fuel cond body s) t) = t_bx t.
Proof.
  intros Hb. induction fuel as [|fuel IH]; intros s t; cbn [for_loop].
  - cbn. lia.
  - destruct (cond s); [|cbn; lia].
    rewrite exec_bind, eval_bind.
    destruct (Hb s t) as [H1 H2].
    destruct (IH (eval (body s) t) (exec (body s) t)) as [H3 H4]. lia.
Qed.

End PosInv.

Ltac side_pos := repeat (first [progress simpl | case_match]); split; reflexivity.
Ltac pres_pos := preserves_with side_pos ltac:(leaf_with side_pos).

Ltac moved_eqs := first [reflexivity | lia].

Ltac moved_with leaf :=
  cbv beta zeta;
  lazymatch goal with
  | |- moved _ _ (bind _ _) =>
      eapply moved_bind;
      [ moved_with leaf | intros ?; moved_with leaf | moved_eqs | moved_eqs ]
  | |- moved _ _ (ret _) => eapply moved_ret; moved_eqs
  | |- moved _ _ (gets _) => eapply moved_gets; moved_eqs
  | |- moved _ _ (add_bx _) => eapply moved_add_bx; moved_eqs
  | |- moved _ _ (add_by _) => eapply moved_add_by; moved_eqs
  | |- moved _ _ (when _ _) =>
      eapply moved_when; [ moved_with leaf | moved_eqs | moved_eqs ]
  | |- moved _ _ (if ?c then _ else _) => destruct c; moved_with leaf
  | |- moved _ _ _ => leaf
  end.

Section PosFrames.

Context {Msac Ext : Type}.
Variable X : Externals Msac Ext.
Variable f : Frame.

Lemma read_tx_tree_moved rem :
  forall from x y, moved (Msac := Msac) (Ext := Ext) 0 0 (read_tx_tree X f rem from x y).
Proof.
  induction rem as [|rem IH]; intros from x y; cbn [read_tx_tree].
  - apply moved_pres; [pres_pos | reflexivity | reflexivity].
  - moved_with ltac:(first
      [ eapply moved_eq; [apply IH | moved_eqs | moved_eqs]
      | eapply moved_pres; [solve [pres_pos] | moved_eqs | moved_eqs] ]).
Qed.

Lemma read_tx_tree_pos rem from x y :
  preserves (@pos_inv Msac Ext) (read_tx_tree X f rem from x y).
Proof. apply pres_moved, read_tx_tree_moved. Qed.
Hint Resolve read_tx_tree_pos : pres.

Lemma read_vartx_tree_pos bs bx4 by4 :
  preserves (@pos_inv Msac Ext) (read_vartx_tree X f bs bx4 by4).
Proof.
  unfold read_vartx_tree.
  repeat (apply (preserves_bind pos_inv); [solve [pres_pos] | intros ?]).
  match goal with |- preserves _ (if ?c then _ else _) => destruct c end; [pres_pos|].
  match goal with |- preserves _ (if ?c then _ else _) => destruct c end; [pres_pos|].
  cbv zeta.
  match goal with
  | |- preserves _ (bind (for_loop ?fuel ?cond ?body ?s0) ?k) =>
      assert (Hout : forall s (t : Tile Msac Ext),
                t_by (exec (body s) t) = t_by t + (fst (eval (body s) t) - fst s) /\
                t_bx (exec (body s) t) = t_bx t);
      [ | pose proof (for_loop_by fuel cond body fst Hout s0) as Hloop;
          set (outer := for_loop fuel cond body s0) in * ]
  end.
  - intros [yy yo] t.
    match goal with
    | |- context [bind (for_loop ?fuel ?cond ?body ?s0) _] =>
        assert (Hin : forall s (t : Tile Msac Ext),
                  t_bx (exec (body s) t) = t_bx t + (fst (eval (body s) t) - fst s) /\
                  t_by (exec (body s) t) = t_by t);
        [ | pose proof (for_loop_bx fuel cond body fst Hin s0 t) as Hloop;
            set (inner := for_loop fuel cond body s0) in * ]
    end.
    + intros [xx xo] t0. rewrite !exec_bind, !eval_bind.
      match goal with
      | |- context [exec (read_tx_tree X f ?r ?a ?b ?c) ?tt] =>
          destruct (read_tx_tree_pos r a b c tt) as [H1 H2];
          revert H1 H2; generalize (exec (read_tx_tree X f r a b c) tt)
      end.
      intros s1 H1 H2. cbn. lia.
    + rewrite exec_bind, eval_bind.
      destruct Hloop as [H1 H2]. revert H1 H2.
      generalize (exec inner t). destruct (eval inner t) as [xx xo]. cbn [fst].
      intros s1 H1 H2. rewrite !exec_bind, !eval_bind. cbn. lia.
  - intros t. rewrite exec_bind.
    specialize (Hloop t). destruct Hloop as [H1 H2]. revert H1 H2.
    generalize (exec outer t). destruct (eval outer t) as [yy yo]. cbn [fst].
    intros s1 H1 H2. rewrite exec_bind. split; cbn; lia.
Qed.
Hint Resolve read_vartx_tree_pos : pres.

Lemma read_mv_component_diff_pos c fp :
  preserves (@pos_inv Msac Ext) (read_mv_component_diff X f c fp).
Proof. unfold read_mv_component_diff. pres_pos. Qed.
Hint Resolve read_mv_component_diff_pos : pres.

Lemma read_mv_residual_pos m c fp : preserves (@pos_inv Msac Ext) (read_mv_residual X f m c fp).
Proof. unfold read_mv_residual. pres_pos. Qed.
Hint Resolve read_mv_residual_pos : pres.

Lemma used_cache_scan_pos pal_sz cache used :
  preserves (@pos_inv Msac Ext) (used_cache_scan X pal_sz cache used).
Proof.
  revert used. induction cache as [|c cache IH]; intros used; simpl; pres_pos.
Qed.
Hint Resolve used_cache_scan_pos : pres.

Lemma pal_deltas_pos fuel pl pal_sz max i prev bits pal :
  preserves (@pos_inv Msac Ext) (pal_deltas X fuel pl pal_sz max i prev bits pal).
Proof.
  revert i prev bits pal.
  induction fuel as [|fuel IH]; intros i prev bits pal; simpl; pres_pos.
Qed.
Hint Resolve pal_deltas_pos : pres.

Lemma tx_descend_pos depth : preserves (@pos_inv Msac Ext) (tx_descend X depth).
Proof. induction depth as [|depth IH]; simpl; pres_pos. Qed.
Hint Resolve tx_descend_pos : pres.

Lemma read_pal_plane_pos pl sz_ctx bx4 by4 : preserves (@pos_inv Msac Ext) (read_pal_plane X f pl sz_ctx bx4 by4).
Proof. unfold read_pal_plane. pres_pos. Qed.
Hint Resolve read_pal_plane_pos : pres.

Lemma read_pal_uv_pos sz_ctx bx4 by4 : preserves (@pos_inv Msac Ext) (read_pal_uv X f sz_ctx bx4 by4).
Proof. unfold read_pal_uv. pres_pos. Qed.
Hint Resolve read_pal_uv_pos : pres.

Lemma read_pal_indices_pos p pl w4 h4 bw4 bh4 : preserves (@pos_inv Msac Ext) (read_pal_indices X p pl w4 h4 bw4 bh4).
Proof. unfold read_pal_indices. pres_pos. Qed.
Hint Resolve read_pal_indices_pos : pres.

Lemma parse_intra_modes_pos g bs : preserves (@pos_inv Msac Ext) (parse_intra_modes X f g bs).
Proof. unfold parse_intra_modes. pres_pos. Qed.
Hint Resolve parse_intra_modes_pos : pres.

Lemma update_ctx_intra_pos g bs : preserves (@pos_inv Msac Ext) (update_ctx_intra X f g bs).
Proof. unfold update_ctx_intra. pres_pos. Qed.
Hint Resolve update_ctx_intra_pos : pres.

Lemma decode_b_intra_pos g bs flags : preserves (@pos_inv Msac Ext) (decode_b_intra X f g bs flags).
Proof. unfold decode_b_intra. pres_pos. Qed.
Hint Resolve decode_b_intra_pos : pres.

Lemma decode_b_intrabc_pos g bs bp : preserves (@pos_inv Msac Ext) (decode_b_intrabc X f g bs bp).
Proof. unfold decode_b_intrabc. pres_pos. Qed.
Hint Resolve decode_b_intrabc_pos : pres.

Lemma parse_comp_refs_pos g : preserves (@pos_inv Msac Ext) (parse_comp_refs X g).
Proof. unfold parse_comp_refs. pres_pos. Qed.
Hint Resolve parse_comp_refs_pos : pres.

Lemma assign_comp_mv_pos g r im i h : preserves (@pos_inv Msac Ext) (assign_comp_mv X f g r im i h).
Proof. unfold assign_comp_mv. pres_pos. Qed.
Hint Resolve assign_comp_mv_pos : pres.

Lemma parse_inter_comp_pos g bs bp : preserves (@pos_inv Msac Ext) (parse_inter_comp X f g bs bp).
Proof. unfold parse_inter_comp. pres_pos. Qed.
Hint Resolve parse_inter_comp_pos : pres.

Lemma parse_single_ref_pos g : preserves (@pos_inv Msac Ext) (parse_single_ref X g).
Proof. unfold parse_single_ref. pres_pos. Qed.
Hint Resolve parse_single_ref_pos : pres.

Lemma parse_single_mode_pos g r : preserves (@pos_inv Msac Ext) (parse_single_mode X f g r).
Proof. unfold parse_single_mode. pres_pos. Qed.
Hint Resolve parse_single_mode_pos : pres.

Lemma parse_interintra_pos bs : preserves (@pos_inv Msac Ext) (parse_interintra X f bs).
Proof. unfold parse_interintra. pres_pos. Qed.
Hint Resolve parse_interintra_pos : pres.

Lemma parse_motion_mode_pos g bs flags h : preserves (@pos_inv Msac Ext) (parse_motion_mode X f g bs flags h).
Proof. unfold parse_motion_mode. pres_pos. Qed.
Hint Resolve parse_motion_mode_pos : pres.

Lemma parse_subpel_filter_pos g h : preserves (@pos_inv Msac Ext) (parse_subpel_filter X f g h).
Proof. unfold parse_subpel_filter. pres_pos. Qed.
Hint Resolve parse_subpel_filter_pos : pres.

Lemma update_ctx_inter_pos g bs is_comp filter : preserves (@pos_inv Msac Ext) (update_ctx_inter X f g bs is_comp filter).
Proof. unfold update_ctx_inter. pres_pos. Qed.
Hint Resolve update_ctx_inter_pos : pres.

Lemma decode_b_inter_pos g bs bp flags : preserves (@pos_inv Msac Ext) (decode_b_inter X f g bs bp flags).
Proof. unfold decode_b_inter. pres_pos. Qed.
Hint Resolve decode_b_inter_pos : pres.

Lemma read_seg_id_diff_pos p c : preserves (@pos_inv Msac Ext) (read_seg_id_diff X f p c).
Proof. unfold read_seg_id_diff. pres_pos. Qed.
Hint Resolve read_seg_id_diff_pos : pres.

Lemma parse_skip_mode_pos g : preserves (@pos_inv Msac Ext) (parse_skip_mode X f g).
Proof. unfold parse_skip_mode. pres_pos. Qed.
Hint Resolve parse_skip_mode_pos : pres.

Lemma parse_seg_id_preskip_pos g : preserves (@pos_inv Msac Ext) (parse_seg_id_preskip X f g).
Proof. unfold parse_seg_id_preskip. pres_pos. Qed.
Hint Resolve parse_seg_id_preskip_pos : pres.

Lemma parse_skip_pos g : preserves (@pos_inv Msac Ext) (parse_skip X g).
Proof. unfold parse_skip. pres_pos. Qed.
Hint Resolve parse_skip_pos : pres.

Lemma parse_seg_id_postskip_pos g sp : preserves (@pos_inv Msac Ext) (parse_seg_id_postskip X f g sp).
Proof. unfold parse_seg_id_postskip. pres_pos. Qed.
Hint Resolve parse_seg_id_postskip_pos : pres.

Lemma parse_cdef_idx_pos g : preserves (@pos_inv Msac Ext) (parse_cdef_idx X f g).
Proof. unfold parse_cdef_idx. pres_pos. Qed.
Hint Resolve parse_cdef_idx_pos : pres.

Lemma parse_intra_pos g : preserves (@pos_inv Msac Ext) (parse_intra X f g).
Proof. unfold parse_intra. pres_pos. Qed.
Hint Resolve parse_intra_pos : pres.


Lemma update_ctx_final_pos g sp : preserves (@pos_inv Msac Ext) (update_ctx_final f g sp).
Proof. unfold update_ctx_final. pres_pos. Qed.
Hint Resolve update_ctx_final_pos : pres.

Lemma decode_b_pass2_pos g bs flags : preserves (@pos_inv Msac Ext) (decode_b_pass2 X f g bs flags).
Proof. unfold decode_b_pass2. pres_pos. Qed.
Hint Resolve decode_b_pass2_pos : pres.

Lemma read_delta_pos c r : preserves (@pos_inv Msac Ext) (read_delta X c r).
Proof. unfold read_delta. pres_pos. Qed.
Hint Resolve read_delta_pos : pres.

Lemma parse_delta_q_lf_pos bs : preserves (@pos_inv Msac Ext) (parse_delta_q_lf X f bs).
Proof. unfold parse_delta_q_lf. pres_pos. Qed.
Hint Resolve parse_delta_q_lf_pos : pres.

Lemma decode_b_parse_pos g bl bs bp flags :
  preserves (@pos_inv Msac Ext) (decode_b_parse X f g bl bs bp flags).
Proof. unfold decode_b_parse. pres_pos. Qed.
Hint Resolve decode_b_parse_pos : pres.

Lemma decode_b_pos bl bs bp flags :
  preserves (@pos_inv Msac Ext) (decode_b X f bl bs bp flags).
Proof. unfold decode_b. pres_pos. Qed.

End PosFrames.

(** ** The blocks visited by [decode_sb] *)

Section InFrame.

Context {Msac Ext : Type}.
Variable X : Externals Msac Ext.
Variable f : Frame.

Local Abbreviation State := (Tile Msac Ext).

(** The origin of a decoded block lies inside the frame. *)
Definition call_in_frame (c : BlockCall) : Prop :=
  call_bx c < f_bw f /\ call_by c < f_bh f.

(** [P] holds of every [decode_b] call made so far. *)
Variable P : BlockCall -> Prop.

Definition calls_ok (t : State) : Prop := Forall P (walk_log t).

(** From [(x, y)], [m] leaves the tile at [(x', y')] and makes only
    [decode_b] calls of which [P] holds. *)
Definition visits {A} (x y x' y' : Z) (m : M A) : Prop :=
  forall t : State, calls_ok t -> t_bx t = x -> t_by t = y ->
    calls_ok (exec m t) /\ t_bx (exec m t) = x' /\ t_by (exec m t) = y'.

(** The same for a walker that is to return to [(x0, y0)]. *)
Definition walk_visits (x0 y0 x y : Z) (w : State -> option (Z * State)) : Prop :=
  forall t : State, calls_ok t -> t_bx t = x -> t_by t = y ->
    match w t with
    | Some (r, t') => calls_ok t' /\ (r = 0 -> t_bx t' = x0 /\ t_by t' = y0)
    | None => True
    end.

Lemma visits_bind {A B} x y x1 y1 x' y' (m : M A) (k : A -> M B) :
  visits x y x1 y1 m -> (forall v, visits x1 y1 x' y' (k v)) -> visits x y x' y' (bind m k).
Proof.
  intros Hm Hk t Hok Hx Hy. rewrite exec_bind.
  destruct (Hm t Hok Hx Hy) as (H1 & H2 & H3). exact (Hk _ _ H1 H2 H3).
Qed.

Lemma visits_frame {A} x y x' y' (m : M A) :
  (forall t : State, walk_log (exec m t) = walk_log t /\
                     t_bx (exec m t) = t_bx t /\ t_by (exec m t) = t_by t) ->
  x' = x -> y' = y -> visits x y x' y' m.
Proof.
  intros H -> -> t Hok Hx Hy. destruct (H t) as (H1 & H2 & H3).
  unfold calls_ok. rewrite H1, H2, H3. auto.
Qed.

Lemma visits_gets {A} x y x' y' (p : State -> A) : x' = x -> y' = y -> visits x y x' y' (gets p).
Proof. apply visits_frame. intros t. auto. Qed.

Lemma visits_gets_bx {B} x y x' y' (k : Z -> M B) :
  (forall v, v = x -> visits x y x' y' (k v)) -> visits x y x' y' (bind (gets t_bx) k).
Proof.
  intros H t Hok Hx Hy. rewrite exec_bind. apply (H _ Hx); assumption.
Qed.

Lemma visits_gets_by {B} x y x' y' (k : Z -> M B) :
  (forall v, v = y -> visits x y x' y' (k v)) -> visits x y x' y' (bind (gets t_by) k).
Proof.
  intros H t Hok Hx Hy. rewrite exec_bind. apply (H _ Hy); assumption.
Qed.

Lemma visits_add_bx x y x' y' d : x' = x + d -> y' = y -> visits x y x' y' (add_bx d).
Proof. intros -> -> t Hok Hx Hy. cbn. split; [exact Hok | lia]. Qed.

Lemma visits_add_by x y x' y' d : x' = x -> y' = y + d -> visits x y x' y' (add_by d).
Proof. intros -> -> t Hok Hx Hy. cbn. split; [exact Hok | lia]. Qed.

Lemma visits_when_lt x y x' y' v b (m : M unit) :
  (v < b -> visits x y x y m) -> x' = x -> y' = y -> visits x y x' y' (when (v <? b) m).
Proof.
  intros H -> ->. destruct (Z.ltb_spec v b) as [Hlt|_]; cbn [when].
  - apply H, Hlt.
  - apply visits_frame; auto.
Qed.

Lemma visits_decode_b x y x' y' bl bs bp flags :
  (forall c, call_in_frame c -> P c) ->
  x < f_bw f -> y < f_bh f -> x' = x -> y' = y ->
  visits x y x' y' (decode_b X f bl bs bp flags).
Proof.
  intros HP Hx Hy -> -> t Hok Hbx Hby.
  destruct (decode_b_pos X f bl bs bp flags t) as [H1 H2].
  split; [|split; congruence].
  unfold calls_ok. rewrite decode_b_log. apply Forall_app. split; [exact Hok|].
  constructor; [|constructor]. apply HP. split; cbn; lia.
Qed.

Lemma walk_visits_walk x0 y0 x y x1 y1 (m : M unit) (k : Walker) :
  visits x y x1 y1 m -> walk_visits x0 y0 x1 y1 k -> walk_visits x0 y0 x y (walk m k).
Proof.
  intros Hm Hk t Hok Hx Hy. unfold walk.
  destruct (Hm t Hok Hx Hy) as (H1 & H2 & H3). exact (Hk _ H1 H2 H3).
Qed.

Lemma walk_visits_try x0 y0 x y (m k : Walker) :
  walk_visits x y x y m -> walk_visits x0 y0 x y k -> walk_visits x0 y0 x y (walk_try m k).
Proof.
  intros Hm Hk t Hok Hx Hy. unfold walk_try.
  specialize (Hm t Hok Hx Hy). destruct (m t) as [[r1 t1]|]; [|exact I].
  destruct Hm as [H1 H2]. destruct (Z.eqb_spec r1 0) as [E|E].
  - destruct (H2 E) as [H3 H4]. exact (Hk _ H1 H3 H4).
  - split; [exact H1 | intros [=]].
Qed.

Lemma walk_visits_stamp x0 y0 x y bl bp bx8 by8 :
  x = x0 -> y = y0 -> walk_visits x0 y0 x y (stamp_partition X f bl bp bx8 by8).
Proof.
  intros -> -> t Hok Hx Hy. unfold stamp_partition, walk, walk_ret.
  match goal with
  | |- calls_ok (exec ?m t) /\ _ =>
      assert (Hl : preserves (@log_inv Msac Ext) m) by pres_log;
      assert (Hp : preserves (@pos_inv Msac Ext) m) by pres_pos;
      specialize (Hl t); destruct (Hp t) as [H1 H2]
  end.
  unfold calls_ok. rewrite Hl. split; [exact Hok|]. intros _. split; congruence.
Qed.

Lemma walk_visits_none x0 y0 x y : walk_visits x0 y0 x y (fun _ => None).
Proof. intros t _ _ _. exact I. Qed.

Lemma read_partition_pos bl : preserves (@pos_inv Msac Ext) (read_partition X f bl).
Proof.
  intros t. unfold exec, read_partition. destruct (f_pass f =? 2); [split; reflexivity|].
  apply (preserves_symbol_adapt X (@pos_inv Msac Ext)). intros; split; reflexivity.
Qed.

Lemma read_is_split_pos gather bl : preserves (@pos_inv Msac Ext) (read_is_split X f gather bl).
Proof.
  intros t. unfold exec, read_is_split. destruct (f_pass f =? 2); [split; reflexivity|].
  apply (preserves_decode_bool X (@pos_inv Msac Ext)). intros; split; reflexivity.
Qed.

(** [hsz = 16 >> bl] is even but at the 8x8 level. *)
Lemma hsz_halves bl :
  bl <> BL_8X8 ->
  exists h, 0 <= h /\ Z.shiftr 16 bl = 2 * h /\
            Z.shiftr (Z.shiftr 16 bl) 1 = h /\ Z.shiftr (Z.shiftr 16 bl * 3) 1 = 3 * h.
Proof.
  intros Hbl. unfold BL_8X8 in Hbl.
  assert (Hcases : bl < 0 \/ bl = 0 \/ bl = 1 \/ bl = 2 \/ bl = 3 \/ 5 <= bl) by lia.
  assert (Hgen : forall h, 0 <= h -> Z.shiftr 16 bl = 2 * h ->
            exists h, 0 <= h /\ Z.shiftr 16 bl = 2 * h /\
              Z.shiftr (Z.shiftr 16 bl) 1 = h /\ Z.shiftr (Z.shiftr 16 bl * 3) 1 = 3 * h).
  { intros h Hh E. exists h. rewrite E. rewrite !Z.shiftr_div_pow2 by lia.
    change (2 ^ 1) with 2. split; [exact Hh|]. split; [reflexivity|]. split.
    - rewrite Z.mul_comm. apply Z.div_mul. lia.
    - replace (2 * h * 3) with (3 * h * 2) by lia. apply Z.div_mul. lia. }
  destruct Hcases as [H|[->|[->|[->|[->|H]]]]].
  - apply (Hgen (8 * 2 ^ (- bl))).
    + assert (0 < 2 ^ (- bl)) by (apply Z.pow_pos_nonneg; lia). lia.
    + rewrite <- (Z.opp_involutive bl) at 1. rewrite Z.shiftr_opp_r.
      rewrite Z.shiftl_mul_pow2 by lia. lia.
  - apply (Hgen 8); [lia | reflexivity].
  - apply (Hgen 4); [lia | reflexivity].
  - apply (Hgen 2); [lia | reflexivity].
  - apply (Hgen 1); [lia | reflexivity].
  - apply (Hgen 0); [lia|]. rewrite Z.shiftr_div_pow2 by lia.
    apply Z.div_small. split; [lia|].
    assert (2 ^ 5 <= 2 ^ bl) by (apply Z.pow_le_mono_r; lia).
    change (2 ^ 5) with 32 in *. lia.
Qed.

Lemma hsz_nonneg bl : 0 <= Z.shiftr 16 bl.
Proof. apply Z.shiftr_nonneg. lia. Qed.

Lemma half_le h : 0 <= h -> 0 <= Z.shiftr h 1 /\ 2 * Z.shiftr h 1 <= h.
Proof.
  intros Hh. rewrite Z.shiftr_div_pow2 by lia. change (2 ^ 1) with 2.
  pose proof (Z.div_mod h 2 ltac:(lia)). pose proof (Z.mod_pos_bound h 2 ltac:(lia)).
  split; [apply Z.div_pos; lia | lia].
Qed.

End InFrame.

Ltac vis_eq := first [reflexivity | lia].

Ltac vis :=
  cbv beta zeta;
  lazymatch goal with
  | |- visits _ _ _ _ _ (bind (gets t_by) _) => apply visits_gets_by; intros ? ?; vis
  | |- visits _ _ _ _ _ (bind (gets t_bx) _) => apply visits_gets_bx; intros ? ?; vis
  | |- visits _ _ _ _ _ (bind _ _) => eapply visits_bind; [vis | intros ?; vis]
  | |- visits _ _ _ _ _ (gets _) => eapply visits_gets; vis_eq
  | |- visits _ _ _ _ _ (add_bx _) => eapply visits_add_bx; vis_eq
  | |- visits _ _ _ _ _ (add_by _) => eapply visits_add_by; vis_eq
  | |- visits _ _ _ _ _ (decode_b _ _ _ _ _ _) =>
      eapply visits_decode_b; [assumption | lia | lia | vis_eq | vis_eq]
  | |- visits _ _ _ _ _ (when (_ <? _) _) =>
      eapply visits_when_lt; [intros ?; vis | vis_eq | vis_eq]
  | |- visits _ _ _ _ _ (modify _) =>
      eapply visits_frame; [intros ?; cbn; auto | vis_eq | vis_eq]
  end.

Ltac wvis :=
  cbv beta zeta;
  lazymatch goal with
  | |- walk_visits _ _ _ _ _ (walk _ _) => eapply walk_visits_walk; [vis | wvis]
  | |- walk_visits _ _ _ _ _ (walk_try (decode_sb _ _ ?s _) _) =>
      eapply walk_visits_try;
      [ match goal with
        | IH : forall bl x y, _ -> _ -> walk_visits _ _ _ _ _ (decode_sb _ _ s bl) |- _ =>
            apply IH; lia
        end
      | wvis ]
  | |- walk_visits _ _ _ _ _ (stamp_partition _ _ _ _ _ _) =>
      apply walk_visits_stamp; lia
  | |- walk_visits _ _ _ _ _ (fun _ => None) => apply walk_visits_none
  end.

Section Walk.

Context {Msac Ext : Type}.
Variable X : Externals Msac Ext.
Variable f : Frame.

Local Abbreviation State := (Tile Msac Ext).

Variable P : BlockCall -> Prop.
Hypothesis HP : forall c, call_in_frame f c -> P c.

(** No quarter partition at the 8x8 level. *)
Hypothesis Hpart : forall t : State,
  fst (read_partition X f BL_8X8 t) <> PARTITION_H4 /\
  fst (read_partition X f BL_8X8 t) <> PARTITION_V4.

Ltac run_walker t1 :=
  match goal with
  | |- match ?w t1 with _ => _ end =>
      let Hw := fresh "Hw" in
      cut (walk_visits P (t_bx t1) (t_by t1) (t_bx t1) (t_by t1) w);
      [ intros Hw; apply Hw; [assumption | reflexivity | reflexivity] | ]
  end.

(** The state after the partition (or split flag) is read: the position and
    the log are those of [t]. *)
Ltac after_read t E t1 :=
  match type of E with
  | ?rd t = (_, t1) =>
      let P1 := fresh "P1" in let P2 := fresh "P2" in let PL := fresh "PL" in
      assert (P2 : preserves (@pos_inv Msac Ext) rd)
        by (first [apply read_partition_pos | apply read_is_split_pos]);
      assert (PL : preserves (@log_inv Msac Ext) rd)
        by (first [apply read_partition_log | apply read_is_split_log]);
      specialize (P2 t); specialize (PL t);
      unfold exec, pos_inv, log_inv in P2, PL; rewrite E in P2, PL;
      cbn [snd] in P2, PL; destruct P2 as [P1 P2]
  end.

Lemma decode_sb_visits node :
  forall bl (t : State), t_bx t < f_bw f -> t_by t < f_bh f -> calls_ok P t ->
    match decode_sb X f node bl t with
    | Some (r, t') => calls_ok P t' /\ (r = 0 -> t_bx t' = t_bx t /\ t_by t' = t_by t)
    | None => True
    end.
Proof.
  assert (Hgo : forall node,
    (forall bl (t : State), t_bx t < f_bw f -> t_by t < f_bh f -> calls_ok P t ->
       match decode_sb X f node bl t with
       | Some (r, t') => calls_ok P t' /\ (r = 0 -> t_bx t' = t_bx t /\ t_by t' = t_by t)
       | None => True
       end) ->
    forall bl x y, x < f_bw f -> y < f_bh f -> walk_visits P x y x y (decode_sb X f node bl)).
  { intros n H bl x y Hx Hy t Hok <- <-. apply H; assumption. }
  induction node as [o h v split
                    | o h v tts tbs tls trs h4 v4 s0 IH0 s1 IH1 s2 IH2 s3 IH3];
    [ | pose proof (Hgo _ IH0) as W0; pose proof (Hgo _ IH1) as W1;
        pose proof (Hgo _ IH2) as W2; pose proof (Hgo _ IH3) as W3 ];
    clear Hgo;
    intros bl t Hx Hy Hok; cbn [decode_sb];
    pose proof (hsz_nonneg bl) as Hh0;
    destruct (Z.gtb_spec (f_bw f) (t_bx t + Z.shiftr 16 bl)) as [Hh|Hh];
    destruct (Z.gtb_spec (f_bh f) (t_by t + Z.shiftr 16 bl)) as [Hv|Hv];
    cbn [negb andb]; try exact I.
  all: try (match goal with
            | |- context [read_partition X f ?b ?t0] =>
                destruct (read_partition X f b t0) as [bp t1] eqn:E; after_read t0 E t1
            end;
            assert (Hq : (bp <> PARTITION_H4 /\ bp <> PARTITION_V4) \/
                         exists hh, 0 <= hh /\ Z.shiftr 16 bl = 2 * hh /\
                           Z.shiftr (Z.shiftr 16 bl) 1 = hh /\
                           Z.shiftr (Z.shiftr 16 bl * 3) 1 = 3 * hh);
            [ destruct (Z.eq_dec bl BL_8X8) as [E8|N8];
              [ left; rewrite E8 in E; match type of E with _ ?t0 = _ => pose proof (Hpart t0) as Hp end;
                rewrite E in Hp; exact Hp
              | right; apply hsz_halves, N8 ] | ]).
  all: try (match goal with
            | |- context [read_is_split X f ?g ?b ?t0] =>
                destruct (read_is_split X f g b t0) as [is_split t1] eqn:E;
                after_read t0 E t1
            end).
  all: try (assert (Hok1 : calls_ok P t1) by (unfold calls_ok; rewrite PL; exact Hok);
            rewrite <- P1, <- P2 in *; clear E Hok PL P1 P2).
  all: repeat match goal with
       | |- match (if ?c then Some (1, _) else _) with _ => _ end =>
           destruct c; [split; [assumption | intros [=]]|]
       | |- match (if ?c then None else _) with _ => _ end => destruct c; [exact I|]
       | |- match (if ?a =? ?b then _ else _) with _ => _ end => destruct (Z.eqb_spec a b)
       | |- match (if ?c then _ else _) with _ => _ end => destruct c
       end.
  all: try exact I.
  all: try (apply IH0; assumption).
  all: try (destruct Hq as [[A B]|(hh & Hq1 & Hq2 & Hq3 & Hq4)];
            [try (exfalso; congruence) | rewrite ?Hq3, ?Hq4]).
  all: try (match goal with
            | e : ?b = BL_8X8 |- _ => subst b; change (Z.shiftr 16 BL_8X8) with 1 in *
            end).
  all: run_walker t1; wvis.
Qed.

End Walk.

Section WalkParse.

Context {Msac Ext : Type}.
Variable X : Externals Msac Ext.
Variable f : Frame.

(** In a parsing pass the partition of an 8x8 block is one of the four
    symbols the range coder is asked for. *)
Lemma no_quarter_at_8x8 :
  f_pass f <> 2 ->
  (forall m c, 0 <= fst (msac_decode_symbol_adapt X m c N_SUB8X8_PARTITIONS)
               < N_SUB8X8_PARTITIONS) ->
  forall t : Tile Msac Ext,
    fst (read_partition X f BL_8X8 t) <> PARTITION_H4 /\
    fst (read_partition X f BL_8X8 t) <> PARTITION_V4.
Proof.
  intros Hpass Hsym t. unfold read_partition.
  destruct (Z.eqb_spec (f_pass f) 2) as [E|_]; [contradiction|].
  change (BL_8X8 =? BL_8X8) with true. cbv iota.
  unfold symbol_adapt.
  specialize (Hsym (ts_msac t) (partition_cdf X BL_8X8 t)).
  destruct (msac_decode_symbol_adapt X (ts_msac t) (partition_cdf X BL_8X8 t)
              N_SUB8X8_PARTITIONS) as [v m].
  cbn [fst] in *. unfold N_SUB8X8_PARTITIONS, PARTITION_H4, PARTITION_V4 in *. lia.
Qed.

End WalkParse.

Lemma example_symbol_range m (c : Cdf) :
  0 <= fst (msac_decode_symbol_adapt Example.externals m c N_SUB8X8_PARTITIONS)
    < N_SUB8X8_PARTITIONS.
Proof.
  cbn [msac_decode_symbol_adapt Example.externals]. unfold Example.script_read.
  destruct (Example.script_next m) as [v s]. cbn [fst].
  change (N_SUB8X8_PARTITIONS >? 0) with true. cbv iota.
  apply Z.mod_pos_bound. reflexivity.
Qed.

(** X10.  [decode_b] returns with [t->bx] and [t->by] as it found them, in
    every pass and whatever the range coder returns: the steps that
    [read_tx_tree] and [read_vartx_tree] take through the transform blocks
    are all taken back. *)
Theorem decode_b_keeps_position {Msac Ext : Type} (X : Externals Msac Ext) (f : Frame)
    (bl bs bp intra_edge_flags : Z) (t : Tile Msac Ext) :
  t_bx (exec (decode_b X f bl bs bp intra_edge_flags) t) = t_bx t /\
  t_by (exec (decode_b X f bl bs bp intra_edge_flags) t) = t_by t.
Proof. exact (decode_b_pos X f bl bs bp intra_edge_flags t). Qed.

(** X11.  In a parsing pass, [decode_sb] entered at a position inside the
    frame calls [decode_b] only at positions inside the frame
    ([bx < f->bw], [by < f->bh]), whether it returns 0 or 1. *)
Theorem decode_sb_blocks_in_frame {Msac Ext : Type} (X : Externals Msac Ext) (f : Frame)
    (node : EdgeNode) (bl : Z) (t : Tile Msac Ext) :
  f_pass f <> 2 ->
  (forall m c, 0 <= fst (msac_decode_symbol_adapt X m c N_SUB8X8_PARTITIONS)
               < N_SUB8X8_PARTITIONS) ->
  t_bx t < f_bw f -> t_by t < f_bh f ->
  Forall (call_in_frame f) (walk_log t) ->
  match decode_sb X f node bl t with
  | Some (r, t') => Forall (call_in_frame f) (walk_log t')
  | None => True
  end.
Proof.
  intros Hpass Hsym Hx Hy Hok.
  pose proof (decode_sb_visits X f (call_in_frame f) (fun c H => H)
                (no_quarter_at_8x8 X f Hpass Hsym) node bl t Hx Hy Hok) as H.
  destruct (decode_sb X f node bl t) as [[r t']|]; [exact (proj1 H) | exact I].
Qed.

Lemma decode_sb_blocks_in_frame_witness :
  match decode_sb Example.externals (Example.frame_sized 14 14 DAV1D_PIXEL_LAYOUT_I420 0 0 100)
                  (Example.edge_tree 2) BL_64X64 (Example.tile [3; 1; 8; 0; 2]) with
  | Some (r, t') =>
      Forall (call_in_frame (Example.frame_sized 14 14 DAV1D_PIXEL_LAYOUT_I420 0 0 100))
             (walk_log t')
  | None => True
  end.
Proof.
  apply decode_sb_blocks_in_frame.
  - discriminate.
  - exact example_symbol_range.
  - reflexivity.
  - reflexivity.
  - constructor.
Defined.

(** X12.  In a parsing pass, when [decode_sb], entered inside the frame,
    returns 0, the position [t->bx], [t->by] is the one it was entered
    with: every step to a sub-block was taken back. *)
Theorem decode_sb_restores_position {Msac Ext : Type} (X : Externals Msac Ext) (f : Frame)
    (node : EdgeNode) (bl : Z) (t : Tile Msac Ext) :
  f_pass f <> 2 ->
  (forall m c, 0 <= fst (msac_decode_symbol_adapt X m c N_SUB8X8_PARTITIONS)
               < N_SUB8X8_PARTITIONS) ->
  t_bx t < f_bw f -> t_by t < f_bh f ->
  match decode_sb X f node bl t with
  | Some (r, t') => r = 0 -> t_bx t' = t_bx t /\ t_by t' = t_by t
  | None => True
  end.
Proof.
  intros Hpass Hsym Hx Hy.
  assert (Hok : calls_ok (fun _ => True) t).
  { unfold calls_ok. apply Forall_forall. intros; exact I. }
  pose proof (decode_sb_visits X f (fun _ => True) (fun _ _ => I)
                (no_quarter_at_8x8 X f Hpass Hsym) node bl t Hx Hy Hok) as H.
  destruct (decode_sb X f node bl t) as [[r t']|]; [exact (proj2 H) | exact I].
Qed.

Lemma decode_sb_restores_position_witness :
  match decode_sb Example.externals (Example.frame_sized 14 14 DAV1D_PIXEL_LAYOUT_I420 0 0 100)
                  (Example.edge_tree 2) BL_64X64 (Example.tile [3; 1; 8; 0; 2]) with
  | Some (r, t') => r = 0 -> t_bx t' = 0 /\ t_by t' = 0
  | None => True
  end.
Proof.
  apply (decode_sb_restores_position Example.externals
           (Example.frame_sized 14 14 DAV1D_PIXEL_LAYOUT_I420 0 0 100)
           (Example.edge_tree 2) BL_64X64 (Example.tile [3; 1; 8; 0; 2])).
  - discriminate.
  - exact example_symbol_range.
  - reflexivity.
  - reflexivity.
Defined.

(** ** The contexts that [decode_b] writes back *)

Section CtxLen.

Context {Msac Ext : Type}.

(** The context arrays keep their sizes. *)
Definition len_inv (t t' : Tile Msac Ext) : Prop :=
  (forall fld, length (t_a t' fld) = length (t_a t fld)) /\
  (forall fld, length (t_l t' fld) = length (t_l t fld)).

#[global] Instance len_inv_preorder : PreOrder len_inv.
Proof.
  split.
  - intros t. split; reflexivity.
  - intros t1 t2 t3 [H1 H2] [H3 H4]. split; intros fld; congruence.
Qed.

Lemma length_ctx_memset (c : BlockContext) fld off v n g :
  length (ctx_memset c fld off v n g) = length (c g).
Proof.
  unfold ctx_memset. destruct (decide (g = fld)) as [->|_]; [apply length_memset | reflexivity].
Qed.

End CtxLen.

Ltac side_len :=
  repeat (first [progress simpl | case_match]);
  split; intros; simpl; rewrite ?length_ctx_memset; reflexivity.
Ltac pres_len := preserves_with side_len ltac:(leaf_with side_len).

Section LenFrames.

Context {Msac Ext : Type}.
Variable X : Externals Msac Ext.
Variable f : Frame.

Lemma read_mv_component_diff_len c fp :
  preserves (@len_inv Msac Ext) (read_mv_component_diff X f c fp).
Proof. unfold read_mv_component_diff. pres_len. Qed.
Hint Resolve read_mv_component_diff_len : pres.

Lemma read_mv_residual_len m c fp : preserves (@len_inv Msac Ext) (read_mv_residual X f m c fp).
Proof. unfold read_mv_residual. pres_len. Qed.
Hint Resolve read_mv_residual_len : pres.

Lemma read_tx_tree_len rem from x y : preserves (@len_inv Msac Ext) (read_tx_tree X f rem from x y).
Proof.
  revert from x y. induction rem as [|rem IH]; intros from x y; simpl; pres_len.
Qed.
Hint Resolve read_tx_tree_len : pres.

Lemma used_cache_scan_len pal_sz cache used :
  preserves (@len_inv Msac Ext) (used_cache_scan X pal_sz cache used).
Proof.
  revert used. induction cache as [|c cache IH]; intros used; simpl; pres_len.
Qed.
Hint Resolve used_cache_scan_len : pres.

Lemma pal_deltas_len fuel pl pal_sz max i prev bits pal :
  preserves (@len_inv Msac Ext) (pal_deltas X fuel pl pal_sz max i prev bits pal).
Proof.
  revert i prev bits pal.
  induction fuel as [|fuel IH]; intros i prev bits pal; simpl; pres_len.
Qed.
Hint Resolve pal_deltas_len : pres.

Lemma tx_descend_len depth : preserves (@len_inv Msac Ext) (tx_descend X depth).
Proof. induction depth as [|depth IH]; simpl; pres_len. Qed.
Hint Resolve tx_descend_len : pres.

Lemma read_pal_plane_len pl sz_ctx bx4 by4 : preserves (@len_inv Msac Ext) (read_pal_plane X f pl sz_ctx bx4 by4).
Proof. unfold read_pal_plane. pres_len. Qed.
Hint Resolve read_pal_plane_len : pres.

Lemma read_pal_uv_len sz_ctx bx4 by4 : preserves (@len_inv Msac Ext) (read_pal_uv X f sz_ctx bx4 by4).
Proof. unfold read_pal_uv. pres_len. Qed.
Hint Resolve read_pal_uv_len : pres.

Lemma read_pal_indices_len p pl w4 h4 bw4 bh4 : preserves (@len_inv Msac Ext) (read_pal_indices X p pl w4 h4 bw4 bh4).
Proof. unfold read_pal_indices. pres_len. Qed.
Hint Resolve read_pal_indices_len : pres.

Lemma read_vartx_tree_len bs bx4 by4 : preserves (@len_inv Msac Ext) (read_vartx_tree X f bs bx4 by4).
Proof. unfold read_vartx_tree. pres_len. Qed.
Hint Resolve read_vartx_tree_len : pres.

Lemma parse_intra_modes_len g bs : preserves (@len_inv Msac Ext) (parse_intra_modes X f g bs).
Proof. unfold parse_intra_modes. pres_len. Qed.
Hint Resolve parse_intra_modes_len : pres.

Lemma update_ctx_intra_len g bs : preserves (@len_inv Msac Ext) (update_ctx_intra X f g bs).
Proof. unfold update_ctx_intra. pres_len. Qed.
Hint Resolve update_ctx_intra_len : pres.

Lemma decode_b_intra_len g bs flags : preserves (@len_inv Msac Ext) (decode_b_intra X f g bs flags).
Proof. unfold decode_b_intra. pres_len. Qed.
Hint Resolve decode_b_intra_len : pres.

Lemma decode_b_intrabc_len g bs bp : preserves (@len_inv Msac Ext) (decode_b_intrabc X f g bs bp).
Proof. unfold decode_b_intrabc. pres_len. Qed.
Hint Resolve decode_b_intrabc_len : pres.

Lemma parse_comp_refs_len g : preserves (@len_inv Msac Ext) (parse_comp_refs X g).
Proof. unfold parse_comp_refs. pres_len. Qed.
Hint Resolve parse_comp_refs_len : pres.

Lemma assign_comp_mv_len g r im i h : preserves (@len_inv Msac Ext) (assign_comp_mv X f g r im i h).
Proof. unfold assign_comp_mv. pres_len. Qed.
Hint Resolve assign_comp_mv_len : pres.

Lemma parse_inter_comp_len g bs bp : preserves (@len_inv Msac Ext) (parse_inter_comp X f g bs bp).
Proof. unfold parse_inter_comp. pres_len. Qed.
Hint Resolve parse_inter_comp_len : pres.

Lemma parse_single_ref_len g : preserves (@len_inv Msac Ext) (parse_single_ref X g).
Proof. unfold parse_single_ref. pres_len. Qed.
Hint Resolve parse_single_ref_len : pres.

Lemma parse_single_mode_len g r : preserves (@len_inv Msac Ext) (parse_single_mode X f g r).
Proof. unfold parse_single_mode. pres_len. Qed.
Hint Resolve parse_single_mode_len : pres.

Lemma parse_interintra_len bs : preserves (@len_inv Msac Ext) (parse_interintra X f bs).
Proof. unfold parse_interintra. pres_len. Qed.
Hint Resolve parse_interintra_len : pres.

Lemma parse_motion_mode_len g bs flags h : preserves (@len_inv Msac Ext) (parse_motion_mode X f g bs flags h).
Proof. unfold parse_motion_mode. pres_len. Qed.
Hint Resolve parse_motion_mode_len : pres.

Lemma parse_subpel_filter_len g h : preserves (@len_inv Msac Ext) (parse_subpel_filter X f g h).
Proof. unfold parse_subpel_filter. pres_len. Qed.
Hint Resolve parse_subpel_filter_len : pres.

Lemma update_ctx_inter_len g bs is_comp filter : preserves (@len_inv Msac Ext) (update_ctx_inter X f g bs is_comp filter).
Proof. unfold update_ctx_inter. pres_len. Qed.
Hint Resolve update_ctx_inter_len : pres.

Lemma decode_b_inter_len g bs bp flags : preserves (@len_inv Msac Ext) (decode_b_inter X f g bs bp flags).
Proof. unfold decode_b_inter. pres_len. Qed.
Hint Resolve decode_b_inter_len : pres.

Lemma read_seg_id_diff_len p c : preserves (@len_inv Msac Ext) (read_seg_id_diff X f p c).
Proof. unfold read_seg_id_diff. pres_len. Qed.
Hint Resolve read_seg_id_diff_len : pres.

Lemma parse_skip_mode_len g : preserves (@len_inv Msac Ext) (parse_skip_mode X f g).
Proof. unfold parse_skip_mode. pres_len. Qed.
Hint Resolve parse_skip_mode_len : pres.

Lemma parse_seg_id_preskip_len g : preserves (@len_inv Msac Ext) (parse_seg_id_preskip X f g).
Proof. unfold parse_seg_id_preskip. pres_len. Qed.
Hint Resolve parse_seg_id_preskip_len : pres.

Lemma parse_skip_len g : preserves (@len_inv Msac Ext) (parse_skip X g).
Proof. unfold parse_skip. pres_len. Qed.
Hint Resolve parse_skip_len : pres.

Lemma parse_seg_id_postskip_len g sp : preserves (@len_inv Msac Ext) (parse_seg_id_postskip X f g sp).
Proof. unfold parse_seg_id_postskip. pres_len. Qed.
Hint Resolve parse_seg_id_postskip_len : pres.

Lemma parse_cdef_idx_len g : preserves (@len_inv Msac Ext) (parse_cdef_idx X f g).
Proof. unfold parse_cdef_idx. pres_len. Qed.
Hint Resolve parse_cdef_idx_len : pres.

Lemma parse_intra_len g : preserves (@len_inv Msac Ext) (parse_intra X f g).
Proof. unfold parse_intra. pres_len. Qed.
Hint Resolve parse_intra_len : pres.


Lemma read_delta_len c r : preserves (@len_inv Msac Ext) (read_delta X c r).
Proof. unfold read_delta. pres_len. Qed.
Hint Resolve read_delta_len : pres.

Lemma parse_delta_q_lf_len bs : preserves (@len_inv Msac Ext) (parse_delta_q_lf X f bs).
Proof. unfold parse_delta_q_lf. pres_len. Qed.
Hint Resolve parse_delta_q_lf_len : pres.

Lemma decode_b_parse_len g bl bs bp flags :
  preserves (@len_inv Msac Ext) (decode_b_parse X f g bl bs bp flags).
Proof. unfold decode_b_parse. pres_len. Qed.

End LenFrames.

Section WriteBack.

Context {Msac Ext : Type}.
Variable X : Externals Msac Ext.
Variable f : Frame.

Local Abbreviation State := (Tile Msac Ext).

(** The contexts and the block record are as they were. *)
Definition ctx_same (t t' : State) : Prop :=
  t_a t' = t_a t /\ t_l t' = t_l t /\ t_blk t' = t_blk t.

#[local] Instance ctx_same_preorder : PreOrder ctx_same.
Proof.
  split.
  - intros t. repeat split.
  - intros t1 t2 t3 (H1 & H2 & H3) (H4 & H5 & H6). repeat split; congruence.
Qed.

Lemma memset_a_ctx fld off v n (t : State) :
  t_a (exec (memset_a fld off v n) t) = ctx_memset (t_a t) fld off v n /\
  t_l (exec (memset_a fld off v n) t) = t_l t /\
  t_blk (exec (memset_a fld off v n) t) = t_blk t.
Proof. repeat split. Qed.

Lemma memset_l_ctx fld off v n (t : State) :
  t_a (exec (memset_l fld off v n) t) = t_a t /\
  t_l (exec (memset_l fld off v n) t) = ctx_memset (t_l t) fld off v n /\
  t_blk (exec (memset_l fld off v n) t) = t_blk t.
Proof. repeat split. Qed.

(** What [update_ctx_final] leaves in the two contexts. *)
Lemma update_ctx_final_ctx g sp (t : State) :
  let b := t_blk t in
  let t' := exec (update_ctx_final f g sp) t in
  t_a t' =
    ctx_memset
      (ctx_memset
         (ctx_memset (ctx_memset (t_a t) SegPred (bx4 g) sp (bw4 g))
                     SkipMode (bx4 g) (b_skip_mode b) (bw4 g))
         Intra (bx4 g) (b_intra b) (bw4 g))
      Skip (bx4 g) (b_skip b) (bw4 g) /\
  t_l t' =
    ctx_memset
      (ctx_memset
         (ctx_memset (ctx_memset (t_l t) SegPred (by4 g) sp (bh4 g))
                     SkipMode (by4 g) (b_skip_mode b) (bh4 g))
         Intra (by4 g) (b_intra b) (bh4 g))
      Skip (by4 g) (b_skip b) (bh4 g) /\
  t_blk t' = t_blk t.
Proof.
  intros b t'. subst t'. unfold update_ctx_final.
  rewrite exec_bind. unfold getb. rewrite exec_gets, eval_gets. cbv beta. fold b.
  rewrite exec_bind.
  match goal with
  | |- context [exec (when ?c ?m) t] =>
      assert (H1 : ctx_same t (exec (when c m) t));
      [ assert (Hp : preserves ctx_same (when c m));
        [ apply (preserves_when ctx_same), (preserves_foldM ctx_same); intros ? ?;
          apply (preserves_modify ctx_same); intros ?; repeat split
        | exact (Hp t) ]
      | revert H1; generalize (exec (when c m) t) ]
  end.
  intros s1 (A1 & L1 & B1).
  repeat (rewrite exec_bind; cbv beta).
  match goal with
  | |- context [exec (when ?c ?m) ?s] =>
      assert (H2 : ctx_same s (exec (when c m) s));
      [ assert (Hp : preserves ctx_same (when c m));
        [ apply (preserves_when ctx_same), (preserves_foldM ctx_same); intros ? ?;
          apply (preserves_modify ctx_same); intros ?; repeat split
        | exact (Hp s) ]
      | destruct H2 as (A2 & L2 & B2); rewrite A2, L2, B2 ]
  end.
  unfold id. cbn. rewrite A1, L1, B1. repeat split.
Qed.

End WriteBack.

Section WriteBackThm.

Context {Msac Ext : Type}.
Variable X : Externals Msac Ext.
Variable f : Frame.

Local Abbreviation State := (Tile Msac Ext).

Lemma block_entry_frame bl bs bp (t : State) :
  block_geom X f bs (block_entry f bl bs bp t) = block_geom X f bs t /\
  t_a (block_entry f bl bs bp t) = t_a t /\ t_l (block_entry f bl bs bp t) = t_l t.
Proof.
  unfold block_entry, load_b, when. destruct (truthy (f_pass f)); repeat split.
Qed.

Lemma store_b_ctx (t : State) :
  t_a (exec (store_b f) t) = t_a t /\ t_l (exec (store_b f) t) = t_l t.
Proof. unfold store_b, when. destruct (truthy _); split; reflexivity. Qed.

(** A parsing pass of [decode_b]: the parse, the context update, the
    write-back of the block record. *)
Lemma decode_b_run bl bs bp flags (t : State) :
  f_pass f <> 2 ->
  let t0 := block_entry f bl bs bp t in
  let p := decode_b_parse X f (block_geom X f bs t) bl bs bp flags in
  exec (decode_b X f bl bs bp flags) t =
  exec (store_b f) (exec (update_ctx_final f (block_geom X f bs t) (eval p t0)) (exec p t0)).
Proof.
  intros Hp t0 p. unfold decode_b. run_binds. rewrite exec_gets, eval_gets.
  fold (block_entry f bl bs bp t). fold t0.
  destruct (block_entry_frame bl bs bp t) as (Hg & _ & _). fold t0 in Hg. rewrite Hg.
  destruct (Z.eqb_spec (f_pass f) 2); [contradiction|].
  run_binds. reflexivity.
Qed.

End WriteBackThm.

(** X13.  In a parsing pass, when [decode_b] returns, the above context over
    the columns of the block and the left context over its rows hold the
    [skip], [skip_mode] and [intra] members of the block record it leaves
    (as [uint8_t]), provided the block lies inside the 32-entry context
    arrays. *)
Theorem decode_b_writes_back_contexts {Msac Ext : Type} (X : Externals Msac Ext) (f : Frame)
    (bl bs bp intra_edge_flags : Z) (t : Tile Msac Ext) :
  f_pass f <> 2 ->
  let g := block_geom X f bs t in
  let t' := exec (decode_b X f bl bs bp intra_edge_flags) t in
  let b := t_blk t' in
  (forall fld, In fld [Skip; SkipMode; Intra] ->
     length (t_a t fld) = 32%nat /\ length (t_l t fld) = 32%nat) ->
  bx4 g + bw4 g <= 32 -> by4 g + bh4 g <= 32 ->
  (forall i, 0 <= i < bw4 g ->
     idx (t_a t' Skip) (bx4 g + i) = u8 (b_skip b) /\
     idx (t_a t' SkipMode) (bx4 g + i) = u8 (b_skip_mode b) /\
     idx (t_a t' Intra) (bx4 g + i) = u8 (b_intra b)) /\
  (forall j, 0 <= j < bh4 g ->
     idx (t_l t' Skip) (by4 g + j) = u8 (b_skip b) /\
     idx (t_l t' SkipMode) (by4 g + j) = u8 (b_skip_mode b) /\
     idx (t_l t' Intra) (by4 g + j) = u8 (b_intra b)).
Proof.
  intros Hp g t' b Hlen Hw Hh.
  pose (t0 := block_entry f bl bs bp t).
  pose (p := decode_b_parse X f g bl bs bp intra_edge_flags).
  assert (Et : t' = exec (store_b f)
                 (exec (update_ctx_final f g (eval p t0)) (exec p t0))).
  { apply (decode_b_run X f bl bs bp intra_edge_flags t Hp). }
  destruct (update_ctx_final_ctx f g (eval p t0) (exec p t0)) as (Ea & El & Eb).
  cbv zeta in Ea, El, Eb.
  destruct (store_b_ctx f (exec (update_ctx_final f g (eval p t0)) (exec p t0))) as [Sa Sl].
  assert (Eblk : b = t_blk (exec p t0)).
  { unfold b. rewrite Et, store_b_blk. exact Eb. }
  rewrite <- Eblk in Ea, El.
  destruct (decode_b_parse_len X f g bl bs bp intra_edge_flags t0) as [La Ll]. fold p in La, Ll.
  destruct (block_entry_frame X f bl bs bp t) as (_ & Ha0 & Hl0). fold t0 in Ha0, Hl0.
  assert (Hbx : 0 <= bx4 g) by (unfold g, block_geom; cbn [bx4]; apply Z.land_nonneg; lia).
  assert (Hby : 0 <= by4 g) by (unfold g, block_geom; cbn [by4]; apply Z.land_nonneg; lia).
  assert (Hla : forall fld, In fld [Skip; SkipMode; Intra] ->
                  length (t_a (exec p t0) fld) = 32%nat).
  { intros fld Hin. rewrite La, Ha0. apply Hlen, Hin. }
  assert (Hll : forall fld, In fld [Skip; SkipMode; Intra] ->
                  length (t_l (exec p t0) fld) = 32%nat).
  { intros fld Hin. rewrite Ll, Hl0. apply Hlen, Hin. }
  rewrite Et, Sa, Sl, Ea, El.
  split; intros i Hi.
  - rewrite ctx_memset_same.
    rewrite (ctx_memset_other _ Skip SkipMode) by discriminate.
    rewrite (ctx_memset_other _ Intra SkipMode) by discriminate.
    rewrite ctx_memset_same.
    rewrite (ctx_memset_other _ Skip Intra) by discriminate.
    rewrite ctx_memset_same.
    rewrite !idx_memset_in;
      rewrite ?length_memset, ?length_ctx_memset, ?Hla; cbn [In]; auto; try lia.
  - rewrite ctx_memset_same.
    rewrite (ctx_memset_other _ Skip SkipMode) by discriminate.
    rewrite (ctx_memset_other _ Intra SkipMode) by discriminate.
    rewrite ctx_memset_same.
    rewrite (ctx_memset_other _ Skip Intra) by discriminate.
    rewrite ctx_memset_same.
    rewrite !idx_memset_in;
      rewrite ?length_memset, ?length_ctx_memset, ?Hll; cbn [In]; auto; try lia.
Qed.

Lemma decode_b_writes_back_contexts_witness :
  let f := Example.frame DAV1D_PIXEL_LAYOUT_I420 0 0 in
  let t' := exec (decode_b Example.externals f BL_32X32 (Example.bs_of 8 8) PARTITION_NONE 0)
                 (Example.tile [1; 0; 1]) in
  idx (t_a t' Skip) 3 = u8 (b_skip (t_blk t')) /\
  idx (t_l t' Intra) 7 = u8 (b_intra (t_blk t')).
Proof.
  intros f t'.
  pose proof (decode_b_writes_back_contexts Example.externals f BL_32X32 (Example.bs_of 8 8)
                PARTITION_NONE 0 (Example.tile [1; 0; 1])) as H.
  cbv zeta in H.
  destruct H as [Ha Hl].
  - discriminate.
  - intros fld _. split; reflexivity.
  - vm_compute. discriminate.
  - vm_compute. discriminate.
  - split.
    + exact (proj1 (Ha 3 ltac:(vm_compute; split; [discriminate | reflexivity]))).
    + exact (proj2 (proj2 (Hl 7 ltac:(vm_compute; split; [discriminate | reflexivity])))).
Defined.

(** ** Small helpers of the block parser *)

Section FoldMin.

(** A running minimum over a list. *)
Lemma fold_imin_spec {B} (g : B -> Z) (l : list B) (a : Z) :
  let r := fold_left (fun s x => imin s (g x)) l a in
  r <= a /\ (forall x, In x l -> r <= g x) /\ (r = a \/ exists x, In x l /\ r = g x).
Proof.
  revert a. induction l as [|y l IH]; intros a; cbn [fold_left].
  - split; [lia | split; [intros x [] | left; reflexivity]].
  - specialize (IH (imin a (g y))). cbv zeta in IH. destruct IH as (H1 & H2 & H3).
    assert (Hm : imin a (g y) <= a /\ imin a (g y) <= g y /\
                 (imin a (g y) = a \/ imin a (g y) = g y)).
    { unfold imin. destruct (Z.ltb_spec a (g y)); lia. }
    split; [lia|]. split.
    + intros x [<-|Hx]; [lia | apply H2, Hx].
    + destruct H3 as [E|(x & Hx & E)].
      * destruct Hm as (_ & _ & [E'|E']); [left; lia|].
        right. exists y. split; [left; reflexivity | lia].
      * right. exists x. split; [right; exact Hx | exact E].
Qed.

(** The same over the rows of a block. *)
Lemma fold_imin_rows {B C} (g : B -> C -> Z) (xs : list B) (ys : list C) (a : Z) :
  let r := fold_left (fun s y => fold_left (fun s x => imin s (g x y)) xs s) ys a in
  r <= a /\ (forall x y, In x xs -> In y ys -> r <= g x y) /\
  (r = a \/ exists x y, In x xs /\ In y ys /\ r = g x y).
Proof.
  revert a. induction ys as [|y ys IH]; intros a; cbn [fold_left].
  - split; [lia | split; [intros x y _ [] | left; reflexivity]].
  - destruct (fold_imin_spec (fun x => g x y) xs a) as (R1 & R2 & R3).
    set (a' := fold_left (fun s x => imin s (g x y)) xs a) in *.
    specialize (IH a'). cbv zeta in IH. destruct IH as (H1 & H2 & H3).
    split; [lia|]. split.
    + intros x y' Hx [<-|Hy]; [specialize (R2 x Hx); lia | apply H2; assumption].
    + destruct H3 as [E|(x & y' & Hx & Hy & E)].
      * destruct R3 as [E'|(x & Hx & E')]; [left; lia|].
        right. exists x, y. split; [exact Hx | split; [left; reflexivity | lia]].
      * right. exists x, y'. split; [exact Hx | split; [right; exact Hy | exact E]].
Qed.

Lemma In_seqZ (m n x : Z) : In x (seqZ m n) <-> m <= x < m + n.
Proof. rewrite <- list_elem_of_In. apply elem_of_seqZ. Qed.

End FoldMin.

(** The value of [seg_id] after the loops of [get_prev_frame_segid]: the
    smallest of 8 and the entries of the block's rectangle. *)
Lemma get_prev_frame_segid_scan (by_ bx w4 h4 : Z) (ref_seg_map : list Z) (stride : Z) :
  let entry x y := idx ref_seg_map ((by_ + y) * stride + bx + x) in
  let r := get_prev_frame_segid by_ bx w4 h4 ref_seg_map stride in
  r <= 8 /\
  (forall x y, 0 <= x < w4 -> 0 <= y < imax 1 h4 -> r <= entry x y) /\
  (r = 8 \/ exists x y, 0 <= x < w4 /\ 0 <= y < imax 1 h4 /\ r = entry x y).
Proof.
  intros entry r. subst r. unfold get_prev_frame_segid.
  destruct (fold_imin_rows entry (seqZ 0 w4) (seqZ 0 (imax 1 h4)) 8) as (H1 & H2 & H3).
  split; [exact H1|]. split.
  - intros x y Hx Hy. apply H2; apply In_seqZ; lia.
  - destruct H3 as [E|(x & y & Hx & Hy & E)]; [left; exact E|].
    right. exists x, y. apply In_seqZ in Hx, Hy. split; [lia | split; [lia | exact E]].
Qed.

(** X14.  [get_prev_frame_segid], with its asserts, on a frame that has a
    primary reference frame: over the [w4] columns and [max(1, h4)] rows of
    the block in the reference segmentation map, it returns the smallest
    entry when some entry is below 8, and that value is below 8; when
    every entry is 8 or more (or the block has no column) the final
    [assert(seg_id < 8)] fails and nothing is returned. *)
Theorem get_prev_frame_segid_min (f : Frame) (by_ bx w4 h4 : Z) (ref_seg_map : list Z)
    (stride : Z) :
  hdr_primary_ref_frame f <> PRIMARY_REF_NONE ->
  let entry x y := idx ref_seg_map ((by_ + y) * stride + bx + x) in
  let inside x y := 0 <= x < w4 /\ 0 <= y < imax 1 h4 in
  match get_prev_frame_segid_asserted f by_ bx w4 h4 ref_seg_map stride with
  | Some r =>
      r < 8 /\
      (exists x y, inside x y /\ r = entry x y) /\
      (forall x y, inside x y -> r <= entry x y)
  | None => forall x y, inside x y -> 8 <= entry x y
  end.
Proof.
  intros Hp entry inside. unfold get_prev_frame_segid_asserted.
  destruct (Z.eqb_spec (hdr_primary_ref_frame f) PRIMARY_REF_NONE) as [E|_];
    [contradiction|].
  destruct (get_prev_frame_segid_scan by_ bx w4 h4 ref_seg_map stride) as (H1 & H2 & H3).
  cbv zeta in H1, H2, H3.
  destruct (Z.ltb_spec (get_prev_frame_segid by_ bx w4 h4 ref_seg_map stride) 8) as [Hlt|Hge].
  - split; [exact Hlt|]. split.
    + destruct H3 as [E|(x & y & Hx & Hy & E)]; [lia|].
      exists x, y. split; [split; assumption | exact E].
    + intros x y [Hx Hy]. apply H2; assumption.
  - intros x y [Hx Hy]. specialize (H2 x y Hx Hy). unfold entry. lia.
Qed.

(** A block of two columns and two rows at (1, 1) of a map of stride 4
    whose rectangle holds 5, 3, 9 and 4: the result is 3. *)
Lemma get_prev_frame_segid_min_witness :
  let map := [0; 0; 0; 0;  0; 5; 3; 0;  0; 9; 4; 0;  0; 0; 0; 0] in
  let g := Example.with_prev_segmap 0 map
             (Example.frame_seg 1 0 0 3 16 16 DAV1D_PIXEL_LAYOUT_I420 0 1 100) in
  get_prev_frame_segid_asserted g 1 1 2 2 map 4 = Some 3 /\
  (3 < 8 /\
   (exists x y, (0 <= x < 2 /\ 0 <= y < imax 1 2) /\ 3 = idx map ((1 + y) * 4 + 1 + x)) /\
   (forall x y, 0 <= x < 2 /\ 0 <= y < imax 1 2 -> 3 <= idx map ((1 + y) * 4 + 1 + x))).
Proof.
  intros map g. split; [reflexivity|].
  exact (get_prev_frame_segid_min g 1 1 2 2 map 4 ltac:(discriminate)).
Defined.

Section OddZero.

Lemma findoddzero_from_spec (buf : list Z) (base : Z) (len : nat) :
  forall n,
    (findoddzero_from buf base len n = 1 /\
     exists k, n <= k < n + Z.of_nat len /\ idx buf (base + k * 2) = 0) \/
    (findoddzero_from buf base len n = 0 /\
     forall k, n <= k < n + Z.of_nat len -> idx buf (base + k * 2) <> 0).
Proof.
  induction len as [|len IH]; intros n; cbn [findoddzero_from].
  - right. split; [reflexivity | intros k Hk; lia].
  - destruct (Z.eqb_spec (idx buf (base + n * 2)) 0) as [E|E].
    + left. split; [reflexivity|]. exists n. split; [lia | exact E].
    + destruct (IH (n + 1)) as [(H1 & k & Hk & Hz)|(H1 & Hnz)].
      * left. split; [exact H1|]. exists k. split; [lia | exact Hz].
      * right. split; [exact H1|]. intros k Hk.
        destruct (Z.eq_dec k n) as [->|Hne]; [exact E | apply Hnz; lia].
Qed.

End OddZero.

(** X15.  [findoddzero(buf, len)] is 1 when one of the entries
    [buf[0], buf[2], ..., buf[2 (len - 1)]] is zero, and 0 otherwise (in
    particular for [len <= 0]). *)
Theorem findoddzero_spec (buf : list Z) (base len : Z) :
  (findoddzero buf base len = 1 /\
   exists k, 0 <= k < len /\ idx buf (base + k * 2) = 0) \/
  (findoddzero buf base len = 0 /\
   forall k, 0 <= k < len -> idx buf (base + k * 2) <> 0).
Proof.
  unfold findoddzero.
  destruct (findoddzero_from_spec buf base (Z.to_nat len) 0) as [(H1 & k & Hk & Hz)|(H1 & Hnz)].
  - left. split; [exact H1|]. exists k. split; [lia | exact Hz].
  - right. split; [exact H1|]. intros k Hk. apply Hnz. lia.
Qed.

(** ** Motion vector differences *)

Section Yields.

Context {Msac Ext : Type}.

Local Abbreviation Parser := (@M Msac Ext).

(** Every run of [m] returns a value that satisfies [Q]. *)
Definition yields {A} (Q : A -> Prop) (m : Parser A) : Prop := forall t, Q (eval m t).

Lemma yields_bind {A B} (Q1 : A -> Prop) (Q : B -> Prop) (m : Parser A) (k : A -> Parser B) :
  yields Q1 m -> (forall x, Q1 x -> yields Q (k x)) -> yields Q (bind m k).
Proof. intros Hm Hk t. rewrite eval_bind. apply Hk, Hm. Qed.

Lemma yields_ret {A} (Q : A -> Prop) (x : A) : Q x -> yields Q (ret x).
Proof. intros H t. exact H. Qed.

Lemma yields_foldM {A B} (I : B -> Prop) (g : B -> A -> Parser B) (l : list A) (b : B) :
  I b -> (forall b x, In x l -> I b -> yields I (g b x)) -> yields I (foldM g l b).
Proof.
  revert b. induction l as [|x l IH]; intros b Hb Hg; cbn [foldM].
  - apply yields_ret, Hb.
  - apply (yields_bind I).
    + apply Hg; [left; reflexivity | exact Hb].
    + intros b' Hb'. apply IH; [exact Hb'|]. intros b2 y Hy. apply Hg. right. exact Hy.
Qed.

End Yields.

Section MvDiff.

Context {Msac Ext : Type}.
Variable X : Externals Msac Ext.
Variable f : Frame.

Hypothesis Hbool : forall m c, 0 <= fst (msac_decode_bool_adapt X m c) <= 1.
Hypothesis Hsym : forall m c n, 0 < n -> 0 <= fst (msac_decode_symbol_adapt X m c n) < n.

Lemma yields_bool_adapt c : yields (fun v => 0 <= v <= 1) (bool_adapt (Ext := Ext) X c).
Proof.
  intros t. unfold eval, bool_adapt. specialize (Hbool (ts_msac t) c).
  destruct (msac_decode_bool_adapt X (ts_msac t) c). exact Hbool.
Qed.

Lemma yields_symbol_adapt c n :
  0 < n -> yields (fun v => 0 <= v < n) (symbol_adapt (Ext := Ext) X c n).
Proof.
  intros Hn t. unfold eval, symbol_adapt. specialize (Hsym (ts_msac t) c n Hn).
  destruct (msac_decode_symbol_adapt X (ts_msac t) c n). exact Hsym.
Qed.

(** The magnitude that [read_mv_component_diff] assembles from the integer
    part [up], the fraction [fp] and the high-precision bit [hp]. *)
Lemma mv_magnitude up fp hp :
  0 <= up -> 0 <= fp < 4 -> 0 <= hp <= 1 ->
  Z.lor (Z.lor (Z.shiftl up 3) (Z.shiftl fp 1)) hp + 1 = 8 * up + 2 * fp + hp + 1.
Proof.
  intros Hup Hfp Hhp. rewrite !Z.shiftl_mul_pow2 by lia.
  rewrite <- Z.lor_assoc.
  rewrite (lor_add_low fp hp 1) by (change (2 ^ 1) with 2; lia).
  rewrite (lor_add_low up (fp * 2 ^ 1 + hp) 3)
    by (change (2 ^ 1) with 2; change (2 ^ 3) with 8; lia).
  change (2 ^ 1) with 2. change (2 ^ 3) with 8. lia.
Qed.

Lemma read_mv_component_diff_yields c have_fp :
  yields (Msac := Msac) (Ext := Ext)
    (fun d => d <> 0 /\ - 2 ^ 14 <= d <= 2 ^ 14 /\
              (have_fp = 0 -> d mod 8 = 0) /\ (hdr_hp f = 0 -> d mod 2 = 0))
    (read_mv_component_diff X f c have_fp).
Proof.
  unfold read_mv_component_diff.
  apply (yields_bind (fun v => 0 <= v <= 1)); [apply yields_bool_adapt | intros sign Hsign].
  apply (yields_bind (fun v => 0 <= v < 11));
    [apply yields_symbol_adapt; lia | intros cl Hcl].
  apply (yields_bind (fun '(up, fp, hp) =>
           0 <= up < 2 ^ 11 /\ 0 <= fp < 4 /\ 0 <= hp <= 1 /\
           (have_fp = 0 -> fp = 3 /\ hp = 1) /\ (hdr_hp f = 0 -> hp = 1))).
  - assert (Hfrac : forall (up : Z) (m1 : Z -> M Z) (m2 : M Z),
              0 <= up < 2 ^ 11 ->
              (forall u, yields (fun v => 0 <= v < 4) (m1 u)) ->
              yields (fun v => 0 <= v <= 1) m2 ->
              yields (Msac := Msac) (Ext := Ext) (fun '(up, fp, hp) =>
                 0 <= up < 2 ^ 11 /\ 0 <= fp < 4 /\ 0 <= hp <= 1 /\
                 (have_fp = 0 -> fp = 3 /\ hp = 1) /\ (hdr_hp f = 0 -> hp = 1))
                (if truthy have_fp then
                   fp <- m1 up ;;
                   hp <- (if truthy (hdr_hp f) then m2 else ret 1) ;;
                   ret (up, fp, hp)
                 else ret (up, 3, 1))).
    { intros up m1 m2 Hup H1 H2. unfold truthy.
      destruct (Z.eqb_spec have_fp 0) as [E|E]; cbn [negb].
      - apply yields_ret. repeat split; try lia.
      - apply (yields_bind (fun v => 0 <= v < 4)); [apply H1 | intros fp Hfp].
        destruct (Z.eqb_spec (hdr_hp f) 0) as [E2|E2]; cbn [negb].
        + apply (yields_bind (fun v => v = 1)); [apply yields_ret; reflexivity|].
          intros hp ->. apply yields_ret. repeat split; try lia.
        + apply (yields_bind (fun v => 0 <= v <= 1)); [exact H2 | intros hp Hhp].
          apply yields_ret. repeat split; try lia. }
    destruct (Z.eqb_spec cl 0) as [E|E].
    + apply (yields_bind (fun v => 0 <= v <= 1)); [apply yields_bool_adapt | intros up Hup].
      apply (Hfrac up (fun u => symbol_adapt X (cdf_sub c "class0_fp" [u]) 4)
                   (bool_adapt X (cdf_sub c "class0_hp" []))).
      * change (2 ^ 11) with 2048. lia.
      * intros u. apply yields_symbol_adapt. lia.
      * apply yields_bool_adapt.
    + apply (yields_bind (fun up => 0 <= up < 2 ^ 11)).
      * apply yields_foldM.
        -- rewrite Z.shiftl_1_l. split; [apply Z.pow_nonneg; lia|].
           apply Z.pow_lt_mono_r; lia.
        -- intros up n Hn Hup. apply In_seqZ in Hn.
           apply (yields_bind (fun v => 0 <= v <= 1)); [apply yields_bool_adapt|].
           intros bit Hbit. apply yields_ret. apply lor_range; [exact Hup|].
           rewrite Z.shiftl_mul_pow2 by lia.
           assert (0 < 2 ^ n) by (apply Z.pow_pos_nonneg; lia).
           assert (2 ^ n < 2 ^ 11) by (apply Z.pow_lt_mono_r; lia). nia.
      * intros up Hup.
        apply (Hfrac up (fun _ => symbol_adapt X (cdf_sub c "classN_fp" []) 4)
                     (bool_adapt X (cdf_sub c "classN_hp" []))).
        -- exact Hup.
        -- intros u. apply yields_symbol_adapt. lia.
        -- apply yields_bool_adapt.
  - intros [[up fp] hp] (Hup & Hfp & Hhp & Hnofp & Hnohp).
    apply yields_ret. rewrite mv_magnitude by lia.
    change (2 ^ 11) with 2048 in Hup. change (2 ^ 14) with 16384.
    assert (Hmod8 : have_fp = 0 -> (8 * up + 2 * fp + hp + 1) mod 8 = 0).
    { intros E. destruct (Hnofp E) as [-> ->].
      replace (8 * up + 2 * 3 + 1 + 1) with ((up + 1) * 8) by lia. apply Z.mod_mul. lia. }
    assert (Hmod2 : hdr_hp f = 0 -> (8 * up + 2 * fp + hp + 1) mod 2 = 0).
    { intros E. rewrite (Hnohp E).
      replace (8 * up + 2 * fp + 1 + 1) with ((4 * up + fp + 1) * 2) by lia.
      apply Z.mod_mul. lia. }
    destruct (truthy sign).
    + split; [lia|]. split; [lia|]. split.
      * intros E. specialize (Hmod8 E). rewrite Z.mod_opp_l_z; [reflexivity | lia | exact Hmod8].
      * intros E. specialize (Hmod2 E). rewrite Z.mod_opp_l_z; [reflexivity | lia | exact Hmod2].
    + split; [lia|]. split; [lia|]. split; assumption.
Qed.

End MvDiff.

(** X16.  With a range coder that returns bits in {0, 1} and symbols below
    the alphabet size, [read_mv_component_diff] never returns 0: its result
    has magnitude between 1 and 2^14; it is a multiple of 8 (a whole pixel)
    when [have_fp] is 0, and even when the frame header disables high
    precision. *)
Theorem read_mv_component_diff_shape {Msac Ext : Type} (X : Externals Msac Ext) (f : Frame)
    (mv_comp : Cdf) (have_fp : Z) (t : Tile Msac Ext) :
  (forall m c, 0 <= fst (msac_decode_bool_adapt X m c) <= 1) ->
  (forall m c n, 0 < n -> 0 <= fst (msac_decode_symbol_adapt X m c n) < n) ->
  let d := eval (read_mv_component_diff X f mv_comp have_fp) t in
  d <> 0 /\ - 2 ^ 14 <= d <= 2 ^ 14 /\
  (have_fp = 0 -> d mod 8 = 0) /\ (hdr_hp f = 0 -> d mod 2 = 0).
Proof.
  intros Hbool Hsym. exact (read_mv_component_diff_yields X f Hbool Hsym mv_comp have_fp t).
Qed.

Lemma example_read_range (bound : Z) (s : list Z) :
  0 < bound -> 0 <= fst (Example.script_read bound s) < bound.
Proof.
  intros Hb. unfold Example.script_read. destruct (Example.script_next s) as [v s'].
  cbn [fst]. destruct (Z.gtb_spec bound 0); [|lia]. apply Z.mod_pos_bound. lia.
Qed.

Lemma read_mv_component_diff_shape_witness :
  eval (read_mv_component_diff Example.externals (Example.frame DAV1D_PIXEL_LAYOUT_I420 0 1)
          (cdf "mv" []) 0) (Example.tile [1; 3; 1; 0; 1]) mod 8 = 0.
Proof.
  refine (proj1 (proj2 (proj2 (read_mv_component_diff_shape Example.externals
            (Example.frame DAV1D_PIXEL_LAYOUT_I420 0 1) (cdf "mv" []) 0
            (Example.tile [1; 3; 1; 0; 1]) _ _))) eq_refl).
  - intros m c. pose proof (example_read_range 2 m ltac:(lia)) as H.
    cbn [msac_decode_bool_adapt Example.externals]. lia.
  - intros m c n Hn. exact (example_read_range n m Hn).
Defined.

(** ** The palette cache *)

Section PaletteCacheStrict.

Lemma sorted_lt_last (cache : list Z) (u : Z) :
  StronglySorted Z.lt cache -> last cache = Some u -> Forall (fun x => x <= u) cache.
Proof.
  induction 1 as [|x l Hs IH Hx]; intros Hl; [constructor|].
  destruct l as [|y l'].
  - cbn in Hl. injection Hl as ->. repeat constructor. lia.
  - assert (Hl' : last (y :: l') = Some u) by exact Hl.
    specialize (IH Hl'). constructor; [|exact IH].
    rewrite Forall_forall in Hx, IH.
    assert (Hy : y ∈ y :: l') by (left).
    specialize (Hx y Hy). specialize (IH y Hy). lia.
Qed.

(** [cache_push] keeps the cache free of duplicates when the value is not
    below it. *)
Lemma cache_push_strict (cache : list Z) (v w : Z) :
  StronglySorted Z.lt cache -> Forall (fun x => x <= v) cache -> v <= w ->
  StronglySorted Z.lt (cache_push cache v) /\
  Forall (fun x => x <= w) (cache_push cache v).
Proof.
  intros Hs Hb Hvw.
  assert (Hb' : Forall (fun x => x <= w) cache).
  { eapply Forall_impl; [exact Hb | intros x Hx; cbv beta in *; lia]. }
  assert (Happ : Forall (fun x => x < v) cache ->
            StronglySorted Z.lt (cache ++ [v]) /\ Forall (fun x => x <= w) (cache ++ [v])).
  { intros Hlt. split.
    - apply StronglySorted_app_2; [| exact Hs | repeat constructor].
      intros x1 x2 H1 H2. apply list_elem_of_singleton in H2. subst x2.
      rewrite Forall_forall in Hlt. apply Hlt, H1.
    - apply Forall_app. split; [exact Hb' | repeat constructor; exact Hvw]. }
  unfold cache_push. destruct (last cache) as [u|] eqn:El.
  - destruct (Z.eqb_spec u v) as [E|E]; [split; assumption|].
    apply Happ. pose proof (sorted_lt_last cache u Hs El) as Hu.
    assert (Huv : u <= v).
    { rewrite Forall_forall in Hb. apply Hb. apply last_Some_elem_of. exact El. }
    eapply Forall_impl; [exact Hu | intros x Hx; cbv beta in *; lia].
  - apply Happ. apply last_None in El. subst cache. constructor.
Qed.

Lemma cache_merge_strict fuel :
  forall lc ac l a cache,
    0 <= lc -> 0 <= ac -> sorted_range l 0 lc -> sorted_range a 0 ac ->
    StronglySorted Z.lt cache ->
    (0 < lc -> Forall (fun x => x <= idx l 0) cache) ->
    (0 < ac -> Forall (fun x => x <= idx a 0) cache) ->
    let '(lc', ac', l', a', cache') := cache_merge fuel lc ac l a cache in
    0 <= lc' /\ 0 <= ac' /\ sorted_range l' 0 lc' /\ sorted_range a' 0 ac' /\
    StronglySorted Z.lt cache' /\
    (0 < lc' -> Forall (fun x => x <= idx l' 0) cache') /\
    (0 < ac' -> Forall (fun x => x <= idx a' 0) cache').
Proof.
  induction fuel as [|fuel IH]; intros lc ac l a cache Hlc Hac Hl Ha Hs Hbl Hba;
    cbn [cache_merge].
  - repeat split; assumption.
  - destruct (truthy lc && truthy ac) eqn:Hc; [|repeat split; assumption].
    apply andb_true_iff in Hc. destruct Hc as [Hc1 Hc2].
    assert (Hlc1 : 0 < lc).
    { unfold truthy in Hc1. destruct (Z.eqb_spec lc 0); [discriminate | lia]. }
    assert (Hac1 : 0 < ac).
    { unfold truthy in Hc2. destruct (Z.eqb_spec ac 0); [discriminate | lia]. }
    specialize (Hbl Hlc1). specialize (Hba Hac1).
    destruct (Z.ltb_spec (idx l 0) (idx a 0)) as [Hlt|Hge].
    + (* the left entry is the smaller one *)
      apply IH; try lia.
      * apply sorted_range_tail, Hl.
      * exact Ha.
      * apply (cache_push_strict cache (idx l 0) (idx l 0)); [assumption | assumption | lia].
      * intros Hlc2. rewrite idx_tail by lia.
        apply (cache_push_strict cache (idx l 0)); [assumption | assumption |].
        apply Hl; lia.
      * intros _. apply (cache_push_strict cache (idx l 0)); [assumption | assumption | lia].
    + destruct (Z.eqb_spec (idx a 0) (idx l 0)) as [Heq|Hne].
      * (* equal entries: both are consumed *)
        apply IH; try lia.
        -- apply sorted_range_tail, Hl.
        -- apply sorted_range_tail, Ha.
        -- apply (cache_push_strict cache (idx a 0) (idx a 0)); [assumption | assumption | lia].
        -- intros Hlc2. rewrite idx_tail by lia.
           apply (cache_push_strict cache (idx a 0)); [assumption | assumption |].
           rewrite Heq. apply Hl; lia.
        -- intros Hac2. rewrite idx_tail by lia.
           apply (cache_push_strict cache (idx a 0)); [assumption | assumption |].
           apply Ha; lia.
      * apply IH; try lia.
        -- exact Hl.
        -- apply sorted_range_tail, Ha.
        -- apply (cache_push_strict cache (idx a 0) (idx a 0)); [assumption | assumption | lia].
        -- intros _. apply (cache_push_strict cache (idx a 0)); [assumption | assumption | lia].
        -- intros Hac2. rewrite idx_tail by lia.
           apply (cache_push_strict cache (idx a 0)); [assumption | assumption |].
           apply Ha; lia.
Qed.

Lemma cache_rest_strict fuel :
  forall n p cache,
    StronglySorted Z.lt cache -> Forall (fun x => x <= idx p 0) cache ->
    sorted_range p 0 n ->
    StronglySorted Z.lt (cache_rest fuel n p cache).
Proof.
  induction fuel as [|fuel IH]; intros n p cache Hs Hb Hp; cbn [cache_rest].
  - exact Hs.
  - cbv zeta. destruct (Z.gtb_spec (n - 1) 0) as [Hn|Hn].
    + apply IH.
      * apply (cache_push_strict cache (idx p 0) (idx p 0)); [assumption | assumption | lia].
      * rewrite idx_tail by lia.
        apply (cache_push_strict cache (idx p 0)); [assumption | assumption |].
        apply Hp; lia.
      * apply sorted_range_tail, Hp.
    + apply (cache_push_strict cache (idx p 0) (idx p 0)); [assumption | assumption | lia].
Qed.

(** "fill/sort cache": the cache of two sorted palettes has no duplicates. *)
Lemma pal_cache_strict lc ac l a :
  0 <= lc -> 0 <= ac -> sorted_range l 0 lc -> sorted_range a 0 ac ->
  StronglySorted Z.lt (pal_cache lc ac l a).
Proof.
  intros Hlc Hac Hl Ha. unfold pal_cache.
  pose proof (cache_merge_strict (Z.to_nat lc + Z.to_nat ac) lc ac l a [] Hlc Hac Hl Ha
                (SSorted_nil _) (fun _ => Forall_nil_2 _) (fun _ => Forall_nil_2 _)) as H.
  destruct (cache_merge _ lc ac l a []) as [[[[lc' ac'] l'] a'] cache'].
  destruct H as (H1 & H2 & H3 & H4 & H5 & H6 & H7).
  destruct (truthy lc') eqn:E1.
  - apply cache_rest_strict with (n := lc'); [exact H5 | | exact H3].
    apply H6. unfold truthy in E1. destruct (Z.eqb_spec lc' 0); [discriminate | lia].
  - destruct (truthy ac') eqn:E2; [|exact H5].
    apply cache_rest_strict with (n := ac'); [exact H5 | | exact H4].
    apply H7. unfold truthy in E2. destruct (Z.eqb_spec ac' 0); [discriminate | lia].
Qed.


End PaletteCacheStrict.

Section PaletteCacheMembers.

Variable P : Z -> Prop.

Lemma cache_push_members (cache : list Z) (v : Z) :
  Forall P cache -> P v ->
  Forall P (cache_push cache v) /\ (length (cache_push cache v) <= S (length cache))%nat.
Proof.
  intros Hc Hv.
  assert (Happ : Forall P (cache ++ [v]) /\ (length (cache ++ [v]) <= S (length cache))%nat).
  { split; [apply Forall_app; split; [exact Hc | repeat constructor; exact Hv]|].
    rewrite length_app. cbn. lia. }
  unfold cache_push. destruct (last cache) as [u|]; [|exact Happ].
  destruct (u =? v); [split; [exact Hc | lia] | exact Happ].
Qed.

Lemma cache_merge_members fuel :
  forall lc ac l a cache,
    0 <= lc -> 0 <= ac -> Forall P cache ->
    (forall i, 0 <= i < lc -> P (idx l i)) -> (forall i, 0 <= i < ac -> P (idx a i)) ->
    let '(lc', ac', l', a', cache') := cache_merge fuel lc ac l a cache in
    0 <= lc' /\ 0 <= ac' /\ Forall P cache' /\
    (forall i, 0 <= i < lc' -> P (idx l' i)) /\ (forall i, 0 <= i < ac' -> P (idx a' i)) /\
    Z.of_nat (length cache') + lc' + ac' <= Z.of_nat (length cache) + lc + ac.
Proof.
  induction fuel as [|fuel IH]; intros lc ac l a cache Hlc Hac Hc Hl Ha; cbn [cache_merge].
  - repeat split; try assumption; lia.
  - destruct (truthy lc && truthy ac) eqn:Hcond; [|repeat split; try assumption; lia].
    apply andb_true_iff in Hcond. destruct Hcond as [Hc1 Hc2].
    assert (Hlc1 : 0 < lc).
    { unfold truthy in Hc1. destruct (Z.eqb_spec lc 0); [discriminate | lia]. }
    assert (Hac1 : 0 < ac).
    { unfold truthy in Hc2. destruct (Z.eqb_spec ac 0); [discriminate | lia]. }
    assert (Htl : forall i, 0 <= i < lc - 1 -> P (idx (tail l) i)).
    { intros i Hi. rewrite idx_tail by lia. apply Hl. lia. }
    assert (Hta : forall i, 0 <= i < ac - 1 -> P (idx (tail a) i)).
    { intros i Hi. rewrite idx_tail by lia. apply Ha. lia. }
    destruct (cache_push_members cache (idx l 0) Hc (Hl 0 ltac:(lia))) as [Pl Ll].
    destruct (cache_push_members cache (idx a 0) Hc (Ha 0 ltac:(lia))) as [Pa La].
    destruct (Z.ltb_spec (idx l 0) (idx a 0)) as [Hlt|Hge].
    + specialize (IH (lc - 1) ac (tail l) a (cache_push cache (idx l 0))
                     ltac:(lia) Hac Pl Htl Ha).
      destruct (cache_merge fuel (lc - 1) ac (tail l) a _) as [[[[lc' ac'] l'] a'] cache'].
      destruct IH as (I1 & I2 & I3 & I4 & I5 & I6). repeat split; try assumption; lia.
    + destruct (Z.eqb_spec (idx a 0) (idx l 0)) as [Heq|Hne].
      * specialize (IH (lc - 1) (ac - 1) (tail l) (tail a) (cache_push cache (idx a 0))
                       ltac:(lia) ltac:(lia) Pa Htl Hta).
        destruct (cache_merge fuel (lc - 1) (ac - 1) (tail l) (tail a) _)
          as [[[[lc' ac'] l'] a'] cache'].
        destruct IH as (I1 & I2 & I3 & I4 & I5 & I6). repeat split; try assumption; lia.
      * specialize (IH lc (ac - 1) l (tail a) (cache_push cache (idx a 0))
                       Hlc ltac:(lia) Pa Hl Hta).
        destruct (cache_merge fuel lc (ac - 1) l (tail a) _) as [[[[lc' ac'] l'] a'] cache'].
        destruct IH as (I1 & I2 & I3 & I4 & I5 & I6). repeat split; try assumption; lia.
Qed.

Lemma cache_rest_members fuel :
  forall n p cache,
    1 <= n -> Forall P cache -> (forall i, 0 <= i < n -> P (idx p i)) ->
    Forall P (cache_rest fuel n p cache) /\
    Z.of_nat (length (cache_rest fuel n p cache)) <= Z.of_nat (length cache) + n.
Proof.
  induction fuel as [|fuel IH]; intros n p cache Hn Hc Hp; cbn [cache_rest].
  - split; [exact Hc | lia].
  - cbv zeta. destruct (cache_push_members cache (idx p 0) Hc (Hp 0 ltac:(lia))) as [Pp Lp].
    destruct (Z.gtb_spec (n - 1) 0) as [Hm|Hm]; [|split; [exact Pp | lia]].
    destruct (IH (n - 1) (tail p) (cache_push cache (idx p 0)) ltac:(lia) Pp) as [I1 I2].
    { intros i Hi. rewrite idx_tail by lia. apply Hp. lia. }
    split; [exact I1 | lia].
Qed.

Lemma pal_cache_members lc ac l a :
  0 <= lc -> 0 <= ac ->
  (forall i, 0 <= i < lc -> P (idx l i)) -> (forall i, 0 <= i < ac -> P (idx a i)) ->
  Forall P (pal_cache lc ac l a) /\ Z.of_nat (length (pal_cache lc ac l a)) <= lc + ac.
Proof.
  intros Hlc Hac Hl Ha. unfold pal_cache.
  pose proof (cache_merge_members (Z.to_nat lc + Z.to_nat ac) lc ac l a [] Hlc Hac
                (Forall_nil_2 _) Hl Ha) as H.
  destruct (cache_merge _ lc ac l a []) as [[[[lc' ac'] l'] a'] cache'].
  destruct H as (H1 & H2 & H3 & H4 & H5 & H6). cbn [length] in H6.
  destruct (truthy lc') eqn:E1.
  - assert (1 <= lc') by (unfold truthy in E1; destruct (Z.eqb_spec lc' 0); [discriminate | lia]).
    destruct (cache_rest_members (Z.to_nat lc') lc' l' cache' ltac:(lia) H3 H4) as [R1 R2].
    split; [exact R1 | lia].
  - destruct (truthy ac') eqn:E2; [|split; [exact H3 | lia]].
    assert (1 <= ac') by (unfold truthy in E2; destruct (Z.eqb_spec ac' 0); [discriminate | lia]).
    destruct (cache_rest_members (Z.to_nat ac') ac' a' cache' ltac:(lia) H3 H5) as [R1 R2].
    split; [exact R1 | lia].
Qed.

End PaletteCacheMembers.

(** X17.  The palette cache that [read_pal_plane] builds from the left and
    the above palette ([l_cache] and [a_cache] entries, each in
    non-decreasing order) is strictly increasing, so free of duplicates;
    it has at most [l_cache + a_cache] entries, so the 16 of [cache] are
    enough for two palettes of 8; and each entry comes from one of the two
    palettes. *)
Theorem pal_cache_strictly_increasing (l_cache a_cache : Z) (l a : list Z) :
  0 <= l_cache -> 0 <= a_cache ->
  sorted_range l 0 l_cache -> sorted_range a 0 a_cache ->
  let cache := pal_cache l_cache a_cache l a in
  StronglySorted Z.lt cache /\
  Z.of_nat (length cache) <= l_cache + a_cache /\
  Forall (fun v => (exists i, 0 <= i < l_cache /\ v = idx l i) \/
                   (exists i, 0 <= i < a_cache /\ v = idx a i)) cache.
Proof.
  intros Hlc Hac Hl Ha cache. subst cache.
  split; [apply pal_cache_strict; assumption|].
  destruct (pal_cache_members
              (fun v => (exists i, 0 <= i < l_cache /\ v = idx l i) \/
                        (exists i, 0 <= i < a_cache /\ v = idx a i))
              l_cache a_cache l a Hlc Hac) as [H1 H2].
  - intros i Hi. left. exists i. split; [exact Hi | reflexivity].
  - intros i Hi. right. exists i. split; [exact Hi | reflexivity].
  - split; [exact H2 | exact H1].
Qed.

Lemma pal_cache_strictly_increasing_witness :
  StronglySorted Z.lt (pal_cache 3 2 [1; 5; 5] [5; 9]).
Proof.
  refine (proj1 (pal_cache_strictly_increasing 3 2 [1; 5; 5] [5; 9] _ _ _ _)); try lia.
  - intros i j Hi Hij Hj.
    assert (Hc : (i = 0 \/ i = 1 \/ i = 2) /\ (j = 0 \/ j = 1 \/ j = 2)) by lia.
    destruct Hc as [[->|[->| ->]] [->|[->| ->]]]; vm_compute; try discriminate; lia.
  - intros i j Hi Hij Hj.
    assert (Hc : (i = 0 \/ i = 1) /\ (j = 0 \/ j = 1)) by lia.
    destruct Hc as [[->| ->] [->| ->]]; vm_compute; try discriminate; lia.
Defined.

(** ** The colour order of [order_palette] *)

Section OrderFill.

Lemma NoDup_seqZ' (m n : Z) : NoDup (seqZ m n).
Proof. apply NoDup_seqZ. Qed.

(** The colours that [add] put first, then the others: all eight, once. *)
Lemma order_fill_perm (first : list Z) :
  NoDup first -> Forall (fun v => 0 <= v < 8) first ->
  order_fill first ≡ₚ seqZ 0 8.
Proof.
  intros Hnd Hr. unfold order_fill.
  etransitivity; [|apply (filter_app_complement (fun bit => bit ∈ first) (seqZ 0 8))].
  apply Permutation_app; [|reflexivity].
  apply NoDup_Permutation; [exact Hnd | apply NoDup_filter, NoDup_seqZ|].
  intros x. rewrite list_elem_of_filter, elem_of_seqZ. split.
  - intros Hx. split; [exact Hx|]. rewrite Forall_forall in Hr. specialize (Hr x Hx). lia.
  - intros [Hx _]. exact Hx.
Qed.

(** When the colours put first are below [n], the first [n] entries of the
    order are the colours below [n]. *)
Lemma order_fill_low (first : list Z) (n : Z) :
  NoDup first -> Forall (fun v => 0 <= v < n) first -> 0 <= n <= 8 ->
  forall k, 0 <= k < n -> 0 <= idx (order_fill first) k < n.
Proof.
  intros Hnd Hr Hn k Hk. unfold order_fill.
  replace (seqZ 0 8) with (seqZ 0 n ++ seqZ n (8 - n)).
  2: { rewrite <- seqZ_app by lia. f_equal. lia. }
  rewrite filter_app, app_assoc.
  set (low := first ++ filter (fun bit => bit ∉ first) (seqZ 0 n)).
  assert (Hlow : Forall (fun v => 0 <= v < n) low).
  { apply Forall_app. split; [exact Hr|]. apply Forall_forall. intros x Hx.
    apply list_elem_of_filter in Hx. destruct Hx as [_ Hx]. apply elem_of_seqZ in Hx. lia. }
  assert (Hlen : length low = Z.to_nat n).
  { assert (Hp : low ≡ₚ seqZ 0 n).
    { unfold low.
      etransitivity; [|apply (filter_app_complement (fun bit => bit ∈ first) (seqZ 0 n))].
      apply Permutation_app; [|reflexivity].
      apply NoDup_Permutation; [exact Hnd | apply NoDup_filter, NoDup_seqZ|].
      intros x. rewrite list_elem_of_filter, elem_of_seqZ. split.
      - intros Hx. split; [exact Hx|]. rewrite Forall_forall in Hr. specialize (Hr x Hx). lia.
      - intros [Hx _]. exact Hx. }
    rewrite Hp. apply length_seqZ. }
  rewrite idx_lookup. rewrite lookup_app_l by lia.
  destruct (low !! Z.to_nat k) as [v|] eqn:E.
  - rewrite Forall_forall in Hlow. apply Hlow. apply list_elem_of_lookup. eexists. exact E.
  - apply lookup_ge_None in E. lia.
Qed.

End OrderFill.

Section OrderPalette.

Context {Msac Ext : Type}.

Local Abbreviation State := (Tile Msac Ext).

(** What holds of one entry [(order[n], ctx[n])], for a palette of [n]
    colours. *)
Definition order_ok (n : Z) (e : list Z * Z) : Prop :=
  fst e ≡ₚ seqZ 0 8 /\ 0 <= snd e <= 4 /\
  forall k, 0 <= k < n -> 0 <= idx (fst e) k < n.

Lemma order_fill_ok (first : list Z) (n c : Z) :
  NoDup first -> Forall (fun v => 0 <= v < n) first -> 0 <= n <= 8 -> 0 <= c <= 4 ->
  order_ok n (order_fill first, c).
Proof.
  intros Hnd Hr Hn Hc. split; [|split; [exact Hc|]].
  - apply order_fill_perm; [exact Hnd|].
    eapply Forall_impl; [exact Hr | intros v Hv; cbv beta in *; lia].
  - apply order_fill_low; assumption.
Qed.

Lemma order_entry_ok (p : PalIdxPtr) (stride i j : Z) (have_top : bool) (t : State) (n : Z) :
  0 <= n <= 8 -> (forall q, 0 <= pal_idx_get p q t < n) ->
  order_ok n (order_entry p stride i j have_top t).
Proof.
  intros Hn Hidx. unfold order_entry. cbv zeta.
  set (pos := j + (i - j) * stride).
  pose proof (Hidx (pos - 1)) as Hl. pose proof (Hidx (pos - stride)) as Ht.
  pose proof (Hidx (pos - (stride + 1))) as Htl.
  set (l := pal_idx_get p (pos - 1) t) in *.
  set (tp := pal_idx_get p (pos - stride) t) in *.
  set (tl := pal_idx_get p (pos - (stride + 1)) t) in *.
  destruct (negb (j >? 0)).
  { apply order_fill_ok; [apply NoDup_singleton | repeat constructor; lia | lia | lia]. }
  destruct (negb have_top).
  { apply order_fill_ok; [apply NoDup_singleton | repeat constructor; lia | lia | lia]. }
  destruct (Z.eqb_spec tp l) as [E1|E1]; destruct (Z.eqb_spec tp tl) as [E2|E2];
    destruct (Z.eqb_spec l tl) as [E3|E3]; cbn [andb orb];
    try (exfalso; lia);
    (apply order_fill_ok; [ | | lia | lia ]);
    unfold imin, imax;
    repeat match goal with |- context [if ?c then _ else _] => destruct c eqn:? end;
    try (repeat constructor; lia);
    repeat (apply NoDup_cons_2;
            [ let H := fresh in
              intros H;
              repeat (apply elem_of_cons in H; destruct H as [H|H]; [lia|]);
              apply elem_of_nil in H; exact H
            | ]);
    apply NoDup_nil_2.
Qed.

Lemma order_palette_from_ok fuel (p : PalIdxPtr) (stride i last n : Z) (t : State) :
  0 <= n <= 8 -> (forall q, 0 <= pal_idx_get p q t < n) ->
  forall j have_top,
    Forall (order_ok n) (order_palette_from fuel p stride i j last have_top t).
Proof.
  intros Hn Hidx. induction fuel as [|fuel IH]; intros j have_top; cbn [order_palette_from].
  - constructor.
  - destruct (j >=? last); [|constructor].
    constructor; [apply order_entry_ok; assumption | apply IH].
Qed.

End OrderPalette.

(** X18.  For a palette of [n <= 8] colours whose indices in the buffer are
    all below [n], every row [order[m]] that [order_palette] produces is a
    permutation of the eight colours 0..7, its context [ctx[m]] is between
    0 and 4, and its first [n] entries are colours below [n]: the index
    that [read_pal_indices] stores for a symbol below [n] is again below
    [n]. *)
Theorem order_palette_permutes {Msac Ext : Type} (p : PalIdxPtr) (stride i first last n : Z)
    (t : Tile Msac Ext) :
  0 <= n <= 8 -> (forall q, 0 <= pal_idx_get p q t < n) ->
  Forall (fun e : list Z * Z =>
            fst e ≡ₚ seqZ 0 8 /\ 0 <= snd e <= 4 /\
            forall k, 0 <= k < n -> 0 <= idx (fst e) k < n)
         (order_palette p stride i first last t).
Proof.
  intros Hn Hidx. unfold order_palette. apply order_palette_from_ok; assumption.
Qed.

Lemma order_palette_permutes_witness :
  Forall (fun e : list Z * Z =>
            fst e ≡ₚ seqZ 0 8 /\ 0 <= snd e <= 4 /\
            forall k, 0 <= k < 3 -> 0 <= idx (fst e) k < 3)
         (order_palette (Scratch 0) 8 2 2 0
            (set_t_scratch_pal_idx (fun q => q mod 3) (Example.tile []))).
Proof.
  apply (order_palette_permutes (Scratch 0) 8 2 2 0 3); [lia|].
  intros q. cbn. apply Z.mod_pos_bound. lia.
Defined.

(** ** C1: what [decode_b] leaves in the above and left contexts *)

Section CtxWrites.

Context {Msac Ext : Type}.
Variable X : Externals Msac Ext.
Variable f : Frame.

Local Abbreviation State := (Tile Msac Ext).

(** The entries [off .. off + n) of the member [fld] of a context that lie
    inside the array hold [v]. *)
Definition wrote (c : BlockContext) (fld : CtxField) (off n v : Z) : Prop :=
  forall i, 0 <= i < n -> off + i < Z.of_nat (length (c fld)) -> idx (c fld) (off + i) = v.

Lemma wrote_memset (c : BlockContext) fld off v n :
  0 <= off -> wrote (ctx_memset c fld off v n) fld off n (ctx_wrap fld v).
Proof.
  intros Hoff i Hi Hlen. rewrite ctx_memset_same in *. rewrite length_memset in Hlen.
  apply idx_memset_in; lia.
Qed.

(** The member [fld] of the above context, or of the left one, is as it
    was. *)
Definition keeps_a (fld : CtxField) (t t' : State) : Prop := t_a t' fld = t_a t fld.
Definition keeps_l (fld : CtxField) (t t' : State) : Prop := t_l t' fld = t_l t fld.

#[global] Instance keeps_a_preorder fld : PreOrder (keeps_a fld).
Proof.
  split; [intros t; reflexivity | intros t1 t2 t3 H1 H2; unfold keeps_a in *; congruence].
Qed.

#[global] Instance keeps_l_preorder fld : PreOrder (keeps_l fld).
Proof.
  split; [intros t; reflexivity | intros t1 t2 t3 H1 H2; unfold keeps_l in *; congruence].
Qed.

Lemma wrote_a_memset fld off v n (s : State) :
  0 <= off -> wrote (t_a (exec (memset_a fld off v n) s)) fld off n (ctx_wrap fld v).
Proof. intros Hoff. apply (wrote_memset (t_a s)), Hoff. Qed.

Lemma wrote_l_memset fld off v n (s : State) :
  0 <= off -> wrote (t_l (exec (memset_l fld off v n) s)) fld off n (ctx_wrap fld v).
Proof. intros Hoff. apply (wrote_memset (t_l s)), Hoff. Qed.

Lemma wrote_a_keep {A} (m : M A) fld off n v (s : State) :
  preserves (keeps_a fld) m -> wrote (t_a s) fld off n v -> wrote (t_a (exec m s)) fld off n v.
Proof. intros Hm H. unfold wrote. rewrite (Hm s). exact H. Qed.

Lemma wrote_l_keep {A} (m : M A) fld off n v (s : State) :
  preserves (keeps_l fld) m -> wrote (t_l s) fld off n v -> wrote (t_l (exec m s)) fld off n v.
Proof. intros Hm H. unfold wrote. rewrite (Hm s). exact H. Qed.

End CtxWrites.

(** A state update keeps a member when it writes another one, or none. *)
Ltac side_keeps :=
  unfold keeps_a, keeps_l;
  first [ reflexivity
        | repeat case_match; first [reflexivity | apply ctx_memset_other; discriminate] ].
Ltac pres_keeps :=
  unfold memset_a, memset_l, setb, getb, hook;
  preserves_with side_keeps ltac:(leaf_with side_keeps).

(** The last write of a member, found from the end of a run. *)
Ltac last_write :=
  repeat lazymatch goal with
  | |- wrote (t_a (exec (memset_a ?F _ _ _) _)) ?F _ _ _ => apply wrote_a_memset; assumption
  | |- wrote (t_l (exec (memset_l ?F _ _ _) _)) ?F _ _ _ => apply wrote_l_memset; assumption
  | |- wrote (t_a (exec _ _)) _ _ _ _ => apply wrote_a_keep; [solve [pres_keeps] |]
  | |- wrote (t_l (exec _ _)) _ _ _ _ => apply wrote_l_keep; [solve [pres_keeps] |]
  end.

Section BranchWrites.

Context {Msac Ext : Type}.
Variable X : Externals Msac Ext.
Variable f : Frame.

Local Abbreviation State := (Tile Msac Ext).

Lemma when_true (m : M unit) : @when Msac Ext true m = m.
Proof. reflexivity. Qed.

Lemma update_ctx_inter_blk g bs is_comp filter (s : State) :
  t_blk (exec (update_ctx_inter X f g bs is_comp filter) s) = t_blk s.
Proof.
  assert (H : preserves (fun a b : State => t_blk b = t_blk a)
                (update_ctx_inter X f g bs is_comp filter)).
  { assert (PreOrder (fun a b : State => t_blk b = t_blk a)).
    { split; [intros ?; reflexivity | intros ? ? ? ? ?; congruence]. }
    unfold update_ctx_inter, memset_a, memset_l, getb.
    preserves_with ltac:(repeat case_match; reflexivity)
                   ltac:(leaf_with ltac:(repeat case_match; reflexivity)). }
  apply H.
Qed.

(** "context updates" of the inter branch. *)
Lemma update_ctx_inter_writes g bs is_comp filter (s : State) :
  0 <= bx4 g -> 0 <= by4 g -> 0 <= cbx4 g -> 0 <= cby4 g ->
  let t' := exec (update_ctx_inter X f g bs is_comp filter) s in
  let b := t_blk s in
  (wrote (t_a t') Mode (bx4 g) (bw4 g) (u8 (b_inter_mode b)) /\
   wrote (t_l t') Mode (by4 g) (bh4 g) (u8 (b_inter_mode b))) /\
  (wrote (t_a t') CompType (bx4 g) (bw4 g) (u8 (b_comp_type b)) /\
   wrote (t_l t') CompType (by4 g) (bh4 g) (u8 (b_comp_type b))) /\
  (wrote (t_a t') Ref0 (bx4 g) (bw4 g) (i8 (b_ref0 b)) /\
   wrote (t_l t') Ref0 (by4 g) (bh4 g) (i8 (b_ref0 b))) /\
  (wrote (t_a t') Ref1 (bx4 g) (bw4 g) (i8 (b_ref1 b)) /\
   wrote (t_l t') Ref1 (by4 g) (bh4 g) (i8 (b_ref1 b))) /\
  (wrote (t_a t') Filter0 (bx4 g) (bw4 g) (u8 (fst filter)) /\
   wrote (t_l t') Filter0 (by4 g) (bh4 g) (u8 (fst filter))) /\
  (wrote (t_a t') Filter1 (bx4 g) (bw4 g) (u8 (snd filter)) /\
   wrote (t_l t') Filter1 (by4 g) (bh4 g) (u8 (snd filter))) /\
  (wrote (t_a t') PalSz (bx4 g) (bw4 g) 0 /\
   wrote (t_l t') PalSz (by4 g) (bh4 g) 0) /\
  (wrote (t_a t') TxIntra (bx4 g) (bw4 g) (i8 (b_dim X bs 2)) /\
   wrote (t_l t') TxIntra (by4 g) (bh4 g) (i8 (b_dim X bs 3))) /\
  (truthy (has_chroma g) = true ->
   wrote (t_a t') Uvmode (cbx4 g) (cbw4 g) (u8 DC_PRED) /\
   wrote (t_l t') Uvmode (cby4 g) (cbh4 g) (u8 DC_PRED)).
Proof.
  intros Hx Hy Hcx Hcy t' b. subst t'. unfold update_ctx_inter.
  rewrite exec_bind. unfold getb. rewrite exec_gets, eval_gets. cbv beta. unfold id. fold b.
  repeat (split; [split; run_binds; last_write |]).
  intros Hc. rewrite Hc, when_true. split; run_binds; last_write.
Qed.

Lemma update_ctx_intra_blk g bs (s : State) :
  t_blk (exec (update_ctx_intra X f g bs) s) = t_blk s.
Proof.
  assert (H : preserves (fun a b : State => t_blk b = t_blk a) (update_ctx_intra X f g bs)).
  { assert (PreOrder (fun a b : State => t_blk b = t_blk a)).
    { split; [intros ?; reflexivity | intros ? ? ? ? ?; congruence]. }
    unfold update_ctx_intra, splat_al_pal, memset_a, memset_l, getb.
    preserves_with ltac:(repeat case_match; reflexivity)
                   ltac:(leaf_with ltac:(repeat case_match; reflexivity)). }
  apply H.
Qed.

(** "update contexts" of the intra branch; [t_dim] is the transform of the
    block as the branch leaves it. *)
Lemma update_ctx_intra_writes g bs (s : State) :
  0 <= bx4 g -> 0 <= by4 g -> 0 <= cbx4 g -> 0 <= cby4 g ->
  let t' := exec (update_ctx_intra X f g bs) s in
  let b := t_blk s in
  let t_dim := intra_t_dim X f b in
  (wrote (t_a t') Mode (bx4 g) (bw4 g) (u8 (y_mode_nofilt b)) /\
   wrote (t_l t') Mode (by4 g) (bh4 g) (u8 (y_mode_nofilt b))) /\
  (wrote (t_a t') PalSz (bx4 g) (bw4 g) (u8 (b_pal_sz0 b)) /\
   wrote (t_l t') PalSz (by4 g) (bh4 g) (u8 (b_pal_sz0 b))) /\
  (wrote (t_a t') TxIntra (bx4 g) (bw4 g) (i8 (tx_lw t_dim)) /\
   wrote (t_l t') TxIntra (by4 g) (bh4 g) (i8 (tx_lh t_dim))) /\
  (truthy (has_chroma g) = true ->
   wrote (t_a t') Uvmode (cbx4 g) (cbw4 g) (u8 (b_uv_mode b)) /\
   wrote (t_l t') Uvmode (cby4 g) (cbh4 g) (u8 (b_uv_mode b))) /\
  (truthy (Z.land (hdr_frame_type f) 1) = true ->
   (wrote (t_a t') Tx (bx4 g) (bw4 g) (i8 (tx_lw t_dim)) /\
    wrote (t_l t') Tx (by4 g) (bh4 g) (i8 (tx_lh t_dim))) /\
   (wrote (t_a t') CompType (bx4 g) (bw4 g) (u8 COMP_INTER_NONE) /\
    wrote (t_l t') CompType (by4 g) (bh4 g) (u8 COMP_INTER_NONE)) /\
   (wrote (t_a t') Ref0 (bx4 g) (bw4 g) (i8 (-1)) /\
    wrote (t_l t') Ref0 (by4 g) (bh4 g) (i8 (-1))) /\
   (wrote (t_a t') Ref1 (bx4 g) (bw4 g) (i8 (-1)) /\
    wrote (t_l t') Ref1 (by4 g) (bh4 g) (i8 (-1))) /\
   (wrote (t_a t') Filter0 (bx4 g) (bw4 g) (u8 N_SWITCHABLE_FILTERS) /\
    wrote (t_l t') Filter0 (by4 g) (bh4 g) (u8 N_SWITCHABLE_FILTERS)) /\
   (wrote (t_a t') Filter1 (bx4 g) (bw4 g) (u8 N_SWITCHABLE_FILTERS) /\
    wrote (t_l t') Filter1 (by4 g) (bh4 g) (u8 N_SWITCHABLE_FILTERS))).
Proof.
  intros Hx Hy Hcx Hcy t' b t_dim. subst t'. unfold update_ctx_intra.
  rewrite exec_bind. unfold getb. rewrite exec_gets, eval_gets. cbv beta zeta. unfold id.
  fold b. fold t_dim. unfold splat_al_pal.
  do 3 (split; [split; run_binds; last_write |]).
  split.
  - intros Hc. rewrite Hc. cbv iota. split; run_binds; last_write.
  - intros Hf. rewrite Hf. cbn [orb]. rewrite !when_true.
    repeat split; run_binds; last_write.
Qed.

(** The tail of the intra-block-copy branch. *)
Lemma decode_b_intrabc_writes g bs bp (s : State) :
  0 <= bx4 g -> 0 <= by4 g -> 0 <= cbx4 g -> 0 <= cby4 g ->
  let t' := exec (decode_b_intrabc X f g bs bp) s in
  (wrote (t_a t') Mode (bx4 g) (bw4 g) (u8 DC_PRED) /\
   wrote (t_l t') Mode (by4 g) (bh4 g) (u8 DC_PRED)) /\
  (wrote (t_a t') PalSz (bx4 g) (bw4 g) 0 /\
   wrote (t_l t') PalSz (by4 g) (bh4 g) 0) /\
  (wrote (t_a t') TxIntra (bx4 g) (bw4 g) (i8 (b_dim X bs 2)) /\
   wrote (t_l t') TxIntra (by4 g) (bh4 g) (i8 (b_dim X bs 3))) /\
  (truthy (has_chroma g) = true ->
   wrote (t_a t') Uvmode (cbx4 g) (cbw4 g) (u8 DC_PRED) /\
   wrote (t_l t') Uvmode (cby4 g) (cbh4 g) (u8 DC_PRED)).
Proof.
  intros Hx Hy Hcx Hcy t'. subst t'. unfold decode_b_intrabc.
  do 3 (split; [split; run_binds; last_write |]).
  intros Hc. rewrite Hc, when_true. split; run_binds; last_write.
Qed.

Lemma decode_b_intra_tail g bs flags (s1 : State) :
  exists s2, exec (decode_b_intra X f g bs flags) s1 = exec (update_ctx_intra X f g bs) s2.
Proof. unfold decode_b_intra. run_binds. eexists. reflexivity. Qed.

(** The two filter directions that the inter branch hands to its context
    update are those of [b->filter2d]. *)
Definition flt_inv (t t' : State) : Prop :=
  b_filter2d (t_blk t') = b_filter2d (t_blk t).

#[local] Instance flt_inv_preorder : PreOrder flt_inv.
Proof.
  split; [intros t; reflexivity | intros t1 t2 t3 H1 H2; unfold flt_inv in *; congruence].
Qed.

Ltac side_flt := repeat (first [progress simpl | case_match]); reflexivity.
Ltac pres_flt := preserves_with side_flt ltac:(leaf_with side_flt).

Lemma read_tx_tree_flt rem from x y : preserves flt_inv (read_tx_tree X f rem from x y).
Proof.
  revert from x y. induction rem as [|rem IH]; intros from x y; simpl; pres_flt.
Qed.
Hint Resolve read_tx_tree_flt : pres.

Lemma read_vartx_tree_flt bs bx4 by4 : preserves flt_inv (read_vartx_tree X f bs bx4 by4).
Proof. unfold read_vartx_tree. pres_flt. Qed.

Lemma reconstruct_inter_flt bs : preserves flt_inv (reconstruct_inter X f bs).
Proof. unfold reconstruct_inter. pres_flt. Qed.

Lemma decode_b_inter_tail g bs bp flags (s1 : State) :
  exists s2 is_comp filter,
    exec (decode_b_inter X f g bs bp flags) s1
      = exec (update_ctx_inter X f g bs is_comp filter) s2 /\
    b_filter2d (t_blk s2) = u8 (av1_filter_2d X (snd filter) (fst filter)).
Proof.
  unfold decode_b_inter. run_binds.
  eexists _, _, _. split; [reflexivity|].
  unfold getb. rewrite !exec_gets.
  match goal with
  | |- b_filter2d (t_blk (exec (modify ?u) ?s)) = _ =>
      change (b_filter2d (t_blk (exec (modify u) s))) with (b_filter2d (t_blk s))
  end.
  rewrite (reconstruct_inter_flt bs _), (read_vartx_tree_flt bs (bx4 g) (by4 g) _).
  rewrite setb_blk. unfold set_b_filter2d. cbn [b_filter2d]. reflexivity.
Qed.

End BranchWrites.

Section FieldsThm.

Context {Msac Ext : Type}.
Variable X : Externals Msac Ext.
Variable f : Frame.

Local Abbreviation State := (Tile Msac Ext).

Lemma wrote_idx (c : BlockContext) fld off n v :
  wrote c fld off n v -> length (c fld) = 32%nat -> off + n <= 32 ->
  forall i, 0 <= i < n -> idx (c fld) (off + i) = v.
Proof. intros H Hlen Hn i Hi. apply H; [exact Hi | rewrite Hlen; lia]. Qed.

Lemma wrote_idx_inside (c : BlockContext) fld off n v :
  wrote c fld off n v -> length (c fld) = 32%nat ->
  forall i, 0 <= i < n -> off + i < 32 -> idx (c fld) (off + i) = v.
Proof. intros H Hlen i Hi Hin. apply H; [exact Hi | rewrite Hlen; lia]. Qed.

(** The branch that [decode_b_parse] takes is chosen by [b->intra]. *)
Lemma decode_b_parse_branch g bl bs bp flags (t0 : State) :
  exists s1,
    exec (decode_b_parse X f g bl bs bp flags) t0 =
    exec (if truthy (b_intra (t_blk s1)) then decode_b_intra X f g bs flags
          else if negb (truthy (Z.land (hdr_frame_type f) 1))
               then decode_b_intrabc X f g bs bp
               else decode_b_inter X f g bs bp flags) s1.
Proof.
  unfold decode_b_parse. run_binds. unfold getb at 1 2. rewrite exec_gets, eval_gets.
  rewrite exec_ret. eexists. reflexivity.
Qed.

Lemma update_ctx_final_len g sp : preserves (@len_inv Msac Ext) (update_ctx_final f g sp).
Proof. unfold update_ctx_final. pres_len. Qed.

(** "update contexts" at the end of [decode_b]. *)
Lemma update_ctx_final_writes g sp (s : State) :
  0 <= bx4 g -> 0 <= by4 g ->
  let t' := exec (update_ctx_final f g sp) s in
  let b := t_blk s in
  (wrote (t_a t') SegPred (bx4 g) (bw4 g) (u8 sp) /\
   wrote (t_l t') SegPred (by4 g) (bh4 g) (u8 sp)) /\
  (wrote (t_a t') SkipMode (bx4 g) (bw4 g) (u8 (b_skip_mode b)) /\
   wrote (t_l t') SkipMode (by4 g) (bh4 g) (u8 (b_skip_mode b))) /\
  (wrote (t_a t') Intra (bx4 g) (bw4 g) (u8 (b_intra b)) /\
   wrote (t_l t') Intra (by4 g) (bh4 g) (u8 (b_intra b))) /\
  (wrote (t_a t') Skip (bx4 g) (bw4 g) (u8 (b_skip b)) /\
   wrote (t_l t') Skip (by4 g) (bh4 g) (u8 (b_skip b))).
Proof.
  intros Hx Hy t' b. subst t'. unfold update_ctx_final.
  rewrite exec_bind. unfold getb. rewrite exec_gets, eval_gets. cbv beta. unfold id. fold b.
  repeat split; run_binds; last_write.
Qed.

(** The members that the end of [decode_b] does not write. *)
Lemma update_ctx_final_keeps g sp fld (s : State) :
  ~ In fld [SegPred; SkipMode; Intra; Skip] ->
  t_a (exec (update_ctx_final f g sp) s) fld = t_a s fld /\
  t_l (exec (update_ctx_final f g sp) s) fld = t_l s fld.
Proof.
  intros Hf.
  destruct (update_ctx_final_ctx f g sp s) as (Ea & El & _). cbv zeta in Ea, El.
  rewrite Ea, El.
  assert (fld <> SegPred /\ fld <> SkipMode /\ fld <> Intra /\ fld <> Skip) as (N1 & N2 & N3 & N4).
  { repeat split; intros ->; apply Hf; cbn; tauto. }
  rewrite !ctx_memset_other by assumption. split; reflexivity.
Qed.

End FieldsThm.



